(** * Blind WebSocket relay: rate meters, room store, join tokens, engine

    A shallow embedding of the relay core of the chat server
    (src/security/rateLimit.ts, src/rooms/roomStore.ts,
    src/security/joinTokens.ts, src/utils/base64url.ts, src/ws/types.ts,
    src/ws/handlers.ts) together with the properties of its specification.

    Conventions.  JavaScript numbers that hold millisecond clocks, counters
    and sizes are integers in the program and are modelled by [Z].  Every
    reading of [Date.now()] is an explicit argument [now].  Random
    identifiers ([randomIdB64Url]) are explicit arguments as well. *)

From Stdlib Require Import ZArith Lia Bool List Ascii String DecimalString.
From Stdlib Require DecimalFacts DecimalPos DecimalZ.
From Stdlib.Strings Require Import Byte.
From stdpp Require Import gmap strings list fin_maps.

Local Open Scope Z_scope.

(** ** Token bucket (src/security/rateLimit.ts, class TokenBucket) *)

Module TokenBucket.

Record Bucket := mkBucket { tokens : Z; lastRefillMs : Z }.

Record t := mk {
  capacity : Z;
  refillTokens : Z;
  refillEveryMs : Z;
  state : Bucket
}.

(** [constructor]: the bucket starts full, its marker at the current time. *)
Definition new (cap refill every now : Z) : t :=
  mk cap refill every (mkBucket cap now).

Definition with_state (b : t) (s : Bucket) : t :=
  mk (capacity b) (refillTokens b) (refillEveryMs b) s.

(** [refill()].  [Math.floor(elapsed / refillEveryMs)] is [Z.div] (the
    interval is positive wherever a bucket is built). *)
Definition refill (now : Z) (b : t) : t :=
  let elapsed := now - lastRefillMs (state b) in
  if elapsed <=? 0 then b else
  let periods := elapsed / refillEveryMs b in
  if periods <=? 0 then b else
  let add := periods * refillTokens b in
  with_state b
    (mkBucket (Z.min (capacity b) (tokens (state b) + add))
              (lastRefillMs (state b) + periods * refillEveryMs b)).

(** [take(tokens)]: the returned boolean and the bucket afterwards. *)
Definition take (now n : Z) (b : t) : bool * t :=
  let b1 := refill now b in
  if n <=? 0 then (true, b1) else
  if tokens (state b1) <? n then (false, b1) else
  (true, with_state b1 (mkBucket (tokens (state b1) - n) (lastRefillMs (state b1)))).

(** Number of whole refill periods that [refill] credits at [now]. *)
Definition periods_at (now : Z) (b : t) : Z :=
  Z.max 0 ((now - lastRefillMs (state b)) / refillEveryMs b).

End TokenBucket.

(** ** Connection meters (src/security/rateLimit.ts) *)

Module IpConnectionLimiter.

Record t := mk { maxPerIp : Z; counts : gmap string Z }.

Definition new (m : Z) : t := mk m ∅.

Definition getCount (ip : string) (l : t) : Z := default 0 (counts l !! ip).

Definition tryInc (ip : string) (l : t) : bool * t :=
  let cur := getCount ip l in
  if maxPerIp l <=? cur then (false, l)
  else (true, mk (maxPerIp l) (<[ip := cur + 1]> (counts l))).

Definition dec (ip : string) (l : t) : t :=
  let cur := getCount ip l in
  if cur <=? 1 then mk (maxPerIp l) (delete ip (counts l))
  else mk (maxPerIp l) (<[ip := cur - 1]> (counts l)).

End IpConnectionLimiter.

Module GlobalConnectionLimiter.

Record t := mk { max : Z; count : Z }.

Definition new (m : Z) : t := mk m 0.

Definition tryInc (l : t) : bool * t :=
  if max l <=? count l then (false, l) else (true, mk (max l) (count l + 1)).

Definition dec (l : t) : t :=
  if 0 <? count l then mk (max l) (count l - 1) else l.

Definition current (l : t) : Z := count l.

End GlobalConnectionLimiter.

(** ** The external key-value store, as the room store uses it

    The Redis keyspace is split by key family, so that
    [room:<id>:meta], [room:<id>:members], [room:<id>:count],
    [room:<id>:jtis] and [room:<id>:jti:<jti>] are distinct keys (ids are
    base64url text and hold no colon).  Every key carries an optional
    absolute expiry; a key whose expiry has passed does not exist. *)

Module Redis.

Record Entry (A : Type) := mkEntry { value : A; expireAt : option Z }.
Arguments mkEntry {A} _ _.
Arguments value {A} _.
Arguments expireAt {A} _.

Definition live {A} (now : Z) (e : Entry A) : bool :=
  match expireAt e with
  | None => true
  | Some t => now <? t
  end.

Section Keyspace.
Context {K : Type} `{Countable K} {A : Type}.
Implicit Types (m : gmap K (Entry A)) (k : K).

(** Expired keys are dropped before a command runs. *)
Definition purge (now : Z) m : gmap K (Entry A) :=
  filter (λ kv, Is_true (live now kv.2)) m.

Definition get k m : option A := value <$> (m !! k).

Definition exists_ k m : bool := bool_decide (is_Some (m !! k)).

(** [SET k v]: any previous time to live is discarded. *)
Definition set k (v : A) m : gmap K (Entry A) := <[k := mkEntry v None]> m.

(** A write that keeps the key's time to live (SADD, SREM, HSET). *)
Definition write k (v : A) m : gmap K (Entry A) :=
  <[k := mkEntry v (m !! k ≫= expireAt)]> m.

Definition del k m : gmap K (Entry A) := delete k m.

(** [PEXPIRE k ttl] at time [now]. *)
Definition pexpire (now ttl : Z) k m : gmap K (Entry A) :=
  match m !! k with
  | Some e =>
      if ttl <=? 0 then delete k m
      else <[k := mkEntry (value e) (Some (now + ttl))]> m
  | None => m
  end.

(** [SET k v PX ttl NX] at time [now]: [true] stands for the reply OK. *)
Definition set_px_nx (now ttl : Z) k (v : A) m : bool * gmap K (Entry A) :=
  match m !! k with
  | Some _ => (false, m)
  | None => (true, <[k := mkEntry v (Some (now + ttl))]> m)
  end.
End Keyspace.

Section Sets.
Context {K : Type} `{Countable K}.
Implicit Types (m : gmap K (Entry (gset string))) (k : K).

Definition smembers k m : gset string := default ∅ (get k m).

Definition sismember k (x : string) m : bool := bool_decide (x ∈ smembers k m).

Definition sadd k (x : string) m : gmap K (Entry (gset string)) :=
  write k ({[x]} ∪ smembers k m) m.

(** [SREM]: the number of removed elements and the keyspace; a set
    that becomes empty is removed. *)
Definition srem k (x : string) m : Z * gmap K (Entry (gset string)) :=
  if sismember k x m then
    let s := smembers k m ∖ {[x]} in
    (1, if decide (s = ∅) then del k m else write k s m)
  else (0, m).
End Sets.

(** The five key families of a room.  The count key holds the decimal
    text of an integer ([tostring]/[tonumber] in the scripts); it is kept
    as the integer.  The meta hash has the single field [createdAt]. *)
Record db := mkDb {
  meta : gmap string (Entry Z);
  members : gmap string (Entry (gset string));
  count : gmap string (Entry Z);
  jtis : gmap string (Entry (gset string));
  jti : gmap (string * string) (Entry string)
}.

Definition empty : db := mkDb ∅ ∅ ∅ ∅ ∅.

Definition expire (now : Z) (d : db) : db :=
  mkDb (purge now (meta d)) (purge now (members d)) (purge now (count d))
       (purge now (jtis d)) (purge now (jti d)).

End Redis.

(** ** Room store (src/rooms/roomStore.ts) *)

Module RoomStore.
Import Redis.

Record t := mk { ttlMs : Z; maxParticipants : Z }.

Inductive JoinResult :=
| JoinOk (count : Z) (label : string)
| JoinErr (code : string).

(** Decimal text of a number, for ["P" .. cur]. *)
Definition tostring (n : Z) : string :=
  NilZero.string_of_int (Z.to_int n).

(** [createRoom]: one MULTI transaction. *)
Definition createRoom (rs : t) (now : Z) (roomId creatorConnId : string) (d : db) : db :=
  let d := expire now d in
  let meta1 := write roomId now (meta d) in
  let mem1 := sadd roomId creatorConnId (members d) in
  let cnt1 := set roomId 1 (count d) in
  let jtis1 := del roomId (jtis d) in
  mkDb (pexpire now (ttlMs rs) roomId meta1)
       (pexpire now (ttlMs rs) roomId mem1)
       (pexpire now (ttlMs rs) roomId cnt1)
       (pexpire now (ttlMs rs) roomId jtis1)
       (jti d).

Definition createRoomEmpty (rs : t) (now : Z) (roomId : string) (d : db) : db :=
  let d := expire now d in
  let meta1 := write roomId now (meta d) in
  let cnt1 := set roomId 0 (count d) in
  mkDb (pexpire now (ttlMs rs) roomId meta1) (members d)
       (pexpire now (ttlMs rs) roomId cnt1) (jtis d) (jti d).

(** The three PEXPIRE calls shared by both branches of the join script. *)
Definition refresh3 (rs : t) (now : Z) (roomId : string) (d : db) : db :=
  mkDb (pexpire now (ttlMs rs) roomId (meta d))
       (pexpire now (ttlMs rs) roomId (members d))
       (pexpire now (ttlMs rs) roomId (count d))
       (jtis d) (jti d).

(** [tryJoin]: the Lua script followed by the decoding of its reply. *)
Definition tryJoin (rs : t) (now : Z) (roomId connId : string) (d : db) : JoinResult * db :=
  let d := expire now d in
  if negb (exists_ roomId (meta d)) then (JoinErr "ERR_NO_ROOM", d) else
  let cur := default 0 (get roomId (count d)) in
  if sismember roomId connId (members d) then
    (JoinOk cur ("P" ++ tostring cur), refresh3 rs now roomId d)
  else if maxParticipants rs <=? cur then (JoinErr "ERR_ROOM_FULL", d)
  else
    let mem1 := sadd roomId connId (members d) in
    let cur1 := cur + 1 in
    let cnt1 := set roomId cur1 (count d) in
    (JoinOk cur1 ("P" ++ tostring cur1),
     refresh3 rs now roomId (mkDb (meta d) mem1 cnt1 (jtis d) (jti d))).

(** [DEL room:<id>:jti:<j>] for every [j] of the room's jtis set. *)
Definition del_markers (roomId : string) (js : gset string)
    (m : gmap (string * string) (Entry string)) : gmap (string * string) (Entry string) :=
  foldr (λ j acc, del (roomId, j) acc) m (elements js).

(** [leave]: the Lua script; the result is [remaining]. *)
Definition leave (rs : t) (now : Z) (roomId connId : string) (d : db) : Z * db :=
  let d := expire now d in
  if negb (exists_ roomId (meta d)) then (0, d) else
  let '(removed, mem1) := srem roomId connId (members d) in
  let cur := default 0 (get roomId (count d)) in
  let dec := (removed =? 1) && (0 <? cur) in
  let cur1 := if dec then cur - 1 else cur in
  let cnt1 := if dec then set roomId cur1 (count d) else count d in
  if cur1 <=? 0 then
    (0, mkDb (del roomId (meta d)) (del roomId mem1) (del roomId cnt1)
             (del roomId (jtis d))
             (del_markers roomId (smembers roomId (jtis d)) (jti d)))
  else
    (cur1, mkDb (pexpire now (ttlMs rs) roomId (meta d))
                (pexpire now (ttlMs rs) roomId mem1)
                (pexpire now (ttlMs rs) roomId cnt1)
                (pexpire now (ttlMs rs) roomId (jtis d))
                (jti d)).

Definition roomExists (now : Z) (roomId : string) (d : db) : bool :=
  exists_ roomId (meta (expire now d)).

Definition touch (rs : t) (now : Z) (roomId : string) (d : db) : db :=
  let d := expire now d in
  mkDb (pexpire now (ttlMs rs) roomId (meta d))
       (pexpire now (ttlMs rs) roomId (members d))
       (pexpire now (ttlMs rs) roomId (count d))
       (pexpire now (ttlMs rs) roomId (jtis d))
       (jti d).

(** [markTokenJtiUsed]: SET NX PX on the marker, then the room's jtis
    set is extended and its time to live refreshed. *)
Definition markTokenJtiUsed (rs : t) (now : Z) (roomId j : string) (ttl : Z) (d : db) : bool * db :=
  let d := expire now d in
  let '(ok, jti1) := set_px_nx now ttl (roomId, j) "1" (jti d) in
  if negb ok then (false, d) else
  (true, mkDb (meta d) (members d) (count d)
              (pexpire now (ttlMs rs) roomId (sadd roomId j (jtis d)))
              jti1).

(** What a reader of the room observes at time [now]. *)
Definition room_count (now : Z) (roomId : string) (d : db) : Z :=
  default 0 (get roomId (count (expire now d))).

Definition room_members (now : Z) (roomId : string) (d : db) : gset string :=
  smembers roomId (members (expire now d)).

End RoomStore.

(** ** node:crypto, createHmac("sha256", key)

    HMAC-SHA-256 (FIPS 180-4, RFC 2104) over byte buffers.  Words are
    32-bit values in [Z]; additions wrap modulo 2^32.  The round constants
    are computed as the standard defines them: the first 32 bits of the
    fractional parts of the square and cube roots of the first primes. *)

Module Sha256.

Definition w32 (x : Z) : Z := x mod 2 ^ 32.
Definition add32 (x y : Z) : Z := w32 (x + y).
Definition rotr (n x : Z) : Z := Z.lor (Z.shiftr x n) (w32 (Z.shiftl x (32 - n))).
Definition shr (n x : Z) : Z := Z.shiftr x n.
Definition not32 (x : Z) : Z := 2 ^ 32 - 1 - x.

Definition Ch (x y z : Z) : Z := Z.lxor (Z.land x y) (Z.land (not32 x) z).
Definition Maj (x y z : Z) : Z :=
  Z.lxor (Z.lxor (Z.land x y) (Z.land x z)) (Z.land y z).
Definition bsig0 (x : Z) : Z := Z.lxor (Z.lxor (rotr 2 x) (rotr 13 x)) (rotr 22 x).
Definition bsig1 (x : Z) : Z := Z.lxor (Z.lxor (rotr 6 x) (rotr 11 x)) (rotr 25 x).
Definition ssig0 (x : Z) : Z := Z.lxor (Z.lxor (rotr 7 x) (rotr 18 x)) (shr 3 x).
Definition ssig1 (x : Z) : Z := Z.lxor (Z.lxor (rotr 17 x) (rotr 19 x)) (shr 10 x).

(** The first primes, by trial division. *)
Definition is_prime (n : Z) : bool :=
  (1 <? n) && forallb (fun d => negb (n mod d =? 0) || (n <=? d))
                      (map Z.of_nat (seq 2 18)).

Definition first_primes (k : nat) : list Z :=
  firstn k (filter is_prime (map Z.of_nat (seq 2 310))).

(** Integer cube root, bit by bit from the top. *)
Fixpoint icbrt_bits (bits : nat) (x r : Z) : Z :=
  match bits with
  | O => r
  | S b =>
      let c := r + 2 ^ Z.of_nat b in
      icbrt_bits b x (if c * c * c <=? x then c else r)
  end.

Definition icbrt (x : Z) : Z := icbrt_bits 40 x 0.

Definition K : list Z :=
  Eval vm_compute in map (fun p => w32 (icbrt (p * 2 ^ 96))) (first_primes 64).

Definition H0 : list Z :=
  Eval vm_compute in map (fun p => w32 (Z.sqrt (p * 2 ^ 64))) (first_primes 8).

(** Big-endian bytes of a value, [n] of them. *)
Fixpoint be_bytes (n : nat) (x : Z) : list Z :=
  match n with
  | O => []
  | S m => (Z.shiftr x (8 * Z.of_nat m)) mod 256 :: be_bytes m x
  end.

Definition be_word (bs : list Z) : Z := fold_left (fun acc b => acc * 256 + b) bs 0.

Definition pad (msg : list Z) : list Z :=
  let l := Z.of_nat (length msg) in
  let k := (55 - l) mod 64 in
  msg ++ 128 :: repeat 0 (Z.to_nat k) ++ be_bytes 8 (8 * l).

Fixpoint chunks (n : nat) (fuel : nat) (l : list Z) : list (list Z) :=
  match fuel with
  | O => []
  | S f =>
      match l with
      | [] => []
      | _ => firstn n l :: chunks n f (skipn n l)
      end
  end.

(** The message schedule, newest word first. *)
Fixpoint schedule (n : nat) (rev_w : list Z) : list Z :=
  match n with
  | O => rev_w
  | S m =>
      let at_ i := nth i rev_w 0 in
      let wt := add32 (add32 (ssig1 (at_ 1%nat)) (at_ 6%nat))
                      (add32 (ssig0 (at_ 14%nat)) (at_ 15%nat)) in
      schedule m (wt :: rev_w)
  end.

Definition round (st : list Z) (kw : Z * Z) : list Z :=
  match st with
  | [a; b; c; d; e; f; g; h] =>
      let t1 := add32 (add32 (add32 h (bsig1 e)) (add32 (Ch e f g) (fst kw))) (snd kw) in
      let t2 := add32 (bsig0 a) (Maj a b c) in
      [add32 t1 t2; a; b; c; add32 d t1; e; f; g]
  | _ => st
  end.

Definition compress (h : list Z) (block : list Z) : list Z :=
  let w16 := map be_word (chunks 4 16 block) in
  let w := rev (schedule 48 (rev w16)) in
  let st := fold_left round (combine K w) h in
  map (fun p => add32 (fst p) (snd p)) (combine h st).

Definition digest_words (msg : list Z) : list Z :=
  let p := pad msg in
  fold_left compress (chunks 64 (length p) p) H0.

Definition of_bytes (l : list Byte.byte) : list Z := map (fun b => Z.of_N (Byte.to_N b)) l.

Definition to_bytes (l : list Z) : list Byte.byte :=
  map (fun z => default Byte.x00 (Byte.of_N (Z.to_N (z mod 256)))) l.

Definition sha256 (msg : list Byte.byte) : list Byte.byte :=
  to_bytes (concat (map (be_bytes 4) (digest_words (of_bytes msg)))).

Definition xor_pad (c : Z) (key : list Z) : list Z := map (Z.lxor c) key.

(** HMAC with block size 64: longer keys are hashed first, shorter ones
    padded with zeros. *)
Definition hmac (key msg : list Byte.byte) : list Byte.byte :=
  let k0 := if (64 <? length key)%nat then sha256 key else key in
  let k := of_bytes k0 ++ repeat 0 (64 - length k0)%nat in
  let inner := sha256 (to_bytes (xor_pad 54 k) ++ msg) in
  sha256 (to_bytes (xor_pad 92 k) ++ inner).

End Sha256.

(** ** Buffers and base64 (Node's Buffer) and src/utils/base64url.ts

    JavaScript strings are modelled by [string], read as text over
    one-byte characters: ids, tokens and frames are ASCII, for which a
    character, a UTF-16 code unit and a UTF-8 byte coincide.  Buffers are
    [list Byte.byte]; [Buffer.from(s, "utf8")] is [list_byte_of_string]. *)

#[global] Instance byte_eq_decision : EqDecision Byte.byte := Byte.byte_eq_dec.

Module Buffer.

Definition code (c : ascii) : N := N_of_ascii c.

(** Character of a 6-bit value in the base64 alphabet. *)
Definition b64char (v : N) : ascii :=
  if (v <? 26)%N then ascii_of_N (v + 65)
  else if (v <? 52)%N then ascii_of_N (v + 71)
  else if (v <? 62)%N then ascii_of_N (v - 4)
  else if (v =? 62)%N then "+"%char
  else "/"%char.

(** The decoder's table: both the standard and the URL-safe alphabet
    are accepted; every other character is not a base64 character. *)
Definition unbase64 (c : ascii) : option N :=
  let n := code c in
  if ((65 <=? n) && (n <=? 90))%N then Some (n - 65)%N
  else if ((97 <=? n) && (n <=? 122))%N then Some (n - 71)%N
  else if ((48 <=? n) && (n <=? 57))%N then Some (n + 4)%N
  else if ((n =? 43) || (n =? 45))%N then Some 62%N
  else if ((n =? 47) || (n =? 95))%N then Some 63%N
  else None.

Fixpoint sextets_of_bytes (l : list N) : list N :=
  match l with
  | a :: b :: c :: r =>
      (a / 4 :: (a mod 4) * 16 + b / 16 :: (b mod 16) * 4 + c / 64 :: c mod 64
         :: sextets_of_bytes r)%N
  | [a; b] => [a / 4; (a mod 4) * 16 + b / 16; (b mod 16) * 4]%N
  | [a] => [a / 4; (a mod 4) * 16]%N
  | [] => []
  end.

Definition padding (len : nat) : string :=
  match (len mod 3)%nat with
  | 1%nat => "=="
  | 2%nat => "="
  | _ => EmptyString
  end.

(** [buf.toString("base64")] *)
Definition toString_base64 (buf : list Byte.byte) : string :=
  (string_of_list_ascii (map b64char (sextets_of_bytes (map Byte.to_N buf)))
     ++ padding (length buf))%string.

(** The decoder reads up to the first [=], skipping every character
    that is not in its table. *)
Fixpoint sextets_of_string (s : string) : list N :=
  match s with
  | EmptyString => []
  | String c r =>
      if (c =? "=")%char then []
      else match unbase64 c with
           | Some v => v :: sextets_of_string r
           | None => sextets_of_string r
           end
  end.

Definition byte_of (n : N) : Byte.byte := default Byte.x00 (Byte.of_N (n mod 256)).

(** Whole groups of four give three bytes; a tail of three gives two,
    of two gives one, a single left-over value gives none. *)
Fixpoint bytes_of_sextets (l : list N) : list Byte.byte :=
  match l with
  | a :: b :: c :: d :: r =>
      byte_of (a * 4 + b / 16) :: byte_of ((b mod 16) * 16 + c / 4)
        :: byte_of ((c mod 4) * 64 + d) :: bytes_of_sextets r
  | [a; b; c] => [byte_of (a * 4 + b / 16); byte_of ((b mod 16) * 16 + c / 4)]
  | [a; b] => [byte_of (a * 4 + b / 16)]
  | _ => []
  end.

(** [Buffer.from(s, "base64")]: it never throws. *)
Definition from_base64 (s : string) : list Byte.byte :=
  bytes_of_sextets (sextets_of_string s).

End Buffer.

Module Base64Url.

(** [s.replaceAll(c, r)] for a one-character pattern. *)
Fixpoint replaceAll (c : ascii) (r : string) (s : string) : string :=
  match s with
  | EmptyString => EmptyString
  | String x t =>
      if (x =? c)%char then (r ++ replaceAll c r t)%string
      else String x (replaceAll c r t)
  end.

Fixpoint repeat_string (s : string) (n : nat) : string :=
  match n with
  | O => EmptyString
  | S m => (s ++ repeat_string s m)%string
  end.

(** The character of a 6-bit value in the URL-safe alphabet. *)
Definition url_char (v : N) : ascii :=
  let c := Buffer.b64char v in
  if (c =? "+")%char then "-"%char else if (c =? "/")%char then "_"%char else c.

Definition b64urlEncode (buf : list Byte.byte) : string :=
  replaceAll "=" EmptyString
    (replaceAll "/" "_" (replaceAll "+" "-" (Buffer.toString_base64 buf))).

Definition b64urlDecode (s : string) : list Byte.byte :=
  let padLen := ((4 - (String.length s mod 4)) mod 4)%nat in
  let padded := (replaceAll "_" "/" (replaceAll "-" "+" s) ++ repeat_string "=" padLen)%string in
  Buffer.from_base64 padded.

(** [createHmac("sha256", secret).update(data).digest()], base64url. *)
Definition hmacSha256B64Url (secret : string) (data : list Byte.byte) : string :=
  b64urlEncode (Sha256.hmac (list_byte_of_string secret) data).

(** [timingSafeEqual] on buffers of one length is equality. *)
Definition timingSafeEqualB64Url (a b : string) : bool :=
  let ba := b64urlDecode a in
  let bb := b64urlDecode b in
  if negb (length ba =? length bb)%nat then false
  else bool_decide (ba = bb).

End Base64Url.

(** ** JSON (the built-in JSON.stringify and JSON.parse)

    Numerals are exact: a numeral whose value is an integer is [Num];
    any other numeral keeps its text ([Frac]).  Objects keep their members
    in source order; a property read takes the last member of that name. *)

Module JSON.

#[local] Set Warnings "-register-all".

Inductive value :=
| Null
| Bool (b : bool)
| Num (z : Z)
| Frac (lit : string)
| Str (s : string)
| Arr (l : list value)
| Obj (l : list (string * value)).

Definition dq : ascii := "034"%char.
Definition bs : ascii := "092"%char.

(** *** JSON.stringify *)

Definition hexdigit (n : N) : ascii :=
  if (n <? 10)%N then ascii_of_N (n + 48) else ascii_of_N (n + 87).

Definition quote_char (c : ascii) : string :=
  let n := N_of_ascii c in
  if (c =? dq)%char then String bs (String dq EmptyString)
  else if (c =? bs)%char then String bs (String bs EmptyString)
  else if (n =? 8)%N then "\b"
  else if (n =? 12)%N then "\f"
  else if (n =? 10)%N then "\n"
  else if (n =? 13)%N then "\r"
  else if (n =? 9)%N then "\t"
  else if (n <? 32)%N then
    ("\u00" ++ String (hexdigit (n / 16)) (String (hexdigit (n mod 16)) EmptyString))%string
  else String c EmptyString.

Fixpoint quote_body (s : string) : string :=
  match s with
  | EmptyString => EmptyString
  | String c r => (quote_char c ++ quote_body r)%string
  end.

Definition quote (s : string) : string :=
  String dq (quote_body s ++ String dq EmptyString).

Definition number (z : Z) : string := NilZero.string_of_int (Z.to_int z).

Fixpoint join (sep : string) (l : list string) : string :=
  match l with
  | [] => EmptyString
  | [x] => x
  | x :: r => (x ++ sep ++ join sep r)%string
  end.

Fixpoint stringify (v : value) : string :=
  match v with
  | Null => "null"
  | Bool true => "true"
  | Bool false => "false"
  | Num z => number z
  | Frac lit => lit
  | Str s => quote s
  | Arr l => ("[" ++ join "," (map stringify l) ++ "]")%string
  | Obj l =>
      ("{" ++ join "," (map (fun kv => quote (fst kv) ++ ":" ++ stringify (snd kv)) l)
           ++ "}")%string
  end.

(** *** JSON.parse *)

Definition is_ws (c : ascii) : bool :=
  let n := N_of_ascii c in ((n =? 32) || (n =? 9) || (n =? 10) || (n =? 13))%N.

Fixpoint skip_ws (s : string) : string :=
  match s with
  | String c r => if is_ws c then skip_ws r else s
  | EmptyString => EmptyString
  end.

Definition hexval (c : ascii) : option N :=
  let n := N_of_ascii c in
  if ((48 <=? n) && (n <=? 57))%N then Some (n - 48)%N
  else if ((97 <=? n) && (n <=? 102))%N then Some (n - 87)%N
  else if ((65 <=? n) && (n <=? 70))%N then Some (n - 55)%N
  else None.

(** UTF-8 bytes of a code point below 2^16. *)
Definition utf8 (cp : N) : string :=
  if (cp <? 128)%N then String (ascii_of_N cp) EmptyString
  else if (cp <? 2048)%N then
    String (ascii_of_N (192 + cp / 64)) (String (ascii_of_N (128 + cp mod 64)) EmptyString)
  else
    String (ascii_of_N (224 + cp / 4096))
      (String (ascii_of_N (128 + (cp / 64) mod 64))
         (String (ascii_of_N (128 + cp mod 64)) EmptyString)).

Definition unescape (c : ascii) : option ascii :=
  if (c =? dq)%char then Some dq
  else if (c =? bs)%char then Some bs
  else if (c =? "/")%char then Some "/"%char
  else if (c =? "b")%char then Some "008"%char
  else if (c =? "f")%char then Some "012"%char
  else if (c =? "n")%char then Some "010"%char
  else if (c =? "r")%char then Some "013"%char
  else if (c =? "t")%char then Some "009"%char
  else None.

Definition prepend (p : string) (r : option (string * string)) : option (string * string) :=
  match r with
  | Some (s, rest) => Some ((p ++ s)%string, rest)
  | None => None
  end.

(** The characters of a string literal after its opening quote, and
    the text after the closing quote. *)
Fixpoint parse_chars (s : string) : option (string * string) :=
  match s with
  | EmptyString => None
  | String c r =>
      if (c =? dq)%char then Some (EmptyString, r)
      else if (c =? bs)%char then
        match r with
        | String e r1 =>
            if (e =? "u")%char then
              match r1 with
              | String h1 (String h2 (String h3 (String h4 r2))) =>
                  match hexval h1, hexval h2, hexval h3, hexval h4 with
                  | Some a, Some b, Some c1, Some d =>
                      prepend (utf8 (((a * 16 + b) * 16 + c1) * 16 + d)%N) (parse_chars r2)
                  | _, _, _, _ => None
                  end
              | _ => None
              end
            else
              match unescape e with
              | Some x => prepend (String x EmptyString) (parse_chars r1)
              | None => None
              end
        | EmptyString => None
        end
      else if (N_of_ascii c <? 32)%N then None
      else prepend (String c EmptyString) (parse_chars r)
  end.

Definition digit (c : ascii) : option (Decimal.uint -> Decimal.uint) :=
  match (N_of_ascii c - 48)%N with
  | 0%N => if (c =? "0")%char then Some Decimal.D0 else None
  | 1%N => Some Decimal.D1
  | 2%N => Some Decimal.D2
  | 3%N => Some Decimal.D3
  | 4%N => Some Decimal.D4
  | 5%N => Some Decimal.D5
  | 6%N => Some Decimal.D6
  | 7%N => Some Decimal.D7
  | 8%N => Some Decimal.D8
  | 9%N => Some Decimal.D9
  | _ => None
  end.

Fixpoint read_digits (s : string) : Decimal.uint * string :=
  match s with
  | String c r =>
      match digit c with
      | Some d => let '(u, rest) := read_digits r in (d u, rest)
      | None => (Decimal.Nil, s)
      end
  | EmptyString => (Decimal.Nil, EmptyString)
  end.

Definition leading_zero (u : Decimal.uint) : bool :=
  match u with
  | Decimal.D0 Decimal.Nil => false
  | Decimal.D0 _ => true
  | _ => false
  end.

Definition is_nil (u : Decimal.uint) : bool :=
  match u with Decimal.Nil => true | _ => false end.

Definition read_fraction (s : string) : option (Decimal.uint * string) :=
  match s with
  | String c r =>
      if (c =? ".")%char then
        let '(f, rest) := read_digits r in
        if is_nil f then None else Some (f, rest)
      else Some (Decimal.Nil, s)
  | EmptyString => Some (Decimal.Nil, s)
  end.

Definition read_exponent (s : string) : option (option Z * string) :=
  match s with
  | String c r =>
      if ((c =? "e") || (c =? "E"))%char then
        let '(neg, r1) :=
          match r with
          | String sg r' =>
              if (sg =? "-")%char then (true, r')
              else if (sg =? "+")%char then (false, r')
              else (false, r)
          | EmptyString => (false, r)
          end in
        let '(e, rest) := read_digits r1 in
        if is_nil e then None
        else Some (Some (if neg then - Z.of_uint e else Z.of_uint e), rest)
      else Some (None, s)
  | EmptyString => Some (None, s)
  end.

Definition parse_number (s : string) : option (value * string) :=
  let '(neg, s1) :=
    match s with
    | String c r => if (c =? "-")%char then (true, r) else (false, s)
    | EmptyString => (false, s)
    end in
  let '(u, s2) := read_digits s1 in
  if is_nil u || leading_zero u then None else
  match read_fraction s2 with
  | None => None
  | Some (f, s3) =>
      match read_exponent s3 with
      | None => None
      | Some (ex, s4) =>
          let sign := if neg then (-1) else 1 in
          let m := Z.of_uint (Decimal.app u f) in
          let e10 := default 0 ex - Z.of_nat (Decimal.nb_digits f) in
          let lit := substring 0 (String.length s - String.length s4) s in
          if 0 <=? e10 then Some (Num (sign * m * 10 ^ e10), s4)
          else if m mod 10 ^ (- e10) =? 0 then Some (Num (sign * (m / 10 ^ (- e10))), s4)
          else Some (Frac lit, s4)
      end
  end.

Definition strip_prefix (p s : string) : option string :=
  if String.prefix p s then Some (substring (String.length p) (String.length s - String.length p) s)
  else None.

Definition parse_scalar (s : string) : option (value * string) :=
  match strip_prefix "true" s with
  | Some r => Some (Bool true, r)
  | None =>
  match strip_prefix "false" s with
  | Some r => Some (Bool false, r)
  | None =>
  match strip_prefix "null" s with
  | Some r => Some (Null, r)
  | None => parse_number s
  end end end.

Fixpoint parse_value (n : nat) (s : string) {struct n} : option (value * string) :=
  match n with
  | O => None
  | S n' =>
      match skip_ws s with
      | String c r =>
          if (c =? "{")%char then
            match skip_ws r with
            | String c1 r1 =>
                if (c1 =? "}")%char then Some (Obj [], r1) else parse_members n' [] r
            | EmptyString => None
            end
          else if (c =? "[")%char then
            match skip_ws r with
            | String c1 r1 =>
                if (c1 =? "]")%char then Some (Arr [], r1) else parse_elements n' [] r
            | EmptyString => None
            end
          else if (c =? dq)%char then
            match parse_chars r with
            | Some (str, rest) => Some (Str str, rest)
            | None => None
            end
          else parse_scalar (String c r)
      | EmptyString => None
      end
  end
with parse_members (n : nat) (acc : list (string * value)) (s : string) {struct n}
    : option (value * string) :=
  match n with
  | O => None
  | S n' =>
      match skip_ws s with
      | String c r =>
          if (c =? dq)%char then
            match parse_chars r with
            | Some (k, r1) =>
                match skip_ws r1 with
                | String c2 r2 =>
                    if (c2 =? ":")%char then
                      match parse_value n' r2 with
                      | Some (v, r3) =>
                          match skip_ws r3 with
                          | String c4 r4 =>
                              if (c4 =? ",")%char then parse_members n' (acc ++ [(k, v)]) r4
                              else if (c4 =? "}")%char then Some (Obj (acc ++ [(k, v)]), r4)
                              else None
                          | EmptyString => None
                          end
                      | None => None
                      end
                    else None
                | EmptyString => None
                end
            | None => None
            end
          else None
      | EmptyString => None
      end
  end
with parse_elements (n : nat) (acc : list value) (s : string) {struct n}
    : option (value * string) :=
  match n with
  | O => None
  | S n' =>
      match parse_value n' s with
      | Some (v, r3) =>
          match skip_ws r3 with
          | String c4 r4 =>
              if (c4 =? ",")%char then parse_elements n' (acc ++ [v]) r4
              else if (c4 =? "]")%char then Some (Arr (acc ++ [v]), r4)
              else None
          | EmptyString => None
          end
      | None => None
      end
  end.

(** [JSON.parse(text)]: [None] stands for the SyntaxError.  Every call
    of the parser consumes a character, so the length of the text bounds
    the recursion. *)
Definition parse (s : string) : option value :=
  match parse_value (S (String.length s)) s with
  | Some (v, rest) =>
      match skip_ws rest with
      | EmptyString => Some v
      | _ => None
      end
  | None => None
  end.

(** [obj.k] on a parsed value; [None] is [undefined]. *)
Definition prop (k : string) (v : value) : option value :=
  match v with
  | Obj l => snd <$> last (filter (fun kv => bool_decide (fst kv = k)) l)
  | _ => None
  end.

End JSON.

(** ** Join tokens (src/security/joinTokens.ts) *)

Module JoinTokens.
Import Base64Url.

(** The payload [{ v: 1, rid, exp, jti }]; the version is the literal 1. *)
Record JoinTokenPayload := mkPayload { rid : string; exp : Z; jti : string }.

Inductive VerifyResult :=
| Ok (payload : JoinTokenPayload)
| Err (code : string).

Definition payload_value (p : JoinTokenPayload) : JSON.value :=
  JSON.Obj [("v", JSON.Num 1); ("rid", JSON.Str (rid p));
            ("exp", JSON.Num (exp p)); ("jti", JSON.Str (jti p))].

(** [mintJoinToken]; [jti0] is the value drawn by [randomIdB64Url(16)]. *)
Definition mintJoinToken (secret rid0 : string) (expUnixMs : Z) (jti0 : string) : string :=
  let payload := mkPayload rid0 expUnixMs jti0 in
  let payloadBytes := list_byte_of_string (JSON.stringify (payload_value payload)) in
  let payloadB64Url := b64urlEncode payloadBytes in
  let macB64Url := hmacSha256B64Url secret payloadBytes in
  (payloadB64Url ++ "." ++ macB64Url)%string.

(** [s.split(sep)] for a one-character separator. *)
Fixpoint split (sep : ascii) (s : string) : list string :=
  match s with
  | EmptyString => [EmptyString]
  | String c r =>
      if (c =? sep)%char then EmptyString :: split sep r
      else match split sep r with
           | h :: t => String c h :: t
           | [] => [String c EmptyString]
           end
  end.

Definition is_empty (s : string) : bool :=
  match s with EmptyString => true | _ => false end.

(** The shape test on the parsed payload.  [typeof exp === "number"]
    also holds of a numeral that is not an integer; the relay mints
    integer expiries only, and the model asks for one. *)
Definition check_payload (v : JSON.value) : option JoinTokenPayload :=
  match JSON.prop "v" v, JSON.prop "rid" v, JSON.prop "exp" v, JSON.prop "jti" v with
  | Some (JSON.Num 1), Some (JSON.Str r), Some (JSON.Num e), Some (JSON.Str j) =>
      Some (mkPayload r e j)
  | _, _, _, _ => None
  end.

Definition verifyJoinToken (secret token : string) : VerifyResult :=
  match split "." token with
  | [payloadB64Url; macB64Url] =>
      if is_empty payloadB64Url || is_empty macB64Url then Err "ERR_TOKEN_FORMAT" else
      let payloadBytes := b64urlDecode payloadB64Url in
      let expectedMac := hmacSha256B64Url secret payloadBytes in
      if negb (timingSafeEqualB64Url macB64Url expectedMac) then Err "ERR_TOKEN_MAC" else
      match JSON.parse (string_of_list_byte payloadBytes) with
      | None => Err "ERR_TOKEN_FORMAT"
      | Some payload =>
          match check_payload payload with
          | Some p => Ok p
          | None => Err "ERR_TOKEN_FORMAT"
          end
      end
  | _ => Err "ERR_TOKEN_FORMAT"
  end.

(** Flipping bit [j] of the character at index [i]. *)
Definition flip_char (j : N) (c : ascii) : ascii :=
  ascii_of_N (N.lxor (N_of_ascii c) (2 ^ j)).

Fixpoint flip_bit (i : nat) (j : N) (s : string) : string :=
  match s, i with
  | EmptyString, _ => EmptyString
  | String c r, O => String (flip_char j c) r
  | String c r, S i' => String c (flip_bit i' j r)
  end.

End JoinTokens.

(** ** Client messages (src/ws/types.ts)

    The schemas are those of the types module that [handlers.ts] imports:
    it exports [MediaMsgSchema] and declares the optional [label] of a
    join request.  Objects drop the members a schema does not name. *)

Module WsTypes.

Inductive ClientMsg :=
| RoomCreate
| JoinRequest (roomId : string) (token qrToken label : option string)
| Leave (roomId : string)
| AppMsg (roomId ciphertextB64 : string)
| MediaMsg (roomId mime : string) (size chunkSize : Z) (chunks : list string)
| Ping.

Definition in_range (lo hi : Z) (s : string) : bool :=
  (lo <=? Z.of_nat (String.length s)) && (Z.of_nat (String.length s) <=? hi).

(** [z.string().min(lo).max(hi)] on a required member. *)
Definition str_field (lo hi : Z) (k : string) (o : JSON.value) : option string :=
  match JSON.prop k o with
  | Some (JSON.Str s) => if in_range lo hi s then Some s else None
  | _ => None
  end.

(** The same with [.optional()]: an absent member is accepted. *)
Definition opt_str_field (lo hi : Z) (k : string) (o : JSON.value) : option (option string) :=
  match JSON.prop k o with
  | None => Some None
  | Some (JSON.Str s) => if in_range lo hi s then Some (Some s) else None
  | Some _ => None
  end.

Definition is_object (v : JSON.value) : bool :=
  match v with JSON.Obj _ => true | _ => false end.

Definition truthy (o : option string) : bool :=
  match o with
  | Some s => negb (JoinTokens.is_empty s)
  | None => false
  end.

(** [z.coerce.number().int()]: [Number(x)] of a number, a boolean, null
    or the text of a plain decimal numeral. *)
Definition coerce_int (v : JSON.value) : option Z :=
  match v with
  | JSON.Num z => Some z
  | JSON.Bool b => Some (if b then 1 else 0)
  | JSON.Null => Some 0
  | JSON.Str s =>
      match JSON.skip_ws s with
      | EmptyString => Some 0
      | t => match JSON.parse_number t with
             | Some (JSON.Num z, rest) =>
                 if JoinTokens.is_empty (JSON.skip_ws rest) then Some z else None
             | _ => None
             end
      end
  | _ => None
  end.

Fixpoint chunk_strings (l : list JSON.value) : option (list string) :=
  match l with
  | [] => Some []
  | JSON.Str s :: r =>
      if JoinTokens.is_empty s then None
      else match chunk_strings r with Some t => Some (s :: t) | None => None end
  | _ => None
  end.

Definition WsEnvelopeSchema (v : JSON.value) : option (string * option JSON.value) :=
  match v with
  | JSON.Obj _ =>
      match JSON.prop "v" v, JSON.prop "t" v, str_field 8 256 "id" v with
      | Some (JSON.Num 1), Some (JSON.Str t), Some _ => Some (t, JSON.prop "body" v)
      | _, _, _ => None
      end
  | _ => None
  end.

Definition JoinRequestSchema (body : JSON.value) : option ClientMsg :=
  if negb (is_object body) then None else
  match str_field 8 128 "roomId" body,
        opt_str_field 8 2048 "token" body,
        opt_str_field 8 2048 "qrToken" body,
        opt_str_field 1 32 "label" body with
  | Some r, Some tk, Some qr, Some lb =>
      if truthy tk || truthy qr then Some (JoinRequest r tk qr lb) else None
  | _, _, _, _ => None
  end.

Definition LeaveSchema (body : JSON.value) : option ClientMsg :=
  if negb (is_object body) then None else
  match str_field 8 128 "roomId" body with
  | Some r => Some (Leave r)
  | None => None
  end.

Definition AppMsgSchema (body : JSON.value) : option ClientMsg :=
  if negb (is_object body) then None else
  match str_field 8 128 "roomId" body, str_field 1 200000 "ciphertextB64" body with
  | Some r, Some c => Some (AppMsg r c)
  | _, _ => None
  end.

Definition MediaMsgSchema (body : JSON.value) : option ClientMsg :=
  if negb (is_object body) then None else
  match str_field 8 128 "roomId" body, str_field 0 128 "mime" body,
        JSON.prop "size" body ≫= coerce_int,
        JSON.prop "chunkSize" body ≫= coerce_int,
        JSON.prop "chunks" body with
  | Some r, Some m, Some sz, Some cs, Some (JSON.Arr l) =>
      match chunk_strings l with
      | Some ch =>
          if (1 <=? sz) && (sz <=? 10485760) && (1024 <=? cs)
             && (1 <=? length l)%nat && (length l <=? 128)%nat
          then Some (MediaMsg r m sz cs ch) else None
      | None => None
      end
  | _, _, _, _, _ => None
  end.

Definition EmptyBodySchema (m : ClientMsg) (body : JSON.value) : option ClientMsg :=
  if is_object body then Some m else None.

(** [parseClientMsg], after [JSON.parse] of the frame. *)
Definition parseClientValue (v : JSON.value) : option ClientMsg :=
  match WsEnvelopeSchema v with
  | Some (t, Some body) =>
      if String.eqb t "ROOM_CREATE" then EmptyBodySchema RoomCreate body
      else if String.eqb t "JOIN_REQUEST" then JoinRequestSchema body
      else if String.eqb t "LEAVE" then LeaveSchema body
      else if String.eqb t "APP_MSG" then AppMsgSchema body
      else if String.eqb t "MEDIA_MSG" then MediaMsgSchema body
      else if String.eqb t "PING" then EmptyBodySchema Ping body
      else None
  | _ => None
  end.

(** [parseClientMsg(raw)] inside the handler's [try]: a syntax error
    gives [null] as well. *)
Definition parseClientMsg (raw : string) : option ClientMsg :=
  JSON.parse raw ≫= parseClientValue.

End WsTypes.

(** ** The protocol engine (src/ws/handlers.ts)

    One handler runs at a time: each event is applied to the whole server
    state in one step, with the clock reading [now] and the random draws
    [rnd] of that step.  Metrics and logging are left out. *)

Module Ws.
Import WsTypes.

Record Config := mkConfig {
  JOIN_TOKEN_SECRET : string;
  ROOM_MAX_PARTICIPANTS : Z;
  ROOM_KEY_TTL_MS : Z;
  QR_ROTATION_MS : Z;
  MAX_WS_MSG_BYTES : Z;
  MAX_APP_CIPHERTEXT_BYTES : Z;
  MAX_MSGS_PER_10S : Z;
  MAX_BYTES_PER_10S : Z;
  MAX_CONNS_PER_IP : Z;
  MAX_TOTAL_CONNECTIONS : Z;
  WS_PING_INTERVAL_MS : Z;
  WS_PING_TIMEOUT_MS : Z
}.

(** Server frames [{ v: 1, t, id, body }]; the tag is the constructor. *)
Inductive Body :=
| HELLO (serverTimeUnixMs : Z)
| PONG
| ROOM_CREATED (room token : string) (expUnixMs maxParticipants : Z)
| JOINED (room : string) (participants max : Z) (lbl nextToken : string) (nextTokenExpUnixMs : Z)
| LEFT (room : string)
| QR_ROTATED (room token : string) (expUnixMs : Z)
| ROOM_STATS (room : string) (participants max : Z)
| SYSTEM_MSG (room text type : string)
| APP_MSG (room ciphertextB64 : string)
| MEDIA_MSG (room mime : string) (size chunkSize : Z) (chunks : list string)
| ERROR (code : string) (retryable : bool).

Record Frame := mkFrame { id : string; body : Body }.

(** The [ws] socket object: what the server reads of it and does to it. *)
Record Socket := mkSocket {
  readyState : Z;
  bufferedAmount : Z;
  sent : list Frame;
  closed : option (Z * string);
  terminated : bool;
  pings : Z
}.

Definition OPEN : Z := 1.
Definition CLOSING : Z := 2.
Definition CLOSED : Z := 3.

Definition ws_send (f : Frame) (s : Socket) : Socket :=
  mkSocket (readyState s) (bufferedAmount s) (sent s ++ [f]) (closed s) (terminated s) (pings s).

Definition ws_close (code : Z) (reason : string) (s : Socket) : Socket :=
  if readyState s =? OPEN
  then mkSocket CLOSING (bufferedAmount s) (sent s) (Some (code, reason)) (terminated s) (pings s)
  else s.

Definition ws_terminate (s : Socket) : Socket :=
  if readyState s =? CLOSED then s
  else mkSocket CLOSING (bufferedAmount s) (sent s) (closed s) true (pings s).

Definition ws_ping (s : Socket) : Socket :=
  mkSocket (readyState s) (bufferedAmount s) (sent s) (closed s) (terminated s) (pings s + 1).

Record ConnCtx := mkCtx {
  connId : string;
  ip : string;
  ws : Socket;
  roomId : option string;
  label : option string;
  msgBucket : TokenBucket.t;
  bytesBucket : TokenBucket.t;
  lastPongMs : Z;
  awaitingPong : bool
}.

Definition on_ws (f : Socket -> Socket) (c : ConnCtx) : ConnCtx :=
  mkCtx (connId c) (ip c) (f (ws c)) (roomId c) (label c) (msgBucket c) (bytesBucket c)
        (lastPongMs c) (awaitingPong c).

Definition set_roomId (r : option string) (c : ConnCtx) : ConnCtx :=
  mkCtx (connId c) (ip c) (ws c) r (label c) (msgBucket c) (bytesBucket c)
        (lastPongMs c) (awaitingPong c).

Definition set_label (l : option string) (c : ConnCtx) : ConnCtx :=
  mkCtx (connId c) (ip c) (ws c) (roomId c) l (msgBucket c) (bytesBucket c)
        (lastPongMs c) (awaitingPong c).

Definition set_msgBucket (b : TokenBucket.t) (c : ConnCtx) : ConnCtx :=
  mkCtx (connId c) (ip c) (ws c) (roomId c) (label c) b (bytesBucket c)
        (lastPongMs c) (awaitingPong c).

Definition set_bytesBucket (b : TokenBucket.t) (c : ConnCtx) : ConnCtx :=
  mkCtx (connId c) (ip c) (ws c) (roomId c) (label c) (msgBucket c) b
        (lastPongMs c) (awaitingPong c).

Definition set_pong (last : Z) (awaiting : bool) (c : ConnCtx) : ConnCtx :=
  mkCtx (connId c) (ip c) (ws c) (roomId c) (label c) (msgBucket c) (bytesBucket c)
        last awaiting.

Record LocalRoom := mkLocalRoom {
  lr_roomId : string;
  conns : gset string;
  qrToken : string;
  qrExpUnixMs : Z
}.

(** The state of the process.  [ctxs] holds the [ConnCtx] objects by
    connection id; [connections] is the key set of the [connections]
    Map, whose values are those same objects; [disconnected] collects the
    sockets whose closure flag [disconnected] is set. *)
Record State := mkState {
  ctxs : gmap string ConnCtx;
  connections : gset string;
  disconnected : gset string;
  localRooms : gmap string LocalRoom;
  store : Redis.db;
  ipLimiter : IpConnectionLimiter.t;
  globalLimiter : GlobalConnectionLimiter.t
}.

Definition init (cfg : Config) : State :=
  mkState ∅ ∅ ∅ ∅ Redis.empty
          (IpConnectionLimiter.new (MAX_CONNS_PER_IP cfg))
          (GlobalConnectionLimiter.new (MAX_TOTAL_CONNECTIONS cfg)).

Definition roomStore (cfg : Config) : RoomStore.t :=
  RoomStore.mk (ROOM_KEY_TTL_MS cfg) (ROOM_MAX_PARTICIPANTS cfg).

Definition upd_ctx (i : string) (f : ConnCtx -> ConnCtx) (st : State) : State :=
  mkState (alter f i (ctxs st)) (connections st) (disconnected st) (localRooms st)
          (store st) (ipLimiter st) (globalLimiter st).

Definition set_store (d : Redis.db) (st : State) : State :=
  mkState (ctxs st) (connections st) (disconnected st) (localRooms st) d
          (ipLimiter st) (globalLimiter st).

Definition set_localRooms (m : gmap string LocalRoom) (st : State) : State :=
  mkState (ctxs st) (connections st) (disconnected st) m (store st)
          (ipLimiter st) (globalLimiter st).

(** [connections.get(id)] *)
Definition connections_get (i : string) (st : State) : option ConnCtx :=
  if decide (i ∈ connections st) then ctxs st !! i else None.

Definition slow (cfg : Config) (s : Socket) : bool :=
  MAX_WS_MSG_BYTES cfg * 4 <? bufferedAmount s.

(** [wsSend(ctx, msg)] *)
Definition wsSend (cfg : Config) (i : string) (f : Frame) (st : State) : State :=
  match ctxs st !! i with
  | Some ctx =>
      if negb (readyState (ws ctx) =? OPEN) then st
      else if slow cfg (ws ctx) then st
      else upd_ctx i (on_ws (ws_send f)) st
  | None => st
  end.

(** The body of the loop of [sendNext], for one connection id. *)
Definition deliver (cfg : Config) (f : Frame) (st : State) (i : string) : State :=
  match connections_get i st with
  | Some ctx =>
      if negb (readyState (ws ctx) =? OPEN) then st
      else if slow cfg (ws ctx) then upd_ctx i (on_ws (ws_close 1008 "slow consumer")) st
      else upd_ctx i (on_ws (ws_send f)) st
  | None => st
  end.

(** [sendNext]: up to 50 sends per tick, the next tick by [setImmediate]. *)
Fixpoint sendNext (ticks : nat) (cfg : Config) (f : Frame) (connIds : list string)
    (st : State) : State :=
  match ticks with
  | O => st
  | S t =>
      let st1 := foldl (deliver cfg f) st (take 50 connIds) in
      match drop 50 connIds with
      | [] => st1
      | rest => sendNext t cfg f rest st1
      end
  end.

(** [broadcast(roomId, msg)]: the frame is serialized once and sent to
    the snapshot [Array.from(r.conns)]. *)
Definition broadcast (cfg : Config) (room : string) (f : Frame) (st : State) : State :=
  match localRooms st !! room with
  | Some r =>
      if decide (size (conns r) = 0%nat) then st
      else let connIds := elements (conns r) in
           sendNext (length connIds) cfg f connIds st
  | None => st
  end.

Definition ensureLocalRoom (cfg : Config) (now : Z) (jti0 : string) (room : string)
    (st : State) : LocalRoom * State :=
  match localRooms st !! room with
  | Some r => (r, st)
  | None =>
      let exp := now + QR_ROTATION_MS cfg in
      let token := JoinTokens.mintJoinToken (JOIN_TOKEN_SECRET cfg) room exp jti0 in
      let r := mkLocalRoom room ∅ token exp in
      (r, set_localRooms (<[room := r]> (localRooms st)) st)
  end.

Definition add_conn (i : string) (r : LocalRoom) : LocalRoom :=
  mkLocalRoom (lr_roomId r) ({[i]} ∪ conns r) (qrToken r) (qrExpUnixMs r).

Definition delete_conn (i : string) (r : LocalRoom) : LocalRoom :=
  mkLocalRoom (lr_roomId r) (conns r ∖ {[i]}) (qrToken r) (qrExpUnixMs r).

Definition rotateQr (cfg : Config) (now : Z) (rnd : nat -> string) (room : string)
    (st : State) : State :=
  match localRooms st !! room with
  | None => st
  | Some r =>
      let st1 := set_store (RoomStore.touch (roomStore cfg) now room (store st)) st in
      let exp := now + QR_ROTATION_MS cfg in
      let token := JoinTokens.mintJoinToken (JOIN_TOKEN_SECRET cfg) room exp (rnd 4%nat) in
      let r1 := mkLocalRoom (lr_roomId r) (conns r) token exp in
      let st2 := set_localRooms (<[room := r1]> (localRooms st1)) st1 in
      broadcast cfg room (mkFrame (rnd 1%nat) (QR_ROTATED room token exp)) st2
  end.

Definition cleanupIfEmpty (room : string) (st : State) : State :=
  match localRooms st !! room with
  | Some r =>
      if decide (size (conns r) = 0%nat)
      then set_localRooms (delete room (localRooms st)) st
      else st
  | None => set_localRooms (delete room (localRooms st)) st
  end.

Definition leaveRoom (cfg : Config) (now : Z) (rnd : nat -> string) (i room : string)
    (st : State) : State :=
  match ctxs st !! i with
  | None => st
  | Some ctx =>
      if negb (bool_decide (roomId ctx = Some room)) then st else
      let st1 := upd_ctx i (set_roomId None) st in
      let st2 := set_localRooms (alter (delete_conn i) room (localRooms st1)) st1 in
      let '(remaining, d) := RoomStore.leave (roomStore cfg) now room i (store st2) in
      let st3 := set_store d st2 in
      if remaining <=? 0 then cleanupIfEmpty room st3
      else
        let st4 :=
          match label ctx with
          | Some l =>
              if JoinTokens.is_empty l then st3
              else broadcast cfg room
                     (mkFrame (rnd 1%nat) (SYSTEM_MSG room (l ++ " has left the chat") "info")) st3
          | None => st3
          end in
        broadcast cfg room
          (mkFrame (rnd 2%nat) (ROOM_STATS room remaining (ROOM_MAX_PARTICIPANTS cfg))) st4
  end.

(** [onDisconnect(ctx)]: the room is left, then the [finally] block runs. *)
Definition onDisconnect (cfg : Config) (now : Z) (rnd : nat -> string) (i : string)
    (st : State) : State :=
  match ctxs st !! i with
  | None => st
  | Some ctx =>
      let st1 :=
        match roomId ctx with
        | Some room => if JoinTokens.is_empty room then st else leaveRoom cfg now rnd i room st
        | None => st
        end in
      mkState (ctxs st1) (connections st1 ∖ {[i]}) (disconnected st1) (localRooms st1)
              (store st1)
              (IpConnectionLimiter.dec (ip ctx) (ipLimiter st1))
              (GlobalConnectionLimiter.dec (globalLimiter st1))
  end.

(** The [close] and [error] listeners of a socket share this body. *)
Definition onCloseOrError (cfg : Config) (now : Z) (rnd : nat -> string) (i : string)
    (st : State) : State :=
  if decide (i ∈ disconnected st) then st
  else
    let st1 := mkState (ctxs st) (connections st) ({[i]} ∪ disconnected st) (localRooms st)
                       (store st) (ipLimiter st) (globalLimiter st) in
    onDisconnect cfg now rnd i st1.

Definition error_frame (rnd : nat -> string) (code : string) (retryable : bool) : Frame :=
  mkFrame (rnd 0%nat) (ERROR code retryable).

(** The [switch (msg.t)] of the message listener, for the connection
    [i] whose context is [ctx] when the frame arrives. *)
Definition handle (cfg : Config) (now : Z) (rnd : nat -> string) (i : string)
    (ctx : ConnCtx) (msg : ClientMsg) (st : State) : State :=
  match msg with
  | Ping => wsSend cfg i (mkFrame (rnd 0%nat) PONG) st
  | RoomCreate =>
      if truthy (roomId ctx) then wsSend cfg i (error_frame rnd "ERR_ALREADY_IN_ROOM" false) st
      else
        let room := rnd 3%nat in
        let st1 := set_store (RoomStore.createRoom (roomStore cfg) now room i (store st)) st in
        let '(local, st2) := ensureLocalRoom cfg now (rnd 4%nat) room st1 in
        let st3 := set_localRooms (alter (add_conn i) room (localRooms st2)) st2 in
        let st4 := upd_ctx i (set_roomId (Some room)) st3 in
        let st5 := wsSend cfg i
                     (mkFrame (rnd 0%nat)
                        (ROOM_CREATED room (qrToken local) (qrExpUnixMs local)
                           (ROOM_MAX_PARTICIPANTS cfg))) st4 in
        broadcast cfg room
          (mkFrame (rnd 1%nat) (ROOM_STATS room 1 (ROOM_MAX_PARTICIPANTS cfg))) st5
  | JoinRequest room token qr lbl =>
      if truthy (roomId ctx) then wsSend cfg i (error_frame rnd "ERR_ALREADY_IN_ROOM" false) st
      else
        let effectiveToken := if truthy qr then qr else token in
        match effectiveToken with
        | None => st
        | Some tk =>
            if JoinTokens.is_empty tk then st else
            match JoinTokens.verifyJoinToken (JOIN_TOKEN_SECRET cfg) tk with
            | JoinTokens.Err code => wsSend cfg i (error_frame rnd code true) st
            | JoinTokens.Ok payload =>
                if negb (String.eqb (JoinTokens.rid payload) room)
                then wsSend cfg i (error_frame rnd "ERR_TOKEN_ROOM_MISMATCH" false) st
                else if JoinTokens.exp payload <? now
                then wsSend cfg i (error_frame rnd "ERR_TOKEN_EXPIRED" true) st
                else
                  let graceMs := 5000 in
                  let jtiTtlMs := Z.max 1 (JoinTokens.exp payload - now + graceMs) in
                  let '(fresh, d1) :=
                    RoomStore.markTokenJtiUsed (roomStore cfg) now room
                      (JoinTokens.jti payload) jtiTtlMs (store st) in
                  let st1 := set_store d1 st in
                  if negb fresh
                  then wsSend cfg i (error_frame rnd "ERR_TOKEN_REPLAY" true) st1
                  else
                    let '(joined, d2) :=
                      RoomStore.tryJoin (roomStore cfg) now room i (store st1) in
                    let st2 := set_store d2 st1 in
                    match joined with
                    | RoomStore.JoinErr code =>
                        wsSend cfg i
                          (error_frame rnd code (negb (String.eqb code "ERR_NO_ROOM"))) st2
                    | RoomStore.JoinOk count jlabel =>
                        let '(_, st3) := ensureLocalRoom cfg now (rnd 4%nat) room st2 in
                        let st4 := set_localRooms (alter (add_conn i) room (localRooms st3)) st3 in
                        let l := if truthy lbl then default jlabel lbl else jlabel in
                        let st5 :=
                          upd_ctx i (fun c => set_label (Some l) (set_roomId (Some room) c))
                            st4 in
                        let nextExp := now + ROOM_KEY_TTL_MS cfg in
                        let nextToken :=
                          JoinTokens.mintJoinToken (JOIN_TOKEN_SECRET cfg) room nextExp
                            (rnd 5%nat) in
                        let st6 := wsSend cfg i
                                     (mkFrame (rnd 0%nat)
                                        (JOINED room count (ROOM_MAX_PARTICIPANTS cfg) l
                                           nextToken nextExp)) st5 in
                        let st7 := broadcast cfg room
                                     (mkFrame (rnd 1%nat)
                                        (SYSTEM_MSG room
                                           ("this person has entered the chat with the name " ++ l)
                                           "info")) st6 in
                        broadcast cfg room
                          (mkFrame (rnd 2%nat)
                             (ROOM_STATS room count (ROOM_MAX_PARTICIPANTS cfg))) st7
                    end
            end
        end
  | Leave room =>
      let st1 := leaveRoom cfg now rnd i room st in
      wsSend cfg i (mkFrame (rnd 0%nat) (LEFT room)) st1
  | AppMsg room ciphertextB64 =>
      if negb (bool_decide (roomId ctx = Some room))
      then wsSend cfg i (error_frame rnd "ERR_NOT_IN_ROOM" false) st
      else
        let ctBytes := Z.of_nat (String.length ciphertextB64) in
        if MAX_APP_CIPHERTEXT_BYTES cfg <? ctBytes
        then wsSend cfg i (error_frame rnd "ERR_CIPHERTEXT_TOO_LARGE" false) st
        else broadcast cfg room (mkFrame (rnd 1%nat) (APP_MSG room ciphertextB64)) st
  | MediaMsg room mime size chunkSize chunks =>
      if negb (bool_decide (roomId ctx = Some room))
      then wsSend cfg i (error_frame rnd "ERR_NOT_IN_ROOM" false) st
      else
        let totalChunkBytes :=
          foldl (fun acc c => acc + Z.of_nat (String.length c)) 0 chunks in
        let MAX_RELAY_BYTES := 14 * 1024 * 1024 in
        if MAX_RELAY_BYTES <? totalChunkBytes
        then wsSend cfg i (error_frame rnd "ERR_MEDIA_TOO_LARGE" false) st
        else broadcast cfg room
               (mkFrame (rnd 1%nat) (MEDIA_MSG room mime size chunkSize chunks)) st
  end.

Definition close_ctx (i : string) (code : Z) (reason : string) (st : State) : State :=
  upd_ctx i (on_ws (ws_close code reason)) st.

(** The [message] listener of the socket of connection [i]. *)
Definition onMessage (cfg : Config) (now : Z) (rnd : nat -> string) (i raw : string)
    (st : State) : State :=
  match ctxs st !! i with
  | None => st
  | Some ctx =>
      let bytes := Z.of_nat (String.length raw) in
      if MAX_WS_MSG_BYTES cfg <? bytes then close_ctx i 1008 "message too large" st else
      let '(ok1, mb) := TokenBucket.take now 1 (msgBucket ctx) in
      let st1 := upd_ctx i (set_msgBucket mb) st in
      if negb ok1 then close_ctx i 1008 "rate limit exceeded" st1 else
      let '(ok2, bb) := TokenBucket.take now bytes (bytesBucket ctx) in
      let st2 := upd_ctx i (set_bytesBucket bb) st1 in
      if negb ok2 then close_ctx i 1008 "rate limit exceeded" st2 else
      match parseClientMsg raw with
      | None => close_ctx i 1003 "invalid message" st2
      | Some msg =>
          let st3 :=
            if truthy (roomId ctx)
            then set_store (RoomStore.touch (roomStore cfg) now (default EmptyString (roomId ctx))
                              (store st2)) st2
            else st2 in
          handle cfg now rnd i ctx msg st3
      end
  end.

Inductive Admission :=
| Accepted
| Rejected (code : Z) (reason : string).

(** The route handler up to the registration of the listeners;
    [i] is the connection id drawn for an accepted socket. *)
Definition onConnection (cfg : Config) (now : Z) (rnd : nat -> string) (i ip0 : string)
    (st : State) : State * Admission :=
  let '(ok1, gl) := GlobalConnectionLimiter.tryInc (globalLimiter st) in
  if negb ok1 then (st, Rejected 1008 "server at capacity") else
  let '(ok2, il) := IpConnectionLimiter.tryInc ip0 (ipLimiter st) in
  if negb ok2 then
    (mkState (ctxs st) (connections st) (disconnected st) (localRooms st) (store st)
             (ipLimiter st) (GlobalConnectionLimiter.dec gl),
     Rejected 1008 "too many connections from your IP")
  else
    let ctx :=
      mkCtx i ip0 (mkSocket OPEN 0 [] None false 0) None None
            (TokenBucket.new (MAX_MSGS_PER_10S cfg) (MAX_MSGS_PER_10S cfg) 10000 now)
            (TokenBucket.new (MAX_BYTES_PER_10S cfg) (MAX_BYTES_PER_10S cfg) 10000 now)
            now false in
    let st1 := mkState (<[i := ctx]> (ctxs st)) ({[i]} ∪ connections st)
                       (disconnected st ∖ {[i]}) (localRooms st) (store st) il gl in
    (wsSend cfg i (mkFrame (rnd 0%nat) (HELLO now)) st1, Accepted).

(** The [pong] listener. *)
Definition onPong (now : Z) (i : string) (st : State) : State :=
  upd_ctx i (set_pong now false) st.

(** The body of the loop of the keep-alive timer, for one context. *)
Definition ping_one (cfg : Config) (now : Z) (c : ConnCtx) : ConnCtx :=
  if negb (readyState (ws c) =? OPEN) then c
  else if awaitingPong c && (WS_PING_TIMEOUT_MS cfg <? now - lastPongMs c)
  then on_ws ws_terminate c
  else on_ws ws_ping (set_pong (lastPongMs c) true c).

(** One tick of [pingTimer]: every entry of [connections] is visited. *)
Definition pingSweep (cfg : Config) (now : Z) (st : State) : State :=
  mkState (map_imap (fun i c => Some (if decide (i ∈ connections st)
                                      then ping_one cfg now c else c))
             (ctxs st))
          (connections st) (disconnected st) (localRooms st) (store st)
          (ipLimiter st) (globalLimiter st).

(** What the transport does to a socket between two handlers. *)
Definition onNetwork (i : string) (rs buffered : Z) (st : State) : State :=
  upd_ctx i (on_ws (fun s => mkSocket rs buffered (sent s) (closed s) (terminated s) (pings s))) st.

Inductive Event :=
| EvConnect (i ip0 : string)
| EvMessage (i raw : string)
| EvPong (i : string)
| EvClose (i : string)
| EvError (i : string)
| EvPingTick
| EvQrTick (room : string)
| EvNetwork (i : string) (rs buffered : Z).

Definition step (cfg : Config) (now : Z) (rnd : nat -> string) (ev : Event) (st : State) : State :=
  match ev with
  | EvConnect i ip0 => fst (onConnection cfg now rnd i ip0 st)
  | EvMessage i raw => onMessage cfg now rnd i raw st
  | EvPong i => onPong now i st
  | EvClose i => onCloseOrError cfg now rnd i st
  | EvError i => onCloseOrError cfg now rnd i st
  | EvPingTick => pingSweep cfg now st
  | EvQrTick room => rotateQr cfg now rnd room st
  | EvNetwork i rs buffered => onNetwork i rs buffered st
  end.

(** A run: the events in order, each with its clock reading and draws. *)
Definition run (cfg : Config) (evs : list (Z * (nat -> string) * Event)) (st : State) : State :=
  foldl (fun s e => step cfg (fst (fst e)) (snd (fst e)) (snd e) s) st evs.

(** An id is drawn fresh when a socket is accepted, and events reach
    only sockets that were accepted. *)
Definition admissible (ev : Event) (st : State) : Prop :=
  match ev with
  | EvConnect i _ => ctxs st !! i = None
  | _ => True
  end.

Inductive reachable (cfg : Config) : State -> Prop :=
| reach_init : reachable cfg (init cfg)
| reach_step st now rnd ev :
    reachable cfg st -> admissible ev st -> reachable cfg (step cfg now rnd ev st).

Definition outbox (i : string) (st : State) : list Frame :=
  match ctxs st !! i with
  | Some c => sent (ws c)
  | None => []
  end.

(** The connections a broadcast to [room] reaches: members of the
    router's snapshot that are registered, open and not backed up. *)
Definition receives (cfg : Config) (room i : string) (st : State) : Prop :=
  exists r c, localRooms st !! room = Some r /\ i ∈ conns r /\
              connections_get i st = Some c /\
              readyState (ws c) = OPEN /\ slow cfg (ws c) = false.

End Ws.

(** ** Runs of the room store and of the keep-alive timer *)

Module StoreRun.
Import Redis RoomStore.

Inductive Op :=
| Create (room c : string)
| CreateEmpty (room : string)
| Join (room c : string)
| LeaveRoom (room c : string)
| Touch (room : string)
| Mark (room j : string) (ttl : Z).

Definition apply (rs : RoomStore.t) (now : Z) (o : Op) (d : db) : db :=
  match o with
  | Create room c => createRoom rs now room c d
  | CreateEmpty room => createRoomEmpty rs now room d
  | Join room c => snd (tryJoin rs now room c d)
  | LeaveRoom room c => snd (leave rs now room c d)
  | Touch room => touch rs now room d
  | Mark room j ttl => snd (markTokenJtiUsed rs now room j ttl d)
  end.

(** Both callers that create a room do so under an id they have just
    drawn at random: no members key is live under it. *)
Definition allowed (now : Z) (o : Op) (d : db) : Prop :=
  match o with
  | Create room _ | CreateEmpty room => members (expire now d) !! room = None
  | _ => True
  end.

Inductive reachable (rs : RoomStore.t) : db -> Prop :=
| reach_empty : reachable rs Redis.empty
| reach_apply d now o : reachable rs d -> allowed now o d -> reachable rs (apply rs now o d).

(** The members key and the count key of a room agree and expire
    together. *)
Definition aligned_at (rs : RoomStore.t)
    (me : option (Entry (gset string))) (ce : option (Entry Z)) : Prop :=
  match me with
  | Some em =>
      ce = Some (mkEntry (Z.of_nat (size (value em))) (expireAt em)) /\
      Z.of_nat (size (value em)) <= maxParticipants rs
  | None =>
      match ce with
      | Some ec => value ec = 0
      | None => True
      end
  end.

Definition aligned (rs : RoomStore.t) (d : db) (room : string) : Prop :=
  aligned_at rs (members d !! room) (count d !! room).

(** The marker of [(room, j)] is readable at [now]. *)
Definition marker_live (now : Z) (room j : string) (d : db) : Prop :=
  exists e, jti d !! (room, j) = Some e /\ live now e = true.

(** Store operations up to time [t1] none of which is a leave of
    [room] that reports no remaining member. *)
Inductive quiet (rs : RoomStore.t) (room : string) (t1 : Z) : db -> db -> Prop :=
| quiet_refl d : quiet rs room t1 d d
| quiet_step d d' now o :
    quiet rs room t1 d d' -> now <= t1 ->
    (forall c, o = LeaveRoom room c -> fst (leave rs now room c d') <> 0) ->
    quiet rs room t1 d (apply rs now o d').

(** An entry with its expiry moved to [t]. *)
Definition stamp {A} (t : Z) (e : Entry A) : Entry A := mkEntry (value e) (Some t).

End StoreRun.

Module Meters.
Import Ws.

(** Sockets that were accepted and whose disconnect has not run. *)
Definition live_ids (st : State) : gset string := dom (ctxs st) ∖ disconnected st.

Definition ip_of (st : State) (i : string) : option string := ip <$> (ctxs st !! i).

Definition live_on (ip0 : string) (st : State) : gset string :=
  filter (fun i => ip_of st i = Some ip0) (live_ids st).

Definition exact (st : State) : Prop :=
  GlobalConnectionLimiter.count (globalLimiter st) = Z.of_nat (size (live_ids st)) /\
  (forall ip0,
     IpConnectionLimiter.getCount ip0 (ipLimiter st) = Z.of_nat (size (live_on ip0 st))) /\
  connections st = live_ids st.

End Meters.

Module Wire.
Import Ws.

(** The codes the server puts in ERROR frames. *)
Definition codes : list string :=
  ["ERR_ALREADY_IN_ROOM"; "ERR_NOT_IN_ROOM"; "ERR_NO_ROOM"; "ERR_ROOM_FULL";
   "ERR_TOKEN_FORMAT"; "ERR_TOKEN_MAC"; "ERR_TOKEN_EXPIRED"; "ERR_TOKEN_REPLAY";
   "ERR_TOKEN_ROOM_MISMATCH"; "ERR_CIPHERTEXT_TOO_LARGE"; "ERR_MEDIA_TOO_LARGE"].

(** The same names as the specification lists them. *)
Definition spec_codes : list string :=
  ["ALREADY_IN_ROOM"; "NOT_IN_ROOM"; "NO_ROOM"; "ROOM_FULL";
   "TOKEN_FORMAT"; "TOKEN_MAC"; "TOKEN_EXPIRED"; "TOKEN_REPLAY";
   "TOKEN_ROOM_MISMATCH"; "CIPHERTEXT_TOO_LARGE"; "MEDIA_TOO_LARGE"].

Definition frame_ok (f : Frame) : Prop :=
  match body f with
  | ERROR code _ => In code codes
  | _ => True
  end.

Definition errors_ok (st : State) : Prop :=
  forall i f, In f (outbox i st) -> frame_ok f.

(** Every frame of [st] was already sent in [st0] or is well formed. *)
Definition extends (st0 st : State) : Prop :=
  forall i f, In f (outbox i st) -> In f (outbox i st0) \/ frame_ok f.

End Wire.

Module KeepAlive.
Import Ws.

(** [n] consecutive ticks of the keep-alive timer, the first at [t0]. *)
Fixpoint sweeps (cfg : Config) (t0 : Z) (n : nat) (st : State) : State :=
  match n with
  | O => st
  | S m => sweeps cfg (t0 + WS_PING_INTERVAL_MS cfg) m (pingSweep cfg t0 st)
  end.

Definition is_terminated (i : string) (st : State) : Prop :=
  exists c, ctxs st !! i = Some c /\ terminated (ws c) = true.

End KeepAlive.

Module Trace.
Import Ws.

(** Every socket of the run is accepted under an id not used before. *)
Fixpoint admissible_run (cfg : Config) (evs : list (Z * (nat -> string) * Event))
    (st : State) : Prop :=
  match evs with
  | [] => True
  | e :: r =>
      admissible (snd e) st /\
      admissible_run cfg r (step cfg (fst (fst e)) (snd (fst e)) (snd e) st)
  end.

End Trace.

(** ** A run of the relay with literal values

    The default configuration; A creates a room, B joins it with the
    room's token under the label bob, A sends a message, and a third
    socket replays B's token. *)

Module Scenario.
Import Ws.

Definition cfg : Config :=
  mkConfig "0123456789abcdef0123456789abcdef" 10 600000 60000 262144 65536
           200 1048576 50 10000 30000 5000.

(** The random draws of one step, told apart by a tag. *)
Definition rnd (tag : string) (n : nat) : string :=
  match n with
  | 3%nat => "cm9vbS1pZC0wMDAwMDAwMQ"
  | 4%nat => ("anRpLTAwMDAwMDAwMDAwMQ" ++ tag)%string
  | 5%nat => ("bmV4dC0wMDAwMDAwMDAwMQ" ++ tag)%string
  | _ => ("ZnJhbWU" ++ tag)%string
  end.

(** The same with a keep-alive tick every 3 s. *)
Definition cfg3 : Config :=
  mkConfig "0123456789abcdef0123456789abcdef" 10 600000 60000 262144 65536
           200 1048576 50 10000 3000 5000.

(** The same with rooms of one participant. *)
Definition cfg1 : Config :=
  mkConfig "0123456789abcdef0123456789abcdef" 1 600000 60000 262144 65536
           200 1048576 50 10000 30000 5000.

Definition R : string := "cm9vbS1pZC0wMDAwMDAwMQ".

Definition frame (t : string) (body : JSON.value) : string :=
  JSON.stringify
    (JSON.Obj [("v", JSON.Num 1); ("t", JSON.Str t); ("id", JSON.Str "req-00000001");
               ("body", body)]).

(** The token that ROOM_CREATED hands to A. *)
Definition T0 : string :=
  JoinTokens.mintJoinToken (JOIN_TOKEN_SECRET cfg) R 62000 "anRpLTAwMDAwMDAwMDAwMQa".

Definition join_frame (lbl : string) : string :=
  frame "JOIN_REQUEST"
    (JSON.Obj [("roomId", JSON.Str R); ("token", JSON.Str T0); ("label", JSON.Str lbl)]).

Definition app_frame : string :=
  frame "APP_MSG" (JSON.Obj [("roomId", JSON.Str R); ("ciphertextB64", JSON.Str "AAA")]).

Definition created : list (Z * (nat -> string) * Event) :=
  [ (1000, rnd "1", EvConnect "connA" "10.0.0.1");
    (2000, rnd "a", EvMessage "connA" (frame "ROOM_CREATE" (JSON.Obj [])));
    (3000, rnd "3", EvConnect "connB" "10.0.0.2") ].

Definition joined : list (Z * (nat -> string) * Event) :=
  created ++ [ (4000, rnd "b", EvMessage "connB" (join_frame "bob")) ].

Definition relayed : list (Z * (nat -> string) * Event) :=
  joined ++ [ (5000, rnd "c", EvMessage "connA" app_frame) ].

Definition replayed : list (Z * (nat -> string) * Event) :=
  relayed ++ [ (6000, rnd "5", EvConnect "connC" "10.0.0.2");
               (7000, rnd "d", EvMessage "connC" (join_frame "eve")) ].

End Scenario.

Module WsRel.
Import Ws.

(** Two states with the same sockets table, meters and addresses. *)
Definition conn_shape (st st' : State) : Prop :=
  connections st' = connections st /\ disconnected st' = disconnected st /\
  ipLimiter st' = ipLimiter st /\ globalLimiter st' = globalLimiter st /\
  forall i, ip <$> (ctxs st' !! i) = ip <$> (ctxs st !! i).

Definition blank : Socket := mkSocket 0 0 [] None false 0.

(** States that differ in the socket objects only. *)
Definition ws_only (st st' : State) : Prop :=
  connections st' = connections st /\ disconnected st' = disconnected st /\
  localRooms st' = localRooms st /\ store st' = store st /\
  ipLimiter st' = ipLimiter st /\ globalLimiter st' = globalLimiter st /\
  forall i, on_ws (fun _ => blank) <$> (ctxs st' !! i) = on_ws (fun _ => blank) <$> (ctxs st !! i).

(** The sockets [broadcast] writes to: tracked, open and not slow. *)
Definition reached (cfg : Config) (st : State) (j : string) : bool :=
  match connections_get j st with
  | Some c => (readyState (ws c) =? OPEN) && negb (slow cfg (ws c))
  | None => false
  end.

(** The connections of the router's room before a join. *)
Definition conns_of (room : string) (st : State) : gset string :=
  from_option conns ∅ (localRooms st !! room).

(** A join request that passes the token checks of the handler. *)
Definition presentable (cfg : Config) (now : Z) (ctx : ConnCtx) (room : string)
    (token qr : option string) (payload : JoinTokens.JoinTokenPayload) : Prop :=
  WsTypes.truthy (roomId ctx) = false /\
  exists tk, (if WsTypes.truthy qr then qr else token) = Some tk /\
    JoinTokens.is_empty tk = false /\
    JoinTokens.verifyJoinToken (JOIN_TOKEN_SECRET cfg) tk = JoinTokens.Ok payload /\
    JoinTokens.rid payload = room /\ now <= JoinTokens.exp payload.

End WsRel.

(** ** HTTP request limiter (src/security/rateLimit.ts, class HttpRateLimiter)

    The interval timer of the constructor calls [cleanup]; a tick of it is
    an event of a run. *)

Module HttpRateLimiter.

Record Window := mkWindow { count : Z; resetAt : Z }.

Record t := mk { maxRequests : Z; windowMs : Z; windows : gmap string Window }.

Definition new (maxRequests0 windowMs0 : Z) : t := mk maxRequests0 windowMs0 ∅.

Definition set_windows (m : gmap string Window) (l : t) : t :=
  mk (maxRequests l) (windowMs l) m.

(** [check(ip)]: the answer and the limiter afterwards. *)
Definition check (now : Z) (ip : string) (l : t) : bool * t :=
  let opened :=
    (true, set_windows (<[ip := mkWindow 1 (now + windowMs l)]> (windows l)) l) in
  match windows l !! ip with
  | None => opened
  | Some entry =>
      if resetAt entry <? now then opened
      else if maxRequests l <=? count entry then (false, l)
      else (true,
            set_windows (<[ip := mkWindow (count entry + 1) (resetAt entry)]> (windows l)) l)
  end.

(** [cleanup()]: the entries with [now > resetAt] are deleted. *)
Definition cleanup (now : Z) (l : t) : t :=
  set_windows (filter (fun kv => ~ (resetAt kv.2 < now)) (windows l)) l.

Inductive Ev :=
| Check (now : Z) (ip : string)
| Cleanup (now : Z).

Definition time_of (e : Ev) : Z :=
  match e with
  | Check now _ => now
  | Cleanup now => now
  end.

Definition apply (e : Ev) (l : t) : t :=
  match e with
  | Check now ip => snd (check now ip l)
  | Cleanup now => cleanup now l
  end.

Definition run (evs : list Ev) (l : t) : t := foldl (fun s e => apply e s) l evs.

(** The number of requests of [ip] that a run of events lets through. *)
Fixpoint accepted (ip : string) (evs : list Ev) (l : t) : Z :=
  match evs with
  | [] => 0
  | e :: r =>
      (match e with
       | Check now ip' => if String.eqb ip' ip && fst (check now ip' l) then 1 else 0
       | Cleanup _ => 0
       end) + accepted ip r (apply e l)
  end.

(** Every window was opened by a request. *)
Definition sound (l : t) : Prop :=
  forall ip e, windows l !! ip = Some e -> 1 <= count e.

(** What [ip] can still get through at times in [a, a + windowMs]. *)
Definition budget (a : Z) (ip : string) (l : t) : Z :=
  match windows l !! ip with
  | None => Z.max 1 (maxRequests l)
  | Some e =>
      if a + windowMs l <=? resetAt e then Z.max 0 (maxRequests l - count e)
      else Z.max 0 (maxRequests l - count e) + Z.max 1 (maxRequests l)
  end.

End HttpRateLimiter.

(** ** The request hooks of [registerHttpRateLimit] (src/middleware/security.ts) *)

Module HttpRateLimit.

Record State := mkState { limiter : HttpRateLimiter.t; activeRequests : Z }.

Definition MAX_CONCURRENT : Z := 500.

Definition init : State := mkState (HttpRateLimiter.new 200 60000) 0.

(** What the [onRequest] hook does with the request: it lets it through
    or replies with a status and a [retryAfter] hint. *)
Inductive Outcome :=
| Continue
| Reply (code retryAfter : Z).

(** [upgrade] is the request's [upgrade] header, [ip] is [req.ip]. *)
Definition onRequest (now : Z) (upgrade : option string) (ip : string) (st : State)
    : Outcome * State :=
  if bool_decide (upgrade = Some "websocket") then (Continue, st) else
  if MAX_CONCURRENT <=? activeRequests st then (Reply 503 2, st) else
  let active1 := activeRequests st + 1 in
  let '(ok, l) := HttpRateLimiter.check now ip (limiter st) in
  if negb ok then (Reply 429 60, mkState l (active1 - 1))
  else (Continue, mkState l active1).

Definition onResponse (st : State) : State :=
  if 0 <? activeRequests st then mkState (limiter st) (activeRequests st - 1) else st.

Definition onError (st : State) : State :=
  if 0 <? activeRequests st then mkState (limiter st) (activeRequests st - 1) else st.

Inductive Hook :=
| OnRequest (now : Z) (upgrade : option string) (ip : string)
| OnResponse
| OnError.

Definition apply (h : Hook) (st : State) : State :=
  match h with
  | OnRequest now upgrade ip => snd (onRequest now upgrade ip st)
  | OnResponse => onResponse st
  | OnError => onError st
  end.

Definition run (hs : list Hook) (st : State) : State := foldl (fun s h => apply h s) st hs.

(** The number of requests of [ip] that a sequence of hooks lets through
    to a route. *)
Fixpoint passed (ip : string) (hs : list Hook) (st : State) : Z :=
  match hs with
  | [] => 0
  | h :: r =>
      (match h with
       | OnRequest now upgrade ip' =>
           if String.eqb ip' ip && negb (bool_decide (upgrade = Some "websocket")) then
             match fst (onRequest now upgrade ip' st) with
             | Continue => 1
             | Reply _ _ => 0
             end
           else 0
       | _ => 0
       end) + passed ip r (apply h st)
  end.

Definition time_of (h : Hook) : option Z :=
  match h with
  | OnRequest now _ _ => Some now
  | _ => None
  end.

End HttpRateLimit.

(** ** Runs of the connection meters and of a token bucket *)

Module MeterRun.

Inductive Op :=
| Inc (ip : string)
| Dec (ip : string).

Definition ip_apply (o : Op) (l : IpConnectionLimiter.t) : IpConnectionLimiter.t :=
  match o with
  | Inc ip => snd (IpConnectionLimiter.tryInc ip l)
  | Dec ip => IpConnectionLimiter.dec ip l
  end.

Definition ip_run (ops : list Op) (l : IpConnectionLimiter.t) : IpConnectionLimiter.t :=
  foldl (fun s o => ip_apply o s) l ops.

Definition global_apply (o : Op) (l : GlobalConnectionLimiter.t) : GlobalConnectionLimiter.t :=
  match o with
  | Inc _ => snd (GlobalConnectionLimiter.tryInc l)
  | Dec _ => GlobalConnectionLimiter.dec l
  end.

Definition global_run (ops : list Op) (l : GlobalConnectionLimiter.t)
    : GlobalConnectionLimiter.t :=
  foldl (fun s o => global_apply o s) l ops.

(** No entry at or below zero, none above the bound. *)
Definition ip_sound (l : IpConnectionLimiter.t) : Prop :=
  forall ip v, IpConnectionLimiter.counts l !! ip = Some v ->
    1 <= v <= IpConnectionLimiter.maxPerIp l.

Definition global_sound (l : GlobalConnectionLimiter.t) : Prop :=
  0 <= GlobalConnectionLimiter.count l <= Z.max 0 (GlobalConnectionLimiter.max l).

End MeterRun.

Module BucketRun.
Import TokenBucket.

(** The bucket after the calls [take(n)] of [reqs], each at its time. *)
Fixpoint after (reqs : list (Z * Z)) (b : TokenBucket.t) : TokenBucket.t :=
  match reqs with
  | [] => b
  | (now, n) :: r => after r (snd (take now n b))
  end.

(** The tokens handed out by those calls: [n] for each call with a
    positive [n] that answers [true]. *)
Fixpoint granted (reqs : list (Z * Z)) (b : TokenBucket.t) : Z :=
  match reqs with
  | [] => 0
  | (now, n) :: r =>
      (if fst (take now n b) then Z.max 0 n else 0) + granted r (snd (take now n b))
  end.

(** The tokens at hand plus those that refills can still add up to [T]. *)
Definition potential (T : Z) (b : TokenBucket.t) : Z :=
  tokens (state b) + refillTokens b * Z.max 0 ((T - lastRefillMs (state b)) / refillEveryMs b).

Definition sound (b : TokenBucket.t) : Prop :=
  0 < refillEveryMs b /\ 0 <= refillTokens b /\ 0 <= tokens (state b) <= capacity b.

End BucketRun.

(** ** Text of tokens: the URL-safe alphabet and the count of a character *)

Module TokenText.

(** The characters [A-Z], [a-z], [0-9], [-] and [_]. *)
Definition url_safe (c : ascii) : bool :=
  let n := N_of_ascii c in
  ((65 <=? n) && (n <=? 90) || (97 <=? n) && (n <=? 122) || (48 <=? n) && (n <=? 57)
   || (n =? 45) || (n =? 95))%N.

Definition all_url_safe (s : string) : bool := forallb url_safe (list_ascii_of_string s).

Fixpoint occurrences (c : ascii) (s : string) : nat :=
  match s with
  | EmptyString => 0
  | String x r => ((if (x =? c)%char then 1 else 0) + occurrences c r)%nat
  end.

End TokenText.

(** ** Who is in which room of the router *)

Module Membership.
Import Ws.

(** Every connection id that a room of the router holds belongs to a
    context whose current room is that room, and no room of the router
    goes by the empty id. *)
Definition tracked (st : State) : Prop :=
  (forall room r j, localRooms st !! room = Some r -> j ∈ conns r ->
     exists c, ctxs st !! j = Some c /\ roomId c = Some room) /\
  localRooms st !! EmptyString = None.

(** The room ids drawn during a run are not empty ([randomIdB64Url(12)]
    has sixteen characters). *)
Definition named_rooms (evs : list (Z * (nat -> string) * Event)) : Prop :=
  Forall (fun e => snd (fst e) 3%nat <> EmptyString) evs.

End Membership.

(** ** Sockets the server may write to *)

Module Backpressure.
Import Ws.

(** [wsSend] and [sendNext] write to a socket only if it is open and
    its send buffer holds no more than four maximal frames. *)
Definition writable (cfg : Config) (c : ConnCtx) : bool :=
  (readyState (ws c) =? OPEN) && negb (slow cfg (ws c)).

(** The socket of [j] is not writable and has been sent the frames [s0]. *)
Definition held (cfg : Config) (j : string) (s0 : list Frame) (st : State) : Prop :=
  exists c, ctxs st !! j = Some c /\ sent (ws c) = s0 /\ writable cfg c = false.

(** A socket operation that sends nothing and does not reopen. *)
Definition silent (f : Socket -> Socket) : Prop :=
  forall s, sent (f s) = sent s /\ bufferedAmount (f s) = bufferedAmount s /\
            (readyState (f s) = readyState s \/ readyState (f s) <> OPEN).

End Backpressure.

(** ** A peer that answers every ping *)

Module Heartbeat.
Import Ws.

(** Ticks of the keep-alive timer, each followed by the pong of
    connection [i]: a pair holds the time of the tick and the time at
    which the pong is handled. *)
Fixpoint answered (cfg : Config) (i : string) (ticks : list (Z * Z)) (st : State) : State :=
  match ticks with
  | [] => st
  | (t, tp) :: r => answered cfg i r (onPong tp i (pingSweep cfg t st))
  end.

End Heartbeat.

(** ** The HTTP routes for rooms (src/server.ts)

    [POST /rooms] and [GET /rooms/:roomId/token]; the room id and the
    jti are the values drawn by [randomIdB64Url(16)]. *)

Module HttpRooms.
Import Ws.

(** [POST /rooms]: the store afterwards (the reply carries the id). *)
Definition postRooms (cfg : Config) (now : Z) (roomId : string) (d : Redis.db) : Redis.db :=
  RoomStore.createRoomEmpty (roomStore cfg) now roomId d.

Inductive TokenReply :=
| NotFound (code : string)
| Served (roomId token : string) (expUnixMs : Z).

(** [GET /rooms/:roomId/token]: status 404 with a code, or the token. *)
Definition getRoomToken (cfg : Config) (now : Z) (jti0 roomId : string) (d : Redis.db)
    : TokenReply :=
  if negb (RoomStore.roomExists now roomId d) then NotFound "ERR_NO_ROOM"
  else
    let expUnixMs := now + 60000 in
    Served roomId (JoinTokens.mintJoinToken (JOIN_TOKEN_SECRET cfg) roomId expUnixMs jti0)
           expUnixMs.

End HttpRooms.

(** ** Frames that get past the message bucket *)

Module Flood.
Import Ws.

(** The message bucket of connection [i] is [b]. *)
Definition bucket_is (i : string) (b : TokenBucket.t) (st : State) : Prop :=
  exists c, ctxs st !! i = Some c /\ msgBucket c = b.

(** Whether the frame [raw] of connection [i] gets past the size check
    and the message bucket of the context [ctx]. *)
Definition passes (cfg : Config) (now : Z) (raw : string) (ctx : ConnCtx) : bool :=
  negb (MAX_WS_MSG_BYTES cfg <? Z.of_nat (String.length raw)) &&
  fst (TokenBucket.take now 1 (msgBucket ctx)).

(** The number of frames of connection [i] that do so during a run. *)
Fixpoint admitted (cfg : Config) (i : string) (evs : list (Z * (nat -> string) * Event))
    (st : State) : Z :=
  match evs with
  | [] => 0
  | e :: r =>
      (match snd e, ctxs st !! i with
       | EvMessage k raw, Some ctx =>
           if String.eqb k i && passes cfg (fst (fst e)) raw ctx then 1 else 0
       | _, _ => 0
       end) + admitted cfg i r (step cfg (fst (fst e)) (snd (fst e)) (snd e) st)
  end.

End Flood.

(** ** The size of a parsed frame *)

Module JsonSize.

(** The bytes of text a JSON value holds in its strings; the keys of
    objects are not counted. *)
Fixpoint weight (v : JSON.value) : nat :=
  match v with
  | JSON.Str s => String.length s
  | JSON.Arr l => list_sum (List.map weight l)
  | JSON.Obj l => list_sum (List.map (fun kv => weight (snd kv)) l)
  | _ => 0%nat
  end.

Definition members_weight (acc : list (string * JSON.value)) : nat :=
  list_sum (List.map (fun kv => weight (snd kv)) acc).

Definition elements_weight (acc : list JSON.value) : nat := list_sum (List.map weight acc).

(** [chunks.reduce((acc, c) => acc + Buffer.byteLength(c, "utf8"), 0)] *)
Definition totalChunkBytes (chunks : list string) : Z :=
  foldl (fun acc c => acc + Z.of_nat (String.length c)) 0 chunks.

Definition MAX_RELAY_BYTES : Z := 14 * 1024 * 1024.

End JsonSize.

(** ** Health checks (src/observability/health.ts, class HealthChecker)

    What the checks read from their surroundings is given to them: the
    outcome of [redis.ping()] (its latency in milliseconds, or the error
    it throws), the rounded figures of [process.memoryUsage()], and the
    rounded percentage of the connection ceiling in use. *)

Module HealthChecker.

Inductive CheckStatus := pass | warn | fail.

Inductive Overall := healthy | degraded | unhealthy.

Record HealthStatus := mkStatus {
  status : CheckStatus;
  message : option string;
  observedValue : option Z;
  observedUnit : option string
}.

(** [await this.redis.ping()] between two clock readings. *)
Inductive Ping :=
| Pong (latency : Z)
| Throws (errorMessage : option string).

Definition checkRedis (p : Ping) : HealthStatus :=
  match p with
  | Pong latency =>
      if 1000 <? latency
      then mkStatus warn (Some "Redis latency high") (Some latency) (Some "ms")
      else mkStatus pass None (Some latency) (Some "ms")
  | Throws m => mkStatus fail (Some (default "Redis connection failed" m)) None None
  end.

Definition isRedisReady (p : Ping) : bool :=
  match p with
  | Pong _ => true
  | Throws _ => false
  end.

Definition usage_text (heapUsedMB heapTotalMB heapUsagePercent : Z) : string :=
  (RoomStore.tostring heapUsedMB ++ "MB / " ++ RoomStore.tostring heapTotalMB ++ "MB ("
     ++ RoomStore.tostring heapUsagePercent ++ "%)")%string.

Definition checkMemory (heapUsedMB heapTotalMB heapUsagePercent : Z) : HealthStatus :=
  if 80 <? heapUsagePercent then
    mkStatus warn
      (Some ("High memory usage: "
             ++ usage_text heapUsedMB heapTotalMB heapUsagePercent)%string)
      (Some heapUsagePercent) (Some "percent")
  else if 95 <? heapUsagePercent then
    mkStatus fail
      (Some ("Critical memory usage: "
             ++ usage_text heapUsedMB heapTotalMB heapUsagePercent)%string)
      (Some heapUsagePercent) (Some "percent")
  else mkStatus pass None (Some heapUsedMB) (Some "MB").

(** [percent] is [Math.round((current / MAX_TOTAL_CONNECTIONS) * 100)]. *)
Definition checkConnections (percent current : Z) : HealthStatus :=
  if 90 <? percent then
    mkStatus warn (Some ("Connection capacity at " ++ RoomStore.tostring percent ++ "%")%string)
      (Some current) (Some "connections")
  else mkStatus pass None (Some current) (Some "connections").

Definition is_pass (h : HealthStatus) : bool :=
  match status h with pass => true | _ => false end.

Definition is_fail (h : HealthStatus) : bool :=
  match status h with fail => true | _ => false end.

Record HealthCheckResult := mkResult {
  overall : Overall;
  uptime : Z;
  redis : HealthStatus;
  memory : HealthStatus;
  connections : HealthStatus
}.

(** [checkHealth(currentConnections)]; [startTime] is the field of the
    checker. *)
Definition checkHealth (startTime now : Z) (p : Ping)
    (heapUsedMB heapTotalMB heapUsagePercent percent currentConnections : Z)
    : HealthCheckResult :=
  let redisHealth := checkRedis p in
  let memoryHealth := checkMemory heapUsedMB heapTotalMB heapUsagePercent in
  let connectionsHealth := checkConnections percent currentConnections in
  let allPassing := forallb is_pass [redisHealth; memoryHealth; connectionsHealth] in
  let anyFailing := existsb is_fail [redisHealth; memoryHealth; connectionsHealth] in
  let overallStatus :=
    if anyFailing then unhealthy else if allPassing then healthy else degraded in
  mkResult overallStatus ((now - startTime) / 1000) redisHealth memoryHealth connectionsHealth.

(** The status code of [GET /health]. *)
Definition healthStatusCode (r : HealthCheckResult) : Z :=
  match overall r with
  | healthy => 200
  | degraded => 200
  | unhealthy => 503
  end.

(** The status code of [GET /ready]. *)
Definition readyStatusCode (p : Ping) : Z := if isRedisReady p then 200 else 503.

End HealthChecker.

(** ** What the handler may assume of a parsed message *)

Module Bounds.
Import WsTypes.

Definition len (s : string) : Z := Z.of_nat (String.length s).

Definition within (lo hi : Z) (o : option string) : Prop :=
  forall s, o = Some s -> lo <= len s <= hi.

Definition within_bounds (msg : ClientMsg) : Prop :=
  match msg with
  | RoomCreate => True
  | Ping => True
  | JoinRequest roomId token qrToken label =>
      8 <= len roomId <= 128 /\ within 8 2048 token /\ within 8 2048 qrToken /\
      within 1 32 label /\ (is_Some token \/ is_Some qrToken)
  | Leave roomId => 8 <= len roomId <= 128
  | AppMsg roomId ciphertextB64 => 8 <= len roomId <= 128 /\ 1 <= len ciphertextB64 <= 200000
  | MediaMsg roomId mime size chunkSize chunks =>
      8 <= len roomId <= 128 /\ len mime <= 128 /\ 1 <= size <= 10485760 /\
      1024 <= chunkSize /\ (1 <= length chunks <= 128)%nat /\
      Forall (fun c => 1 <= len c) chunks
  end.

End Bounds.

(** * Properties *)

(** ** Token bucket *)

Section TokenBucketFacts.
Import TokenBucket.
Implicit Types (b : TokenBucket.t) (now n k : Z).

Lemma periods_at_zero b now :
  0 < refillEveryMs b -> periods_at now b = 0 -> refill now b = b.
Proof.
  unfold periods_at, refill. intros Hpos Hp.
  destruct (Z.leb_spec (now - lastRefillMs (state b)) 0) as [Hle|Hgt]; [done|].
  destruct (Z.leb_spec ((now - lastRefillMs (state b)) / refillEveryMs b) 0); [done|lia].
Qed.

Lemma periods_at_pos b now :
  0 < refillEveryMs b -> 0 < periods_at now b ->
  refill now b =
    with_state b
      (mkBucket (Z.min (capacity b) (tokens (state b) + periods_at now b * refillTokens b))
                (lastRefillMs (state b) + periods_at now b * refillEveryMs b)).
Proof.
  unfold periods_at, refill. intros Hpos Hp.
  destruct (Z.leb_spec (now - lastRefillMs (state b)) 0) as [Hle|Hgt].
  - exfalso.
    assert ((now - lastRefillMs (state b)) / refillEveryMs b <= 0)
      by (apply Z.div_le_upper_bound; lia).
    lia.
  - destruct (Z.leb_spec ((now - lastRefillMs (state b)) / refillEveryMs b) 0); [lia|].
    by rewrite Z.max_r by lia.
Qed.

Lemma take_pos b now n :
  0 < n ->
  take now n b =
    let b1 := refill now b in
    if n <=? tokens (state b1)
    then (true, with_state b1 (mkBucket (tokens (state b1) - n) (lastRefillMs (state b1))))
    else (false, b1).
Proof.
  intros Hn. unfold take. cbv zeta.
  destruct (Z.leb_spec n 0); [lia|].
  destruct (Z.ltb_spec (tokens (state (refill now b))) n),
           (Z.leb_spec n (tokens (state (refill now b)))); done || lia.
Qed.

Lemma take_nonpos b now n : n <= 0 -> take now n b = (true, refill now b).
Proof. intros Hn. unfold take. cbv zeta. by destruct (Z.leb_spec n 0); [|lia]. Qed.

Lemma idle_periods b now k :
  0 < refillEveryMs b -> 1 <= k -> lastRefillMs (state b) + k * refillEveryMs b <= now ->
  k <= periods_at now b.
Proof.
  intros Hpos Hk Hidle. unfold periods_at.
  assert (k <= (now - lastRefillMs (state b)) / refillEveryMs b)
    by (apply Z.div_le_lower_bound; lia).
  lia.
Qed.

Lemma refill_marker_close b now :
  0 < refillEveryMs b -> lastRefillMs (state b) <= now ->
  now - lastRefillMs (state (refill now b)) < refillEveryMs b /\
  lastRefillMs (state (refill now b)) <= now.
Proof.
  intros Hpos Hle. unfold refill.
  set (e := now - lastRefillMs (state b)).
  destruct (Z.leb_spec e 0); [subst e; lia|].
  destruct (Z.leb_spec (e / refillEveryMs b) 0) as [Hq|Hq].
  - assert (e / refillEveryMs b = 0) by (pose proof (Z.div_pos e (refillEveryMs b)); lia).
    apply Z.div_small_iff in H0; subst e; lia.
  - simpl. pose proof (Z.mod_pos_bound e (refillEveryMs b) Hpos).
    pose proof (Z.div_mod e (refillEveryMs b)). subst e. lia.
Qed.

Lemma refill_idem b now :
  0 < refillEveryMs b -> lastRefillMs (state b) <= now ->
  refill now (refill now b) = refill now b.
Proof.
  intros Hpos Hle. destruct (refill_marker_close b now Hpos Hle) as [H1 H2].
  set (b1 := refill now b) in *.
  assert (refillEveryMs b1 = refillEveryMs b) as He.
  { subst b1. unfold refill. repeat case_match; done. }
  apply periods_at_zero; [lia|]. unfold periods_at. rewrite He.
  rewrite Z.div_small by lia. done.
Qed.
End TokenBucketFacts.

(** C5 (amended).  [take(n)] first refills lazily: with
    [periods = floor(elapsed / interval)] clamped at zero, a positive
    [periods] adds [periods * refillTokens] capped at [capacity] and moves
    the marker by [periods * interval], and otherwise nothing changes.  For
    [n >= 1] it then answers whether the available tokens are at least [n]
    and deducts [n] exactly when it answers true; for [n <= 0] it answers
    true and deducts nothing.  For a bucket with
    [1 <= capacity <= refillTokens], as every bucket the relay builds, after
    [k >= 1] idle intervals [take(capacity)] succeeds and the [take(1)] that
    follows at once fails. *)
Theorem token_bucket_contract (b : TokenBucket.t) (now n : Z) :
  0 < TokenBucket.refillEveryMs b ->
  let p := TokenBucket.periods_at now b in
  let b1 := TokenBucket.refill now b in
  let r := TokenBucket.take now n b in
  (p = 0 -> b1 = b) /\
  (0 < p ->
     TokenBucket.tokens (TokenBucket.state b1) =
       Z.min (TokenBucket.capacity b)
             (TokenBucket.tokens (TokenBucket.state b) + p * TokenBucket.refillTokens b) /\
     TokenBucket.lastRefillMs (TokenBucket.state b1) =
       TokenBucket.lastRefillMs (TokenBucket.state b) + p * TokenBucket.refillEveryMs b) /\
  (0 < n ->
     fst r = (n <=? TokenBucket.tokens (TokenBucket.state b1)) /\
     TokenBucket.tokens (TokenBucket.state (snd r)) =
       (if fst r then TokenBucket.tokens (TokenBucket.state b1) - n
        else TokenBucket.tokens (TokenBucket.state b1))) /\
  (n <= 0 -> r = (true, b1)) /\
  (forall k, 1 <= k ->
     1 <= TokenBucket.capacity b <= TokenBucket.refillTokens b ->
     0 <= TokenBucket.tokens (TokenBucket.state b) ->
     TokenBucket.lastRefillMs (TokenBucket.state b) + k * TokenBucket.refillEveryMs b <= now ->
     let r1 := TokenBucket.take now (TokenBucket.capacity b) b in
     fst r1 = true /\ fst (TokenBucket.take now 1 (snd r1)) = false).
Proof.
  intros Hpos p b1 r. split; [|split; [|split; [|split]]].
  - by apply periods_at_zero.
  - intros Hp. subst b1. by rewrite periods_at_pos.
  - intros Hn. subst r b1. rewrite take_pos by done. cbv zeta. by case_match.
  - intros Hn. by apply take_nonpos.
  - intros k Hk Hcap Htok0 Hidle r1.
    pose proof (idle_periods b now k Hpos Hk Hidle) as Hp.
    assert (TokenBucket.lastRefillMs (TokenBucket.state b) <= now) as Hle by nia.
    destruct (refill_marker_close b now Hpos Hle) as [Hc1 Hc2].
    assert (TokenBucket.tokens (TokenBucket.state (TokenBucket.refill now b))
            = TokenBucket.capacity b) as Htok.
    { rewrite periods_at_pos by lia. simpl. apply Z.min_l. nia. }
    assert (TokenBucket.refillEveryMs (TokenBucket.refill now b) = TokenBucket.refillEveryMs b)
      as He.
    { unfold TokenBucket.refill. repeat case_match; done. }
    subst r1. rewrite (take_pos b) by lia. cbv zeta.
    rewrite Htok, Z.leb_refl. cbn [fst snd]. split; [done|].
    rewrite take_pos by lia. cbv zeta.
    rewrite periods_at_zero.
    + simpl. rewrite Z.sub_diag. done.
    + simpl. lia.
    + unfold TokenBucket.periods_at. simpl. rewrite He.
      rewrite Z.div_small by lia. done.
Qed.

(** An instance: a drained bucket of capacity 200 that refills 200 tokens
    every ten seconds, left alone for three intervals. *)
Lemma token_bucket_contract_witness :
  let b := TokenBucket.mk 200 200 10000 (TokenBucket.mkBucket 0 0) in
  fst (TokenBucket.take 30000 200 b) = true /\
  fst (TokenBucket.take 30000 1 (snd (TokenBucket.take 30000 200 b))) = false.
Proof.
  intros b.
  assert (0 < TokenBucket.refillEveryMs b) as Hpos by (simpl; lia).
  destruct (token_bucket_contract b 30000 1 Hpos) as (_ & _ & _ & _ & H).
  apply (H 3); simpl; lia.
Defined.

(** C5 as stated fails for a bucket whose refill is smaller than its
    capacity: drained at time 0 and left alone for one interval, a bucket
    of capacity 10 that refills 1 token per interval refuses
    [take(capacity)]. *)
Lemma token_bucket_small_refill :
  let b0 := TokenBucket.new 10 1 1000 0 in
  let b := snd (TokenBucket.take 0 10 b0) in
  fst (TokenBucket.take 0 10 b0) = true /\
  TokenBucket.lastRefillMs (TokenBucket.state b) + 1 * TokenBucket.refillEveryMs b = 1000 /\
  fst (TokenBucket.take 1000 (TokenBucket.capacity b) b) = false.
Proof. vm_compute. done. Qed.

(** ** base64url: decoding what was encoded *)

Section Base64Facts.
Import Buffer Base64Url.

Lemma list_ind3 {A} (P : list A -> Prop) :
  P [] -> (forall a, P [a]) -> (forall a b, P [a; b]) ->
  (forall a b c r, P r -> P (a :: b :: c :: r)) -> forall l, P l.
Proof.
  intros H0 H1 H2 H3.
  assert (forall l, P l /\ (forall a, P (a :: l)) /\ (forall a b, P (a :: b :: l))) as H.
  { induction l as [|x l (IH0 & IH1 & IH2)]; [by auto|].
    split; [apply IH1|]. split; [intros a; apply IH2|]. intros a b. by apply H3. }
  intros l. apply H.
Qed.

Lemma append_assoc (a b c : string) : ((a ++ b) ++ c = a ++ (b ++ c))%string.
Proof.
  induction a as [|x a IH]; [done|].
  change (String x ((a ++ b) ++ c) = String x (a ++ (b ++ c)))%string. by rewrite IH.
Qed.

Lemma append_nil_r (a : string) : (a ++ EmptyString)%string = a.
Proof.
  induction a as [|x a IH]; [done|].
  change (String x (a ++ EmptyString)%string = String x a). by rewrite IH.
Qed.

Lemma replaceAll_app c r a b :
  replaceAll c r (a ++ b) = (replaceAll c r a ++ replaceAll c r b)%string.
Proof.
  induction a as [|x a IH]; [done|].
  change (String x a ++ b)%string with (String x (a ++ b)%string).
  cbn [replaceAll]. rewrite IH.
  destruct (x =? c)%char; [|done]. by rewrite append_assoc.
Qed.

Lemma replaceAll_chars c d cs :
  replaceAll c (String d EmptyString) (string_of_list_ascii cs) =
    string_of_list_ascii (map (fun x => if (x =? c)%char then d else x) cs).
Proof.
  induction cs as [|x cs IH]; [done|]. cbn. rewrite IH. by destruct (x =? c)%char.
Qed.

Lemma replaceAll_absent c r cs :
  forallb (fun x => negb (x =? c)%char) cs = true ->
  replaceAll c r (string_of_list_ascii cs) = string_of_list_ascii cs.
Proof.
  induction cs as [|x cs IH]; [done|]. cbn. intros [Hx Hcs]%andb_true_iff.
  apply negb_true_iff in Hx. rewrite Hx, IH; done.
Qed.

(** The six-bit values, and what the two alphabets do with them. *)
Lemma sextet_cases (P : N -> bool) :
  forallb P (map N.of_nat (seq 0 64)) = true -> forall v, (v < 64)%N -> P v = true.
Proof.
  intros Hall v Hv. rewrite forallb_forall in Hall.
  apply Hall. apply in_map_iff. exists (N.to_nat v).
  split; [lia|]. apply in_seq. lia.
Qed.

Lemma url_char_spec v :
  (v < 64)%N ->
  url_char v = (if (b64char v =? "+")%char then "-"
                else if (b64char v =? "/")%char then "_" else b64char v)%char /\
  (b64char v =? "=")%char = false /\ (url_char v =? "=")%char = false /\
  (url_char v =? ".")%char = false /\
  unbase64 (if (if (url_char v =? "-")%char then "+"%char else url_char v) =? "_"
            then "/" else (if (url_char v =? "-")%char then "+"%char else url_char v))%char
    = Some v /\
  ((if (if (url_char v =? "-")%char then "+"%char else url_char v) =? "_"
    then "/" else (if (url_char v =? "-")%char then "+"%char else url_char v)) =? "=")%char
    = false.
Proof.
  intros Hv. split; [done|].
  pose proof (sextet_cases
    (fun v =>
       negb (b64char v =? "=")%char && negb (url_char v =? "=")%char &&
       negb (url_char v =? ".")%char &&
       match unbase64 (if (if (url_char v =? "-")%char then "+"%char else url_char v) =? "_"
                       then "/" else (if (url_char v =? "-")%char then "+"%char
                                      else url_char v))%char with
       | Some w => (w =? v)%N
       | None => false
       end &&
       negb ((if (if (url_char v =? "-")%char then "+"%char else url_char v) =? "_"
              then "/" else (if (url_char v =? "-")%char then "+"%char else url_char v))
             =? "=")%char)
    ltac:(vm_compute; reflexivity) v Hv) as H.
  cbv beta in H.
  apply andb_true_iff in H as [H H5]. apply andb_true_iff in H as [H H4].
  apply andb_true_iff in H as [H H3]. apply andb_true_iff in H as [H1 H2].
  apply negb_true_iff in H1, H2, H3, H5.
  repeat (split; [done|]). split; [|done].
  destruct (unbase64 _) as [w|]; [|done]. by apply N.eqb_eq in H4 as ->.
Qed.

Lemma sextets_lt l :
  Forall (fun b => (b < 256)%N) l -> Forall (fun v => (v < 64)%N) (sextets_of_bytes l).
Proof.
  induction l as [| a | a b | a b c r IH] using list_ind3; intros Hl.
  - constructor.
  - apply Forall_cons in Hl as [Ha _]. cbn.
    repeat constructor; [apply N.Div0.div_lt_upper_bound; lia|].
    pose proof (N.mod_upper_bound a 4). lia.
  - apply Forall_cons in Hl as [Ha [Hb _]%Forall_cons]. cbn.
    pose proof (N.mod_upper_bound a 4). pose proof (N.mod_upper_bound b 16).
    assert (b / 16 < 16)%N by (apply N.Div0.div_lt_upper_bound; lia).
    repeat constructor; [apply N.Div0.div_lt_upper_bound; lia|lia|lia].
  - apply Forall_cons in Hl as [Ha [Hb [Hc Hr]%Forall_cons]%Forall_cons].
    cbn [sextets_of_bytes].
    pose proof (N.mod_upper_bound a 4). pose proof (N.mod_upper_bound b 16).
    pose proof (N.mod_upper_bound c 64).
    assert (b / 16 < 16)%N by (apply N.Div0.div_lt_upper_bound; lia).
    assert (c / 64 < 4)%N by (apply N.Div0.div_lt_upper_bound; lia).
    repeat (constructor; [first [apply N.Div0.div_lt_upper_bound; lia|lia]|]).
    by apply IH.
Qed.

Lemma to_N_lt l : Forall (fun b => (b < 256)%N) (map Byte.to_N l).
Proof.
  apply Forall_map, Forall_forall. intros b _. pose proof (Byte.to_N_bounded b). lia.
Qed.

Lemma byte_of_to_N b : byte_of (Byte.to_N b) = b.
Proof.
  unfold byte_of. rewrite N.mod_small by (pose proof (Byte.to_N_bounded b); lia).
  by rewrite Byte.of_to_N.
Qed.

Lemma byte_of_eq n b : n = Byte.to_N b -> byte_of n = b.
Proof. intros ->. apply byte_of_to_N. Qed.

Lemma bytes_of_sextets_of_bytes l :
  bytes_of_sextets (sextets_of_bytes (map Byte.to_N l)) = l.
Proof.
  induction l as [| a | a b | a b c r IH] using list_ind3.
  - done.
  - cbn. pose proof (Byte.to_N_bounded a). set (x := Byte.to_N a) in *.
    f_equal. apply byte_of_eq. fold x.
    zify. Z.to_euclidean_division_equations. lia.
  - cbn. pose proof (Byte.to_N_bounded a). pose proof (Byte.to_N_bounded b).
    set (x := Byte.to_N a) in *. set (y := Byte.to_N b) in *.
    f_equal; [|f_equal]; apply byte_of_eq; fold x; fold y;
      zify; Z.to_euclidean_division_equations; lia.
  - cbn [map sextets_of_bytes bytes_of_sextets]. rewrite IH.
    pose proof (Byte.to_N_bounded a). pose proof (Byte.to_N_bounded b).
    pose proof (Byte.to_N_bounded c).
    set (x := Byte.to_N a) in *. set (y := Byte.to_N b) in *. set (z := Byte.to_N c) in *.
    f_equal; [|f_equal; [|f_equal]]; apply byte_of_eq; fold x; fold y; fold z;
      zify; Z.to_euclidean_division_equations; lia.
Qed.

Lemma padding_chars n :
  exists k, padding n = string_of_list_ascii (repeat "="%char k).
Proof.
  unfold padding. destruct (n mod 3)%nat as [|[|[|?]]].
  - by exists 0%nat.
  - by exists 2%nat.
  - by exists 1%nat.
  - by exists 0%nat.
Qed.

Lemma replaceAll_eqs r k :
  replaceAll "=" r (string_of_list_ascii (repeat "="%char k)) = repeat_string r k.
Proof. induction k as [|k IH]; [done|]. cbn. by rewrite IH. Qed.

Lemma repeat_empty k : repeat_string EmptyString k = EmptyString.
Proof. induction k as [|k IH]; [done|]. done. Qed.

Lemma string_of_list_ascii_app a b :
  string_of_list_ascii (a ++ b) = (string_of_list_ascii a ++ string_of_list_ascii b)%string.
Proof. induction a as [|x a IH]; [done|]. cbn. by rewrite IH. Qed.

Lemma replaceAll_pad c r k :
  (c =? "=")%char = false ->
  replaceAll c r (string_of_list_ascii (repeat "="%char k)) =
    string_of_list_ascii (repeat "="%char k).
Proof.
  intros Hc. apply replaceAll_absent. induction k as [|k IH]; [done|].
  cbn [repeat forallb]. rewrite IH, andb_true_r. rewrite Ascii.eqb_sym, Hc. done.
Qed.

Lemma b64urlEncode_chars l :
  b64urlEncode l = string_of_list_ascii (map url_char (sextets_of_bytes (map Byte.to_N l))).
Proof.
  unfold b64urlEncode, toString_base64.
  pose proof (sextets_lt _ (to_N_lt l)) as Hlt.
  set (vs := sextets_of_bytes (map Byte.to_N l)) in *.
  destruct (padding_chars (length l)) as [k ->].
  rewrite !replaceAll_app.
  rewrite (replaceAll_pad "+") by done. rewrite (replaceAll_pad "/") by done.
  rewrite replaceAll_eqs, repeat_empty, append_nil_r.
  rewrite !replaceAll_chars, !map_map.
  rewrite replaceAll_absent.
  - f_equal. apply map_ext_Forall. eapply Forall_impl; [exact Hlt|].
    intros v Hv. cbn beta. destruct (url_char_spec v Hv) as (-> & _).
    destruct (b64char v =? "+")%char eqn:E1; [done|].
    by destruct (b64char v =? "/")%char.
  - rewrite forallb_forall. intros x (v & <- & Hin)%in_map_iff.
    rewrite List.Forall_forall in Hlt. specialize (Hlt v Hin).
    destruct (url_char_spec v Hlt) as (Hu & _ & He & _). rewrite Hu in He.
    destruct (b64char v =? "+")%char eqn:E1; [done|].
    destruct (b64char v =? "/")%char eqn:E2; [done|]. by rewrite He.
Qed.

Lemma sextets_of_url_chars vs k :
  Forall (fun v => (v < 64)%N) vs ->
  sextets_of_string
    (replaceAll "_" "/" (replaceAll "-" "+" (string_of_list_ascii (map url_char vs)))
       ++ repeat_string "=" k) = vs.
Proof.
  intros Hlt. rewrite !replaceAll_chars, !map_map.
  induction Hlt as [|v vs Hv Hvs IH].
  - cbn. by destruct k.
  - cbn [map string_of_list_ascii].
    match goal with
    | |- context [(String ?c ?r ++ ?s)%string] =>
        change (String c r ++ s)%string with (String c (r ++ s)%string)
    end.
    cbn [sextets_of_string].
    destruct (url_char_spec v Hv) as (_ & _ & _ & _ & -> & ->). by rewrite IH.
Qed.

Lemma b64urlDecode_encode l : b64urlDecode (b64urlEncode l) = l.
Proof.
  unfold b64urlDecode, from_base64. rewrite b64urlEncode_chars.
  rewrite sextets_of_url_chars by apply sextets_lt, to_N_lt.
  apply bytes_of_sextets_of_bytes.
Qed.

Lemma b64urlEncode_no_dot l :
  forallb (fun x => negb (x =? ".")%char) (list_ascii_of_string (b64urlEncode l)) = true.
Proof.
  rewrite b64urlEncode_chars, list_ascii_of_string_of_list_ascii.
  pose proof (sextets_lt _ (to_N_lt l)) as Hlt.
  rewrite forallb_forall. intros x (v & <- & Hin)%in_map_iff.
  rewrite List.Forall_forall in Hlt. specialize (Hlt v Hin).
  destruct (url_char_spec v Hlt) as (_ & _ & _ & -> & _). done.
Qed.

Lemma b64urlEncode_nonempty l : l <> [] -> JoinTokens.is_empty (b64urlEncode l) = false.
Proof.
  intros Hl. rewrite b64urlEncode_chars. destruct l as [|a [|b [|c r]]]; done.
Qed.

Lemma timingSafeEqualB64Url_refl s : timingSafeEqualB64Url s s = true.
Proof.
  unfold timingSafeEqualB64Url. rewrite Nat.eqb_refl. cbn. by apply bool_decide_eq_true.
Qed.

Lemma timingSafeEqualB64Url_spec a b :
  timingSafeEqualB64Url a b = bool_decide (b64urlDecode a = b64urlDecode b).
Proof.
  unfold timingSafeEqualB64Url.
  destruct (Nat.eqb_spec (length (b64urlDecode a)) (length (b64urlDecode b))) as [|Hne];
    [done|].
  cbn. symmetry. apply bool_decide_eq_false. intros Heq. by rewrite Heq in Hne.
Qed.
End Base64Facts.

(** ** JSON: parsing what was stringified *)

Section JsonFacts.
Import JSON.

Lemma parse_chars_quote s rest :
  parse_chars (quote_body s ++ String dq rest) = Some (s, rest).
Proof.
  induction s as [|c s IH].
  { cbn. done. }
  cbn [quote_body]. rewrite append_assoc.
  set (tl := (quote_body s ++ String dq rest)%string) in *.
  destruct c as [[] [] [] [] [] [] [] []];
    match goal with
    | |- context [quote_char ?c] =>
        let q := eval vm_compute in (quote_char c) in change (quote_char c) with q
    end;
    lazy beta iota fix delta [String.append]; cbn; rewrite IH; reflexivity.
Qed.
End JsonFacts.

Section JsonNumbers.
Import JSON.

Lemma read_digits_uint u rest :
  read_digits (NilEmpty.string_of_uint u ++ String "," rest) = (u, String "," rest).
Proof.
  induction u as [|u IH|u IH|u IH|u IH|u IH|u IH|u IH|u IH|u IH|u IH];
    [done|..];
    cbn [NilEmpty.string_of_uint];
    match goal with
    | |- context [(String ?c ?r ++ ?s)%string] =>
        change (String c r ++ s)%string with (String c (r ++ s)%string)
    end;
    cbn [read_digits]; rewrite IH; reflexivity.
Qed.

Lemma to_uint_unorm p : Decimal.unorm (Pos.to_uint p) = Pos.to_uint p.
Proof.
  rewrite <- (DecimalPos.Unsigned.to_of (Pos.to_uint p)).
  by rewrite DecimalPos.Unsigned.of_to.
Qed.

Lemma to_uint_leading p : leading_zero (Pos.to_uint p) = false.
Proof.
  pose proof (to_uint_unorm p) as Hn.
  destruct (Pos.to_uint p) as [|u|u|u|u|u|u|u|u|u|u] eqn:E; try done.
  destruct u; try done; exfalso;
    unfold Decimal.unorm in Hn;
    destruct (Decimal.nzhead (Decimal.D0 _)) eqn:Hz; try discriminate Hn;
    injection Hn as Hn; subst; by eapply DecimalFacts.nzhead_nonzero.
Qed.

Lemma of_uint_to_uint p : Z.of_uint (Pos.to_uint p) = Z.pos p.
Proof. unfold Z.of_uint. by rewrite DecimalPos.Unsigned.of_to. Qed.

(** The text of a positive numeral: it starts with a digit. *)
Lemma uint_text u rest :
  u <> Decimal.Nil ->
  exists c r, (NilEmpty.string_of_uint u ++ rest)%string = String c r /\
              (c =? "-")%char = false /\ is_ws c = false /\
              (c =? "{")%char = false /\ (c =? "[")%char = false /\ (c =? dq)%char = false /\
              (c =? "t")%char = false /\ (c =? "f")%char = false /\ (c =? "n")%char = false.
Proof.
  intros Hu. destruct u; [done|..]; eexists _, _; (split; [reflexivity|]); done.
Qed.

Lemma prefix_head (c p0 : ascii) (r p1 : string) :
  (c =? p0)%char = false -> String.prefix (String p0 p1) (String c r) = false.
Proof.
  intros Hc. cbn. destruct (ascii_dec p0 c) as [->|]; [|done].
  by rewrite Ascii.eqb_refl in Hc.
Qed.

Lemma parse_digits_text (neg : bool) u rest c r :
  u <> Decimal.Nil -> leading_zero u = false ->
  (NilEmpty.string_of_uint u ++ String "," rest)%string = String c r ->
  (c =? "-")%char = false ->
  parse_number (if neg then String "-" (String c r) else String c r) =
    Some (Num ((if neg then (-1) else 1) * Z.of_uint u), String "," rest).
Proof.
  intros Hu Hlead Htext Hc. unfold parse_number.
  assert (is_nil u = false) as Hnil by (by destruct u).
  destruct neg; cbv beta iota;
    [change ("-" =? "-")%char with true|rewrite Hc]; cbv beta iota;
    rewrite <- Htext, read_digits_uint; cbv beta iota;
    rewrite Hnil, Hlead;
    cbn [orb read_fraction read_exponent Ascii.eqb Bool.eqb andb];
    cbv beta iota zeta;
    rewrite DecimalFacts.app_nil_r;
    change (default 0 None - Z.of_nat (Decimal.nb_digits Decimal.Nil)) with 0;
    change (0 <=? 0) with true; cbv beta iota;
    f_equal; f_equal; f_equal; lia.
Qed.

Lemma parse_number_number z rest :
  parse_number (number z ++ String "," rest) = Some (Num z, String "," rest).
Proof.
  unfold number. destruct z as [|p|p]; cbn [Z.to_int NilZero.string_of_int].
  - reflexivity.
  - assert (NilZero.string_of_uint (Pos.to_uint p) = NilEmpty.string_of_uint (Pos.to_uint p))
      as -> by (pose proof (DecimalPos.Unsigned.to_uint_nonnil p); by destruct (Pos.to_uint p)).
    destruct (uint_text (Pos.to_uint p) (String "," rest) (DecimalPos.Unsigned.to_uint_nonnil p))
      as (c & r & Htext & Hc & _).
    rewrite Htext.
    rewrite (parse_digits_text false (Pos.to_uint p) rest c r
               (DecimalPos.Unsigned.to_uint_nonnil p) (to_uint_leading p) Htext Hc).
    rewrite of_uint_to_uint. f_equal.
  - assert (NilZero.string_of_uint (Pos.to_uint p) = NilEmpty.string_of_uint (Pos.to_uint p))
      as -> by (pose proof (DecimalPos.Unsigned.to_uint_nonnil p); by destruct (Pos.to_uint p)).
    destruct (uint_text (Pos.to_uint p) (String "," rest) (DecimalPos.Unsigned.to_uint_nonnil p))
      as (c & r & Htext & Hc & _).
    change (String "-" (NilEmpty.string_of_uint (Pos.to_uint p)) ++ String "," rest)%string
      with (String "-" (NilEmpty.string_of_uint (Pos.to_uint p) ++ String "," rest)%string).
    rewrite Htext.
    rewrite (parse_digits_text true (Pos.to_uint p) rest c r
               (DecimalPos.Unsigned.to_uint_nonnil p) (to_uint_leading p) Htext Hc).
    rewrite of_uint_to_uint. f_equal.
Qed.

(** The first character of the text of a number. *)
Lemma number_text z rest :
  exists c r, (number z ++ rest)%string = String c r /\ is_ws c = false /\
              (c =? "{")%char = false /\ (c =? "[")%char = false /\ (c =? dq)%char = false /\
              (c =? "t")%char = false /\ (c =? "f")%char = false /\ (c =? "n")%char = false.
Proof.
  unfold number. destruct z as [|p|p]; cbn [Z.to_int NilZero.string_of_int].
  - eexists _, _. split; [reflexivity|]. done.
  - assert (NilZero.string_of_uint (Pos.to_uint p) = NilEmpty.string_of_uint (Pos.to_uint p))
      as -> by (pose proof (DecimalPos.Unsigned.to_uint_nonnil p); by destruct (Pos.to_uint p)).
    destruct (uint_text (Pos.to_uint p) rest (DecimalPos.Unsigned.to_uint_nonnil p))
      as (c & r & Htext & _ & H). by exists c, r.
  - eexists _, _. split; [reflexivity|]. done.
Qed.

Lemma parse_value_number n z rest :
  parse_value (S n) (number z ++ String "," rest) = Some (Num z, String "," rest).
Proof.
  destruct (number_text z (String "," rest)) as (c & r & Htext & Hws & H1 & H2 & H3 & Ht & Hf & Hn).
  cbn [parse_value]. rewrite Htext. cbn [skip_ws]. rewrite Hws, H1, H2, H3.
  unfold parse_scalar, strip_prefix.
  rewrite !prefix_head by done. rewrite <- Htext. apply parse_number_number.
Qed.

Lemma parse_value_string n s rest :
  parse_value (S n) (String dq (quote_body s ++ String dq rest)) = Some (Str s, rest).
Proof.
  cbn [parse_value skip_ws]. change (is_ws dq) with false. cbv beta iota.
  change (dq =? "{")%char with false. change (dq =? "[")%char with false.
  rewrite Ascii.eqb_refl. cbv beta iota. by rewrite parse_chars_quote.
Qed.

Lemma parse_value_object n r :
  parse_value (S n) (String "{" (String dq r)) = parse_members n [] (String dq r).
Proof. reflexivity. Qed.

Lemma parse_members_step n acc k vtext v c4 r4 :
  parse_value n vtext = Some (v, String c4 r4) -> is_ws c4 = false ->
  parse_members (S n) acc (String dq (quote_body k ++ String dq (String ":" vtext))) =
    if (c4 =? ",")%char then parse_members n (acc ++ [(k, v)]) r4
    else if (c4 =? "}")%char then Some (Obj (acc ++ [(k, v)]), r4)
    else None.
Proof.
  intros Hv Hws. cbn [parse_members skip_ws]. change (is_ws dq) with false. cbv beta iota.
  rewrite Ascii.eqb_refl. cbv beta iota. rewrite parse_chars_quote.
  cbn [skip_ws]. change (is_ws ":") with false. cbv beta iota.
  change (":" =? ":")%char with true. cbv beta iota.
  rewrite Hv. cbn [skip_ws]. rewrite Hws. done.
Qed.
End JsonNumbers.

Section PayloadText.
Import JSON JoinTokens.

Lemma quote_app k rest : (quote k ++ rest)%string = String dq (quote_body k ++ String dq rest).
Proof.
  unfold quote.
  change (String dq (quote_body k ++ String dq EmptyString) ++ rest)%string
    with (String dq ((quote_body k ++ String dq EmptyString) ++ rest)%string).
  by rewrite append_assoc.
Qed.

Lemma payload_text p :
  stringify (payload_value p) =
    String "{" (String dq (quote_body "v" ++ String dq (String ":" (number 1 ++ String ","
      (String dq (quote_body "rid" ++ String dq (String ":" (String dq (quote_body (rid p)
      ++ String dq (String "," (String dq (quote_body "exp" ++ String dq (String ":" (number
      (exp p) ++ String "," (String dq (quote_body "jti" ++ String dq (String ":" (String dq
      (quote_body (jti p) ++ String dq (String "}" EmptyString)))))))))))))))))))).
Proof.
  unfold payload_value. cbn [stringify map join fst snd].
  rewrite !append_assoc, !quote_app. reflexivity.
Qed.

Lemma parse_payload p : parse (stringify (payload_value p)) = Some (payload_value p).
Proof.
  unfold parse. rewrite payload_text.
  match goal with
  | |- context [parse_value (S (String.length ?s)) _] =>
      assert (exists n, String.length s = S (S (S (S (S (S (S (S n)))))))) as [n ->]
        by (eexists; reflexivity)
  end.
  rewrite parse_value_object.
  rewrite (parse_members_step _ _ "v" _ (Num 1) "," _ (parse_value_number _ 1 _) eq_refl).
  change ("," =? ",")%char with true. cbv beta iota.
  rewrite (parse_members_step _ _ "rid" _ (Str (rid p)) "," _ (parse_value_string _ _ _) eq_refl).
  change ("," =? ",")%char with true. cbv beta iota.
  rewrite (parse_members_step _ _ "exp" _ (Num (exp p)) "," _ (parse_value_number _ _ _) eq_refl).
  change ("," =? ",")%char with true. cbv beta iota.
  rewrite (parse_members_step _ _ "jti" _ (Str (jti p)) "}" _ (parse_value_string _ _ _) eq_refl).
  reflexivity.
Qed.

Lemma check_payload_value p : check_payload (payload_value p) = Some p.
Proof. destruct p. reflexivity. Qed.
End PayloadText.

(** ** Join tokens *)

Section TokenFacts.
Import Base64Url JoinTokens.

Lemma split_plain sep s :
  forallb (fun x => negb (x =? sep)%char) (list_ascii_of_string s) = true ->
  split sep s = [s].
Proof.
  induction s as [|c s IH]; [done|]. cbn [list_ascii_of_string forallb split].
  intros [Hc Hs]%andb_true_iff. apply negb_true_iff in Hc. by rewrite Hc, IH.
Qed.

Lemma split_two sep p m :
  forallb (fun x => negb (x =? sep)%char) (list_ascii_of_string p) = true ->
  forallb (fun x => negb (x =? sep)%char) (list_ascii_of_string m) = true ->
  split sep (p ++ String sep m) = [p; m].
Proof.
  intros Hp Hm. induction p as [|c p IH].
  - change (EmptyString ++ String sep m)%string with (String sep m).
    cbn [split]. by rewrite Ascii.eqb_refl, split_plain.
  - change (String c p ++ String sep m)%string with (String c (p ++ String sep m)%string).
    cbn [list_ascii_of_string forallb] in Hp. apply andb_true_iff in Hp as [Hc Hp].
    apply negb_true_iff in Hc. cbn [split]. by rewrite Hc, IH.
Qed.

Lemma round_length st kw : length (Sha256.round st kw) = length st.
Proof.
  unfold Sha256.round. by destruct st as [|a [|b [|c [|d [|e [|f [|g [|h [|? ?]]]]]]]]].
Qed.

Lemma fold_round_length l st : length (fold_left Sha256.round l st) = length st.
Proof.
  revert st. induction l as [|kw l IH]; intros st; [done|].
  cbn. by rewrite IH, round_length.
Qed.

Lemma compress_length h block : length (Sha256.compress h block) = length h.
Proof.
  unfold Sha256.compress. rewrite length_map, length_combine, fold_round_length. lia.
Qed.

Lemma digest_words_length msg : length (Sha256.digest_words msg) = 8%nat.
Proof.
  unfold Sha256.digest_words.
  generalize (Sha256.chunks 64 (length (Sha256.pad msg)) (Sha256.pad msg)).
  assert (length Sha256.H0 = 8%nat) as Hlen by reflexivity. revert Hlen.
  generalize Sha256.H0. intros h Hh l. revert h Hh.
  induction l as [|b l IH]; intros h Hh; [done|].
  cbn. apply IH. by rewrite compress_length.
Qed.

Lemma sha256_nonempty msg : Sha256.sha256 msg <> [].
Proof.
  unfold Sha256.sha256, Sha256.to_bytes.
  pose proof (digest_words_length (Sha256.of_bytes msg)) as Hl.
  destruct (Sha256.digest_words _) as [|w ws]; [done|]. done.
Qed.

Lemma hmac_nonempty key msg : Sha256.hmac key msg <> [].
Proof. apply sha256_nonempty. Qed.

Lemma list_byte_of_string_nonempty s : s <> EmptyString -> list_byte_of_string s <> [].
Proof. by destruct s. Qed.

(** The verdict on a token of two halves without a dot. *)
Lemma verify_halves secret p m :
  forallb (fun x => negb (x =? ".")%char) (list_ascii_of_string p) = true ->
  forallb (fun x => negb (x =? ".")%char) (list_ascii_of_string m) = true ->
  is_empty p = false -> is_empty m = false ->
  verifyJoinToken secret (p ++ "." ++ m) =
    if bool_decide (b64urlDecode m =
                    Sha256.hmac (list_byte_of_string secret) (b64urlDecode p))
    then match JSON.parse (string_of_list_byte (b64urlDecode p)) with
         | Some v => match check_payload v with
                     | Some q => Ok q
                     | None => Err "ERR_TOKEN_FORMAT"
                     end
         | None => Err "ERR_TOKEN_FORMAT"
         end
    else Err "ERR_TOKEN_MAC".
Proof.
  intros Hp Hm Hpe Hme. unfold verifyJoinToken.
  change ("." ++ m)%string with (String "." m). rewrite split_two by done.
  rewrite Hpe, Hme. cbn [orb]. rewrite timingSafeEqualB64Url_spec.
  unfold hmacSha256B64Url. rewrite b64urlDecode_encode.
  by destruct (bool_decide _).
Qed.

(** A token is accepted only if its MAC half decodes to the HMAC of
    what its payload half decodes to. *)
Lemma verify_accepts secret t q :
  verifyJoinToken secret t = Ok q ->
  exists p m, split "." t = [p; m] /\
    b64urlDecode m = Sha256.hmac (list_byte_of_string secret) (b64urlDecode p) /\
    (JSON.parse (string_of_list_byte (b64urlDecode p)) ≫= check_payload) = Some q.
Proof.
  unfold verifyJoinToken.
  destruct (split "." t) as [|p [|m [|? ?]]]; try done.
  destruct (_ || _); [done|].
  rewrite timingSafeEqualB64Url_spec. unfold hmacSha256B64Url. rewrite b64urlDecode_encode.
  destruct (bool_decide _) eqn:Hmac; [|done]. apply bool_decide_eq_true in Hmac.
  cbn [negb]. intros H. exists p, m. split; [done|]. split; [done|].
  destruct (JSON.parse _) as [v|]; [|done]. cbn.
  destruct (check_payload v); [|done]. by injection H as ->.
Qed.
End TokenFacts.

(** C3 (amended).  For every secret, room id, integer expiry and jti
    (strings as their UTF-8 bytes), verifying a minted token with the
    same secret yields the payload that was minted.  Verification of any
    string ends in the payload, in ERR_TOKEN_MAC or in ERR_TOKEN_FORMAT,
    and it yields a payload only if the MAC half decodes to the
    HMAC-SHA-256 of the bytes the payload half decodes to.  Replacing
    the MAC half of a minted token by a dot-free, non-empty text that
    decodes to other bytes gives ERR_TOKEN_MAC, and so does replacing the
    payload half by one whose decoded bytes have another HMAC.  A single
    bit flip need not change what a half decodes to, and the token is
    then still accepted. *)
Theorem mint_verify (secret rid0 jti0 : string) (exp0 : Z) :
  let payload := JoinTokens.mkPayload rid0 exp0 jti0 in
  let payloadBytes := list_byte_of_string (JSON.stringify (JoinTokens.payload_value payload)) in
  let key := list_byte_of_string secret in
  let no_dot s := forallb (fun x => negb (x =? ".")%char) (list_ascii_of_string s) = true in
  JoinTokens.verifyJoinToken secret (JoinTokens.mintJoinToken secret rid0 exp0 jti0) =
    JoinTokens.Ok payload /\
  (forall t code, JoinTokens.verifyJoinToken secret t = JoinTokens.Err code ->
                  code = "ERR_TOKEN_FORMAT" \/ code = "ERR_TOKEN_MAC") /\
  (forall t q, JoinTokens.verifyJoinToken secret t = JoinTokens.Ok q ->
     exists p m, JoinTokens.split "." t = [p; m] /\
       Base64Url.b64urlDecode m = Sha256.hmac key (Base64Url.b64urlDecode p)) /\
  (forall m, no_dot m -> JoinTokens.is_empty m = false ->
     Base64Url.b64urlDecode m <> Sha256.hmac key payloadBytes ->
     JoinTokens.verifyJoinToken secret (Base64Url.b64urlEncode payloadBytes ++ "." ++ m) =
       JoinTokens.Err "ERR_TOKEN_MAC") /\
  (forall p, no_dot p -> JoinTokens.is_empty p = false ->
     Sha256.hmac key (Base64Url.b64urlDecode p) <> Sha256.hmac key payloadBytes ->
     JoinTokens.verifyJoinToken secret
       (p ++ "." ++ Base64Url.hmacSha256B64Url secret payloadBytes) =
       JoinTokens.Err "ERR_TOKEN_MAC").
Proof.
  intros payload payloadBytes key no_dot.
  assert (payloadBytes <> []) as Hbytes.
  { apply list_byte_of_string_nonempty. unfold payload. by rewrite payload_text. }
  split; [|split; [|split; [|split]]].
  - unfold JoinTokens.mintJoinToken. fold payload. fold payloadBytes.
    rewrite verify_halves.
    + rewrite b64urlDecode_encode. unfold Base64Url.hmacSha256B64Url.
      rewrite b64urlDecode_encode, bool_decide_eq_true_2 by done.
      unfold payloadBytes. rewrite string_of_list_byte_of_string, parse_payload.
      by rewrite check_payload_value.
    + apply b64urlEncode_no_dot.
    + apply b64urlEncode_no_dot.
    + by apply b64urlEncode_nonempty.
    + apply b64urlEncode_nonempty, hmac_nonempty.
  - intros t code. unfold JoinTokens.verifyJoinToken.
    destruct (JoinTokens.split "." t) as [|a [|b [|c l]]]; try (intros [= <-]; auto).
    destruct (_ || _); [intros [= <-]; auto|].
    destruct (negb _); [intros [= <-]; auto|].
    destruct (JSON.parse _); [|intros [= <-]; auto].
    destruct (JoinTokens.check_payload _); [done|intros [= <-]; auto].
  - intros t q Hok. destruct (verify_accepts secret t q Hok) as (p & m & Hs & Hmac & _).
    by exists p, m.
  - intros m Hm Hne Hdiff.
    rewrite (verify_halves secret _ m (b64urlEncode_no_dot _) Hm
               (b64urlEncode_nonempty _ Hbytes) Hne).
    rewrite b64urlDecode_encode. by rewrite bool_decide_eq_false_2.
  - intros p Hp Hne Hdiff. unfold Base64Url.hmacSha256B64Url.
    rewrite (verify_halves secret p _ Hp (b64urlEncode_no_dot _) Hne
               (b64urlEncode_nonempty _ (hmac_nonempty _ _))).
    rewrite b64urlDecode_encode.
    rewrite bool_decide_eq_false_2; [done|]. intros Heq. apply Hdiff. symmetry. exact Heq.
Qed.

(** An instance: the token of the sample run, and the same token with
    the last character of its MAC half replaced. *)
Lemma mint_verify_witness :
  JoinTokens.verifyJoinToken "0123456789abcdef0123456789abcdef" Scenario.T0 =
    JoinTokens.Ok (JoinTokens.mkPayload Scenario.R 62000 "anRpLTAwMDAwMDAwMDAwMQa") /\
  JoinTokens.verifyJoinToken "0123456789abcdef0123456789abcdef"
    (Base64Url.b64urlEncode
       (list_byte_of_string
          (JSON.stringify
             (JoinTokens.payload_value
                (JoinTokens.mkPayload Scenario.R 62000 "anRpLTAwMDAwMDAwMDAwMQa"))))
     ++ "." ++ "X529vewsxl27IajxQhaUTuNAUHODGKLRRjd2zBUmHx8") =
    JoinTokens.Err "ERR_TOKEN_MAC".
Proof.
  destruct (mint_verify "0123456789abcdef0123456789abcdef" Scenario.R
              "anRpLTAwMDAwMDAwMDAwMQa" 62000) as (Hok & _ & _ & Hmac & _).
  split; [exact Hok|].
  apply Hmac.
  - vm_compute. reflexivity.
  - reflexivity.
  - vm_compute. discriminate.
Defined.

(** C3, as stated, fails: flipping bit 1 of the last character of the
    payload half, or bit 0 of the last character of the MAC half, gives
    another token that verifies, with the same payload. *)
Lemma flipped_token_accepted :
  let secret := "0123456789abcdef0123456789abcdef" in
  let payload := JoinTokens.mkPayload Scenario.R 62000 "anRpLTAwMDAwMDAwMDAwMQa" in
  String.length Scenario.T0 = 154%nat /\
  String.get 110 Scenario.T0 = Some "."%char /\
  JoinTokens.flip_bit 109 1 Scenario.T0 <> Scenario.T0 /\
  JoinTokens.verifyJoinToken secret (JoinTokens.flip_bit 109 1 Scenario.T0) =
    JoinTokens.Ok payload /\
  JoinTokens.flip_bit 153 0 Scenario.T0 <> Scenario.T0 /\
  JoinTokens.verifyJoinToken secret (JoinTokens.flip_bit 153 0 Scenario.T0) =
    JoinTokens.Ok payload.
Proof.
  vm_compute. repeat split; try reflexivity; discriminate.
Qed.

(** ** The key-value store *)

Section RedisFacts.
Import Redis.
Context {K : Type} `{Countable K} {A : Type}.
Implicit Types (m : gmap K (Entry A)) (k : K).

Lemma lookup_purge now m k :
  purge now m !! k =
    match m !! k with
    | Some e => if live now e then Some e else None
    | None => None
    end.
Proof.
  unfold purge. rewrite map_lookup_filter.
  destruct (m !! k) as [e|]; simpl; [|done].
  destruct (live now e) eqn:E.
  - by rewrite option_guard_True.
  - rewrite option_guard_False; [done|]. intros [].
Qed.

Lemma purge_idem now m : purge now (purge now m) = purge now m.
Proof.
  apply map_eq. intros k. rewrite !lookup_purge.
  destruct (m !! k) as [e|]; [|done].
  destruct (live now e) eqn:E; [by rewrite E|done].
Qed.

Lemma lookup_set k k' (v : A) m :
  set k v m !! k' = if decide (k = k') then Some (mkEntry v None) else m !! k'.
Proof. unfold set. by rewrite lookup_insert. Qed.

Lemma lookup_write k k' (v : A) m :
  write k v m !! k' =
    if decide (k = k') then Some (mkEntry v (m !! k ≫= expireAt)) else m !! k'.
Proof. unfold write. by rewrite lookup_insert. Qed.

Lemma lookup_del k k' m : del k m !! k' = if decide (k = k') then None else m !! k'.
Proof. unfold del. by rewrite lookup_delete. Qed.

Lemma lookup_pexpire now ttl k k' m :
  pexpire now ttl k m !! k' =
    if decide (k = k') then
      if ttl <=? 0 then None
      else (fun e => mkEntry (value e) (Some (now + ttl))) <$> (m !! k)
    else m !! k'.
Proof.
  unfold pexpire. destruct (m !! k) as [e|] eqn:E.
  - destruct (ttl <=? 0).
    + rewrite lookup_delete. by case_decide.
    + rewrite lookup_insert. case_decide; [|done]. done.
  - case_decide; [subst; rewrite E; by destruct (ttl <=? 0)|done].
Qed.
End RedisFacts.

Lemma expire_idem now d : Redis.expire now (Redis.expire now d) = Redis.expire now d.
Proof. unfold Redis.expire. simpl. by rewrite !purge_idem. Qed.

Section SetFacts.
Import Redis.
Implicit Types (m : gmap string (Entry (gset string))) (k x : string).

Lemma lookup_sadd k k' x m :
  sadd k x m !! k' =
    if decide (k = k')
    then Some (mkEntry ({[x]} ∪ smembers k m) (m !! k ≫= expireAt))
    else m !! k'.
Proof. unfold sadd. by rewrite lookup_write. Qed.

Lemma smembers_lookup k m : smembers k m = default ∅ (value <$> m !! k).
Proof. done. Qed.
End SetFacts.

(** ** Room store: count and members stay aligned *)

Section StoreInvariant.
Import Redis RoomStore StoreRun.
Variable rs : RoomStore.t.
Hypothesis max_pos : 1 <= maxParticipants rs.

Ltac lookups :=
  rewrite ?lookup_pexpire, ?lookup_sadd, ?lookup_set, ?lookup_del, ?lookup_write.

Ltac red_opt :=
  cbn [fmap option_fmap option_map value expireAt default mbind option_bind
       option_ret mret fst snd].


Lemma aligned_at_stamp t me ce :
  aligned_at rs me ce -> aligned_at rs (stamp t <$> me) (stamp t <$> ce).
Proof.
  unfold aligned_at. destruct me as [em|]; simpl.
  - intros [-> ?]. done.
  - destruct ce; simpl; done.
Qed.

Lemma aligned_at_purge now me ce :
  aligned_at rs me ce ->
  aligned_at rs (match me with Some e => if live now e then Some e else None | None => None end)
                (match ce with Some e => if live now e then Some e else None | None => None end).
Proof.
  unfold aligned_at. destruct me as [em|].
  - intros [-> ?].
    change (live now (mkEntry (Z.of_nat (size (value em))) (expireAt em)))
      with (live now em).
    destruct (live now em); done.
  - destruct ce as [ec|]; [|done]. intros ?. by destruct (live now ec).
Qed.

Lemma aligned_expire now d r : aligned rs d r -> aligned rs (expire now d) r.
Proof.
  unfold aligned. simpl. rewrite !lookup_purge. apply aligned_at_purge.
Qed.

Lemma aligned_at_count me ce :
  aligned_at rs me ce ->
  default 0 (value <$> ce) = Z.of_nat (size (default ∅ (value <$> me))) /\
  default 0 (value <$> ce) <= maxParticipants rs.
Proof.
  unfold aligned_at. destruct me as [em|].
  - simpl. intros [-> ?]. done.
  - assert (size (default (∅ : gset string) (value <$> None)) = 0%nat) as ->
      by apply size_empty.
    destruct ce as [ec|]; simpl; [intros ->|intros _]; lia.
Qed.

Lemma aligned_pexpire_both now ttl room r (mem : gmap string (Entry (gset string)))
    (cnt : gmap string (Entry Z)) :
  aligned_at rs (mem !! r) (cnt !! r) ->
  aligned_at rs (pexpire now ttl room mem !! r) (pexpire now ttl room cnt !! r).
Proof.
  intros Ha. rewrite !lookup_pexpire. case_decide; [subst|done].
  destruct (ttl <=? 0); [done|]. by apply (aligned_at_stamp (now + ttl)).
Qed.

Lemma createRoom_aligned now room c d r :
  allowed now (Create room c) d -> aligned rs d r -> aligned rs (createRoom rs now room c d) r.
Proof.
  intros Hfresh Ha. apply (aligned_expire now) in Ha. simpl in Hfresh.
  unfold createRoom, aligned. simpl.
  lookups. case_decide; [subst r; rewrite ?decide_True by done
                        |rewrite ?decide_False by done; exact Ha].
  destruct (ttlMs rs <=? 0); [done|].
  rewrite smembers_lookup, Hfresh. unfold aligned_at. red_opt.
  rewrite union_empty_r_L, size_singleton. split; [done|lia].
Qed.

Lemma createRoomEmpty_aligned now room d r :
  allowed now (CreateEmpty room) d -> aligned rs d r ->
  aligned rs (createRoomEmpty rs now room d) r.
Proof.
  intros Hfresh Ha. apply (aligned_expire now) in Ha. simpl in Hfresh.
  unfold createRoomEmpty, aligned. simpl.
  lookups. case_decide; [subst r; rewrite ?decide_True by done
                        |rewrite ?decide_False by done; exact Ha].
  rewrite Hfresh. by destruct (ttlMs rs <=? 0).
Qed.

Lemma aligned_at_count' (d : db) room :
  aligned rs d room ->
  default 0 (get room (count d)) = Z.of_nat (size (smembers room (members d))) /\
  default 0 (get room (count d)) <= maxParticipants rs.
Proof. apply aligned_at_count. Qed.

Lemma tryJoin_aligned now room c d r :
  aligned rs d r -> aligned rs (snd (tryJoin rs now room c d)) r.
Proof.
  intros Ha. apply (aligned_expire now) in Ha. unfold tryJoin.
  set (d1 := expire now d) in *.
  destruct (negb (exists_ room (meta d1))); [done|].
  destruct (sismember room c (members d1)) eqn:Hmem.
  { cbn [snd]. by apply aligned_pexpire_both. }
  destruct (Z.leb_spec (maxParticipants rs) (default 0 (get room (count d1)))) as [Hfull|Hroom];
    [done|].
  cbn [snd]. unfold aligned, refresh3. cbn [members count].
  lookups. case_decide; [subst r; rewrite ?decide_True by done
                        |rewrite ?decide_False by done; exact Ha].
  destruct (ttlMs rs <=? 0); [done|].
  destruct (aligned_at_count' _ _ Ha) as [Hc Hb].
  apply bool_decide_eq_false in Hmem.
  unfold aligned_at. red_opt. rewrite Hc in *.
  rewrite size_union by set_solver. rewrite size_singleton.
  split; [f_equal; f_equal; lia | lia].
Qed.

Lemma srem_lookup room c (mem : gmap string (Entry (gset string))) r :
  let S := smembers room mem in
  (srem room c mem).2 !! r =
    if decide (room = r) then
      if decide (c ∈ S) then
        if decide (S ∖ {[c]} = ∅) then None
        else Some (mkEntry (S ∖ {[c]}) (mem !! room ≫= expireAt))
      else mem !! r
    else mem !! r.
Proof.
  intros S. unfold srem, sismember. fold S.
  destruct (decide (c ∈ S)) as [Hin|Hout].
  - rewrite bool_decide_eq_true_2 by done. simpl.
    destruct (decide (S ∖ {[c]} = ∅)).
    + by rewrite lookup_del.
    + by rewrite lookup_write.
  - rewrite bool_decide_eq_false_2 by done. simpl. by case_decide.
Qed.

Lemma srem_removed room c (mem : gmap string (Entry (gset string))) :
  (srem room c mem).1 = if decide (c ∈ smembers room mem) then 1 else 0.
Proof.
  unfold srem, sismember. destruct (decide (c ∈ smembers room mem)).
  - by rewrite bool_decide_eq_true_2.
  - by rewrite bool_decide_eq_false_2.
Qed.

Lemma leave_aligned now room c d r :
  aligned rs d r -> aligned rs (snd (leave rs now room c d)) r.
Proof.
  intros Ha. apply (aligned_expire now) in Ha. unfold leave.
  set (d1 := expire now d) in *.
  destruct (negb (exists_ room (meta d1))); [done|].
  pose proof (srem_lookup room c (members d1) r) as Hl.
  pose proof (srem_removed room c (members d1)) as Hr.
  destruct (srem room c (members d1)) as [removed mem1]. cbn [fst snd] in Hl, Hr.
  set (cur := default 0 (get room (count d1))) in *.
  set (dec := (removed =? 1) && (0 <? cur)).
  assert (r <> room ->
          (if dec then set room (if dec then cur - 1 else cur) (count d1) else count d1) !! r
          = count d1 !! r)
    as Hcnt_ne.
  { intros Hne. destruct dec; [|done]. rewrite lookup_set. by rewrite decide_False. }
  destruct (Z.leb_spec (if dec then cur - 1 else cur) 0) as [Hz|Hnz].
  { cbn [snd]. unfold aligned. cbn [members count]. rewrite !lookup_del.
    destruct (decide (room = r)) as [->|Hne]; [done|].
    rewrite Hl. rewrite Hcnt_ne by done. exact Ha. }
  cbn [snd]. unfold aligned. cbn [members count]. rewrite !lookup_pexpire.
  destruct (decide (room = r)) as [<-|Hne].
  2:{ rewrite Hl. rewrite Hcnt_ne by done. exact Ha. }
  destruct (ttlMs rs <=? 0); [done|].
  rewrite Hl.
  destruct (aligned_at_count' _ _ Ha) as [Hc Hb]. fold cur in Hc, Hb.
  destruct (decide (c ∈ smembers room (members d1))) as [Hin|Hout].
  - subst removed. subst dec. cbn [Z.eqb Pos.eqb andb] in *.
    destruct (Z.ltb_spec 0 cur) as [Hpos|Hnpos]; [|lia].
    rewrite lookup_set. destruct (decide (room = room)); [|done].
    assert (Z.of_nat (size (smembers room (members d1) ∖ {[c]})) = cur - 1) as Hsz.
    { rewrite size_difference by set_solver. rewrite size_singleton. lia. }
    destruct (decide (smembers room (members d1) ∖ {[c]} = ∅)) as [He|Hne].
    + rewrite He, size_empty in Hsz. lia.
    + unfold aligned_at. red_opt. rewrite Hsz. split; [done|lia].
  - subst removed. subst dec. cbn [Z.eqb andb] in *.
    by apply (aligned_at_stamp (now + ttlMs rs)).
Qed.

Lemma touch_aligned now room d r : aligned rs d r -> aligned rs (touch rs now room d) r.
Proof.
  intros Ha. apply (aligned_expire now) in Ha. unfold touch.
  by apply aligned_pexpire_both.
Qed.

Lemma markTokenJtiUsed_aligned now room j ttl d r :
  aligned rs d r -> aligned rs (snd (markTokenJtiUsed rs now room j ttl d)) r.
Proof.
  intros Ha. apply (aligned_expire now) in Ha. unfold markTokenJtiUsed.
  destruct (set_px_nx _ _ _ _ _) as [ok jti1]. by destruct ok.
Qed.

Lemma reachable_aligned d r : reachable rs d -> aligned rs d r.
Proof.
  induction 1 as [|d now o Hd IH Hallow].
  - unfold aligned, aligned_at. simpl. by rewrite !lookup_empty.
  - destruct o; simpl.
    + by apply createRoom_aligned.
    + by apply createRoomEmpty_aligned.
    + by apply tryJoin_aligned.
    + by apply leave_aligned.
    + by apply touch_aligned.
    + by apply markTokenJtiUsed_aligned.
Qed.

Lemma aligned_observed now d room :
  aligned rs d room ->
  room_count now room d = Z.of_nat (size (room_members now room d)) /\
  room_count now room d <= maxParticipants rs.
Proof.
  intros Ha. apply (aligned_expire now) in Ha.
  by apply aligned_at_count in Ha.
Qed.
End StoreInvariant.

(** ** Room store: the single-use marker *)

Section MarkerFacts.
Import Redis RoomStore StoreRun.
Variable rs : RoomStore.t.

Lemma live_mono {A} (e : Entry A) now t1 : now <= t1 -> live t1 e = true -> live now e = true.
Proof.
  unfold live. destruct (expireAt e); [|done]. intros ? ?%Z.ltb_lt. apply Z.ltb_lt. lia.
Qed.

Lemma purge_keeps {K} `{Countable K} {A} now (m : gmap K (Entry A)) k e :
  m !! k = Some e -> live now e = true -> purge now m !! k = Some e.
Proof. intros Hk Hl. by rewrite lookup_purge, Hk, Hl. Qed.

Lemma mark_fresh_iff now room j ttl d :
  fst (markTokenJtiUsed rs now room j ttl d) = false <-> marker_live now room j d.
Proof.
  unfold markTokenJtiUsed, marker_live, set_px_nx. cbn [jti expire].
  rewrite lookup_purge.
  destruct (jti d !! (room, j)) as [e|] eqn:E.
  - destruct (live now e) eqn:L; cbn.
    + split; [eauto|done].
    + split; [done|]. intros (e' & [= <-] & ?). congruence.
  - cbn. split; [done|]. by intros (e' & ? & ?).
Qed.

Lemma mark_sets_marker now room j ttl d t1 :
  fst (markTokenJtiUsed rs now room j ttl d) = true -> t1 < now + ttl ->
  marker_live t1 room j (snd (markTokenJtiUsed rs now room j ttl d)).
Proof.
  unfold markTokenJtiUsed, marker_live, set_px_nx. cbn [jti expire].
  destruct (purge now (jti d) !! (room, j)) as [e|] eqn:E; cbn; [done|].
  intros _ Ht. eexists. rewrite lookup_insert_eq. split; [done|].
  unfold live. cbn. apply Z.ltb_lt. lia.
Qed.

Lemma del_markers_other (room room' : string) (js : gset string)
    (m : gmap (string * string) (Entry string)) (j : string) :
  room' <> room -> del_markers room' js m !! (room, j) = m !! (room, j).
Proof.
  intros Hne. unfold del_markers. induction (elements js) as [|x l IH]; [done|].
  cbn [foldr]. rewrite lookup_del. rewrite decide_False by congruence. done.
Qed.

Lemma apply_keeps_marker now o d room j e :
  jti d !! (room, j) = Some e -> live now e = true ->
  (forall c, o = LeaveRoom room c -> fst (leave rs now room c d) <> 0) ->
  jti (apply rs now o d) !! (room, j) = Some e.
Proof.
  intros Hk Hl Hleave.
  pose proof (purge_keeps now (jti d) (room, j) e Hk Hl) as Hp.
  destruct o as [r c|r|r c|r c|r|r j' ttl]; cbn [apply].
  - done.
  - done.
  - unfold tryJoin. repeat case_match; done.
  - specialize (Hleave c).
    assert (jti (snd (leave rs now r c d)) !! (room, j) = Some e \/
            (r = room /\ fst (leave rs now r c d) = 0)) as [Hkeep|[-> Hz]].
    { unfold leave.
      destruct (negb (exists_ r (meta (expire now d)))); [by left|].
      destruct (srem r c (members (expire now d))) as [removed mem1].
      match goal with |- context [if ?b then _ else _] => destruct b eqn:Hb end.
      - cbn [fst snd jti]. destruct (decide (r = room)) as [->|Hne]; [by right|].
        left. by rewrite del_markers_other.
      - by left. }
    + done.
    + by destruct Hleave.
  - done.
  - unfold markTokenJtiUsed, set_px_nx. cbn [jti expire].
    destruct (purge now (jti d) !! (r, j')) as [e'|] eqn:E; cbn; [done|].
    rewrite lookup_insert_ne; [done|]. intros [= -> ->]. congruence.
Qed.

Lemma quiet_keeps_marker room j t1 d d' e :
  quiet rs room t1 d d' ->
  jti d !! (room, j) = Some e -> live t1 e = true ->
  jti d' !! (room, j) = Some e.
Proof.
  induction 1 as [|d d' now o Hq IH Hnow Hleave]; [done|].
  intros Hk Hl. apply apply_keeps_marker; [by apply IH | by eapply live_mono | done].
Qed.

Lemma marker_stays_consumed room j t0 ttl t1 ttl' d d' :
  fst (markTokenJtiUsed rs t0 room j ttl d) = true ->
  quiet rs room t1 (snd (markTokenJtiUsed rs t0 room j ttl d)) d' ->
  t1 < t0 + ttl ->
  fst (markTokenJtiUsed rs t1 room j ttl' d') = false.
Proof.
  intros Hfresh Hq Ht. apply mark_fresh_iff.
  destruct (mark_sets_marker t0 room j ttl d t1 Hfresh Ht) as (e & Hk & Hl).
  exists e. split; [|done]. by eapply quiet_keeps_marker.
Qed.
End MarkerFacts.

(** C2 (amended).  With max_participants at least 1, in every state of
    the store reached by createRoom, createRoomEmpty, tryJoin, leave,
    touch and markTokenJtiUsed, where rooms are created under ids that
    have no live members key, a reader at any time finds for every room
    that the stored count is the cardinality of the stored members set
    and is at most max_participants. *)
Theorem count_matches_members (rs : RoomStore.t) (d : Redis.db) :
  1 <= RoomStore.maxParticipants rs ->
  StoreRun.reachable rs d ->
  forall now room,
    RoomStore.room_count now room d = Z.of_nat (size (RoomStore.room_members now room d)) /\
    RoomStore.room_count now room d <= RoomStore.maxParticipants rs.
Proof.
  intros Hmax Hreach now room. apply (aligned_observed rs Hmax).
  by apply reachable_aligned.
Qed.

(** An instance: a room created by A and joined by B. *)
Lemma count_matches_members_witness :
  let rs := RoomStore.mk 600000 10 in
  let d := StoreRun.apply rs 2000 (StoreRun.Join "room0001" "connB")
             (StoreRun.apply rs 1000 (StoreRun.Create "room0001" "connA") Redis.empty) in
  RoomStore.room_count 3000 "room0001" d =
    Z.of_nat (size (RoomStore.room_members 3000 "room0001" d)) /\
  RoomStore.room_count 3000 "room0001" d <= 10.
Proof.
  intros rs d.
  refine (count_matches_members rs d _ _ 3000 "room0001").
  - vm_compute. discriminate.
  - apply StoreRun.reach_apply; [apply StoreRun.reach_apply|].
    + apply StoreRun.reach_empty.
    + vm_compute. reflexivity.
    + exact I.
Defined.

(** C2, as stated, fails: createRoom adds its creator to whatever
    members set is stored under the id and sets the count to 1. *)
Lemma createRoom_on_occupied_id :
  let rs := RoomStore.mk 600000 10 in
  let d1 := RoomStore.createRoom rs 1000 "room0001" "connA" Redis.empty in
  let d2 := snd (RoomStore.tryJoin rs 2000 "room0001" "connB" d1) in
  let d3 := RoomStore.createRoom rs 3000 "room0001" "connC" d2 in
  RoomStore.room_count 3000 "room0001" d3 = 1 /\
  size (RoomStore.room_members 3000 "room0001" d3) = 3%nat.
Proof. vm_compute. split; reflexivity. Qed.

(** ** The engine: what the helpers leave untouched *)

(** Names the state that [ensureLocalRoom] returns. *)
Ltac open_ensure :=
  match goal with
  | |- context [Ws.ensureLocalRoom ?a ?b ?c ?d ?e] =>
      let H := fresh "He" in
      destruct (Ws.ensureLocalRoom a b c d e) as [? ?] eqn:H;
      apply (f_equal snd) in H; cbn [snd] in H; subst
  end.

Section ConnShape.
Import Ws WsRel.
Variable cfg : Config.


Lemma conn_shape_refl st : conn_shape st st.
Proof. by repeat split. Qed.

Lemma conn_shape_upd st0 st i f :
  (forall c, ip (f c) = ip c) -> conn_shape st0 st -> conn_shape st0 (upd_ctx i f st).
Proof.
  intros Hf (? & ? & ? & ? & Hip). repeat split; try done.
  intros j. cbn. rewrite lookup_alter. case_decide; [subst|done].
  rewrite <- Hip. destruct (ctxs st !! j); cbn; by rewrite ?Hf.
Qed.

Lemma conn_shape_store st0 st d : conn_shape st0 st -> conn_shape st0 (set_store d st).
Proof. by intros (? & ? & ? & ? & ?). Qed.

Lemma conn_shape_rooms st0 st m : conn_shape st0 st -> conn_shape st0 (set_localRooms m st).
Proof. by intros (? & ? & ? & ? & ?). Qed.

Lemma conn_shape_wsSend st0 st i f : conn_shape st0 st -> conn_shape st0 (wsSend cfg i f st).
Proof.
  intros Hs. unfold wsSend. repeat case_match; try done. by apply conn_shape_upd.
Qed.

Lemma conn_shape_deliver st0 st i f : conn_shape st0 st -> conn_shape st0 (deliver cfg f st i).
Proof.
  intros Hs. unfold deliver. repeat case_match; try done; by apply conn_shape_upd.
Qed.

Lemma conn_shape_foldl st0 st l f :
  conn_shape st0 st -> conn_shape st0 (foldl (deliver cfg f) st l).
Proof.
  revert st. induction l as [|i l IH]; intros st Hs; [done|].
  cbn. apply IH. by apply conn_shape_deliver.
Qed.

Lemma conn_shape_sendNext st0 st n l f :
  conn_shape st0 st -> conn_shape st0 (sendNext n cfg f l st).
Proof.
  revert st l. induction n as [|n IH]; intros st l Hs; [done|].
  cbn [sendNext]. destruct (drop 50 l); [by apply conn_shape_foldl|].
  apply IH. by apply conn_shape_foldl.
Qed.

Lemma conn_shape_broadcast st0 st room f :
  conn_shape st0 st -> conn_shape st0 (broadcast cfg room f st).
Proof.
  intros Hs. unfold broadcast. repeat case_match; try done. by apply conn_shape_sendNext.
Qed.

Lemma conn_shape_ensure st0 st now j room :
  conn_shape st0 st -> conn_shape st0 (snd (ensureLocalRoom cfg now j room st)).
Proof. intros Hs. unfold ensureLocalRoom. case_match; [done|]. by apply conn_shape_rooms. Qed.

Lemma conn_shape_cleanup st0 st room :
  conn_shape st0 st -> conn_shape st0 (cleanupIfEmpty room st).
Proof.
  intros Hs. unfold cleanupIfEmpty. repeat case_match; try done; by apply conn_shape_rooms.
Qed.

Lemma conn_shape_leaveRoom st0 st now rnd i room :
  conn_shape st0 st -> conn_shape st0 (leaveRoom cfg now rnd i room st).
Proof.
  intros Hs. unfold leaveRoom.
  destruct (ctxs st !! i) as [ctx|]; [|done].
  destruct (negb (bool_decide (roomId ctx = Some room))); [done|].
  destruct (RoomStore.leave _ _ _ _ _) as [remaining d].
  assert (conn_shape st0
            (set_store d (set_localRooms
               (alter (delete_conn i) room (localRooms (upd_ctx i (set_roomId None) st)))
               (upd_ctx i (set_roomId None) st)))) as Hs3.
  { apply conn_shape_store, conn_shape_rooms, conn_shape_upd; done. }
  destruct (remaining <=? 0); [by apply conn_shape_cleanup|].
  apply conn_shape_broadcast.
  destruct (label ctx) as [l|]; [|done].
  destruct (JoinTokens.is_empty l); [done|]. by apply conn_shape_broadcast.
Qed.

Lemma conn_shape_handle st0 st now rnd i ctx msg :
  conn_shape st0 st -> conn_shape st0 (handle cfg now rnd i ctx msg st).
Proof.
  intros Hs. destruct msg as [|room token qr lbl|room|room ct|room mime size chunkSize chunks|];
    cbn [handle].
  - destruct (WsTypes.truthy (roomId ctx)); [by apply conn_shape_wsSend|].
    open_ensure.
    apply conn_shape_broadcast, conn_shape_wsSend, conn_shape_upd; [done|].
    by apply conn_shape_rooms, conn_shape_ensure, conn_shape_store.
  - destruct (WsTypes.truthy (roomId ctx)); [by apply conn_shape_wsSend|].
    destruct (if WsTypes.truthy qr then qr else token) as [tk|]; [|done].
    destruct (JoinTokens.is_empty tk); [done|].
    destruct (JoinTokens.verifyJoinToken _ tk) as [payload|code];
      [|by apply conn_shape_wsSend].
    destruct (negb _); [by apply conn_shape_wsSend|].
    destruct (_ <? now); [by apply conn_shape_wsSend|].
    destruct (RoomStore.markTokenJtiUsed _ _ _ _ _ _) as [fresh d1].
    destruct (negb fresh); [by apply conn_shape_wsSend, conn_shape_store|].
    destruct (RoomStore.tryJoin _ _ _ _ _) as [[count jlabel|code] d2];
      [|by apply conn_shape_wsSend, conn_shape_store].
    open_ensure.
    apply conn_shape_broadcast, conn_shape_broadcast, conn_shape_wsSend, conn_shape_upd;
      [done|].
    by apply conn_shape_rooms, conn_shape_ensure, conn_shape_store, conn_shape_store.
  - by apply conn_shape_wsSend, conn_shape_leaveRoom.
  - destruct (negb _); [by apply conn_shape_wsSend|].
    destruct (_ <? _); [by apply conn_shape_wsSend|by apply conn_shape_broadcast].
  - destruct (negb _); [by apply conn_shape_wsSend|].
    destruct (_ <? _); [by apply conn_shape_wsSend|by apply conn_shape_broadcast].
  - by apply conn_shape_wsSend.
Qed.
End ConnShape.

(** ** The engine: the meters count the live sockets *)

Section MeterFacts.
Import Ws WsRel Meters.
Variable cfg : Config.

Lemma conn_shape_dom st st' : conn_shape st st' -> dom (ctxs st') = dom (ctxs st).
Proof.
  intros (_ & _ & _ & _ & Hip). apply set_eq. intros i. rewrite !elem_of_dom.
  specialize (Hip i). destruct (ctxs st' !! i), (ctxs st !! i); cbn in Hip; try done.
  all: split; intros [? ?]; done.
Qed.

Lemma conn_shape_live_ids st st' : conn_shape st st' -> live_ids st' = live_ids st.
Proof.
  intros Hs. unfold live_ids. rewrite (conn_shape_dom _ _ Hs).
  destruct Hs as (_ & -> & _). done.
Qed.

Lemma conn_shape_live_on st st' ip0 : conn_shape st st' -> live_on ip0 st' = live_on ip0 st.
Proof.
  intros Hs. unfold live_on. rewrite (conn_shape_live_ids _ _ Hs).
  destruct Hs as (_ & _ & _ & _ & Hip).
  apply set_eq. intros i. rewrite !elem_of_filter. unfold ip_of. by rewrite Hip.
Qed.

Lemma exact_shape st st' : conn_shape st st' -> exact st -> exact st'.
Proof.
  intros Hs (Hg & Hi & Hc). unfold exact.
  rewrite (conn_shape_live_ids _ _ Hs).
  pose proof Hs as (-> & _ & -> & -> & _).
  repeat split; [done| |done].
  intros ip0. by rewrite (conn_shape_live_on _ _ _ Hs).
Qed.

Lemma conn_shape_onMessage st now rnd i raw : conn_shape st (onMessage cfg now rnd i raw st).
Proof.
  unfold onMessage, close_ctx.
  destruct (ctxs st !! i) as [ctx|]; [|apply conn_shape_refl].
  destruct (_ <? _); [apply conn_shape_upd; [done|apply conn_shape_refl]|].
  destruct (TokenBucket.take now 1 _) as [ok1 mb].
  destruct (negb ok1).
  { do 2 (apply conn_shape_upd; [done|]). apply conn_shape_refl. }
  destruct (TokenBucket.take now _ _) as [ok2 bb].
  destruct (negb ok2).
  { do 3 (apply conn_shape_upd; [done|]). apply conn_shape_refl. }
  destruct (WsTypes.parseClientMsg raw) as [msg|].
  2:{ do 3 (apply conn_shape_upd; [done|]). apply conn_shape_refl. }
  apply conn_shape_handle.
  destruct (WsTypes.truthy (roomId ctx)); [apply conn_shape_store|];
    (do 2 (apply conn_shape_upd; [done|])); apply conn_shape_refl.
Qed.

Lemma conn_shape_pingSweep st now : conn_shape st (pingSweep cfg now st).
Proof.
  repeat split; try done. intros i. cbn. rewrite map_lookup_imap.
  destruct (ctxs st !! i) as [c|]; [|done]. cbn.
  case_decide; [|done]. unfold ping_one. repeat case_match; done.
Qed.

Lemma conn_shape_rotateQr st now rnd room : conn_shape st (rotateQr cfg now rnd room st).
Proof.
  unfold rotateQr. destruct (localRooms st !! room); [|apply conn_shape_refl].
  apply conn_shape_broadcast, conn_shape_rooms, conn_shape_store, conn_shape_refl.
Qed.

Lemma getCount_tryInc ip0 ip1 l l' :
  IpConnectionLimiter.tryInc ip0 l = (true, l') ->
  IpConnectionLimiter.getCount ip1 l' =
    IpConnectionLimiter.getCount ip1 l + (if decide (ip0 = ip1) then 1 else 0).
Proof.
  unfold IpConnectionLimiter.tryInc, IpConnectionLimiter.getCount.
  destruct (_ <=? _); [done|]. intros [= <-]. cbn.
  rewrite lookup_insert. case_decide; [subst; cbn; lia|lia].
Qed.

Lemma tryInc_false_same ip0 l l' : IpConnectionLimiter.tryInc ip0 l = (false, l') -> l' = l.
Proof. unfold IpConnectionLimiter.tryInc. by destruct (_ <=? _); intros [= <-]. Qed.

Lemma getCount_dec ip0 ip1 l :
  1 <= IpConnectionLimiter.getCount ip0 l ->
  IpConnectionLimiter.getCount ip1 (IpConnectionLimiter.dec ip0 l) =
    IpConnectionLimiter.getCount ip1 l - (if decide (ip0 = ip1) then 1 else 0).
Proof.
  unfold IpConnectionLimiter.dec, IpConnectionLimiter.getCount. intros Hpos.
  destruct (Z.leb_spec (default 0 (IpConnectionLimiter.counts l !! ip0)) 1); cbn.
  - rewrite lookup_delete. case_decide; [subst; cbn; lia|lia].
  - rewrite lookup_insert. case_decide; [subst; cbn; lia|lia].
Qed.

Lemma global_tryInc l l' :
  GlobalConnectionLimiter.tryInc l = (true, l') ->
  GlobalConnectionLimiter.count l' = GlobalConnectionLimiter.count l + 1 /\
  GlobalConnectionLimiter.max l' = GlobalConnectionLimiter.max l.
Proof. unfold GlobalConnectionLimiter.tryInc. by destruct (_ <=? _); intros [= <-]. Qed.

Lemma global_tryInc_false l l' : GlobalConnectionLimiter.tryInc l = (false, l') -> l' = l.
Proof. unfold GlobalConnectionLimiter.tryInc. by destruct (_ <=? _); intros [= <-]. Qed.

Lemma global_dec_inc l l' :
  0 <= GlobalConnectionLimiter.count l ->
  GlobalConnectionLimiter.tryInc l = (true, l') -> GlobalConnectionLimiter.dec l' = l.
Proof.
  unfold GlobalConnectionLimiter.tryInc, GlobalConnectionLimiter.dec. intros Hpos.
  destruct (_ <=? _); [done|]. intros [= <-]. cbn.
  destruct (Z.ltb_spec 0 (GlobalConnectionLimiter.count l + 1)); [|lia].
  destruct l as [m c]. cbn. f_equal. lia.
Qed.

Lemma global_dec_count l :
  1 <= GlobalConnectionLimiter.count l ->
  GlobalConnectionLimiter.count (GlobalConnectionLimiter.dec l) =
    GlobalConnectionLimiter.count l - 1.
Proof.
  unfold GlobalConnectionLimiter.dec. intros Hpos.
  by destruct (Z.ltb_spec 0 (GlobalConnectionLimiter.count l)); [|lia].
Qed.
End MeterFacts.

Section Admission.
Import Ws WsRel Meters.
#[local] Set Warnings "-clear-no-such-hyp".
Variable cfg : Config.

Lemma exact_count_nonneg st : exact st -> 0 <= GlobalConnectionLimiter.count (globalLimiter st).
Proof. intros (-> & _). lia. Qed.

Lemma onConnection_rejected st now rnd i ip0 st' code reason :
  exact st -> onConnection cfg now rnd i ip0 st = (st', Rejected code reason) ->
  ipLimiter st' = ipLimiter st /\ globalLimiter st' = globalLimiter st /\
  ctxs st' = ctxs st /\ connections st' = connections st /\
  disconnected st' = disconnected st.
Proof.
  intros Hex. unfold onConnection.
  destruct (GlobalConnectionLimiter.tryInc _) as [ok1 gl] eqn:Hg.
  destruct ok1; cbn [negb]; [|by intros [= <-]].
  destruct (IpConnectionLimiter.tryInc _ _) as [ok2 il] eqn:Hi.
  destruct ok2; cbn [negb]; [done|].
  intros [= <- _ _]. cbn. repeat split.
  apply global_dec_inc; [by apply exact_count_nonneg|done].
Qed.

Lemma onConnection_accepted st now rnd i ip0 st' :
  onConnection cfg now rnd i ip0 st = (st', Accepted) ->
  exists gl il,
    GlobalConnectionLimiter.tryInc (globalLimiter st) = (true, gl) /\
    IpConnectionLimiter.tryInc ip0 (ipLimiter st) = (true, il) /\
    conn_shape
      (mkState (<[i := mkCtx i ip0 (mkSocket OPEN 0 [] None false 0) None None
                         (TokenBucket.new (MAX_MSGS_PER_10S cfg) (MAX_MSGS_PER_10S cfg) 10000 now)
                         (TokenBucket.new (MAX_BYTES_PER_10S cfg) (MAX_BYTES_PER_10S cfg) 10000 now)
                         now false]> (ctxs st))
               ({[i]} ∪ connections st) (disconnected st ∖ {[i]}) (localRooms st)
               (store st) il gl)
      st'.
Proof.
  unfold onConnection.
  destruct (GlobalConnectionLimiter.tryInc _) as [ok1 gl] eqn:Hg.
  destruct ok1; cbn [negb]; [|done].
  destruct (IpConnectionLimiter.tryInc _ _) as [ok2 il] eqn:Hi.
  destruct ok2; cbn [negb]; [|done].
  intros [= <-]. exists gl, il. split; [done|split; [done|]].
  apply conn_shape_wsSend, conn_shape_refl.
Qed.

Lemma exact_accept st now rnd i ip0 st' :
  ctxs st !! i = None -> exact st ->
  onConnection cfg now rnd i ip0 st = (st', Accepted) ->
  exact st' /\
  GlobalConnectionLimiter.count (globalLimiter st') =
    GlobalConnectionLimiter.count (globalLimiter st) + 1 /\
  IpConnectionLimiter.getCount ip0 (ipLimiter st') =
    IpConnectionLimiter.getCount ip0 (ipLimiter st) + 1.
Proof.
  intros Hfresh (Hg & Hi & Hc) Hacc.
  destruct (onConnection_accepted _ _ _ _ _ _ Hacc) as (gl & il & Hgl & Hil & Hs).
  set (st1 := mkState _ _ _ _ _ _ _) in Hs.
  assert (i ∉ dom (ctxs st)) as Hdom by (by apply not_elem_of_dom).
  assert (live_ids st1 = {[i]} ∪ live_ids st) as Hlive.
  { unfold live_ids, st1. cbn. rewrite dom_insert_L. set_solver. }
  assert (i ∉ live_ids st) as Hni by (unfold live_ids; set_solver).
  assert (exact st1) as Hex1.
  { unfold exact. rewrite Hlive. repeat split.
    - cbn. destruct (global_tryInc _ _ Hgl) as [-> _].
      rewrite size_union by set_solver. rewrite size_singleton. lia.
    - intros ip1. cbn [ipLimiter st1]. rewrite (getCount_tryInc _ _ _ _ Hil), Hi.
      assert (forall j, ip_of st1 j = if decide (i = j) then Some ip0 else ip_of st j) as Hip.
      { intros j. unfold ip_of, st1. cbn. rewrite lookup_insert. by case_decide. }
      destruct (decide (ip0 = ip1)) as [<-|Hne].
      + assert (live_on ip0 st1 = {[i]} ∪ live_on ip0 st) as ->.
        { unfold live_on. rewrite Hlive. apply set_eq. intros j.
          rewrite elem_of_union, !elem_of_filter, elem_of_union, elem_of_singleton, Hip.
          destruct (decide (i = j)) as [->|]; naive_solver. }
        assert (i ∉ live_on ip0 st).
        { unfold live_on. rewrite elem_of_filter. naive_solver. }
        rewrite size_union by set_solver. rewrite size_singleton. lia.
      + assert (live_on ip1 st1 = live_on ip1 st) as ->; [|lia].
        unfold live_on. rewrite Hlive. apply set_eq. intros j.
        rewrite !elem_of_filter, elem_of_union, elem_of_singleton, Hip.
        destruct (decide (i = j)) as [->|]; [|naive_solver].
        split; [intros [[= ?] _]; done|]. intros [_ ?]. done.
    - cbn. by rewrite Hc. }
  split; [by apply (exact_shape _ _ Hs)|].
  destruct Hs as (_ & _ & -> & -> & _). cbn.
  destruct (global_tryInc _ _ Hgl) as [-> _].
  rewrite (getCount_tryInc _ _ _ _ Hil). by rewrite decide_True.
Qed.

Lemma onDisconnect_shape st now rnd i ctx :
  ctxs st !! i = Some ctx ->
  exists st1, conn_shape st st1 /\
    onDisconnect cfg now rnd i st =
      mkState (ctxs st1) (connections st ∖ {[i]}) (disconnected st) (localRooms st1)
              (store st1)
              (IpConnectionLimiter.dec (ip ctx) (ipLimiter st))
              (GlobalConnectionLimiter.dec (globalLimiter st)).
Proof.
  intros Hctx. unfold onDisconnect. rewrite Hctx.
  set (st1 := match roomId ctx with Some _ => _ | None => _ end).
  assert (conn_shape st st1) as Hs.
  { subst st1. destruct (roomId ctx) as [room|]; [|apply conn_shape_refl].
    destruct (JoinTokens.is_empty room); [apply conn_shape_refl|].
    apply conn_shape_leaveRoom, conn_shape_refl. }
  exists st1. split; [done|].
  destruct Hs as (-> & -> & -> & -> & _). done.
Qed.

Lemma exact_disconnect st now rnd i ctx :
  exact st -> ctxs st !! i = Some ctx -> i ∉ disconnected st ->
  let st' := onCloseOrError cfg now rnd i st in
  exact st' /\
  GlobalConnectionLimiter.count (globalLimiter st') =
    GlobalConnectionLimiter.count (globalLimiter st) - 1 /\
  IpConnectionLimiter.getCount (ip ctx) (ipLimiter st') =
    IpConnectionLimiter.getCount (ip ctx) (ipLimiter st) - 1 /\
  i ∈ disconnected st' /\ i ∉ connections st'.
Proof.
  intros (Hg & Hi & Hc) Hctx Hnd st'. subst st'. unfold onCloseOrError.
  rewrite decide_False by done.
  set (st0 := mkState (ctxs st) (connections st) ({[i]} ∪ disconnected st) (localRooms st)
                      (store st) (ipLimiter st) (globalLimiter st)).
  destruct (onDisconnect_shape st0 now rnd i ctx Hctx) as (st1 & Hs & ->).
  cbn [connections disconnected ipLimiter globalLimiter st0].
  assert (i ∈ live_ids st) as Hin.
  { unfold live_ids. apply elem_of_difference. split; [|done]. apply elem_of_dom. eauto. }
  assert (i ∈ live_on (ip ctx) st) as Hin_ip.
  { unfold live_on. apply elem_of_filter. split; [|done]. unfold ip_of. by rewrite Hctx. }
  assert (1 <= GlobalConnectionLimiter.count (globalLimiter st)) as Hg1.
  { rewrite Hg. assert (size (live_ids st) ≠ 0%nat); [|lia].
    intros Hz%size_empty_inv. set_solver. }
  assert (1 <= IpConnectionLimiter.getCount (ip ctx) (ipLimiter st)) as Hi1.
  { rewrite Hi. assert (size (live_on (ip ctx) st) ≠ 0%nat); [|lia].
    intros Hz%size_empty_inv. set_solver. }
  set (st2 := mkState _ _ _ _ _ _ _).
  assert (dom (ctxs st1) = dom (ctxs st)) as Hdom by apply (conn_shape_dom _ _ Hs).
  assert (live_ids st2 = live_ids st ∖ {[i]}) as Hlive.
  { unfold live_ids, st2. cbn. rewrite Hdom. set_solver. }
  assert (forall j, ip_of st2 j = ip_of st j) as Hip.
  { intros j. destruct Hs as (_ & _ & _ & _ & Hs). apply Hs. }
  repeat split.
  - rewrite Hlive. cbn. rewrite global_dec_count by done.
    rewrite size_difference by set_solver. rewrite size_singleton. lia.
  - intros ip1. cbn [ipLimiter st2]. rewrite getCount_dec by done. rewrite Hi.
    destruct (decide (ip ctx = ip1)) as [<-|Hne].
    + assert (live_on (ip ctx) st2 = live_on (ip ctx) st ∖ {[i]}) as ->.
      { unfold live_on. rewrite Hlive. apply set_eq. intros j.
        rewrite elem_of_difference, !elem_of_filter, elem_of_difference, Hip.
        naive_solver. }
      rewrite size_difference by set_solver. rewrite size_singleton.
      assert (size (live_on (ip ctx) st) ≠ 0%nat); [|lia].
      intros Hz%size_empty_inv. set_solver.
    + assert (live_on ip1 st2 = live_on ip1 st) as ->; [|lia].
      unfold live_on. rewrite Hlive. apply set_eq. intros j.
      rewrite !elem_of_filter, elem_of_difference, Hip.
      split; [naive_solver|]. intros [Hj ?]. repeat split; try done.
      intros ->%elem_of_singleton. unfold ip_of in Hj. rewrite Hctx in Hj.
      cbn in Hj. congruence.
  - cbn. rewrite Hlive. by rewrite Hc.
  - cbn. by apply global_dec_count.
  - cbn. rewrite getCount_dec by done. rewrite decide_True by done. lia.
  - cbn. set_solver.
  - cbn. set_solver.
Qed.

Lemma onCloseOrError_again st now rnd i :
  i ∈ disconnected st -> onCloseOrError cfg now rnd i st = st.
Proof. intros Hd. unfold onCloseOrError. by rewrite decide_True. Qed.
End Admission.

(** ** The engine: sends touch sockets only *)

Section WsOnly.
#[local] Set Warnings "-clear-no-such-hyp".
Import Ws WsRel.
Variable cfg : Config.


Lemma ws_only_refl st : ws_only st st.
Proof. by repeat split. Qed.

Lemma ws_only_upd st0 st i f : ws_only st0 st -> ws_only st0 (upd_ctx i (on_ws f) st).
Proof.
  intros (? & ? & ? & ? & ? & ? & Hc). repeat split; try done.
  intros j. cbn. rewrite lookup_alter. case_decide; [subst|done].
  rewrite <- Hc. by destruct (ctxs st !! j).
Qed.

Lemma ws_only_wsSend st0 st i f : ws_only st0 st -> ws_only st0 (wsSend cfg i f st).
Proof. intros Hs. unfold wsSend. repeat case_match; try done. by apply ws_only_upd. Qed.

Lemma ws_only_deliver st0 st i f : ws_only st0 st -> ws_only st0 (deliver cfg f st i).
Proof. intros Hs. unfold deliver. repeat case_match; try done; by apply ws_only_upd. Qed.

Lemma ws_only_foldl st0 st l f : ws_only st0 st -> ws_only st0 (foldl (deliver cfg f) st l).
Proof.
  revert st. induction l as [|i l IH]; intros st Hs; [done|].
  cbn. apply IH. by apply ws_only_deliver.
Qed.

Lemma sendNext_foldl n l f st :
  (length l <= n)%nat -> sendNext n cfg f l st = foldl (deliver cfg f) st l.
Proof.
  revert l st. induction n as [|n IH]; intros l st Hn.
  { destruct l; [done|cbn in Hn; lia]. }
  cbn [sendNext].
  transitivity (foldl (deliver cfg f) st (take 50 l ++ drop 50 l)); [|by rewrite take_drop].
  rewrite foldl_app.
  destruct (drop 50 l) as [|x rest] eqn:Hd; [done|].
  rewrite <- Hd. apply IH. rewrite length_drop.
  assert (length (drop 50 l) <> 0)%nat by (rewrite Hd; done).
  rewrite length_drop in *. lia.
Qed.

Lemma broadcast_foldl room f st :
  broadcast cfg room f st =
    match localRooms st !! room with
    | Some r => foldl (deliver cfg f) st (elements (conns r))
    | None => st
    end.
Proof.
  unfold broadcast. destruct (localRooms st !! room) as [r|]; [|done].
  case_decide as Hz.
  - apply size_empty_inv in Hz. apply leibniz_equiv in Hz. rewrite Hz, elements_empty. done.
  - by apply sendNext_foldl.
Qed.

Lemma ws_only_broadcast st0 st room f : ws_only st0 st -> ws_only st0 (broadcast cfg room f st).
Proof.
  intros Hs. rewrite broadcast_foldl. case_match; [|done]. by apply ws_only_foldl.
Qed.

Lemma ws_only_roomId st st' i :
  ws_only st st' -> roomId <$> (ctxs st' !! i) = roomId <$> (ctxs st !! i).
Proof.
  intros (_ & _ & _ & _ & _ & _ & Hc). specialize (Hc i).
  destruct (ctxs st' !! i), (ctxs st !! i); cbn in *; try done.
  by injection Hc as _ _ -> _.
Qed.

Lemma ws_only_label st st' i :
  ws_only st st' -> label <$> (ctxs st' !! i) = label <$> (ctxs st !! i).
Proof.
  intros (_ & _ & _ & _ & _ & _ & Hc). specialize (Hc i).
  destruct (ctxs st' !! i), (ctxs st !! i); cbn in *; try done.
  by injection Hc as _ _ _ -> _.
Qed.
End WsOnly.

(** ** The engine: who a broadcast reaches *)

Section Fanout.
#[local] Set Warnings "-clear-no-such-hyp".
Import Ws WsRel.
Variable cfg : Config.


Lemma outbox_upd_ne st i j f : i <> j -> outbox j (upd_ctx i f st) = outbox j st.
Proof. intros Hne. unfold outbox. cbn. by rewrite lookup_alter_ne. Qed.

Lemma connections_get_upd_ne st i j f :
  i <> j -> connections_get j (upd_ctx i f st) = connections_get j st.
Proof. intros Hne. unfold connections_get. cbn. by rewrite lookup_alter_ne. Qed.

Lemma deliver_other st i j f :
  i <> j ->
  outbox j (deliver cfg f st i) = outbox j st /\
  reached cfg (deliver cfg f st i) j = reached cfg st j.
Proof.
  intros Hne. unfold deliver.
  destruct (connections_get i st) as [c|]; [|done].
  destruct (negb _); [done|].
  destruct (slow _ _);
    (split; [by apply outbox_upd_ne | unfold reached; by rewrite connections_get_upd_ne]).
Qed.

Lemma deliver_self st i f :
  outbox i (deliver cfg f st i) = outbox i st ++ (if reached cfg st i then [f] else []).
Proof.
  unfold deliver, reached. destruct (connections_get i st) as [c|] eqn:Hget.
  2:{ by rewrite app_nil_r. }
  assert (ctxs st !! i = Some c) as Hc.
  { unfold connections_get in Hget. by case_decide. }
  destruct (readyState (ws c) =? OPEN); cbn; [|by rewrite app_nil_r].
  destruct (slow cfg (ws c)); cbn.
  - rewrite app_nil_r. unfold outbox. cbn. rewrite lookup_alter_eq, Hc. cbn.
    unfold ws_close. by case_match.
  - unfold outbox. cbn. by rewrite lookup_alter_eq, Hc.
Qed.

Lemma foldl_deliver_outbox l st f j :
  NoDup l ->
  outbox j (foldl (deliver cfg f) st l) =
    outbox j st ++ (if bool_decide (j ∈ l) && reached cfg st j then [f] else []).
Proof.
  revert st. induction l as [|i l IH]; intros st Hnd.
  { cbn. by rewrite app_nil_r. }
  apply NoDup_cons in Hnd as [Hi Hnd]. cbn [foldl]. rewrite IH by done.
  destruct (decide (i = j)) as [->|Hne].
  - rewrite deliver_self. rewrite (bool_decide_eq_false_2 (j ∈ l)) by done.
    rewrite (bool_decide_eq_true_2 (j ∈ j :: l)) by set_solver.
    cbn. by rewrite app_nil_r.
  - destruct (deliver_other st i j f Hne) as [-> ->].
    rewrite (bool_decide_ext (j ∈ i :: l) (j ∈ l)); [done|]. set_solver.
Qed.

Lemma reached_receives st room j r :
  localRooms st !! room = Some r ->
  (bool_decide (j ∈ elements (conns r)) && reached cfg st j = true <-> receives cfg room j st).
Proof.
  intros Hr. unfold receives, reached. rewrite andb_true_iff, bool_decide_eq_true.
  rewrite elem_of_elements. split.
  - intros [Hin Hreach]. destruct (connections_get j st) as [c|]; [|done].
    apply andb_true_iff in Hreach as [Ho%Z.eqb_eq Hs%negb_true_iff].
    by exists r, c.
  - intros (r' & c & Hr' & Hin & -> & Ho & Hs). rewrite Hr in Hr'. injection Hr' as <-.
    split; [done|]. rewrite Ho, Hs. done.
Qed.

Lemma broadcast_outbox st room f j :
  (receives cfg room j st -> outbox j (broadcast cfg room f st) = outbox j st ++ [f]) /\
  (~ receives cfg room j st -> outbox j (broadcast cfg room f st) = outbox j st).
Proof.
  rewrite broadcast_foldl. destruct (localRooms st !! room) as [r|] eqn:Hr.
  - rewrite foldl_deliver_outbox by apply NoDup_elements.
    pose proof (reached_receives st room j r Hr) as Hiff.
    destruct (bool_decide (j ∈ elements (conns r)) && reached cfg st j).
    + split; [done|]. intros Hn. destruct Hn. by apply Hiff.
    + split; [|by rewrite app_nil_r]. intros Hrec%Hiff. done.
  - split; [|done]. intros (r & c & Hr' & _). congruence.
Qed.
End Fanout.

(** ** The engine: leaving a room *)

Section Leaving.
#[local] Set Warnings "-clear-no-such-hyp".
Import Ws WsRel.
Variable cfg : Config.

Lemma leaveRoom_effect st now rnd i ctx room :
  ctxs st !! i = Some ctx -> roomId ctx = Some room ->
  let st' := leaveRoom cfg now rnd i room st in
  store st' = snd (RoomStore.leave (roomStore cfg) now room i (store st)) /\
  (roomId <$> (ctxs st' !! i)) = Some None /\
  (forall r, localRooms st' !! room = Some r -> i ∉ conns r).
Proof.
  intros Hctx Hroom. cbn zeta. unfold leaveRoom. rewrite Hctx, Hroom.
  rewrite bool_decide_eq_true_2 by done. cbn [negb].
  set (st1 := upd_ctx i (set_roomId None) st).
  set (st2 := set_localRooms _ st1).
  change (store st2) with (store st).
  destruct (RoomStore.leave _ _ _ _ _) as [remaining d]. cbn [snd].
  set (st3 := set_store d st2).
  assert (roomId <$> (ctxs st3 !! i) = Some None) as Hr3.
  { cbn. by rewrite lookup_alter_eq, Hctx. }
  assert (forall r, localRooms st3 !! room = Some r -> i ∉ conns r) as Hl3.
  { intros r. cbn. rewrite lookup_alter_eq.
    destruct (localRooms st !! room) as [r0|]; [|done]. cbn. intros [= <-]. cbn. set_solver. }
  destruct (remaining <=? 0).
  - unfold cleanupIfEmpty.
    destruct (localRooms st3 !! room) as [r0|] eqn:Hr0.
    + destruct (decide _).
      * cbn [store ctxs localRooms set_localRooms]. repeat split; try done.
        intros r. by rewrite lookup_delete_eq.
      * repeat split; try done. intros r Hr. apply Hl3. congruence.
    + cbn [store ctxs localRooms set_localRooms]. repeat split; try done.
      intros r. by rewrite lookup_delete_eq.
  - set (st4 := match label ctx with Some _ => _ | None => _ end).
    assert (ws_only st3 st4) as H4.
    { subst st4. destruct (label ctx) as [l|]; [|apply ws_only_refl].
      destruct (JoinTokens.is_empty l); [apply ws_only_refl|].
      apply ws_only_broadcast, ws_only_refl. }
    assert (ws_only st3 (broadcast cfg room
              (mkFrame (rnd 2%nat) (ROOM_STATS room remaining (ROOM_MAX_PARTICIPANTS cfg))) st4))
      as H5 by (by apply ws_only_broadcast).
    pose proof (ws_only_roomId _ _ i H5) as Hr5.
    destruct H5 as (_ & _ & Hl5 & Hs5 & _).
    rewrite Hs5, Hl5, Hr5. done.
Qed.

Lemma onCloseOrError_membership st now rnd i ctx room :
  ctxs st !! i = Some ctx -> i ∉ disconnected st ->
  roomId ctx = Some room -> JoinTokens.is_empty room = false ->
  let st' := onCloseOrError cfg now rnd i st in
  store st' = snd (RoomStore.leave (roomStore cfg) now room i (store st)) /\
  (roomId <$> (ctxs st' !! i)) = Some None /\
  (forall r, localRooms st' !! room = Some r -> i ∉ conns r).
Proof.
  intros Hctx Hnd Hroom Hne. cbn zeta. unfold onCloseOrError.
  rewrite decide_False by done. unfold onDisconnect. cbn [ctxs]. rewrite Hctx, Hroom, Hne.
  cbn [store ctxs localRooms].
  set (st0 := mkState _ _ _ _ _ _ _).
  apply (leaveRoom_effect st0 now rnd i ctx room); done.
Qed.

Lemma onCloseOrError_no_room st now rnd i ctx :
  ctxs st !! i = Some ctx -> i ∉ disconnected st -> roomId ctx = None ->
  let st' := onCloseOrError cfg now rnd i st in
  store st' = store st /\ ctxs st' = ctxs st /\ localRooms st' = localRooms st.
Proof.
  intros Hctx Hnd Hroom. cbn zeta. unfold onCloseOrError.
  rewrite decide_False by done. unfold onDisconnect. cbn [ctxs]. by rewrite Hctx, Hroom.
Qed.
End Leaving.

Section MeterInvariant.
Import Ws WsRel Meters.
Variable cfg : Config.
#[local] Set Warnings "-clear-no-such-hyp".

Lemma exact_init : exact (init cfg).
Proof.
  assert (live_ids (init cfg) = ∅) as Hlive.
  { unfold live_ids, init. cbn. by rewrite dom_empty_L, difference_diag_L. }
  unfold exact, live_on. rewrite Hlive.
  rewrite (size_empty (C := gset string)).
  split; [reflexivity|split; [|done]].
  intros ip0.
  rewrite (filter_empty_L (C := gset string)).
  rewrite (size_empty (C := gset string)).
  unfold IpConnectionLimiter.getCount, init. cbn. by rewrite lookup_empty.
  Unshelve. all: apply _.
Qed.

Lemma exact_close_unknown st now rnd i :
  ctxs st !! i = None -> exact st -> exact (onCloseOrError cfg now rnd i st).
Proof.
  intros Hnone (Hg & Hi & Hc). unfold onCloseOrError.
  destruct (decide (i ∈ disconnected st)); [done|].
  unfold onDisconnect. cbn [ctxs]. rewrite Hnone.
  assert (i ∉ dom (ctxs st)) by (by apply not_elem_of_dom).
  assert (live_ids (mkState (ctxs st) (connections st) ({[i]} ∪ disconnected st)
                      (localRooms st) (store st) (ipLimiter st) (globalLimiter st))
          = live_ids st) as Hlive.
  { unfold live_ids. cbn. set_solver. }
  unfold exact, live_on. rewrite Hlive. done.
Qed.

Lemma exact_step st now rnd ev :
  admissible ev st -> exact st -> exact (step cfg now rnd ev st).
Proof.
  intros Hadm Hex. destruct ev as [i ip0|i raw|i|i|i| |room|i rs buffered]; cbn [step].
  - destruct (onConnection cfg now rnd i ip0 st) as [st' [|code reason]] eqn:Hconn; cbn [fst].
    + by destruct (exact_accept cfg st now rnd i ip0 st' Hadm Hex Hconn) as [? _].
    + destruct (onConnection_rejected cfg st now rnd i ip0 st' code reason Hex Hconn)
        as (Hi & Hg & Hc & Hn & Hd).
      unfold exact, live_on, live_ids, ip_of in *. rewrite Hi, Hg, Hc, Hn, Hd. done.
  - by apply (exact_shape _ _ (conn_shape_onMessage cfg st now rnd i raw)).
  - refine (exact_shape st _ _ Hex). apply conn_shape_upd; [done|apply conn_shape_refl].
  - destruct (ctxs st !! i) as [ctx|] eqn:Hctx; [|by apply exact_close_unknown].
    destruct (decide (i ∈ disconnected st)) as [Hd|Hd].
    + by rewrite onCloseOrError_again.
    + by destruct (exact_disconnect cfg st now rnd i ctx Hex Hctx Hd) as [? _].
  - destruct (ctxs st !! i) as [ctx|] eqn:Hctx; [|by apply exact_close_unknown].
    destruct (decide (i ∈ disconnected st)) as [Hd|Hd].
    + by rewrite onCloseOrError_again.
    + by destruct (exact_disconnect cfg st now rnd i ctx Hex Hctx Hd) as [? _].
  - by apply (exact_shape _ _ (conn_shape_pingSweep cfg st now)).
  - by apply (exact_shape _ _ (conn_shape_rotateQr cfg st now rnd room)).
  - refine (exact_shape st _ _ Hex). apply conn_shape_upd; [done|apply conn_shape_refl].
Qed.

Lemma reachable_exact st : reachable cfg st -> exact st.
Proof. induction 1; [apply exact_init|by apply exact_step]. Qed.
End MeterInvariant.


Section Runs.
Import Ws WsRel Trace.
Variable cfg : Config.

Lemma reachable_run evs st :
  reachable cfg st -> admissible_run cfg evs st -> reachable cfg (run cfg evs st).
Proof.
  revert st. induction evs as [|[[now rnd] ev] evs IH]; intros st Hr Ha; [done|].
  destruct Ha as [Ha1 Ha2]. cbn in *. apply IH; [|done]. by apply reach_step.
Qed.
End Runs.

Section Relay.
Import Ws WsRel.
Variable cfg : Config.

Lemma outbox_upd_keep st i j f :
  (forall c, ws (f c) = ws c) -> outbox j (upd_ctx i f st) = outbox j st.
Proof.
  intros Hf. unfold outbox. cbn. rewrite lookup_alter. case_decide; [subst|done].
  destruct (ctxs st !! j); cbn; by rewrite ?Hf.
Qed.

Lemma connections_get_upd st i j f :
  connections_get j (upd_ctx i f st) =
    (if decide (i = j) then f else fun c => c) <$> connections_get j st.
Proof.
  unfold connections_get. cbn. destruct (decide (j ∈ connections st)); [|done].
  rewrite lookup_alter. destruct (decide (i = j)) as [->|]; [done|].
  by destruct (ctxs st !! j).
Qed.

Lemma receives_upd_keep st i j room f :
  (forall c, ws (f c) = ws c) ->
  receives cfg room j (upd_ctx i f st) <-> receives cfg room j st.
Proof.
  intros Hf. unfold receives. setoid_rewrite connections_get_upd. cbn [localRooms upd_ctx].
  assert (forall c, ws ((if decide (i = j) then f else fun c => c) c) = ws c) as Hg.
  { intros c. by destruct (decide (i = j)). }
  split; intros (r & c & Hr & Hin & Hget & Ho & Hs).
  - destruct (connections_get j st) as [c0|]; [|done]. cbn in Hget. injection Hget as <-.
    exists r, c0. rewrite Hg in Ho, Hs. done.
  - exists r, ((if decide (i = j) then f else fun c => c) c). rewrite Hget, Hg. done.
Qed.
End Relay.





(** ** The engine: the join request *)

Section JoinRequests.
Import Ws WsRel StoreRun.
Variable cfg : Config.

Lemma handle_join_checked now rnd i ctx room token qr lbl payload st :
  presentable cfg now ctx room token qr payload ->
  handle cfg now rnd i ctx (WsTypes.JoinRequest room token qr lbl) st =
    let jtiTtlMs := Z.max 1 (JoinTokens.exp payload - now + 5000) in
    let '(fresh, d1) :=
      RoomStore.markTokenJtiUsed (roomStore cfg) now room (JoinTokens.jti payload)
        jtiTtlMs (store st) in
    let st1 := set_store d1 st in
    if negb fresh then wsSend cfg i (error_frame rnd "ERR_TOKEN_REPLAY" true) st1
    else
      let '(joined, d2) := RoomStore.tryJoin (roomStore cfg) now room i (store st1) in
      let st2 := set_store d2 st1 in
      match joined with
      | RoomStore.JoinErr code =>
          wsSend cfg i (error_frame rnd code (negb (String.eqb code "ERR_NO_ROOM"))) st2
      | RoomStore.JoinOk count jlabel =>
          let '(_, st3) := ensureLocalRoom cfg now (rnd 4%nat) room st2 in
          let st4 := set_localRooms (alter (add_conn i) room (localRooms st3)) st3 in
          let l := if WsTypes.truthy lbl then default jlabel lbl else jlabel in
          let st5 := upd_ctx i (fun c => set_label (Some l) (set_roomId (Some room) c)) st4 in
          let nextExp := now + ROOM_KEY_TTL_MS cfg in
          let nextToken :=
            JoinTokens.mintJoinToken (JOIN_TOKEN_SECRET cfg) room nextExp (rnd 5%nat) in
          let st6 := wsSend cfg i
                       (mkFrame (rnd 0%nat)
                          (JOINED room count (ROOM_MAX_PARTICIPANTS cfg) l nextToken nextExp))
                       st5 in
          let st7 := broadcast cfg room
                       (mkFrame (rnd 1%nat)
                          (SYSTEM_MSG room
                             ("this person has entered the chat with the name " ++ l) "info"))
                       st6 in
          broadcast cfg room
            (mkFrame (rnd 2%nat) (ROOM_STATS room count (ROOM_MAX_PARTICIPANTS cfg))) st7
      end.
Proof.
  intros (Hroom & tk & Htk & Hne & Hver & Hrid & Hexp). cbn [handle].
  rewrite Hroom, Htk, Hne, Hver, Hrid, String.eqb_refl. cbn [negb].
  destruct (Z.ltb_spec (JoinTokens.exp payload) now); [lia|]. done.
Qed.

Lemma handle_join_replay now rnd i ctx room token qr lbl payload st :
  presentable cfg now ctx room token qr payload ->
  marker_live now room (JoinTokens.jti payload) (store st) ->
  handle cfg now rnd i ctx (WsTypes.JoinRequest room token qr lbl) st =
    wsSend cfg i (error_frame rnd "ERR_TOKEN_REPLAY" true)
      (set_store (Redis.expire now (store st)) st).
Proof.
  intros Hp Hlive. rewrite (handle_join_checked _ _ _ _ _ _ _ _ _ _ Hp). cbv zeta.
  pose proof (proj2 (mark_fresh_iff (roomStore cfg) now room (JoinTokens.jti payload)
                (Z.max 1 (JoinTokens.exp payload - now + 5000)) (store st)) Hlive) as Hf.
  assert (snd (RoomStore.markTokenJtiUsed (roomStore cfg) now room (JoinTokens.jti payload)
                 (Z.max 1 (JoinTokens.exp payload - now + 5000)) (store st))
          = Redis.expire now (store st)) as Hd.
  { revert Hf. unfold RoomStore.markTokenJtiUsed.
    destruct (Redis.set_px_nx _ _ _ _ _) as [ok j1]. by destruct ok. }
  destruct (RoomStore.markTokenJtiUsed _ _ _ _ _ _) as [fresh d1]. cbn in Hf, Hd.
  by subst.
Qed.

Lemma handle_join_refused now rnd i ctx room token qr lbl payload st d1 code d2 :
  presentable cfg now ctx room token qr payload ->
  RoomStore.markTokenJtiUsed (roomStore cfg) now room (JoinTokens.jti payload)
    (Z.max 1 (JoinTokens.exp payload - now + 5000)) (store st) = (true, d1) ->
  RoomStore.tryJoin (roomStore cfg) now room i d1 = (RoomStore.JoinErr code, d2) ->
  handle cfg now rnd i ctx (WsTypes.JoinRequest room token qr lbl) st =
    wsSend cfg i (error_frame rnd code (negb (String.eqb code "ERR_NO_ROOM")))
      (set_store d2 st).
Proof.
  intros Hp Hmark Hjoin. rewrite (handle_join_checked _ _ _ _ _ _ _ _ _ _ Hp). cbv zeta.
  rewrite Hmark. cbn [negb store set_store]. by rewrite Hjoin.
Qed.

Lemma tryJoin_codes rs now room i d code d2 :
  RoomStore.tryJoin rs now room i d = (RoomStore.JoinErr code, d2) ->
  (code = "ERR_NO_ROOM" \/ code = "ERR_ROOM_FULL") /\ d2 = Redis.expire now d.
Proof.
  unfold RoomStore.tryJoin. repeat case_match; intros [= <- <-]; auto.
Qed.

Lemma verify_codes secret tk code :
  JoinTokens.verifyJoinToken secret tk = JoinTokens.Err code ->
  code = "ERR_TOKEN_FORMAT" \/ code = "ERR_TOKEN_MAC".
Proof.
  unfold JoinTokens.verifyJoinToken.
  destruct (JoinTokens.split "." tk) as [|a [|b [|c l]]]; try (intros [= <-]; auto).
  destruct (_ || _); [intros [= <-]; auto|].
  destruct (negb _); [intros [= <-]; auto|].
  destruct (JSON.parse _); [|intros [= <-]; auto].
  destruct (JoinTokens.check_payload _); [done|intros [= <-]; auto].
Qed.
End JoinRequests.

Section Replies.
Import Ws WsRel StoreRun.
Variable cfg : Config.

Lemma wsSend_outbox st i f c :
  ctxs st !! i = Some c -> readyState (ws c) = OPEN -> slow cfg (ws c) = false ->
  outbox i (wsSend cfg i f st) = outbox i st ++ [f].
Proof.
  intros Hc Ho Hs. unfold wsSend, outbox. rewrite Hc, Ho, Hs. cbn.
  by rewrite lookup_alter_eq, Hc.
Qed.

Lemma wsSend_outbox_ne st i j f : i <> j -> outbox j (wsSend cfg i f st) = outbox j st.
Proof.
  intros Hne. unfold wsSend. repeat case_match; try done. by apply outbox_upd_ne.
Qed.

Lemma wsSend_store st i f : store (wsSend cfg i f st) = store st.
Proof. unfold wsSend. by repeat case_match. Qed.

Lemma wsSend_localRooms st i f : localRooms (wsSend cfg i f st) = localRooms st.
Proof. unfold wsSend. by repeat case_match. Qed.

Lemma wsSend_roomId st i j f :
  roomId <$> (ctxs (wsSend cfg i f st) !! j) = roomId <$> (ctxs st !! j).
Proof. apply ws_only_roomId. apply ws_only_wsSend, ws_only_refl. Qed.

Lemma purge_later {K} `{Countable K} {A} now t (m : gmap K (Redis.Entry A)) :
  now <= t -> Redis.purge t (Redis.purge now m) = Redis.purge t m.
Proof.
  intros Hle. apply map_eq. intros k. rewrite !lookup_purge.
  destruct (m !! k) as [e|]; [|done].
  destruct (Redis.live now e) eqn:L; [done|].
  destruct (Redis.live t e) eqn:L'; [|done].
  by rewrite (live_mono e now t Hle L') in L.
Qed.

Lemma expire_later now t d :
  now <= t -> Redis.expire t (Redis.expire now d) = Redis.expire t d.
Proof. intros Hle. unfold Redis.expire. cbn. by rewrite !purge_later. Qed.

Lemma marker_live_expire now t room j d :
  now <= t -> marker_live t room j d -> marker_live t room j (Redis.expire now d).
Proof.
  intros Hle (e & Hk & Hl). exists e. split; [|done]. cbn.
  apply purge_keeps; [done|]. by eapply live_mono.
Qed.
End Replies.

(** C4 (amended).  Once markTokenJtiUsed has returned true for a pair
    (room, jti), every later call for that pair made before the marker's
    expiry returns false, provided no leave in between reported that the
    room has no member left (that leave deletes the markers of the room).
    A JOIN_REQUEST that presents a verified, unexpired token of the room
    whose marker is live is answered with ERROR ERR_TOKEN_REPLAY,
    retryable, and with nothing else: the connection joins no room, the
    router's rooms are as before, and the stored count and members of the
    room read the same at every later time. *)
Theorem jti_single_use (cfg : Ws.Config) (rs : RoomStore.t) :
  (forall room j t0 ttl t1 ttl' d d',
     fst (RoomStore.markTokenJtiUsed rs t0 room j ttl d) = true ->
     StoreRun.quiet rs room t1 (snd (RoomStore.markTokenJtiUsed rs t0 room j ttl d)) d' ->
     t1 < t0 + ttl ->
     fst (RoomStore.markTokenJtiUsed rs t1 room j ttl' d') = false) /\
  (forall now rnd i ctx room token qr lbl payload st,
     Ws.ctxs st !! i = Some ctx ->
     WsRel.presentable cfg now ctx room token qr payload ->
     StoreRun.marker_live now room (JoinTokens.jti payload) (Ws.store st) ->
     let st' := Ws.handle cfg now rnd i ctx (WsTypes.JoinRequest room token qr lbl) st in
     (Ws.readyState (Ws.ws ctx) = Ws.OPEN -> Ws.slow cfg (Ws.ws ctx) = false ->
      Ws.outbox i st' = Ws.outbox i st ++ [Ws.error_frame rnd "ERR_TOKEN_REPLAY" true]) /\
     (forall j, j <> i -> Ws.outbox j st' = Ws.outbox j st) /\
     (Ws.roomId <$> (Ws.ctxs st' !! i)) = Some (Ws.roomId ctx) /\
     Ws.localRooms st' = Ws.localRooms st /\
     (forall t, now <= t ->
        RoomStore.room_count t room (Ws.store st') = RoomStore.room_count t room (Ws.store st) /\
        RoomStore.room_members t room (Ws.store st') =
          RoomStore.room_members t room (Ws.store st))).
Proof.
  split.
  - intros room j t0 ttl t1 ttl' d d'. apply marker_stays_consumed.
  - intros now rnd i ctx room token qr lbl payload st Hctx Hp Hlive st'. subst st'.
    rewrite (handle_join_replay cfg now rnd i ctx room token qr lbl payload st Hp Hlive).
    split; [|split; [|split; [|split]]].
    + intros Ho Hs. by rewrite (wsSend_outbox cfg _ i _ ctx).
    + intros j Hne. by rewrite wsSend_outbox_ne.
    + rewrite wsSend_roomId. cbn. by rewrite Hctx.
    + by rewrite wsSend_localRooms.
    + intros t Hle. rewrite wsSend_store. cbn [Ws.store Ws.set_store].
      unfold RoomStore.room_count, RoomStore.room_members.
      by rewrite expire_later.
Qed.

(** An instance: a third socket presents the token B has joined with. *)
Lemma jti_single_use_witness :
  let st := Ws.run Scenario.cfg
              (Scenario.relayed ++ [(6000, Scenario.rnd "5", Ws.EvConnect "connC" "10.0.0.2")])
              (Ws.init Scenario.cfg) in
  exists ctx,
    Ws.ctxs st !! "connC" = Some ctx /\
    let st' := Ws.handle Scenario.cfg 7000 (Scenario.rnd "d") "connC" ctx
                 (WsTypes.JoinRequest Scenario.R (Some Scenario.T0) None (Some "eve")) st in
    Ws.outbox "connC" st' =
      Ws.outbox "connC" st ++ [Ws.error_frame (Scenario.rnd "d") "ERR_TOKEN_REPLAY" true] /\
    RoomStore.room_count 7000 Scenario.R (Ws.store st') = 2.
Proof.
  intros st.
  assert (exists ctx,
            Ws.ctxs st !! "connC" = Some ctx /\ Ws.readyState (Ws.ws ctx) = Ws.OPEN /\
            Ws.slow Scenario.cfg (Ws.ws ctx) = false /\
            WsTypes.truthy (Ws.roomId ctx) = false)
    as (ctx & Hctx & Hopen & Hslow & Hroom).
  { eexists. split; [vm_compute; reflexivity|]. split; [vm_compute; reflexivity|].
    split; vm_compute; reflexivity. }
  assert (exists payload,
            JoinTokens.verifyJoinToken (Ws.JOIN_TOKEN_SECRET Scenario.cfg) Scenario.T0 =
              JoinTokens.Ok payload /\
            JoinTokens.rid payload = Scenario.R /\ 7000 <= JoinTokens.exp payload /\
            StoreRun.marker_live 7000 Scenario.R (JoinTokens.jti payload) (Ws.store st))
    as (payload & Hver & Hrid & Hexp & Hlive).
  { eexists. split; [vm_compute; reflexivity|]. split; [vm_compute; reflexivity|].
    split; [vm_compute; discriminate|]. eexists. split; vm_compute; reflexivity. }
  assert (RoomStore.room_count 7000 Scenario.R (Ws.store st) = 2) as Hcnt.
  { vm_compute. reflexivity. }
  assert (JoinTokens.is_empty Scenario.T0 = false) as Hne by (vm_compute; reflexivity).
  clearbody st.
  assert (WsRel.presentable Scenario.cfg 7000 ctx Scenario.R (Some Scenario.T0) None payload) as Hp.
  { split; [exact Hroom|]. exists Scenario.T0. split; [reflexivity|]. split; [exact Hne|].
    split; [exact Hver|]. split; [exact Hrid|exact Hexp]. }
  destruct (proj2 (jti_single_use Scenario.cfg (Ws.roomStore Scenario.cfg))
              7000 (Scenario.rnd "d") "connC" ctx Scenario.R (Some Scenario.T0) None
              (Some "eve") payload st Hctx Hp Hlive) as (Hout & _ & _ & _ & Hcount).
  exists ctx. split; [exact Hctx|]. split.
  - exact (Hout Hopen Hslow).
  - exact (eq_trans (proj1 (Hcount 7000 (Z.le_refl _))) Hcnt).
Defined.

(** C4, as stated, fails: the leave of the last member deletes the
    markers of the room, so the same pair is marked anew long before the
    first marker would have expired. *)
Lemma jti_marker_deleted_by_last_leave :
  let rs := RoomStore.mk 600000 10 in
  let d1 := RoomStore.createRoom rs 1000 "room0001" "connA" Redis.empty in
  let m1 := RoomStore.markTokenJtiUsed rs 2000 "room0001" "jti00001" 65000 d1 in
  let l1 := RoomStore.leave rs 3000 "room0001" "connA" (snd m1) in
  let m2 := RoomStore.markTokenJtiUsed rs 4000 "room0001" "jti00001" 65000 (snd l1) in
  fst m1 = true /\ fst l1 = 0 /\ 4000 < 2000 + 65000 /\ fst m2 = true.
Proof. vm_compute. repeat split; reflexivity. Qed.

(** C10.  A JOIN_REQUEST whose token verifies and whose jti is fresh but
    whose tryJoin fails is answered with the membership error
    (ERR_NO_ROOM, or ERR_ROOM_FULL with retryable set) and leaves the jti
    marker in place; the identical request sent again by the same
    connection, at any time up to the token's expiry, is answered with
    ERR_TOKEN_REPLAY. *)
Theorem join_failure_consumes_token (cfg : Ws.Config) (now : Z) (rnd : nat -> string)
    (i room : string) (token qr lbl : option string) (ctx : Ws.ConnCtx)
    (payload : JoinTokens.JoinTokenPayload) (st : Ws.State) (d1 d2 : Redis.db)
    (code : string) :
  Ws.ctxs st !! i = Some ctx ->
  WsRel.presentable cfg now ctx room token qr payload ->
  RoomStore.markTokenJtiUsed (Ws.roomStore cfg) now room (JoinTokens.jti payload)
    (Z.max 1 (JoinTokens.exp payload - now + 5000)) (Ws.store st) = (true, d1) ->
  RoomStore.tryJoin (Ws.roomStore cfg) now room i d1 = (RoomStore.JoinErr code, d2) ->
  let req := WsTypes.JoinRequest room token qr lbl in
  let st1 := Ws.handle cfg now rnd i ctx req st in
  (code = "ERR_NO_ROOM" \/ code = "ERR_ROOM_FULL") /\
  st1 = Ws.wsSend cfg i (Ws.error_frame rnd code (negb (String.eqb code "ERR_NO_ROOM")))
          (Ws.set_store d2 st) /\
  (code = "ERR_ROOM_FULL" ->
   st1 = Ws.wsSend cfg i (Ws.error_frame rnd "ERR_ROOM_FULL" true) (Ws.set_store d2 st)) /\
  StoreRun.marker_live now room (JoinTokens.jti payload) (Ws.store st1) /\
  forall now2 rnd2 ctx2,
    now <= now2 <= JoinTokens.exp payload ->
    Ws.ctxs st1 !! i = Some ctx2 ->
    Ws.handle cfg now2 rnd2 i ctx2 req st1 =
      Ws.wsSend cfg i (Ws.error_frame rnd2 "ERR_TOKEN_REPLAY" true)
        (Ws.set_store (Redis.expire now2 (Ws.store st1)) st1).
Proof.
  intros Hctx Hp Hmark Hjoin req st1.
  pose proof (handle_join_refused cfg now rnd i ctx room token qr lbl payload st d1 code d2
                Hp Hmark Hjoin) as Hst1.
  fold req in Hst1. fold st1 in Hst1.
  destruct (tryJoin_codes _ _ _ _ _ _ _ Hjoin) as [Hcode Hd2].
  assert (forall t, now <= t <= JoinTokens.exp payload ->
                    StoreRun.marker_live t room (JoinTokens.jti payload) (Ws.store st1)) as Hlive.
  { intros t Ht. rewrite Hst1, wsSend_store. cbn [Ws.store Ws.set_store]. rewrite Hd2.
    apply marker_live_expire; [lia|].
    replace d1 with (snd (RoomStore.markTokenJtiUsed (Ws.roomStore cfg) now room
                            (JoinTokens.jti payload)
                            (Z.max 1 (JoinTokens.exp payload - now + 5000)) (Ws.store st)))
      by (by rewrite Hmark).
    apply mark_sets_marker; [by rewrite Hmark | lia]. }
  split; [done|]. split; [done|]. split; [by intros ->|].
  destruct Hp as (Hroom & tk & Htk & Hne & Hver & Hrid & Hexp).
  split; [apply Hlive; lia|].
  intros now2 rnd2 ctx2 Hnow2 Hctx2.
  apply (handle_join_replay cfg now2 rnd2 i ctx2 room token qr lbl payload st1);
    [|by apply Hlive].
  split; [|exists tk; repeat split; try done; lia].
  assert (Ws.roomId ctx2 = Ws.roomId ctx) as ->; [|done].
  pose proof (wsSend_roomId cfg (Ws.set_store d2 st) i i
                (Ws.error_frame rnd code (negb (String.eqb code "ERR_NO_ROOM")))) as Hr.
  rewrite <- Hst1, Hctx2 in Hr. cbn in Hr. rewrite Hctx in Hr. cbn in Hr. congruence.
Qed.


(** An instance: with rooms of one participant, B is refused with
    ERR_ROOM_FULL and then, on the same request, with ERR_TOKEN_REPLAY. *)
Lemma join_failure_consumes_token_witness :
  let st := Ws.run Scenario.cfg1 Scenario.created (Ws.init Scenario.cfg1) in
  let req := WsTypes.JoinRequest Scenario.R (Some Scenario.T0) None (Some "bob") in
  exists ctx ctx2 d2,
    Ws.ctxs st !! "connB" = Some ctx /\
    let st1 := Ws.handle Scenario.cfg1 4000 (Scenario.rnd "b") "connB" ctx req st in
    st1 = Ws.wsSend Scenario.cfg1 "connB"
            (Ws.error_frame (Scenario.rnd "b") "ERR_ROOM_FULL" true) (Ws.set_store d2 st) /\
    Ws.ctxs st1 !! "connB" = Some ctx2 /\
    Ws.handle Scenario.cfg1 4500 (Scenario.rnd "c") "connB" ctx2 req st1 =
      Ws.wsSend Scenario.cfg1 "connB"
        (Ws.error_frame (Scenario.rnd "c") "ERR_TOKEN_REPLAY" true)
        (Ws.set_store (Redis.expire 4500 (Ws.store st1)) st1).
Proof.
  intros st req.
  assert (exists ctx ctx2,
            Ws.ctxs st !! "connB" = Some ctx /\
            WsTypes.truthy (Ws.roomId ctx) = false /\
            Ws.ctxs (Ws.handle Scenario.cfg1 4000 (Scenario.rnd "b") "connB" ctx req st)
              !! "connB" = Some ctx2) as (ctx & ctx2 & Hctx & Hroom & Hctx2).
  { eexists _, _. split; [vm_compute; reflexivity|]. split; vm_compute; reflexivity. }
  assert (exists payload,
            JoinTokens.verifyJoinToken (Ws.JOIN_TOKEN_SECRET Scenario.cfg1) Scenario.T0 =
              JoinTokens.Ok payload /\
            JoinTokens.rid payload = Scenario.R /\ 4000 <= JoinTokens.exp payload /\
            4000 <= 4500 <= JoinTokens.exp payload /\
            exists d1 d2,
              RoomStore.markTokenJtiUsed (Ws.roomStore Scenario.cfg1) 4000 Scenario.R
                (JoinTokens.jti payload) (Z.max 1 (JoinTokens.exp payload - 4000 + 5000))
                (Ws.store st) = (true, d1) /\
              RoomStore.tryJoin (Ws.roomStore Scenario.cfg1) 4000 Scenario.R "connB" d1 =
                (RoomStore.JoinErr "ERR_ROOM_FULL", d2))
    as (payload & Hver & Hrid & Hexp & Hnow & d1 & d2 & Hmark & Hjoin).
  { eexists. split; [vm_compute; reflexivity|]. split; [vm_compute; reflexivity|].
    split; [vm_compute; discriminate|]. split; [split; vm_compute; discriminate|].
    eexists _, _. split; [vm_compute; reflexivity|]. vm_compute; reflexivity. }
  assert (JoinTokens.is_empty Scenario.T0 = false) as Hne by (vm_compute; reflexivity).
  clearbody st.
  assert (WsRel.presentable Scenario.cfg1 4000 ctx Scenario.R (Some Scenario.T0) None payload)
    as Hp.
  { split; [exact Hroom|]. exists Scenario.T0. split; [reflexivity|]. split; [exact Hne|].
    split; [exact Hver|]. split; [exact Hrid|exact Hexp]. }
  destruct (join_failure_consumes_token Scenario.cfg1 4000 (Scenario.rnd "b") "connB"
              Scenario.R (Some Scenario.T0) None (Some "bob") ctx payload st d1 d2
              "ERR_ROOM_FULL" Hctx Hp Hmark Hjoin) as (_ & _ & Hfull & _ & Hagain).
  exists ctx, ctx2, d2. split; [exact Hctx|]. split; [exact (Hfull eq_refl)|].
  split; [exact Hctx2|]. exact (Hagain 4500 (Scenario.rnd "c") ctx2 Hnow Hctx2).
Defined.

(** ** The engine: the codes of ERROR frames *)

Section ErrorCodes.
Import Ws WsRel Wire.
Variable cfg : Config.

Lemma extends_refl st : extends st st.
Proof. intros i f Hin. by left. Qed.

Lemma extends_ctxs st0 st st' : ctxs st' = ctxs st -> extends st0 st -> extends st0 st'.
Proof. intros Hc He i f. unfold outbox. rewrite Hc. apply He. Qed.

Lemma extends_upd st0 st i g :
  (forall c f, In f (sent (ws (g c))) -> In f (sent (ws c)) \/ frame_ok f) ->
  extends st0 st -> extends st0 (upd_ctx i g st).
Proof.
  intros Hg He j f. unfold outbox. cbn. rewrite lookup_alter.
  destruct (decide (i = j)) as [->|]; [|apply He].
  specialize (He j f). unfold outbox in He.
  destruct (ctxs st !! j) as [c|]; cbn; [|done].
  intros [Hin|Hok]%Hg; [by apply He|by right].
Qed.

Lemma extends_keep st0 st i g :
  (forall c, sent (ws (g c)) = sent (ws c)) -> extends st0 st -> extends st0 (upd_ctx i g st).
Proof. intros Hg. apply extends_upd. intros c f. rewrite Hg. by left. Qed.

Lemma extends_send st0 st i f :
  frame_ok f -> extends st0 st -> extends st0 (upd_ctx i (on_ws (ws_send f)) st).
Proof.
  intros Hok. apply extends_upd. intros c g. cbn.
  intros [Hin|[<-|[]]]%in_app_or; [by left|by right].
Qed.

Lemma extends_close st0 st i code reason :
  extends st0 st -> extends st0 (upd_ctx i (on_ws (ws_close code reason)) st).
Proof. apply extends_keep. intros c. cbn. unfold ws_close. by case_match. Qed.

Lemma extends_wsSend st0 st i f :
  frame_ok f -> extends st0 st -> extends st0 (wsSend cfg i f st).
Proof.
  intros Hok He. unfold wsSend. repeat case_match; try done. by apply extends_send.
Qed.

Lemma extends_deliver st0 st i f :
  frame_ok f -> extends st0 st -> extends st0 (deliver cfg f st i).
Proof.
  intros Hok He. unfold deliver. repeat case_match; try done.
  - by apply extends_close.
  - by apply extends_send.
Qed.

Lemma extends_foldl st0 st l f :
  frame_ok f -> extends st0 st -> extends st0 (foldl (deliver cfg f) st l).
Proof.
  intros Hok. revert st. induction l as [|i l IH]; intros st He; [done|].
  cbn. apply IH. by apply extends_deliver.
Qed.

Lemma extends_broadcast st0 st room f :
  frame_ok f -> extends st0 st -> extends st0 (broadcast cfg room f st).
Proof.
  intros Hok He. rewrite broadcast_foldl. case_match; [|done]. by apply extends_foldl.
Qed.

Lemma extends_store st0 st d : extends st0 st -> extends st0 (set_store d st).
Proof. by apply extends_ctxs. Qed.

Lemma extends_rooms st0 st m : extends st0 st -> extends st0 (set_localRooms m st).
Proof. by apply extends_ctxs. Qed.

Lemma extends_ensure st0 st now j room :
  extends st0 st -> extends st0 (snd (ensureLocalRoom cfg now j room st)).
Proof. intros He. unfold ensureLocalRoom. case_match; [done|]. by apply extends_rooms. Qed.

Lemma extends_cleanup st0 st room : extends st0 st -> extends st0 (cleanupIfEmpty room st).
Proof.
  intros He. unfold cleanupIfEmpty. repeat case_match; try done; by apply extends_rooms.
Qed.

Lemma extends_leaveRoom st0 st now rnd i room :
  extends st0 st -> extends st0 (leaveRoom cfg now rnd i room st).
Proof.
  intros He. unfold leaveRoom.
  destruct (ctxs st !! i) as [ctx|]; [|done].
  destruct (negb (bool_decide (roomId ctx = Some room))); [done|].
  destruct (RoomStore.leave _ _ _ _ _) as [remaining d].
  assert (extends st0
            (set_store d (set_localRooms
               (alter (delete_conn i) room (localRooms (upd_ctx i (set_roomId None) st)))
               (upd_ctx i (set_roomId None) st)))) as He3.
  { apply extends_store, extends_rooms, extends_keep; done. }
  destruct (remaining <=? 0); [by apply extends_cleanup|].
  apply extends_broadcast; [exact I|].
  destruct (label ctx) as [l|]; [|done].
  destruct (JoinTokens.is_empty l); [done|]. by apply extends_broadcast.
Qed.

Lemma error_frame_ok rnd code r : In code codes -> frame_ok (error_frame rnd code r).
Proof. done. Qed.

Lemma extends_handle st0 st now rnd i ctx msg :
  extends st0 st -> extends st0 (handle cfg now rnd i ctx msg st).
Proof.
  intros He. destruct msg as [|room token qr lbl|room|room ct|room mime size chunkSize chunks|];
    cbn [handle].
  - destruct (WsTypes.truthy (roomId ctx)).
    { apply extends_wsSend; [|done]. apply error_frame_ok. cbn. tauto. }
    open_ensure.
    apply extends_broadcast; [exact I|]. apply extends_wsSend; [exact I|].
    apply extends_keep; [done|].
    by apply extends_rooms, extends_ensure, extends_store.
  - destruct (WsTypes.truthy (roomId ctx)).
    { apply extends_wsSend; [|done]. apply error_frame_ok. cbn. tauto. }
    destruct (if WsTypes.truthy qr then qr else token) as [tk|]; [|done].
    destruct (JoinTokens.is_empty tk); [done|].
    destruct (JoinTokens.verifyJoinToken _ tk) as [payload|code] eqn:Hver.
    2:{ apply extends_wsSend; [|done]. apply error_frame_ok.
        destruct (verify_codes _ _ _ Hver) as [-> | ->]; cbn; tauto. }
    destruct (negb _).
    { apply extends_wsSend; [|done]. apply error_frame_ok. cbn. tauto. }
    destruct (_ <? now).
    { apply extends_wsSend; [|done]. apply error_frame_ok. cbn. tauto. }
    destruct (RoomStore.markTokenJtiUsed _ _ _ _ _ _) as [fresh d1].
    destruct (negb fresh).
    { apply extends_wsSend; [|by apply extends_store]. apply error_frame_ok. cbn. tauto. }
    destruct (RoomStore.tryJoin _ _ _ _ _) as [[count jlabel|code] d2] eqn:Hjoin.
    2:{ apply extends_wsSend; [|by apply extends_store, extends_store]. apply error_frame_ok.
        destruct (tryJoin_codes _ _ _ _ _ _ _ Hjoin) as [[-> | ->] _]; cbn; tauto. }
    open_ensure.
    apply extends_broadcast; [exact I|]. apply extends_broadcast; [exact I|].
    apply extends_wsSend; [exact I|]. apply extends_keep; [done|].
    by apply extends_rooms, extends_ensure, extends_store, extends_store.
  - apply extends_wsSend; [exact I|]. by apply extends_leaveRoom.
  - destruct (negb _).
    { apply extends_wsSend; [|done]. apply error_frame_ok. cbn. tauto. }
    destruct (_ <? _); [|by apply extends_broadcast].
    apply extends_wsSend; [|done]. apply error_frame_ok. cbn. tauto.
  - destruct (negb _).
    { apply extends_wsSend; [|done]. apply error_frame_ok. cbn. tauto. }
    destruct (_ <? _); [|by apply extends_broadcast].
    apply extends_wsSend; [|done]. apply error_frame_ok. cbn. tauto.
  - by apply extends_wsSend.
Qed.

Lemma extends_onMessage st now rnd i raw : extends st (onMessage cfg now rnd i raw st).
Proof.
  unfold onMessage, close_ctx.
  destruct (ctxs st !! i) as [ctx|]; [|apply extends_refl].
  destruct (_ <? _); [apply extends_close, extends_refl|].
  destruct (TokenBucket.take now 1 _) as [ok1 mb].
  destruct (negb ok1).
  { apply extends_close, extends_keep; [done|]. apply extends_refl. }
  destruct (TokenBucket.take now _ _) as [ok2 bb].
  destruct (negb ok2).
  { apply extends_close. do 2 (apply extends_keep; [done|]). apply extends_refl. }
  destruct (WsTypes.parseClientMsg raw) as [msg|].
  2:{ apply extends_close. do 2 (apply extends_keep; [done|]). apply extends_refl. }
  apply extends_handle.
  destruct (WsTypes.truthy (roomId ctx)); [apply extends_store|];
    (do 2 (apply extends_keep; [done|])); apply extends_refl.
Qed.

Lemma extends_onCloseOrError st now rnd i : extends st (onCloseOrError cfg now rnd i st).
Proof.
  unfold onCloseOrError. case_decide; [apply extends_refl|].
  unfold onDisconnect. cbn [ctxs].
  destruct (ctxs st !! i) as [ctx|];
    [|apply (extends_ctxs st st); [done|apply extends_refl]].
  match goal with
  | |- extends _ (mkState (ctxs ?x) _ _ _ _ _ _) => apply (extends_ctxs st x); [done|]
  end.
  assert (forall s, ctxs s = ctxs st -> extends st s) as H1.
  { intros s Hs. apply (extends_ctxs st st); [done|apply extends_refl]. }
  destruct (roomId ctx) as [room|]; [|by apply H1].
  destruct (JoinTokens.is_empty room); [by apply H1|].
  apply extends_leaveRoom. by apply H1.
Qed.

Lemma extends_pingSweep st now : extends st (pingSweep cfg now st).
Proof.
  intros i f. unfold outbox. cbn. rewrite map_lookup_imap.
  destruct (ctxs st !! i) as [c|]; [|done]. cbn.
  case_decide; [|by left]. unfold ping_one.
  repeat case_match; cbn; try (by left).
  unfold ws_terminate. case_match; by left.
Qed.

Lemma extends_rotateQr st now rnd room : extends st (rotateQr cfg now rnd room st).
Proof.
  unfold rotateQr. destruct (localRooms st !! room); [|apply extends_refl].
  apply extends_broadcast; [exact I|]. apply extends_rooms, extends_store, extends_refl.
Qed.

Lemma errors_ok_onConnection st now rnd i ip0 :
  errors_ok st -> errors_ok (fst (onConnection cfg now rnd i ip0 st)).
Proof.
  intros Hok. unfold onConnection.
  destruct (GlobalConnectionLimiter.tryInc _) as [ok1 gl].
  destruct (negb ok1); [done|].
  destruct (IpConnectionLimiter.tryInc _ _) as [ok2 il].
  destruct (negb ok2); [done|]. cbn [fst].
  set (st1 := mkState _ _ _ _ _ _ _).
  assert (errors_ok st1) as H1.
  { intros j f. unfold outbox. cbn. rewrite lookup_insert.
    case_decide; [done|]. apply Hok. }
  intros j f Hin.
  destruct (extends_wsSend st1 st1 i (mkFrame (rnd 0%nat) (HELLO now)) I (extends_refl _) j f Hin)
    as [Hold|Hnew]; [by eapply H1|done].
Qed.

Lemma errors_ok_step st now rnd ev : errors_ok st -> errors_ok (step cfg now rnd ev st).
Proof.
  intros Hok.
  assert (forall st', extends st st' -> errors_ok st') as Hext.
  { intros st' He j f Hin. destruct (He j f Hin) as [Hold|Hnew]; [by eapply Hok|done]. }
  destruct ev as [i ip0|i raw|i|i|i| |room|i rs buffered]; cbn [step].
  - by apply errors_ok_onConnection.
  - apply Hext, extends_onMessage.
  - apply Hext. apply extends_keep; [done|apply extends_refl].
  - apply Hext, extends_onCloseOrError.
  - apply Hext, extends_onCloseOrError.
  - apply Hext, extends_pingSweep.
  - apply Hext, extends_rotateQr.
  - apply Hext. apply extends_keep; [done|apply extends_refl].
Qed.

Lemma reachable_errors_ok st : reachable cfg st -> errors_ok st.
Proof.
  induction 1 as [|st now rnd ev Hst IH Hadm]; [|by apply errors_ok_step].
  intros i f. unfold outbox. cbn. by rewrite lookup_empty.
Qed.
End ErrorCodes.

(** C8 (amended).  Every ERROR frame the server has sent, in any state it
    can reach, carries one of the eleven codes ERR_ALREADY_IN_ROOM,
    ERR_NOT_IN_ROOM, ERR_NO_ROOM, ERR_ROOM_FULL, ERR_TOKEN_FORMAT,
    ERR_TOKEN_MAC, ERR_TOKEN_EXPIRED, ERR_TOKEN_REPLAY,
    ERR_TOKEN_ROOM_MISMATCH, ERR_CIPHERTEXT_TOO_LARGE and
    ERR_MEDIA_TOO_LARGE; and a JOIN_REQUEST that presents a verified,
    unexpired token of the room whose marker is live is answered, on an
    open socket, with the frame ERROR ERR_TOKEN_REPLAY, retryable. *)
Theorem error_codes_listed (cfg : Ws.Config) (st : Ws.State) :
  Ws.reachable cfg st ->
  (forall i f code r,
     In f (Ws.outbox i st) -> Ws.body f = Ws.ERROR code r -> In code Wire.codes) /\
  (forall now rnd i ctx room token qr lbl payload,
     Ws.ctxs st !! i = Some ctx ->
     Ws.readyState (Ws.ws ctx) = Ws.OPEN -> Ws.slow cfg (Ws.ws ctx) = false ->
     WsRel.presentable cfg now ctx room token qr payload ->
     StoreRun.marker_live now room (JoinTokens.jti payload) (Ws.store st) ->
     Ws.outbox i (Ws.handle cfg now rnd i ctx (WsTypes.JoinRequest room token qr lbl) st) =
       Ws.outbox i st ++ [Ws.mkFrame (rnd 0%nat) (Ws.ERROR "ERR_TOKEN_REPLAY" true)]).
Proof.
  intros Hreach. split.
  - intros i f code r Hin Hbody.
    pose proof (reachable_errors_ok cfg st Hreach i f Hin) as Hok.
    unfold Wire.frame_ok in Hok. by rewrite Hbody in Hok.
  - intros now rnd i ctx room token qr lbl payload Hctx Ho Hs Hp Hlive.
    rewrite (handle_join_replay cfg now rnd i ctx room token qr lbl payload st Hp Hlive).
    by rewrite (wsSend_outbox cfg _ i _ ctx).
Qed.

(** An instance: the frame that answers the replayed token of the sample
    run. *)
Lemma error_codes_listed_witness :
  let st := Ws.run Scenario.cfg Scenario.replayed (Ws.init Scenario.cfg) in
  let f := Ws.mkFrame "ZnJhbWUd" (Ws.ERROR "ERR_TOKEN_REPLAY" true) in
  Ws.reachable Scenario.cfg st /\ In f (Ws.outbox "connC" st) /\
  In "ERR_TOKEN_REPLAY" Wire.codes.
Proof.
  intros st f.
  assert (Ws.reachable Scenario.cfg st) as Hreach.
  { apply reachable_run; [apply Ws.reach_init|]. vm_compute. repeat split; reflexivity. }
  assert (In f (Ws.outbox "connC" st)) as Hin.
  { vm_compute. right. left. reflexivity. }
  clearbody st.
  split; [exact Hreach|]. split; [exact Hin|].
  exact (proj1 (error_codes_listed Scenario.cfg st Hreach) "connC" f "ERR_TOKEN_REPLAY" true
           Hin eq_refl).
Defined.

(** C8, as stated, fails: the code of the frame that answers a replayed
    token is ERR_TOKEN_REPLAY, which is none of the listed names. *)
Lemma replay_code_has_prefix :
  last (Ws.outbox "connC" (Ws.run Scenario.cfg Scenario.replayed (Ws.init Scenario.cfg))) =
    Some (Ws.mkFrame "ZnJhbWUd" (Ws.ERROR "ERR_TOKEN_REPLAY" true)) /\
  ~ In "ERR_TOKEN_REPLAY" Wire.spec_codes.
Proof.
  split; [vm_compute; reflexivity|].
  cbn. intros H. repeat (destruct H as [H|H]; [discriminate H|]). exact H.
Qed.

(** ** The schema of JOIN_REQUEST *)

Section Schemas.
Import WsTypes.

Lemma opt_str_field_some lo hi k o s :
  opt_str_field lo hi k o = Some (Some s) ->
  lo <= Z.of_nat (String.length s) <= hi.
Proof.
  unfold opt_str_field, in_range.
  destruct (JSON.prop k o) as [[]|]; try done.
  destruct (_ && _) eqn:Hr; [|done]. intros [= <-].
  apply andb_true_iff in Hr as [?%Z.leb_le ?%Z.leb_le]. lia.
Qed.

Lemma JoinRequestSchema_label body room token qr l :
  JoinRequestSchema body = Some (JoinRequest room token qr (Some l)) ->
  1 <= Z.of_nat (String.length l) <= 32.
Proof.
  unfold JoinRequestSchema. destruct (negb _); [done|].
  destruct (str_field 8 128 "roomId" body); [|done].
  destruct (opt_str_field 8 2048 "token" body); [|done].
  destruct (opt_str_field 8 2048 "qrToken" body); [|done].
  destruct (opt_str_field 1 32 "label" body) as [lb|] eqn:Hl; [|done].
  destruct (_ || _); [|done]. intros [= _ _ _ ->].
  by apply opt_str_field_some in Hl.
Qed.

Lemma parseClientMsg_label raw room token qr l :
  parseClientMsg raw = Some (JoinRequest room token qr (Some l)) ->
  1 <= Z.of_nat (String.length l) <= 32.
Proof.
  unfold parseClientMsg. destruct (JSON.parse raw) as [v|]; [|done]. cbn.
  unfold parseClientValue. destruct (WsEnvelopeSchema v) as [[t [body|]]|]; try done.
  destruct (String.eqb t "ROOM_CREATE").
  { unfold EmptyBodySchema. by destruct (is_object body). }
  destruct (String.eqb t "JOIN_REQUEST"); [apply JoinRequestSchema_label|].
  destruct (String.eqb t "LEAVE").
  { unfold LeaveSchema. by repeat case_match. }
  destruct (String.eqb t "APP_MSG").
  { unfold AppMsgSchema. by repeat case_match. }
  destruct (String.eqb t "MEDIA_MSG").
  { unfold MediaMsgSchema. by repeat case_match. }
  destruct (String.eqb t "PING"); [|done].
  unfold EmptyBodySchema. by destruct (is_object body).
Qed.

Lemma truthy_nonempty l : 1 <= Z.of_nat (String.length l) -> truthy (Some l) = true.
Proof. destruct l; cbn; [lia|done]. Qed.
End Schemas.

(** ** The engine: a successful join *)

Section Joining.
#[local] Set Warnings "-clear-no-such-hyp".
Import Ws WsRel.
Variable cfg : Config.

Lemma outbox_ext s s' j :
  ws <$> (ctxs s' !! j) = ws <$> (ctxs s !! j) -> outbox j s' = outbox j s.
Proof.
  unfold outbox. destruct (ctxs s' !! j), (ctxs s !! j); cbn; try done. by intros [= ->].
Qed.

Lemma reached_ext s s' j :
  connections s' = connections s ->
  ws <$> (ctxs s' !! j) = ws <$> (ctxs s !! j) -> reached cfg s' j = reached cfg s j.
Proof.
  unfold reached, connections_get. intros ->. case_decide; [|done].
  destruct (ctxs s' !! j), (ctxs s !! j); cbn; try done. by intros [= ->].
Qed.

Lemma reached_deliver s k j f : reached cfg (deliver cfg f s k) j = reached cfg s j.
Proof.
  destruct (decide (k = j)) as [->|Hne]; [|by apply deliver_other].
  unfold deliver, reached.
  destruct (connections_get j s) as [c|] eqn:Hget; [|by rewrite Hget].
  destruct (readyState (ws c) =? OPEN) eqn:Ho; cbn [negb]; [|by rewrite Hget, Ho].
  destruct (slow cfg (ws c)) eqn:Hs; rewrite connections_get_upd, Hget, decide_True by done;
    cbn.
  - unfold ws_close. by rewrite Ho.
  - rewrite Ho. unfold slow in *. cbn. by rewrite Hs.
Qed.

Lemma reached_foldl s l j f : reached cfg (foldl (deliver cfg f) s l) j = reached cfg s j.
Proof.
  revert s. induction l as [|k l IH]; intros s; [done|].
  cbn. by rewrite IH, reached_deliver.
Qed.

Lemma reached_broadcast s room j f : reached cfg (broadcast cfg room f s) j = reached cfg s j.
Proof. rewrite broadcast_foldl. case_match; [|done]. apply reached_foldl. Qed.

Lemma localRooms_broadcast s room f : localRooms (broadcast cfg room f s) = localRooms s.
Proof.
  by destruct (ws_only_broadcast cfg s s room f (ws_only_refl s)) as (_ & _ & -> & _).
Qed.

Lemma reached_wsSend s i j f : reached cfg (wsSend cfg i f s) j = reached cfg s j.
Proof.
  unfold wsSend. destruct (ctxs s !! i) as [c|] eqn:Hc; [|done].
  destruct (negb _); [done|]. destruct (slow cfg (ws c)); [done|].
  unfold reached. rewrite connections_get_upd.
  destruct (connections_get j s) as [c'|]; [|done]. cbn.
  by destruct (decide (i = j)).
Qed.

Lemma broadcast_to s room r f j :
  localRooms s !! room = Some r ->
  outbox j (broadcast cfg room f s) =
    outbox j s ++ (if bool_decide (j ∈ conns r) && reached cfg s j then [f] else []).
Proof.
  intros Hr. rewrite broadcast_foldl, Hr.
  rewrite foldl_deliver_outbox by apply NoDup_elements.
  by rewrite (bool_decide_ext (j ∈ elements (conns r)) (j ∈ conns r))
    by apply elem_of_elements.
Qed.

Lemma ensure_room s now j0 room :
  let s' := snd (ensureLocalRoom cfg now j0 room s) in
  ctxs s' = ctxs s /\ connections s' = connections s /\
  exists r, localRooms s' !! room = Some r /\ conns r = conns_of room s.
Proof.
  unfold ensureLocalRoom, conns_of. destruct (localRooms s !! room) as [r|] eqn:Hr; cbn.
  - split; [done|]. split; [done|]. by exists r.
  - split; [done|]. split; [done|]. eexists. by rewrite lookup_insert_eq.
Qed.

Lemma join_frames s now rnd i ctx c room token qr l payload d1 count jlabel d2 :
  ctxs s !! i = Some c -> i ∈ connections s ->
  readyState (ws c) = OPEN -> slow cfg (ws c) = false ->
  presentable cfg now ctx room token qr payload ->
  WsTypes.truthy (Some l) = true ->
  RoomStore.markTokenJtiUsed (roomStore cfg) now room (JoinTokens.jti payload)
    (Z.max 1 (JoinTokens.exp payload - now + 5000)) (store s) = (true, d1) ->
  RoomStore.tryJoin (roomStore cfg) now room i d1 = (RoomStore.JoinOk count jlabel, d2) ->
  let s' := handle cfg now rnd i ctx (WsTypes.JoinRequest room token qr (Some l)) s in
  let nextExp := now + ROOM_KEY_TTL_MS cfg in
  let joined :=
    mkFrame (rnd 0%nat)
      (JOINED room count (ROOM_MAX_PARTICIPANTS cfg) l
         (JoinTokens.mintJoinToken (JOIN_TOKEN_SECRET cfg) room nextExp (rnd 5%nat)) nextExp) in
  let sys :=
    mkFrame (rnd 1%nat)
      (SYSTEM_MSG room ("this person has entered the chat with the name " ++ l) "info") in
  let stats := mkFrame (rnd 2%nat) (ROOM_STATS room count (ROOM_MAX_PARTICIPANTS cfg)) in
  outbox i s' = outbox i s ++ [joined; sys; stats] /\
  (forall j, j <> i ->
     outbox j s' =
       outbox j s ++
       (if bool_decide (j ∈ conns_of room s) && reached cfg s j then [sys; stats] else [])) /\
  (label <$> (ctxs s' !! i)) = Some (Some l) /\
  (roomId <$> (ctxs s' !! i)) = Some (Some room).
Proof.
  intros Hc Hin Ho Hs Hp Hl Hmark Hjoin s' nextExp joined sys stats. subst s'.
  rewrite (handle_join_checked cfg now rnd i ctx room token qr (Some l) payload s Hp).
  cbv zeta. rewrite Hmark. cbn [negb store set_store]. rewrite Hjoin. rewrite Hl.
  change (default jlabel (Some l)) with l.
  set (sA := set_store d2 (set_store d1 s)).
  destruct (ensure_room sA now (rnd 4%nat) room) as (HcB & HnB & rB & HrB & HconnsB).
  destruct (ensureLocalRoom cfg now (rnd 4%nat) room sA) as [r0 sB]. cbn [snd] in *.
  set (g := fun c0 => set_label (Some l) (set_roomId (Some room) c0)).
  set (s5 := upd_ctx i g (set_localRooms (alter (add_conn i) room (localRooms sB)) sB)).
  fold nextExp. fold joined. fold sys. fold stats.
  assert (ctxs s5 = alter g i (ctxs s)) as Hc5 by (subst s5; cbn; by rewrite HcB).
  assert (connections s5 = connections s) as Hn5 by (subst s5; cbn; by rewrite HnB).
  assert (localRooms s5 !! room = Some (add_conn i rB)) as Hr5.
  { subst s5. cbn. by rewrite lookup_alter_eq, HrB. }
  assert (forall j, ws <$> (ctxs s5 !! j) = ws <$> (ctxs s !! j)) as Hws5.
  { intros j. rewrite Hc5, lookup_alter. case_decide; [subst|done].
    by destruct (ctxs s !! j). }
  set (s6 := wsSend cfg i joined s5).
  set (s7 := broadcast cfg room sys s6).
  assert (localRooms s6 !! room = Some (add_conn i rB)) as Hr6.
  { subst s6. by rewrite wsSend_localRooms. }
  assert (localRooms s7 !! room = Some (add_conn i rB)) as Hr7.
  { subst s7. by rewrite localRooms_broadcast. }
  assert (forall j, reached cfg s7 j = reached cfg s j) as Hreach7.
  { intros j. subst s7 s6. rewrite reached_broadcast, reached_wsSend. by apply reached_ext. }
  assert (forall j, reached cfg s6 j = reached cfg s j) as Hreach6.
  { intros j. subst s6. rewrite reached_wsSend. by apply reached_ext. }
  assert (reached cfg s i = true) as Hri.
  { unfold reached, connections_get. rewrite decide_True, Hc, Ho, Hs by done. done. }
  split; [|split; [|split]].
  - rewrite (broadcast_to s7 room _ stats i Hr7), Hreach7, Hri.
    subst s7. rewrite (broadcast_to s6 room _ sys i Hr6), Hreach6, Hri.
    rewrite !bool_decide_eq_true_2 by (cbn; set_solver). cbn [andb].
    subst s6. rewrite (wsSend_outbox cfg s5 i joined (g c)); [| |done|done].
    + rewrite (outbox_ext s s5) by done. by rewrite <- !app_assoc.
    + by rewrite Hc5, lookup_alter_eq, Hc.
  - intros j Hne.
    rewrite (broadcast_to s7 room _ stats j Hr7), Hreach7.
    subst s7. rewrite (broadcast_to s6 room _ sys j Hr6), Hreach6.
    subst s6. rewrite wsSend_outbox_ne by done. rewrite (outbox_ext s s5) by done.
    rewrite (bool_decide_ext (j ∈ conns (add_conn i rB)) (j ∈ conns_of room s)).
    2:{ cbn. rewrite HconnsB. unfold sA, conns_of. cbn. set_solver. }
    destruct (bool_decide _ && reached cfg s j); [|by rewrite !app_nil_r].
    by rewrite <- app_assoc.
  - assert (ws_only s5 (broadcast cfg room stats s7)) as Hw.
    { apply ws_only_broadcast, ws_only_broadcast, ws_only_wsSend, ws_only_refl. }
    rewrite (ws_only_label _ _ i Hw), Hc5, lookup_alter_eq, Hc. done.
  - assert (ws_only s5 (broadcast cfg room stats s7)) as Hw.
    { apply ws_only_broadcast, ws_only_broadcast, ws_only_wsSend, ws_only_refl. }
    rewrite (ws_only_roomId _ _ i Hw), Hc5, lookup_alter_eq, Hc. done.
Qed.
End Joining.

Section JoinedReply.
#[local] Set Warnings "-clear-no-such-hyp".
Import Ws WsRel.
Variable cfg : Config.

Lemma conns_reached_receives st room j :
  bool_decide (j ∈ conns_of room st) && reached cfg st j = true <-> receives cfg room j st.
Proof.
  unfold conns_of. destruct (localRooms st !! room) as [r|] eqn:Hr; cbn [from_option].
  - rewrite <- (reached_receives cfg st room j r Hr).
    by rewrite (bool_decide_ext (j ∈ elements (conns r)) (j ∈ conns r))
      by apply elem_of_elements.
  - rewrite bool_decide_eq_false_2 by set_solver. split; [done|].
    intros (r & c & Hr' & _). congruence.
Qed.
End JoinedReply.



(** ** The keep-alive timer *)

Section KeepAliveFacts.
Import Ws KeepAlive.
Variable cfg : Config.

Lemma pingSweep_lookup now st i :
  i ∈ connections st ->
  ctxs (pingSweep cfg now st) !! i = ping_one cfg now <$> (ctxs st !! i).
Proof.
  intros Hin. cbn. rewrite map_lookup_imap.
  destruct (ctxs st !! i) as [c|]; [|done]. cbn. by rewrite decide_True.
Qed.

Lemma pingSweep_connections now st : connections (pingSweep cfg now st) = connections st.
Proof. done. Qed.

(** While the last pong is recent enough, every tick pings again. *)
Lemma sweeps_waiting n t st i c :
  i ∈ connections st -> ctxs st !! i = Some c ->
  readyState (ws c) = OPEN -> awaitingPong c = true ->
  (forall m, (m < n)%nat ->
     t + Z.of_nat m * WS_PING_INTERVAL_MS cfg - lastPongMs c <= WS_PING_TIMEOUT_MS cfg) ->
  let st' := sweeps cfg t n st in
  i ∈ connections st' /\
  exists c', ctxs st' !! i = Some c' /\ readyState (ws c') = OPEN /\
             awaitingPong c' = true /\ lastPongMs c' = lastPongMs c /\
             terminated (ws c') = terminated (ws c) /\
             pings (ws c') = pings (ws c) + Z.of_nat n.
Proof.
  revert t st c. induction n as [|n IH]; intros t st c Hin Hc Ho Ha Hrecent.
  { cbn. split; [done|]. exists c. rewrite Z.add_0_r. done. }
  cbn [sweeps].
  set (c1 := on_ws ws_ping (set_pong (lastPongMs c) true c)).
  assert (ctxs (pingSweep cfg t st) !! i = Some c1) as Hc1.
  { rewrite pingSweep_lookup, Hc by done. cbn. unfold ping_one. rewrite Ho, Ha. cbn.
    pose proof (Hrecent 0%nat ltac:(lia)) as H0. rewrite Z.mul_0_l, Z.add_0_r in H0.
    destruct (Z.ltb_spec (WS_PING_TIMEOUT_MS cfg) (t - lastPongMs c)); [lia|done]. }
  destruct (IH (t + WS_PING_INTERVAL_MS cfg) (pingSweep cfg t st) c1) as (Hin' & c' & H');
    try done.
  { intros m Hm. specialize (Hrecent (S m) ltac:(lia)). cbn [lastPongMs c1 on_ws set_pong].
    lia. }
  split; [done|]. exists c'. destruct H' as (? & ? & ? & ? & ? & Hp).
  repeat (split; [done|]). rewrite Hp. cbn. lia.
Qed.

(** The tick at which the last pong is too old terminates the socket. *)
Lemma sweep_timeout t st i c :
  i ∈ connections st -> ctxs st !! i = Some c ->
  readyState (ws c) = OPEN -> awaitingPong c = true ->
  WS_PING_TIMEOUT_MS cfg < t - lastPongMs c ->
  is_terminated i (pingSweep cfg t st).
Proof.
  intros Hin Hc Ho Ha Hold. unfold is_terminated.
  rewrite pingSweep_lookup, Hc by done. cbn. eexists. split; [done|].
  unfold ping_one. rewrite Ho, Ha. cbn.
  destruct (Z.ltb_spec (WS_PING_TIMEOUT_MS cfg) (t - lastPongMs c)); [|lia].
  cbn. unfold ws_terminate. by rewrite Ho.
Qed.

Lemma sweeps_snoc n t st :
  sweeps cfg t (S n) st =
    pingSweep cfg (t + Z.of_nat n * WS_PING_INTERVAL_MS cfg) (sweeps cfg t n st).
Proof.
  revert t st. induction n as [|n IH]; intros t st.
  { cbn. by rewrite Z.add_0_r. }
  change (sweeps cfg t (S (S n)) st)
    with (sweeps cfg (t + WS_PING_INTERVAL_MS cfg) (S n) (pingSweep cfg t st)).
  rewrite IH. cbn [sweeps]. f_equal. lia.
Qed.
End KeepAliveFacts.




(** ** Runs of a token bucket *)

Section BucketRunFacts.
Import TokenBucket BucketRun.
Implicit Types (b : TokenBucket.t) (now n T : Z).

Lemma refill_params b now :
  capacity (refill now b) = capacity b /\ refillTokens (refill now b) = refillTokens b /\
  refillEveryMs (refill now b) = refillEveryMs b.
Proof. unfold refill. repeat case_match; done. Qed.

Lemma take_params b now n :
  capacity (snd (take now n b)) = capacity b /\
  refillTokens (snd (take now n b)) = refillTokens b /\
  refillEveryMs (snd (take now n b)) = refillEveryMs b.
Proof.
  destruct (refill_params b now) as (H1 & H2 & H3).
  unfold take. cbv zeta. repeat case_match; done.
Qed.

Lemma refill_cases b now :
  0 < refillEveryMs b ->
  refill now b = b \/
  exists p, 0 < p /\ p <= (now - lastRefillMs (state b)) / refillEveryMs b /\
    refill now b =
      with_state b (mkBucket (Z.min (capacity b) (tokens (state b) + p * refillTokens b))
                             (lastRefillMs (state b) + p * refillEveryMs b)).
Proof.
  intros He. destruct (Z.eq_dec (periods_at now b) 0) as [Hz|Hnz].
  - left. by apply periods_at_zero.
  - right. exists (periods_at now b).
    assert (0 < periods_at now b) as Hp by (unfold periods_at in *; lia).
    split; [done|]. split; [unfold periods_at in *; lia|]. by apply periods_at_pos.
Qed.

Lemma refill_sound b now : sound b -> sound (refill now b).
Proof.
  intros (He & Hr & Ht).
  destruct (refill_cases b now He) as [->|(p & Hp & _ & ->)]; [done|].
  unfold sound. simpl. split; [done|]. split; [done|]. nia.
Qed.

Lemma take_sound b now n : sound b -> sound (snd (take now n b)).
Proof.
  intros Hs. apply (refill_sound b now) in Hs. destruct Hs as (He & Hr & Ht).
  unfold take. cbv zeta.
  destruct (Z.leb_spec n 0); [done|].
  destruct (Z.ltb_spec (tokens (state (refill now b))) n); [done|].
  unfold sound. simpl. lia.
Qed.

Lemma after_sound reqs b : sound b -> sound (after reqs b).
Proof.
  revert b. induction reqs as [|[now n] r IH]; intros b Hs; [done|].
  simpl. apply IH. by apply take_sound.
Qed.

Lemma after_capacity reqs b : capacity (after reqs b) = capacity b.
Proof.
  revert b. induction reqs as [|[now n] r IH]; intros b; [done|].
  simpl. rewrite IH. apply take_params.
Qed.

Lemma refill_potential b now T :
  sound b -> now <= T -> potential T (refill now b) <= potential T b.
Proof.
  intros (He & Hr & Ht) HT.
  destruct (refill_cases b now He) as [->|(p & Hp & Hle & ->)]; [lia|].
  unfold potential. simpl.
  set (e := refillEveryMs b) in *. set (l := lastRefillMs (state b)) in *.
  assert (p <= (T - l) / e) as Hq.
  { etrans; [exact Hle|]. apply Z.div_le_mono; lia. }
  replace (T - (l + p * e)) with (T - l + (- p) * e) by lia.
  rewrite Z.div_add by lia.
  set (q := (T - l) / e) in *. nia.
Qed.

Lemma take_potential b now n T :
  sound b -> now <= T ->
  (if fst (take now n b) then Z.max 0 n else 0) + potential T (snd (take now n b))
    <= potential T b.
Proof.
  intros Hs HT. pose proof (refill_potential b now T Hs HT) as Hp.
  destruct (refill_params b now) as (_ & H2 & H3).
  unfold take. cbv zeta.
  destruct (Z.leb_spec n 0); [simpl; lia|].
  destruct (Z.ltb_spec (tokens (state (refill now b))) n); [simpl; lia|].
  simpl. unfold potential in *. simpl. rewrite H2, H3 in *. lia.
Qed.

Lemma potential_nonneg b T : sound b -> 0 <= potential T b.
Proof. intros (He & Hr & Ht). unfold potential. nia. Qed.

Lemma granted_potential reqs b T :
  sound b -> Forall (fun r => fst r <= T) reqs ->
  granted reqs b + potential T (after reqs b) <= potential T b.
Proof.
  revert b. induction reqs as [|[now n] r IH]; intros b Hs Hall; [simpl; lia|].
  apply Forall_cons in Hall as [Hnow Hall]. simpl in Hnow.
  pose proof (take_potential b now n T Hs Hnow).
  pose proof (IH _ (take_sound b now n Hs) Hall).
  simpl. lia.
Qed.
End BucketRunFacts.

(** X1.  A token bucket never holds a negative number of tokens nor more
    than its capacity: for a positive interval and a refill that is not
    negative, a bucket that starts within these bounds stays within them
    under any sequence of [take] calls, whatever their times and amounts. *)
Theorem bucket_tokens_bounded (reqs : list (Z * Z)) (b : TokenBucket.t) :
  0 < TokenBucket.refillEveryMs b -> 0 <= TokenBucket.refillTokens b ->
  0 <= TokenBucket.tokens (TokenBucket.state b) <= TokenBucket.capacity b ->
  0 <= TokenBucket.tokens (TokenBucket.state (BucketRun.after reqs b))
    <= TokenBucket.capacity b.
Proof.
  intros He Hr Ht.
  destruct (after_sound reqs b) as (_ & _ & H); [done|].
  by rewrite after_capacity in H.
Qed.

Lemma bucket_tokens_bounded_witness :
  let b := TokenBucket.new 200 200 10000 0 in
  let reqs := [(0, 150); (5, 100); (20000, 300); (10, 50); (30000, -4)] in
  0 <= TokenBucket.tokens (TokenBucket.state (BucketRun.after reqs b)) <= 200.
Proof.
  intros b reqs. apply (bucket_tokens_bounded reqs b); simpl; lia.
Defined.

(** X2.  The rate guarantee of the token bucket: the [take] calls made at
    times up to [T] hand out no more than the tokens the bucket held plus
    [refillTokens] for each whole interval between its refill marker and
    [T].  For a new bucket this is
    [capacity + refillTokens * floor((T - t0) / refillEveryMs)]. *)
Theorem bucket_rate_bound (reqs : list (Z * Z)) (b : TokenBucket.t) (T : Z) :
  0 < TokenBucket.refillEveryMs b -> 0 <= TokenBucket.refillTokens b ->
  0 <= TokenBucket.tokens (TokenBucket.state b) <= TokenBucket.capacity b ->
  Forall (fun r => fst r <= T) reqs ->
  BucketRun.granted reqs b <=
    TokenBucket.tokens (TokenBucket.state b) +
    TokenBucket.refillTokens b *
      Z.max 0 ((T - TokenBucket.lastRefillMs (TokenBucket.state b)) / TokenBucket.refillEveryMs b).
Proof.
  intros He Hr Ht Hall.
  assert (BucketRun.sound b) as Hs by done.
  pose proof (granted_potential reqs b T Hs Hall) as H.
  pose proof (potential_nonneg (BucketRun.after reqs b) T (after_sound reqs b Hs)).
  unfold BucketRun.potential in H at 2. lia.
Qed.

Lemma bucket_rate_bound_witness :
  let b := TokenBucket.new 200 200 10000 0 in
  let reqs := [(0, 150); (5, 100); (10, 50); (20000, 120); (25000, 80)] in
  BucketRun.granted reqs b <= 200 + 200 * Z.max 0 ((25000 - 0) / 10000).
Proof.
  intros b reqs. apply (bucket_rate_bound reqs b 25000); simpl; try lia.
  repeat constructor; simpl; lia.
Defined.

(** ** Runs of the connection meters *)

Section MeterRunFacts.
Import MeterRun.

Lemma ip_apply_max o l :
  IpConnectionLimiter.maxPerIp (ip_apply o l) = IpConnectionLimiter.maxPerIp l.
Proof.
  destruct o; simpl; unfold IpConnectionLimiter.tryInc, IpConnectionLimiter.dec;
    repeat case_match; done.
Qed.

Lemma ip_sound_getCount l ip :
  ip_sound l ->
  match IpConnectionLimiter.counts l !! ip with
  | Some v => IpConnectionLimiter.getCount ip l = v /\ 1 <= v <= IpConnectionLimiter.maxPerIp l
  | None => IpConnectionLimiter.getCount ip l = 0
  end.
Proof.
  intros Hs. unfold IpConnectionLimiter.getCount.
  destruct (IpConnectionLimiter.counts l !! ip) as [v|] eqn:E; [|done].
  split; [done|]. by apply (Hs ip).
Qed.

Lemma ip_apply_sound o l : ip_sound l -> ip_sound (ip_apply o l).
Proof.
  intros Hs. destruct o as [ip|ip]; simpl.
  - unfold IpConnectionLimiter.tryInc.
    pose proof (ip_sound_getCount l ip Hs) as Hg.
    destruct (Z.leb_spec (IpConnectionLimiter.maxPerIp l) (IpConnectionLimiter.getCount ip l));
      [done|].
    intros ip' v. simpl. destruct (decide (ip' = ip)) as [->|Hne].
    + rewrite lookup_insert_eq. intros [= <-].
      destruct (IpConnectionLimiter.counts l !! ip); lia.
    + rewrite lookup_insert_ne by done. apply Hs.
  - unfold IpConnectionLimiter.dec.
    pose proof (ip_sound_getCount l ip Hs) as Hg.
    destruct (Z.leb_spec (IpConnectionLimiter.getCount ip l) 1).
    + intros ip' v. simpl. destruct (decide (ip' = ip)) as [->|Hne].
      * by rewrite lookup_delete_eq.
      * rewrite lookup_delete_ne by done. apply Hs.
    + intros ip' v. simpl. destruct (decide (ip' = ip)) as [->|Hne].
      * rewrite lookup_insert_eq. intros [= <-].
        destruct (IpConnectionLimiter.counts l !! ip); lia.
      * rewrite lookup_insert_ne by done. apply Hs.
Qed.

Lemma ip_run_sound ops l : ip_sound l -> ip_sound (ip_run ops l).
Proof.
  revert l. induction ops as [|o r IH]; intros l Hs; [done|].
  apply IH. by apply ip_apply_sound.
Qed.

Lemma ip_run_max ops l :
  IpConnectionLimiter.maxPerIp (ip_run ops l) = IpConnectionLimiter.maxPerIp l.
Proof.
  revert l. induction ops as [|o r IH]; intros l; [done|].
  unfold ip_run in *. simpl. rewrite IH. apply ip_apply_max.
Qed.

Lemma ip_new_sound m : ip_sound (IpConnectionLimiter.new m).
Proof. intros ip v. simpl. by rewrite lookup_empty. Qed.

Lemma ip_release l ip l' :
  ip_sound l -> IpConnectionLimiter.tryInc ip l = (true, l') ->
  IpConnectionLimiter.dec ip l' = l.
Proof.
  intros Hs. pose proof (ip_sound_getCount l ip Hs) as Hg.
  unfold IpConnectionLimiter.tryInc.
  destruct (Z.leb_spec (IpConnectionLimiter.maxPerIp l) (IpConnectionLimiter.getCount ip l));
    [done|].
  intros [= <-]. destruct l as [m cs].
  unfold IpConnectionLimiter.dec, IpConnectionLimiter.getCount in *. simpl in *.
  rewrite lookup_insert_eq. simpl.
  destruct (cs !! ip) as [v|] eqn:E; simpl in *.
  - destruct Hg as [_ Hv]. destruct (Z.leb_spec (v + 1) 1); [lia|]. f_equal.
    rewrite insert_insert_eq. replace (v + 1 - 1) with v by lia. by apply insert_id.
  - f_equal. rewrite delete_insert_eq. by apply delete_id.
Qed.

Lemma global_apply_sound o l :
  global_sound l ->
  global_sound (global_apply o l) /\
  GlobalConnectionLimiter.max (global_apply o l) = GlobalConnectionLimiter.max l.
Proof.
  unfold global_sound. intros Hs.
  destruct o; simpl; unfold GlobalConnectionLimiter.tryInc, GlobalConnectionLimiter.dec;
    repeat case_match; simpl; lia.
Qed.

Lemma global_run_sound ops l :
  global_sound l ->
  global_sound (global_run ops l) /\
  GlobalConnectionLimiter.max (global_run ops l) = GlobalConnectionLimiter.max l.
Proof.
  revert l. induction ops as [|o r IH]; intros l Hs; [done|].
  destruct (global_apply_sound o l Hs) as [H1 H2].
  destruct (IH _ H1) as [H3 H4]. unfold global_run in *. simpl. rewrite H4, H2. done.
Qed.
End MeterRunFacts.

(** X3.  The per-address meter keeps no entry for an idle address and
    never counts past its bound: after any sequence of [tryInc] and [dec]
    on a new limiter, every stored count lies between 1 and [maxPerIp]. *)
Theorem ip_limiter_entries_bounded (m : Z) (ops : list MeterRun.Op) (ip : string) (v : Z) :
  IpConnectionLimiter.counts (MeterRun.ip_run ops (IpConnectionLimiter.new m)) !! ip = Some v ->
  1 <= v <= m.
Proof.
  intros H. apply (ip_run_sound ops _ (ip_new_sound m)) in H.
  by rewrite ip_run_max in H.
Qed.

Lemma ip_limiter_entries_bounded_witness :
  let ops := [MeterRun.Inc "a"; MeterRun.Inc "a"; MeterRun.Inc "b"; MeterRun.Inc "a";
              MeterRun.Dec "b"; MeterRun.Dec "c"] in
  IpConnectionLimiter.counts (MeterRun.ip_run ops (IpConnectionLimiter.new 2)) !! "a" = Some 2 /\
  IpConnectionLimiter.counts (MeterRun.ip_run ops (IpConnectionLimiter.new 2)) !! "b" = None /\
  1 <= 2 <= 2.
Proof.
  intros ops.
  split; [vm_compute; reflexivity|]. split; [vm_compute; reflexivity|].
  apply (ip_limiter_entries_bounded 2 ops "a" 2). vm_compute. reflexivity.
Defined.

(** X4.  Releasing a slot that was just acquired restores the
    per-address meter exactly: in any state a new limiter can reach, a
    successful [tryInc(ip)] followed by [dec(ip)] gives back the same
    table of counts, with no entry left behind for an address that had
    none. *)
Theorem ip_limiter_release_restores (m : Z) (ops : list MeterRun.Op) (ip : string)
    (l' : IpConnectionLimiter.t) :
  let l := MeterRun.ip_run ops (IpConnectionLimiter.new m) in
  IpConnectionLimiter.tryInc ip l = (true, l') ->
  IpConnectionLimiter.dec ip l' = l.
Proof.
  intros l H. apply (ip_release l ip l'); [|done].
  apply ip_run_sound, ip_new_sound.
Qed.

Lemma ip_limiter_release_restores_witness :
  let l := MeterRun.ip_run [MeterRun.Inc "a"; MeterRun.Inc "b"] (IpConnectionLimiter.new 2) in
  IpConnectionLimiter.dec "c" (snd (IpConnectionLimiter.tryInc "c" l)) = l.
Proof.
  intros l.
  apply (ip_limiter_release_restores 2 [MeterRun.Inc "a"; MeterRun.Inc "b"] "c").
  vm_compute. reflexivity.
Defined.

(** X5.  The global meter stays between zero and its ceiling under any
    sequence of [tryInc] and [dec] (a [dec] at zero does nothing), and a
    [dec] after a successful [tryInc] restores the count. *)
Theorem global_limiter_bounded (m : Z) (ops : list MeterRun.Op) :
  let l := MeterRun.global_run ops (GlobalConnectionLimiter.new m) in
  0 <= GlobalConnectionLimiter.current l <= Z.max 0 m /\
  (fst (GlobalConnectionLimiter.tryInc l) = true ->
   GlobalConnectionLimiter.dec (snd (GlobalConnectionLimiter.tryInc l)) = l).
Proof.
  intros l.
  assert (MeterRun.global_sound (GlobalConnectionLimiter.new m)) as H0
    by (unfold MeterRun.global_sound; simpl; lia).
  destruct (global_run_sound ops _ H0) as [Hs Hm]. fold l in Hs, Hm.
  unfold MeterRun.global_sound in Hs. rewrite Hm in Hs. simpl in Hs.
  split; [done|].
  unfold GlobalConnectionLimiter.tryInc, GlobalConnectionLimiter.dec.
  destruct (Z.leb_spec (GlobalConnectionLimiter.max l) (GlobalConnectionLimiter.count l));
    [done|].
  intros _. simpl.
  destruct (Z.ltb_spec 0 (GlobalConnectionLimiter.count l + 1)); [|lia].
  destruct l as [mx c]. simpl. f_equal. lia.
Qed.

(** ** The HTTP request limiter *)

Section HttpLimiterFacts.
Import HttpRateLimiter.
Implicit Types (l : HttpRateLimiter.t) (ip : string).

Lemma check_params now ip l :
  maxRequests (snd (check now ip l)) = maxRequests l /\
  windowMs (snd (check now ip l)) = windowMs l.
Proof. unfold check. cbv zeta. repeat case_match; done. Qed.

Lemma apply_params e l :
  maxRequests (apply e l) = maxRequests l /\ windowMs (apply e l) = windowMs l.
Proof. destruct e; simpl; [apply check_params|done]. Qed.

Lemma run_params evs l :
  maxRequests (run evs l) = maxRequests l /\ windowMs (run evs l) = windowMs l.
Proof.
  revert l. induction evs as [|e r IH]; intros l; [done|].
  unfold run in *. simpl. destruct (IH (apply e l)) as [-> ->]. apply apply_params.
Qed.

Lemma check_other now ip ip' l :
  ip' <> ip -> windows (snd (check now ip' l)) !! ip = windows l !! ip.
Proof.
  intros Hne. unfold check. cbv zeta.
  repeat case_match; simpl; by rewrite ?lookup_insert_ne.
Qed.

Lemma check_sound now ip l : sound l -> sound (snd (check now ip l)).
Proof.
  intros Hs ip' e'. destruct (decide (ip = ip')) as [<-|Hne].
  - unfold check. cbv zeta.
    destruct (windows l !! ip) as [e|] eqn:E.
    + pose proof (Hs ip e E).
      repeat case_match; simpl; rewrite ?lookup_insert_eq; try (intros [= <-]; simpl; lia).
      rewrite E. intros [= <-]. done.
    + simpl. rewrite lookup_insert_eq. intros [= <-]. simpl. lia.
  - rewrite check_other by done. apply Hs.
Qed.

Lemma cleanup_lookup now ip l :
  windows (cleanup now l) !! ip =
    match windows l !! ip with
    | Some e => if resetAt e <? now then None else Some e
    | None => None
    end.
Proof.
  unfold cleanup. simpl.
  destruct (windows l !! ip) as [e|] eqn:E.
  - destruct (Z.ltb_spec (resetAt e) now).
    + apply map_lookup_filter_None. right. intros e' E'. simpl. rewrite E in E'.
      injection E' as <-. intros Hn. by apply Hn.
    + apply map_lookup_filter_Some. split; [done|]. simpl. lia.
  - apply map_lookup_filter_None. by left.
Qed.

Lemma apply_sound e l : sound l -> sound (apply e l).
Proof.
  intros Hs. destruct e as [now ip|now]; simpl; [by apply check_sound|].
  intros ip e. rewrite cleanup_lookup.
  destruct (windows l !! ip) as [e0|] eqn:E; [|done].
  case_match; [done|]. intros [= <-]. by apply (Hs ip).
Qed.

Lemma run_sound evs l : sound l -> sound (run evs l).
Proof.
  revert l. induction evs as [|e r IH]; intros l Hs; [done|].
  apply IH. by apply apply_sound.
Qed.

Lemma budget_other a ip l l' :
  windows l' !! ip = windows l !! ip -> maxRequests l' = maxRequests l ->
  windowMs l' = windowMs l -> budget a ip l' = budget a ip l.
Proof. intros H1 H2 H3. unfold budget. by rewrite H1, H2, H3. Qed.

Lemma check_budget a now ip l :
  a <= now <= a + windowMs l ->
  (if fst (check now ip l) then 1 else 0) + budget a ip (snd (check now ip l)) <= budget a ip l.
Proof.
  intros Hnow. unfold budget at 2.
  destruct (check_params now ip l) as [Hm Hw].
  unfold budget. rewrite Hm, Hw. clear Hm Hw. unfold check. cbv zeta.
  destruct (windows l !! ip) as [e|] eqn:E.
  - destruct (Z.ltb_spec (resetAt e) now).
    + simpl. rewrite lookup_insert_eq. simpl.
      destruct (Z.leb_spec (a + windowMs l) (resetAt e)); [lia|].
      destruct (Z.leb_spec (a + windowMs l) (now + windowMs l)); lia.
    + destruct (Z.leb_spec (maxRequests l) (count e)).
      * simpl. rewrite E. lia.
      * simpl. rewrite lookup_insert_eq. simpl.
        destruct (Z.leb_spec (a + windowMs l) (resetAt e)); lia.
  - simpl. rewrite lookup_insert_eq. simpl.
    destruct (Z.leb_spec (a + windowMs l) (now + windowMs l)); lia.
Qed.

Lemma cleanup_budget a now ip l :
  now <= a + windowMs l -> budget a ip (cleanup now l) <= budget a ip l.
Proof.
  intros Hnow. unfold budget. rewrite cleanup_lookup. simpl.
  destruct (windows l !! ip) as [e|] eqn:E; [|lia].
  destruct (Z.ltb_spec (resetAt e) now); [|lia].
  destruct (Z.leb_spec (a + windowMs l) (resetAt e)); lia.
Qed.

Lemma accepted_budget a ip evs l :
  Forall (fun e => a <= time_of e <= a + windowMs l) evs ->
  accepted ip evs l <= budget a ip l.
Proof.
  revert l. induction evs as [|e r IH]; intros l Hall.
  - simpl. unfold budget. repeat case_match; lia.
  - apply Forall_cons in Hall as [He Hall].
    destruct (apply_params e l) as [Hm Hw].
    assert (accepted ip r (apply e l) <= budget a ip (apply e l)) as Hr.
    { apply IH. by rewrite Hw. }
    simpl. destruct e as [now ip'|now]; simpl in *.
    + destruct (String.eqb_spec ip' ip) as [->|Hne].
      * pose proof (check_budget a now ip l He). simpl. lia.
      * simpl. rewrite (budget_other a ip l) in Hr; [lia| |done|done].
        by apply check_other.
    + pose proof (cleanup_budget a now ip l ltac:(lia)). lia.
Qed.

Lemma budget_sound a ip l :
  sound l -> budget a ip l <= Z.max 0 (maxRequests l - 1) + Z.max 1 (maxRequests l).
Proof.
  intros Hs. unfold budget.
  destruct (windows l !! ip) as [e|] eqn:E; [|lia].
  pose proof (Hs ip e E). case_match; lia.
Qed.

Lemma new_sound m w : sound (new m w).
Proof. intros ip e. simpl. by rewrite lookup_empty. Qed.
End HttpLimiterFacts.

(** X6.  The HTTP limiter counts in fixed windows, so a span of
    [windowMs] can straddle two of them: among the checks made at times
    within any span of [windowMs] milliseconds, in any state the limiter
    can reach, at most [2 * maxRequests - 1] requests of one address are
    let through (one when [maxRequests] is below 1, since the request
    that opens a window always passes). *)
Theorem http_limiter_span_bound (m w a : Z) (ip : string)
    (evs0 evs : list HttpRateLimiter.Ev) :
  Forall (fun e => a <= HttpRateLimiter.time_of e <= a + w) evs ->
  HttpRateLimiter.accepted ip evs (HttpRateLimiter.run evs0 (HttpRateLimiter.new m w))
    <= Z.max 0 (m - 1) + Z.max 1 m.
Proof.
  intros Hall.
  set (l := HttpRateLimiter.run evs0 (HttpRateLimiter.new m w)).
  destruct (run_params evs0 (HttpRateLimiter.new m w)) as [Hm Hw]. fold l in Hm, Hw.
  simpl in Hm, Hw.
  assert (HttpRateLimiter.sound l) as Hs by apply run_sound, new_sound.
  pose proof (accepted_budget a ip evs l) as H1. rewrite Hw in H1.
  pose proof (budget_sound a ip l Hs) as H2. rewrite Hm in H2.
  specialize (H1 Hall). lia.
Qed.

(** The bound is met: with two requests per ten time units, three pass
    between the times 9 and 19. *)
Lemma http_limiter_span_bound_witness :
  let evs0 := [HttpRateLimiter.Check 0 "a"] in
  let evs := [HttpRateLimiter.Check 9 "a"; HttpRateLimiter.Check 10 "a";
              HttpRateLimiter.Check 11 "a"; HttpRateLimiter.Cleanup 12;
              HttpRateLimiter.Check 12 "a"; HttpRateLimiter.Check 13 "a"] in
  HttpRateLimiter.accepted "a" evs (HttpRateLimiter.run evs0 (HttpRateLimiter.new 2 10)) = 3 /\
  HttpRateLimiter.accepted "a" evs (HttpRateLimiter.run evs0 (HttpRateLimiter.new 2 10))
    <= Z.max 0 (2 - 1) + Z.max 1 2.
Proof.
  intros evs0 evs. split; [vm_compute; reflexivity|].
  apply (http_limiter_span_bound 2 10 9 "a" evs0 evs).
  repeat constructor; simpl; lia.
Defined.

(** X7.  The periodic cleanup is invisible to callers: a [check] made at
    or after the time of a [cleanup] gets the same answer as without it,
    and leaves the table that the cleanup would have left. *)
Theorem http_limiter_cleanup_transparent (now now' : Z) (ip : string) (l : HttpRateLimiter.t) :
  now <= now' -> 0 <= HttpRateLimiter.windowMs l ->
  HttpRateLimiter.check now' ip (HttpRateLimiter.cleanup now l) =
    (fst (HttpRateLimiter.check now' ip l),
     HttpRateLimiter.cleanup now (snd (HttpRateLimiter.check now' ip l))).
Proof.
  intros Hnow Hw.
  pose proof (cleanup_lookup now ip l) as Hl.
  unfold HttpRateLimiter.check at 1. cbv zeta. rewrite Hl. clear Hl.
  unfold HttpRateLimiter.check, HttpRateLimiter.cleanup, HttpRateLimiter.set_windows.
  cbv zeta. simpl.
  assert (forall c r, now <= r ->
            <[ip := HttpRateLimiter.mkWindow c r]>
              (filter (fun kv => ~ HttpRateLimiter.resetAt kv.2 < now)
                 (HttpRateLimiter.windows l)) =
            filter (fun kv => ~ HttpRateLimiter.resetAt kv.2 < now)
              (<[ip := HttpRateLimiter.mkWindow c r]> (HttpRateLimiter.windows l))) as Hi.
  { intros c r Hr. symmetry. apply map_filter_insert_True. simpl. lia. }
  destruct (HttpRateLimiter.windows l !! ip) as [e|] eqn:E.
  - destruct (Z.ltb_spec (HttpRateLimiter.resetAt e) now).
    + destruct (Z.ltb_spec (HttpRateLimiter.resetAt e) now'); [|lia].
      simpl. f_equal. f_equal. apply Hi. lia.
    + destruct (Z.ltb_spec (HttpRateLimiter.resetAt e) now').
      * simpl. f_equal. f_equal. apply Hi. lia.
      * destruct (Z.leb_spec (HttpRateLimiter.maxRequests l) (HttpRateLimiter.count e)).
        -- done.
        -- simpl. f_equal. f_equal. apply Hi. lia.
  - simpl. f_equal. f_equal. apply Hi. lia.
Qed.

Lemma http_limiter_cleanup_transparent_witness :
  let l := HttpRateLimiter.run [HttpRateLimiter.Check 0 "a"; HttpRateLimiter.Check 7 "b"]
             (HttpRateLimiter.new 2 10) in
  HttpRateLimiter.check 13 "a" (HttpRateLimiter.cleanup 12 l) =
    (fst (HttpRateLimiter.check 13 "a" l),
     HttpRateLimiter.cleanup 12 (snd (HttpRateLimiter.check 13 "a" l))).
Proof.
  intros l. apply (http_limiter_cleanup_transparent 12 13 "a" l); [lia|].
  vm_compute. discriminate.
Defined.

(** ** The request hooks *)

Section HttpHookFacts.
Import HttpRateLimit.

Lemma onRequest_limiter now upgrade ip st :
  let l := limiter (snd (onRequest now upgrade ip st)) in
  HttpRateLimiter.maxRequests l = HttpRateLimiter.maxRequests (limiter st) /\
  HttpRateLimiter.windowMs l = HttpRateLimiter.windowMs (limiter st) /\
  (HttpRateLimiter.sound (limiter st) -> HttpRateLimiter.sound l).
Proof.
  unfold onRequest. cbv zeta.
  destruct (bool_decide _); [done|].
  destruct (MAX_CONCURRENT <=? activeRequests st); [done|].
  destruct (HttpRateLimiter.check now ip (limiter st)) as [ok l1] eqn:E.
  assert (l1 = snd (HttpRateLimiter.check now ip (limiter st))) as -> by by rewrite E.
  destruct (check_params now ip (limiter st)) as [H1 H2].
  destruct ok; simpl; (split; [done|split; [done|apply check_sound]]).
Qed.

Lemma hook_limiter h st :
  HttpRateLimiter.maxRequests (limiter (apply h st)) = HttpRateLimiter.maxRequests (limiter st) /\
  HttpRateLimiter.windowMs (limiter (apply h st)) = HttpRateLimiter.windowMs (limiter st) /\
  (HttpRateLimiter.sound (limiter st) -> HttpRateLimiter.sound (limiter (apply h st))).
Proof.
  destruct h as [now upgrade ip| |]; simpl.
  - apply onRequest_limiter.
  - unfold onResponse. by case_match.
  - unfold onError. by case_match.
Qed.

Lemma hooks_limiter hs st :
  HttpRateLimiter.maxRequests (limiter (run hs st)) = HttpRateLimiter.maxRequests (limiter st) /\
  HttpRateLimiter.windowMs (limiter (run hs st)) = HttpRateLimiter.windowMs (limiter st) /\
  (HttpRateLimiter.sound (limiter st) -> HttpRateLimiter.sound (limiter (run hs st))).
Proof.
  revert st. induction hs as [|h r IH]; intros st; [done|].
  unfold run in *. simpl.
  destruct (IH (apply h st)) as (-> & -> & H3).
  destruct (hook_limiter h st) as (-> & -> & H6). auto.
Qed.

Lemma hook_active h st :
  0 <= activeRequests st <= MAX_CONCURRENT ->
  0 <= activeRequests (apply h st) <= MAX_CONCURRENT.
Proof.
  intros Hs. destruct h as [now upgrade ip| |]; simpl.
  - unfold onRequest. cbv zeta.
    destruct (bool_decide _); [done|].
    destruct (Z.leb_spec MAX_CONCURRENT (activeRequests st)); [done|].
    destruct (HttpRateLimiter.check now ip (limiter st)) as [[] l1]; simpl; lia.
  - unfold onResponse. case_match; simpl; [|done].
    apply Z.ltb_lt in H. lia.
  - unfold onError. case_match; simpl; [|done].
    apply Z.ltb_lt in H. lia.
Qed.

Lemma hook_budget a ip h st :
  (forall now, time_of h = Some now ->
     a <= now <= a + HttpRateLimiter.windowMs (limiter st)) ->
  passed ip [h] st + HttpRateLimiter.budget a ip (limiter (apply h st))
    <= HttpRateLimiter.budget a ip (limiter st).
Proof.
  intros Ht. destruct h as [now upgrade ip'| |]; simpl.
  - specialize (Ht now eq_refl).
    unfold onRequest. cbv zeta.
    destruct (bool_decide (upgrade = Some "websocket")).
    { rewrite andb_false_r. simpl. lia. }
    rewrite andb_true_r.
    destruct (Z.leb_spec MAX_CONCURRENT (activeRequests st)).
    { simpl. case_match; lia. }
    destruct (HttpRateLimiter.check now ip' (limiter st)) as [ok l1] eqn:E.
    assert (l1 = snd (HttpRateLimiter.check now ip' (limiter st))) as Hl by by rewrite E.
    assert (ok = fst (HttpRateLimiter.check now ip' (limiter st))) as Hok by by rewrite E.
    destruct (String.eqb_spec ip' ip) as [->|Hne].
    + pose proof (check_budget a now ip (limiter st) Ht) as Hb.
      rewrite <- Hl, <- Hok in Hb. destruct ok; simpl in *; lia.
    + destruct (check_params now ip' (limiter st)) as [H1 H2].
      assert (HttpRateLimiter.budget a ip l1 = HttpRateLimiter.budget a ip (limiter st)) as Hb.
      { subst l1. apply budget_other; [by apply check_other|done|done]. }
      destruct ok; simpl; lia.
  - unfold onResponse. case_match; simpl; lia.
  - unfold onError. case_match; simpl; lia.
Qed.

Lemma passed_budget a ip hs st :
  Forall (fun h => forall now, time_of h = Some now ->
            a <= now <= a + HttpRateLimiter.windowMs (limiter st)) hs ->
  passed ip hs st <= HttpRateLimiter.budget a ip (limiter st).
Proof.
  revert st. induction hs as [|h r IH]; intros st Hall.
  - simpl. unfold HttpRateLimiter.budget. repeat case_match; lia.
  - apply Forall_cons in Hall as [Hh Hall].
    pose proof (hook_budget a ip h st Hh) as H1.
    destruct (hook_limiter h st) as (_ & Hw & _).
    assert (passed ip r (apply h st) <= HttpRateLimiter.budget a ip (limiter (apply h st))) as H2.
    { apply IH. by rewrite Hw. }
    assert (passed ip (h :: r) st = passed ip [h] st + passed ip r (apply h st)) as ->
      by (simpl; lia).
    lia.
Qed.
End HttpHookFacts.

(** X8.  The counter of requests in flight stays between 0 and 500
    whatever hooks fire and in whatever order: a response or an error
    hook at zero does nothing, and a request that meets the counter at
    500 is answered 503 without touching it. *)
Theorem http_active_requests_bounded (hs : list HttpRateLimit.Hook) :
  0 <= HttpRateLimit.activeRequests (HttpRateLimit.run hs HttpRateLimit.init) <= 500.
Proof.
  assert (forall st, 0 <= HttpRateLimit.activeRequests st <= HttpRateLimit.MAX_CONCURRENT ->
            0 <= HttpRateLimit.activeRequests (HttpRateLimit.run hs st)
              <= HttpRateLimit.MAX_CONCURRENT) as H.
  { induction hs as [|h r IH]; intros st Hs; [done|].
    apply IH. by apply hook_active. }
  apply H. simpl. unfold HttpRateLimit.MAX_CONCURRENT. lia.
Qed.

(** X9.  With the limits the server installs (200 requests per window
    of 60 s), the request hook lets at most 399 requests of one address
    through to the routes among those that arrive within any span of
    60 s; WebSocket upgrade requests are not counted. *)
Theorem http_hook_span_bound (a : Z) (ip : string) (hs0 hs : list HttpRateLimit.Hook) :
  Forall (fun h => forall now, HttpRateLimit.time_of h = Some now -> a <= now <= a + 60000)
    hs ->
  HttpRateLimit.passed ip hs (HttpRateLimit.run hs0 HttpRateLimit.init) <= 399.
Proof.
  intros Hall. set (st := HttpRateLimit.run hs0 HttpRateLimit.init).
  destruct (hooks_limiter hs0 HttpRateLimit.init) as (Hm & Hw & Hs). fold st in Hm, Hw, Hs.
  simpl in Hm, Hw.
  pose proof (passed_budget a ip hs st) as H1. rewrite Hw in H1.
  pose proof (budget_sound a ip (HttpRateLimit.limiter st) (Hs (new_sound _ _))) as H2.
  rewrite Hm in H2. specialize (H1 Hall). lia.
Qed.

Lemma http_hook_span_bound_witness :
  let hs := [HttpRateLimit.OnRequest 1000 None "a"; HttpRateLimit.OnResponse;
             HttpRateLimit.OnRequest 2000 (Some "websocket") "a";
             HttpRateLimit.OnRequest 61000 None "a"] in
  HttpRateLimit.passed "a" hs (HttpRateLimit.run [] HttpRateLimit.init) <= 399.
Proof.
  intros hs. apply (http_hook_span_bound 1000 "a" [] hs).
  repeat (apply List.Forall_cons;
          [simpl; intros now E; (discriminate E || (injection E as <-; lia))|]).
  apply List.Forall_nil.
Defined.

(** ** The text of base64url values and of join tokens *)

Section TokenTextFacts.
Import Buffer Base64Url JoinTokens TokenText.

Lemma sextets_of_bytes_length (l : list N) :
  length (sextets_of_bytes l) = ((4 * length l + 2) / 3)%nat.
Proof.
  induction l as [| a | a b | a b c r IH] using list_ind3; [done..|].
  cbn [sextets_of_bytes length]. rewrite IH.
  replace (4 * S (S (S (length r))) + 2)%nat with ((4 * length r + 2) + 4 * 3)%nat by lia.
  rewrite Nat.div_add by lia. lia.
Qed.

Lemma string_length_of_list (cs : list ascii) :
  String.length (string_of_list_ascii cs) = length cs.
Proof. induction cs as [|c cs IH]; [done|]. cbn. by rewrite IH. Qed.

Lemma b64urlEncode_length (l : list Byte.byte) :
  String.length (b64urlEncode l) = ((4 * length l + 2) / 3)%nat.
Proof.
  rewrite b64urlEncode_chars, string_length_of_list, length_map, sextets_of_bytes_length.
  by rewrite length_map.
Qed.

Lemma url_char_safe v : (v < 64)%N -> url_safe (url_char v) = true.
Proof.
  apply (sextet_cases (fun v => url_safe (url_char v))). vm_compute. reflexivity.
Qed.

Lemma b64urlEncode_safe (l : list Byte.byte) : all_url_safe (b64urlEncode l) = true.
Proof.
  unfold all_url_safe.
  rewrite b64urlEncode_chars, list_ascii_of_string_of_list_ascii.
  pose proof (sextets_lt _ (to_N_lt l)) as Hlt.
  rewrite forallb_forall. intros x (v & <- & Hin)%in_map_iff.
  rewrite List.Forall_forall in Hlt. by apply url_char_safe, Hlt.
Qed.

Lemma be_bytes_length n x : length (Sha256.be_bytes n x) = n.
Proof. induction n as [|n IH]; [done|]. cbn. by rewrite IH. Qed.

Lemma sha256_length msg : length (Sha256.sha256 msg) = 32%nat.
Proof.
  unfold Sha256.sha256, Sha256.to_bytes. rewrite length_map.
  pose proof (digest_words_length (Sha256.of_bytes msg)) as Hl.
  destruct (Sha256.digest_words _) as [|a [|b [|c [|d [|e [|f [|g [|h [|? ?]]]]]]]]];
    done.
Qed.

Lemma hmac_length key msg : length (Sha256.hmac key msg) = 32%nat.
Proof. apply sha256_length. Qed.

Lemma split_length sep s : length (split sep s) = S (occurrences sep s).
Proof.
  induction s as [|c s IH]; [done|]. cbn [split occurrences].
  destruct (c =? sep)%char; [cbn; by rewrite IH|].
  destruct (split sep s) as [|h t]; [done|]. cbn in *. lia.
Qed.

Lemma split_head_empty sep s : exists t, split sep (String sep s) = EmptyString :: t.
Proof. cbn [split]. rewrite Ascii.eqb_refl. by eexists. Qed.

Lemma split_last_empty sep s :
  exists h t, split sep (s ++ String sep EmptyString) = h :: t ++ [EmptyString].
Proof.
  induction s as [|c s (h & t & IH)].
  - exists EmptyString, [].
    change (EmptyString ++ String sep EmptyString)%string with (String sep EmptyString).
    cbn [split]. by rewrite Ascii.eqb_refl.
  - change (String c s ++ String sep EmptyString)%string
      with (String c (s ++ String sep EmptyString)%string).
    cbn [split]. rewrite IH. destruct (c =? sep)%char.
    + by exists EmptyString, (h :: t).
    + by exists (String c h), t.
Qed.

Lemma safe_no_dot s :
  all_url_safe s = true ->
  forallb (fun x => negb (x =? ".")%char) (list_ascii_of_string s) = true.
Proof.
  unfold all_url_safe. rewrite !forallb_forall. intros H x Hx. specialize (H x Hx).
  destruct (Ascii.eqb_spec x "."); [subst; done|done].
Qed.
End TokenTextFacts.

(** X10.  Decoding inverts encoding: for every byte buffer,
    [b64urlDecode(b64urlEncode(buf))] is the buffer itself. *)
Theorem base64url_round_trip (buf : list Byte.byte) :
  Base64Url.b64urlDecode (Base64Url.b64urlEncode buf) = buf.
Proof. apply b64urlDecode_encode. Qed.

(** X11.  The text [b64urlEncode] produces for [n] bytes has
    [ceil(4n / 3)] characters, all of them letters, digits, [-] or [_]:
    no padding, no [+], [/] or [.] ever appears.  The MAC text of
    [hmacSha256B64Url] therefore always has 43 characters. *)
Theorem base64url_text_format (buf : list Byte.byte) (secret : string) :
  String.length (Base64Url.b64urlEncode buf) = ((4 * length buf + 2) / 3)%nat /\
  TokenText.all_url_safe (Base64Url.b64urlEncode buf) = true /\
  String.length (Base64Url.hmacSha256B64Url secret buf) = 43%nat.
Proof.
  split; [apply b64urlEncode_length|]. split; [apply b64urlEncode_safe|].
  unfold Base64Url.hmacSha256B64Url. rewrite b64urlEncode_length, hmac_length. done.
Qed.

(** X12.  A minted join token is two runs of URL-safe characters joined
    by its only dot, the second run being the 43 characters of the MAC;
    the first is never empty. *)
Theorem minted_token_format (secret rid0 jti0 : string) (exp0 : Z) :
  exists p m,
    JoinTokens.mintJoinToken secret rid0 exp0 jti0 = (p ++ "." ++ m)%string /\
    JoinTokens.split "." (JoinTokens.mintJoinToken secret rid0 exp0 jti0) = [p; m] /\
    TokenText.all_url_safe p = true /\ TokenText.all_url_safe m = true /\
    JoinTokens.is_empty p = false /\ String.length m = 43%nat.
Proof.
  unfold JoinTokens.mintJoinToken. cbv zeta.
  set (bytes := list_byte_of_string _).
  exists (Base64Url.b64urlEncode bytes), (Base64Url.hmacSha256B64Url secret bytes).
  assert (TokenText.all_url_safe (Base64Url.hmacSha256B64Url secret bytes) = true) as Hm
    by apply b64urlEncode_safe.
  pose proof (b64urlEncode_safe bytes) as Hp.
  split; [done|]. split.
  { change ("." ++ Base64Url.hmacSha256B64Url secret bytes)%string
      with (String "." (Base64Url.hmacSha256B64Url secret bytes)).
    apply split_two; by apply safe_no_dot. }
  split; [done|]. split; [done|]. split.
  - apply b64urlEncode_nonempty. apply list_byte_of_string_nonempty.
    unfold bytes. by rewrite payload_text.
  - unfold Base64Url.hmacSha256B64Url. by rewrite b64urlEncode_length, hmac_length.
Qed.

(** X13.  [verifyJoinToken] refuses with ERR_TOKEN_FORMAT, whatever the
    secret, every text that does not hold exactly one dot, and every
    text that starts or ends with a dot. *)
Theorem verify_rejects_malformed (secret token : string) :
  TokenText.occurrences "." token <> 1%nat \/
  (exists s, token = String "." s) \/ (exists s, token = (s ++ ".")%string) ->
  JoinTokens.verifyJoinToken secret token = JoinTokens.Err "ERR_TOKEN_FORMAT".
Proof.
  intros H. unfold JoinTokens.verifyJoinToken.
  pose proof (split_length "." token) as Hlen.
  destruct H as [Hn|[[s ->]|[s ->]]].
  - destruct (JoinTokens.split "." token) as [|p [|m [|? ?]]]; try done.
    cbn in Hlen. lia.
  - destruct (split_head_empty "." s) as [t Ht]. rewrite Ht.
    destruct t as [|m [|? ?]]; done.
  - destruct (split_last_empty "." s) as (h & t & Ht).
    change (s ++ ".")%string with (s ++ String "." EmptyString)%string. rewrite Ht.
    destruct t as [|m [|? ?]]; try done.
    cbn. by rewrite orb_true_r.
Qed.

Lemma verify_rejects_malformed_witness :
  JoinTokens.verifyJoinToken "0123456789abcdef0123456789abcdef" "abc.def.ghi" =
    JoinTokens.Err "ERR_TOKEN_FORMAT".
Proof.
  apply (verify_rejects_malformed "0123456789abcdef0123456789abcdef" "abc.def.ghi").
  left. vm_compute. lia.
Defined.

(** ** The room store: lifetimes, rejoining, leaving *)

Section RoomLifetime.
#[local] Set Warnings "-clear-no-such-hyp".
Import Redis RoomStore StoreRun.
Variable rs : RoomStore.t.
Hypothesis ttl_pos : 0 < ttlMs rs.
Implicit Types (d : db) (room c : string) (now : Z).

Lemma ttl_leb : (ttlMs rs <=? 0) = false.
Proof. apply Z.leb_gt, ttl_pos. Qed.

(** What [PEXPIRE] leaves under the key it is given. *)
Lemma pexpire_same {A} now room (m : gmap string (Entry A)) :
  pexpire now (ttlMs rs) room m !! room = stamp (now + ttlMs rs) <$> (m !! room).
Proof. rewrite lookup_pexpire, ttl_leb. by rewrite decide_True. Qed.

Lemma live_stamp {A} now' t (e : Entry A) : live now' (stamp t e) = (now' <? t).
Proof. done. Qed.

Lemma exists_lookup {A} room (m : gmap string (Entry A)) :
  exists_ room m = bool_decide (is_Some (m !! room)).
Proof. done. Qed.

Lemma exists_stamped {A} now now' room (m : gmap string (Entry A)) :
  is_Some (m !! room) ->
  exists_ room (purge now' (pexpire now (ttlMs rs) room m)) = (now' <? now + ttlMs rs).
Proof.
  intros [e He]. rewrite exists_lookup, lookup_purge, pexpire_same, He. cbn.
  destruct (now' <? now + ttlMs rs).
  - by apply bool_decide_eq_true.
  - apply bool_decide_eq_false. by intros [? ?].
Qed.

Lemma roomExists_meta now room d :
  roomExists now room d = true <-> is_Some (purge now (meta d) !! room).
Proof. unfold roomExists. rewrite exists_lookup. simpl. apply bool_decide_eq_true. Qed.

Lemma createRoom_lifetime now now' room c d :
  roomExists now' room (createRoom rs now room c d) = (now' <? now + ttlMs rs).
Proof.
  unfold roomExists, createRoom. simpl. apply exists_stamped.
  rewrite lookup_write, decide_True by done. by eexists.
Qed.

Lemma createRoomEmpty_lifetime now now' room d :
  roomExists now' room (createRoomEmpty rs now room d) = (now' <? now + ttlMs rs).
Proof.
  unfold roomExists, createRoomEmpty. simpl. apply exists_stamped.
  rewrite lookup_write, decide_True by done. by eexists.
Qed.

Lemma touch_lifetime now now' room d :
  roomExists now room d = true ->
  roomExists now' room (touch rs now room d) = (now' <? now + ttlMs rs).
Proof.
  intros Hex%roomExists_meta. unfold roomExists, touch. simpl. by apply exists_stamped.
Qed.

Lemma tryJoin_lifetime now now' room c d n l d' :
  tryJoin rs now room c d = (JoinOk n l, d') ->
  roomExists now' room d' = (now' <? now + ttlMs rs).
Proof.
  unfold tryJoin. cbv zeta.
  destruct (exists_ room (meta (expire now d))) eqn:Hex; [|done]. cbn [negb].
  rewrite exists_lookup in Hex. apply bool_decide_eq_true in Hex.
  destruct (sismember _ _ _).
  - intros [= _ _ <-]. unfold roomExists, refresh3. simpl. by apply exists_stamped.
  - destruct (maxParticipants rs <=? _); [done|].
    intros [= _ _ <-]. unfold roomExists, refresh3. simpl. by apply exists_stamped.
Qed.

Lemma tryJoin_refused now room c d code d' :
  tryJoin rs now room c d = (JoinErr code, d') ->
  d' = expire now d /\
  (code = "ERR_NO_ROOM" /\ roomExists now room d = false \/
   code = "ERR_ROOM_FULL" /\ roomExists now room d = true /\
     maxParticipants rs <= room_count now room d).
Proof.
  unfold tryJoin, roomExists, room_count. cbv zeta.
  destruct (exists_ room (meta (expire now d))) eqn:Hex; cbn [negb].
  - destruct (sismember _ _ _); [done|].
    destruct (Z.leb_spec (maxParticipants rs) (default 0 (get room (count (expire now d)))));
      [|done].
    intros [= <- <-]. split; [done|]. right. done.
  - intros [= <- <-]. split; [done|]. by left.
Qed.
Lemma get_stamped {A} now now' room (m : gmap string (Entry A)) :
  get room (purge now' (pexpire now (ttlMs rs) room m)) =
    if now' <? now + ttlMs rs then get room m else None.
Proof.
  unfold get. rewrite lookup_purge, pexpire_same.
  destruct (m !! room) as [e|]; cbn; [|by destruct (_ <? _)].
  by destruct (now' <? now + ttlMs rs).
Qed.

Lemma smembers_get room (m : gmap string (Entry (gset string))) :
  smembers room m = default ∅ (get room m).
Proof. done. Qed.

(** A member that joins again is told the current count and changes
    neither the count nor the set. *)
Lemma tryJoin_member now now' room c d :
  roomExists now room d = true -> c ∈ room_members now room d -> now' < now + ttlMs rs ->
  let n := room_count now room d in
  let r := tryJoin rs now room c d in
  fst r = JoinOk n ("P" ++ tostring n) /\
  room_count now' room (snd r) = n /\
  room_members now' room (snd r) = room_members now room d.
Proof.
  intros Hex Hin Hnow'. cbv zeta. unfold tryJoin, room_count, room_members in *.
  unfold roomExists in Hex. cbv zeta. rewrite Hex. cbn [negb].
  unfold sismember. rewrite bool_decide_eq_true_2 by done.
  cbn [fst snd]. split; [done|].
  unfold refresh3. cbn [expire count members].
  rewrite smembers_get, !get_stamped.
  apply Z.ltb_lt in Hnow'. by rewrite Hnow'.
Qed.

(** The two lookups [leave] makes after a join that added [c]. *)
Lemma tryJoin_new now room c d :
  roomExists now room d = true -> c ∉ room_members now room d ->
  room_count now room d < maxParticipants rs ->
  let d0 := expire now d in
  tryJoin rs now room c d =
    (JoinOk (room_count now room d + 1) ("P" ++ tostring (room_count now room d + 1)),
     refresh3 rs now room
       (mkDb (meta d0) (sadd room c (members d0)) (set room (room_count now room d + 1) (count d0))
             (jtis d0) (jti d0))).
Proof.
  intros Hex Hin Hlt. cbv zeta. unfold tryJoin, room_count, room_members in *.
  unfold roomExists in Hex. cbv zeta. rewrite Hex. cbn [negb].
  unfold sismember. rewrite bool_decide_eq_false_2 by done.
  destruct (Z.leb_spec (maxParticipants rs) (default 0 (get room (count (expire now d)))));
    [lia|done].
Qed.

Lemma join_then_leave now now' room c d :
  roomExists now room d = true -> c ∉ room_members now room d ->
  1 <= room_count now room d < maxParticipants rs -> now' < now + ttlMs rs ->
  let n := room_count now room d in
  let r1 := tryJoin rs now room c d in
  let r2 := leave rs now' room c (snd r1) in
  fst r1 = JoinOk (n + 1) ("P" ++ tostring (n + 1)) /\ fst r2 = n /\
  room_count now' room (snd r2) = n /\
  room_members now' room (snd r2) = room_members now room d /\
  roomExists now' room (snd r2) = true.
Proof.
  intros Hex Hin [Hn1 Hn2] Hnow'. cbv zeta.
  rewrite tryJoin_new by done. cbn [fst snd]. split; [done|].
  pose proof Hex as Hmeta. apply roomExists_meta in Hmeta.
  set (n := room_count now room d) in *.
  set (d0 := expire now d) in *.
  set (S0 := room_members now room d) in *.
  assert (smembers room (members d0) = S0) as HS by done.
  apply Z.ltb_lt in Hnow'.
  unfold leave, refresh3. cbv zeta. cbn [expire meta members count jtis jti].
  rewrite exists_stamped by done. rewrite Hnow'. cbn [negb].
  set (mem1 := purge now' (pexpire now (ttlMs rs) room (sadd room c (members d0)))).
  assert (smembers room mem1 = {[c]} ∪ S0) as Hmem1.
  { unfold mem1. rewrite smembers_get, get_stamped, Hnow'. unfold get.
    rewrite lookup_sadd, decide_True by done.
    cbn [fmap option_fmap option_map value default]. by rewrite HS. }
  pose proof (srem_removed room c mem1) as Hrem.
  pose proof (srem_lookup room c mem1 room) as Hlook. cbv zeta in Hlook.
  rewrite Hmem1 in Hrem, Hlook.
  rewrite decide_True in Hrem by set_solver.
  rewrite decide_True in Hlook by done. rewrite decide_True in Hlook by set_solver.
  assert (({[c]} ∪ S0) ∖ {[c]} = S0) as Hdiff by set_solver.
  rewrite Hdiff in Hlook.
  destruct (srem room c mem1) as [removed mem2]. cbn [fst snd] in Hrem, Hlook. subst removed.
  set (cnt1 := purge now' (pexpire now (ttlMs rs) room (set room (n + 1) (count d0)))).
  assert (default 0 (get room cnt1) = n + 1) as Hcur.
  { unfold cnt1. rewrite get_stamped, Hnow'. unfold get.
    by rewrite lookup_set, decide_True. }
  rewrite Hcur. change (1 =? 1) with true. cbn [andb].
  destruct (Z.ltb_spec 0 (n + 1)); [|lia].
  replace (n + 1 - 1) with n by lia.
  destruct (Z.leb_spec n 0); [lia|]. cbn [fst snd].
  split; [done|].
  assert ((now' <? now' + ttlMs rs) = true) as Hself by (apply Z.ltb_lt; lia).
  unfold room_count, room_members, roomExists. cbn [expire meta members count].
  rewrite smembers_get, !get_stamped, Hself.
  split; [|split].
  - unfold get. by rewrite lookup_set, decide_True.
  - unfold get. rewrite Hlook. by destruct (decide (S0 = ∅)) as [->|].
  - rewrite exists_stamped; [done|].
    rewrite lookup_purge, pexpire_same.
    destruct Hmeta as [e He]. fold d0 in He. cbn [expire meta] in He.
    change (purge now (meta d) !! room = Some e) in He.
    unfold d0. cbn [expire meta]. rewrite He. cbn. rewrite Hnow'. by eexists.
Qed.

(** A leave that reports no remaining member leaves no room behind. *)
Lemma leave_zero_gone now now' room c d :
  fst (leave rs now room c d) = 0 ->
  purge now' (meta (snd (leave rs now room c d))) !! room = None.
Proof.
  unfold leave. cbv zeta.
  destruct (exists_ room (meta (expire now d))) eqn:Hex; cbn [negb].
  - destruct (srem room c (members (expire now d))) as [removed mem1].
    destruct (_ <=? 0) eqn:Hz.
    + intros _. cbn [fst snd meta]. by rewrite lookup_purge, lookup_del, decide_True.
    + cbn [fst]. intros Hc. apply Z.leb_gt in Hz. lia.
  - intros _. cbn [snd]. rewrite exists_lookup in Hex.
    apply bool_decide_eq_false in Hex. rewrite lookup_purge.
    destruct (meta (expire now d) !! room) as [e|] eqn:E; [|done].
    exfalso. apply Hex. by eexists.
Qed.
End RoomLifetime.



(** X15.  Joining is idempotent for a member: [tryJoin] by a
    connection that is already in the room's set succeeds with the
    current count and the label made of it, and leaves the count and
    the set as they were; only the time to live is refreshed. *)
Theorem rejoin_is_idempotent (rs : RoomStore.t) (now now' : Z) (room c : string)
    (d : Redis.db) :
  0 < RoomStore.ttlMs rs ->
  RoomStore.roomExists now room d = true -> c ∈ RoomStore.room_members now room d ->
  now' < now + RoomStore.ttlMs rs ->
  let n := RoomStore.room_count now room d in
  let r := RoomStore.tryJoin rs now room c d in
  fst r = RoomStore.JoinOk n ("P" ++ RoomStore.tostring n) /\
  RoomStore.room_count now' room (snd r) = n /\
  RoomStore.room_members now' room (snd r) = RoomStore.room_members now room d.
Proof. intros Httl. by apply tryJoin_member. Qed.

Lemma rejoin_is_idempotent_witness :
  let rs := RoomStore.mk 600000 10 in
  let d := RoomStore.createRoom rs 1000 "room-0001" "a" Redis.empty in
  fst (RoomStore.tryJoin rs 2000 "room-0001" "a" d) = RoomStore.JoinOk 1 "P1" /\
  RoomStore.room_count 3000 "room-0001" (snd (RoomStore.tryJoin rs 2000 "room-0001" "a" d)) = 1.
Proof.
  intros rs d.
  assert (RoomStore.room_count 2000 "room-0001" d = 1) as Hn by (vm_compute; reflexivity).
  destruct (rejoin_is_idempotent rs 2000 3000 "room-0001" "a" d) as (H1 & H2 & _).
  - simpl. lia.
  - vm_compute. reflexivity.
  - vm_compute. reflexivity.
  - simpl. lia.
  - rewrite Hn in H1, H2. split; [exact H1|exact H2].
Defined.

(** X16.  Leaving undoes joining while others remain: in a room with
    at least one participant and a free place, a [tryJoin] by a new
    connection followed by its [leave] within the time to live reports
    the old count as remaining and leaves the count and the set of
    members as they were before the join, in a room that still exists. *)
Theorem join_leave_round_trip (rs : RoomStore.t) (now now' : Z) (room c : string)
    (d : Redis.db) :
  0 < RoomStore.ttlMs rs ->
  RoomStore.roomExists now room d = true -> c ∉ RoomStore.room_members now room d ->
  1 <= RoomStore.room_count now room d < RoomStore.maxParticipants rs ->
  now' < now + RoomStore.ttlMs rs ->
  let n := RoomStore.room_count now room d in
  let r1 := RoomStore.tryJoin rs now room c d in
  let r2 := RoomStore.leave rs now' room c (snd r1) in
  fst r1 = RoomStore.JoinOk (n + 1) ("P" ++ RoomStore.tostring (n + 1)) /\ fst r2 = n /\
  RoomStore.room_count now' room (snd r2) = n /\
  RoomStore.room_members now' room (snd r2) = RoomStore.room_members now room d /\
  RoomStore.roomExists now' room (snd r2) = true.
Proof. intros Httl. by apply join_then_leave. Qed.

Lemma join_leave_round_trip_witness :
  let rs := RoomStore.mk 600000 10 in
  let d := RoomStore.createRoom rs 1000 "room-0001" "a" Redis.empty in
  let r1 := RoomStore.tryJoin rs 2000 "room-0001" "b" d in
  let r2 := RoomStore.leave rs 3000 "room-0001" "b" (snd r1) in
  fst r2 = RoomStore.room_count 2000 "room-0001" d /\
  RoomStore.room_members 3000 "room-0001" (snd r2) = RoomStore.room_members 2000 "room-0001" d.
Proof.
  intros rs d r1 r2.
  destruct (join_leave_round_trip rs 2000 3000 "room-0001" "b" d) as (_ & H2 & _ & H4 & _).
  - simpl. lia.
  - vm_compute. reflexivity.
  - apply (bool_decide_unpack _). vm_compute. exact I.
  - assert (RoomStore.room_count 2000 "room-0001" d = 1) as -> by (vm_compute; reflexivity).
    simpl. lia.
  - simpl. lia.
  - split; [exact H2|exact H4].
Defined.

(** X17.  A leave that reports no remaining participant leaves no room
    behind: from then on [roomExists] is false at every time, a
    [tryJoin] is refused with ERR_NO_ROOM, and a [touch] does not bring
    the room back. *)
Theorem leave_zero_deletes_room (rs : RoomStore.t) (now now' : Z) (room c c' : string)
    (d : Redis.db) :
  fst (RoomStore.leave rs now room c d) = 0 ->
  let d' := snd (RoomStore.leave rs now room c d) in
  RoomStore.roomExists now' room d' = false /\
  fst (RoomStore.tryJoin rs now' room c' d') = RoomStore.JoinErr "ERR_NO_ROOM" /\
  RoomStore.roomExists now' room (RoomStore.touch rs now' room d') = false.
Proof.
  intros Hz d'. pose proof (leave_zero_gone rs now now' room c d Hz) as Hgone. fold d' in Hgone.
  assert (RoomStore.roomExists now' room d' = false) as Hex.
  { unfold RoomStore.roomExists, Redis.exists_. simpl. rewrite Hgone.
    apply bool_decide_eq_false. by intros [? ?]. }
  split; [done|]. split.
  - unfold RoomStore.tryJoin. cbv zeta. unfold RoomStore.roomExists in Hex. by rewrite Hex.
  - unfold RoomStore.roomExists, RoomStore.touch, Redis.exists_. simpl.
    apply bool_decide_eq_false. intros [e He].
    rewrite lookup_purge, lookup_pexpire, decide_True, Hgone in He by done.
    by destruct (_ <=? 0).
Qed.

Lemma leave_zero_deletes_room_witness :
  let rs := RoomStore.mk 600000 10 in
  let d := RoomStore.createRoom rs 1000 "room-0001" "a" Redis.empty in
  let d' := snd (RoomStore.leave rs 2000 "room-0001" "a" d) in
  RoomStore.roomExists 2000 "room-0001" d = true /\
  RoomStore.roomExists 2000 "room-0001" d' = false /\
  fst (RoomStore.tryJoin rs 2500 "room-0001" "b" d') = RoomStore.JoinErr "ERR_NO_ROOM".
Proof.
  intros rs d d'. split; [vm_compute; reflexivity|].
  assert (fst (RoomStore.leave rs 2000 "room-0001" "a" d) = 0) as Hz
    by (vm_compute; reflexivity).
  split.
  - apply (leave_zero_deletes_room rs 2000 2000 "room-0001" "a" "b" d Hz).
  - apply (leave_zero_deletes_room rs 2000 2500 "room-0001" "a" "b" d Hz).
Defined.

(** ** The router's rooms hold members only *)

Section MembershipFacts.
Import Ws WsRel Membership.
Variable cfg : Config.
#[local] Set Warnings "-clear-no-such-hyp".

Lemma tracked_ws_only st st' : ws_only st st' -> tracked st -> tracked st'.
Proof.
  intros Hw [H1 H2]. pose proof Hw as (_ & _ & Hl & _). split.
  - intros room r j Hr Hj. rewrite Hl in Hr. destruct (H1 room r j Hr Hj) as (c & Hc & Hroom).
    pose proof (ws_only_roomId st st' j Hw) as Hid. rewrite Hc in Hid.
    destruct (ctxs st' !! j) as [c'|]; [|done]. exists c'. split; [done|].
    cbn in Hid. congruence.
  - by rewrite Hl.
Qed.

Lemma tracked_wsSend st i f : tracked st -> tracked (wsSend cfg i f st).
Proof. apply tracked_ws_only, ws_only_wsSend, ws_only_refl. Qed.

Lemma tracked_broadcast st room f : tracked st -> tracked (broadcast cfg room f st).
Proof. apply tracked_ws_only, ws_only_broadcast, ws_only_refl. Qed.

Lemma tracked_store st d : tracked st -> tracked (set_store d st).
Proof. done. Qed.

Lemma tracked_upd st i f :
  (forall c, roomId (f c) = roomId c) -> tracked st -> tracked (upd_ctx i f st).
Proof.
  intros Hf [H1 H2]. split; [|done].
  intros room r j Hr Hj. destruct (H1 room r j Hr Hj) as (c & Hc & Hroom).
  cbn. rewrite lookup_alter. case_decide; [subst|by eauto].
  rewrite Hc. cbn. eexists. split; [done|]. by rewrite Hf.
Qed.

Lemma tracked_ensure st now j room :
  room <> EmptyString -> tracked st -> tracked (snd (ensureLocalRoom cfg now j room st)).
Proof.
  intros Hne [H1 H2]. unfold ensureLocalRoom.
  destruct (localRooms st !! room) as [r|] eqn:E; [done|]. split; cbn.
  - intros room' r' j'. rewrite lookup_insert. case_decide.
    + intros [= <-]. cbn. set_solver.
    + apply H1.
  - by rewrite lookup_insert_ne.
Qed.

(** Entering a room: the context gets the room, the room gets the id. *)
Lemma tracked_enter st i c room g :
  tracked st -> ctxs st !! i = Some c -> WsTypes.truthy (roomId c) = false ->
  (forall x, roomId (g x) = Some room) -> room <> EmptyString ->
  tracked (upd_ctx i g (set_localRooms (alter (add_conn i) room (localRooms st)) st)).
Proof.
  intros [H1 H2] Hc Htruthy Hg Hne. split.
  - intros room' r' j. cbn. rewrite !lookup_alter. intros Hr Hj.
    destruct (decide (room = room')) as [<-|Hroom].
    + destruct (localRooms st !! room) as [r|] eqn:E; [|done].
      injection Hr as <-. cbn in Hj.
      case_decide as Hij; [subst j; rewrite Hc; cbn; by eauto|].
      apply H1 with (r := r); [done|set_solver].
    + destruct (H1 room' r' j Hr Hj) as (c' & Hc' & Hroom').
      case_decide as Hij; [|by eauto]. subst j.
      rewrite Hc in Hc'. injection Hc' as <-. rewrite Hroom' in Htruthy.
      cbn in Htruthy. destruct room'; [by rewrite H2 in Hr|done].
  - cbn. rewrite lookup_alter. case_decide; [done|]. done.
Qed.

Lemma tracked_cleanup st room : tracked st -> tracked (cleanupIfEmpty room st).
Proof.
  intros [H1 H2]. unfold cleanupIfEmpty.
  assert (tracked (set_localRooms (delete room (localRooms st)) st)) as Hdel.
  { split.
    - intros room' r' j. cbn. rewrite lookup_delete. case_decide; [done|]. apply H1.
    - cbn. rewrite lookup_delete. by case_decide. }
  destruct (localRooms st !! room) as [r|]; [|done].
  case_decide; done.
Qed.

Lemma tracked_leaveRoom st now rnd i room :
  tracked st -> tracked (leaveRoom cfg now rnd i room st).
Proof.
  intros Ht. unfold leaveRoom.
  destruct (ctxs st !! i) as [ctx|] eqn:Hc; [|done].
  destruct (bool_decide (roomId ctx = Some room)) eqn:Hroom; [|done]. cbn [negb].
  apply bool_decide_eq_true in Hroom.
  destruct (RoomStore.leave _ _ _ _ _) as [remaining d].
  assert (tracked
            (set_store d (set_localRooms
               (alter (delete_conn i) room (localRooms (upd_ctx i (set_roomId None) st)))
               (upd_ctx i (set_roomId None) st)))) as Hs3.
  { apply tracked_store. destruct Ht as [H1 H2]. split.
    - intros room' r' j. cbn. rewrite !lookup_alter. intros Hr Hj.
      destruct (decide (room = room')) as [<-|Hne].
      + destruct (localRooms st !! room) as [r|] eqn:E; [|done].
        injection Hr as <-. cbn in Hj.
        rewrite decide_False by set_solver.
        apply H1 with (r := r); [done|set_solver].
      + destruct (H1 room' r' j Hr Hj) as (c' & Hc' & Hroom').
        case_decide as Hij; [|by eauto]. subst j. congruence.
    - cbn. rewrite lookup_alter. case_decide as E0; [|done]. subst room. by rewrite H2. }
  destruct (remaining <=? 0); [by apply tracked_cleanup|].
  apply tracked_broadcast.
  destruct (label ctx) as [l|]; [|done].
  destruct (JoinTokens.is_empty l); [done|]. by apply tracked_broadcast.
Qed.

Lemma ensure_ctxs st now j room :
  ctxs (snd (ensureLocalRoom cfg now j room st)) = ctxs st.
Proof. unfold ensureLocalRoom. by destruct (localRooms st !! room). Qed.

Lemma tracked_handle st now rnd i ctx msg :
  (roomId <$> ctxs st !! i) = Some (roomId ctx) ->
  rnd 3%nat <> EmptyString ->
  (forall room tk qr lbl, msg = WsTypes.JoinRequest room tk qr lbl -> room <> EmptyString) ->
  tracked st -> tracked (handle cfg now rnd i ctx msg st).
Proof.
  intros Hctx Hrnd Hjoin Hs.
  destruct (ctxs st !! i) as [c0|] eqn:Hc0; [|done]. injection Hctx as Hroom0.
  destruct msg as [|room token qr lbl|room|room ct|room mime size chunkSize chunks|];
    cbn [handle].
  - destruct (WsTypes.truthy (roomId ctx)) eqn:Ht; [by apply tracked_wsSend|].
    destruct (ensureLocalRoom _ _ _ _ _) as [local st2] eqn:He.
    assert (st2 = snd (ensureLocalRoom cfg now (rnd 4%nat) (rnd 3%nat)
                         (set_store (RoomStore.createRoom (roomStore cfg) now (rnd 3%nat) i
                                       (store st)) st))) as -> by by rewrite He.
    clear He.
    apply tracked_broadcast, tracked_wsSend.
    apply (tracked_enter _ i c0); [| |by rewrite Hroom0|done|done].
    + by apply tracked_ensure, tracked_store.
    + by rewrite ensure_ctxs.
  - destruct (WsTypes.truthy (roomId ctx)) eqn:Ht; [by apply tracked_wsSend|].
    destruct (if WsTypes.truthy qr then qr else token) as [tk|]; [|done].
    destruct (JoinTokens.is_empty tk); [done|].
    destruct (JoinTokens.verifyJoinToken _ tk) as [payload|code];
      [|by apply tracked_wsSend].
    destruct (negb _); [by apply tracked_wsSend|].
    destruct (_ <? now); [by apply tracked_wsSend|].
    destruct (RoomStore.markTokenJtiUsed _ _ _ _ _ _) as [fresh d1].
    destruct (negb fresh); [by apply tracked_wsSend, tracked_store|].
    destruct (RoomStore.tryJoin _ _ _ _ _) as [[count jlabel|code] d2];
      [|by apply tracked_wsSend, tracked_store].
    destruct (ensureLocalRoom _ _ _ _ _) as [local st3] eqn:He.
    assert (st3 = snd (ensureLocalRoom cfg now (rnd 4%nat) room
                         (set_store d2 (set_store d1 st)))) as -> by by rewrite He.
    clear He.
    apply tracked_broadcast, tracked_broadcast, tracked_wsSend.
    apply (tracked_enter _ i c0 room); [| |by rewrite Hroom0|done|by eapply Hjoin].
    + apply tracked_ensure; [by eapply Hjoin|]. by apply tracked_store, tracked_store.
    + by rewrite ensure_ctxs.
  - by apply tracked_wsSend, tracked_leaveRoom.
  - destruct (negb _); [by apply tracked_wsSend|].
    destruct (_ <? _); [by apply tracked_wsSend|by apply tracked_broadcast].
  - destruct (negb _); [by apply tracked_wsSend|].
    destruct (_ <? _); [by apply tracked_wsSend|by apply tracked_broadcast].
  - by apply tracked_wsSend.
Qed.

Lemma str_field_nonempty lo hi k o s :
  1 <= lo -> WsTypes.str_field lo hi k o = Some s -> s <> EmptyString.
Proof.
  intros Hlo. unfold WsTypes.str_field, WsTypes.in_range.
  destruct (JSON.prop k o) as [[]|]; try done.
  destruct (Z.leb_spec lo (Z.of_nat (String.length s0))); [|done].
  destruct (_ <=? hi); [|done]. intros [= <-] ->. cbn in *. lia.
Qed.

Lemma parsed_join_room raw room tk qr lbl :
  WsTypes.parseClientMsg raw = Some (WsTypes.JoinRequest room tk qr lbl) ->
  room <> EmptyString.
Proof.
  unfold WsTypes.parseClientMsg. destruct (JSON.parse raw) as [v|]; [|done]. cbn.
  unfold WsTypes.parseClientValue.
  destruct (WsTypes.WsEnvelopeSchema v) as [[t [body|]]|]; try done.
  repeat (case_match; try done); unfold WsTypes.EmptyBodySchema, WsTypes.LeaveSchema,
    WsTypes.AppMsgSchema, WsTypes.MediaMsgSchema in *;
    try (repeat (case_match; try done); fail).
  unfold WsTypes.JoinRequestSchema.
  destruct (negb _); [done|].
  destruct (WsTypes.str_field 8 128 "roomId" body) as [r|] eqn:Hr; [|done].
  repeat (case_match; try done). intros [= <- _ _ _].
  by apply (str_field_nonempty 8 128 "roomId" body).
Qed.

Lemma tracked_onMessage st now rnd i raw :
  rnd 3%nat <> EmptyString -> tracked st -> tracked (onMessage cfg now rnd i raw st).
Proof.
  intros Hrnd Hs. unfold onMessage, close_ctx.
  destruct (ctxs st !! i) as [ctx|] eqn:Hc; [|done].
  destruct (_ <? _); [by apply tracked_upd|].
  destruct (TokenBucket.take now 1 _) as [ok1 mb].
  destruct (negb ok1); [by do 2 (apply tracked_upd; [done|])|].
  destruct (TokenBucket.take now _ _) as [ok2 bb].
  destruct (negb ok2); [by do 3 (apply tracked_upd; [done|])|].
  destruct (WsTypes.parseClientMsg raw) as [msg|] eqn:Hp;
    [|by do 3 (apply tracked_upd; [done|])].
  apply tracked_handle; [|done| |].
  - destruct (WsTypes.truthy (roomId ctx)); cbn; rewrite !lookup_alter_eq, Hc; done.
  - intros room tk qr lbl ->. by eapply parsed_join_room.
  - destruct (WsTypes.truthy (roomId ctx)); [apply tracked_store|];
      by do 2 (apply tracked_upd; [done|]).
Qed.

Lemma tracked_onDisconnect st now rnd i : tracked st -> tracked (onDisconnect cfg now rnd i st).
Proof.
  intros Hs. unfold onDisconnect. destruct (ctxs st !! i) as [ctx|]; [|done].
  assert (tracked
            match roomId ctx with
            | Some room => if JoinTokens.is_empty room then st
                           else leaveRoom cfg now rnd i room st
            | None => st
            end) as H1.
  { destruct (roomId ctx) as [room|]; [|done].
    destruct (JoinTokens.is_empty room); [done|]. by apply tracked_leaveRoom. }
  exact H1.
Qed.

Lemma tracked_step st now rnd ev :
  rnd 3%nat <> EmptyString -> admissible ev st -> tracked st ->
  tracked (step cfg now rnd ev st).
Proof.
  intros Hrnd Hadm Hs. destruct ev as [i ip0|i raw|i|i|i| |room|i rs buffered]; cbn [step].
  - unfold onConnection.
    destruct (GlobalConnectionLimiter.tryInc _) as [ok1 gl].
    destruct (negb ok1); [done|].
    destruct (IpConnectionLimiter.tryInc _ _) as [ok2 il].
    destruct (negb ok2); [done|]. cbn [fst].
    apply tracked_wsSend. cbn in Hadm. destruct Hs as [H1 H2]. split; [|done].
    intros room r j Hr Hj. cbn in Hr. destruct (H1 room r j Hr Hj) as (c & Hc & Hroom).
    cbn. rewrite lookup_insert_ne; [by eauto|]. intros ->. congruence.
  - by apply tracked_onMessage.
  - by apply tracked_upd.
  - unfold onCloseOrError. case_decide; [done|]. by apply tracked_onDisconnect.
  - unfold onCloseOrError. case_decide; [done|]. by apply tracked_onDisconnect.
  - destruct Hs as [H1 H2]. split; [|done].
    intros room r j Hr Hj. destruct (H1 room r j Hr Hj) as (c & Hc & Hroom).
    cbn. rewrite map_lookup_imap, Hc. cbn. eexists. split; [done|].
    case_decide; [|done]. unfold ping_one. repeat case_match; done.
  - unfold rotateQr. destruct (localRooms st !! room) as [r|] eqn:E; [|done].
    apply tracked_broadcast. destruct Hs as [H1 H2]. split.
    + intros room' r' j. cbn. rewrite lookup_insert. case_decide.
      * subst. intros [= <-]. cbn. by apply H1.
      * apply H1.
    + cbn. rewrite lookup_insert_ne; [done|]. intros ->. congruence.
  - by apply tracked_upd.
Qed.

Lemma tracked_run evs st :
  Trace.admissible_run cfg evs st -> named_rooms evs -> tracked st -> tracked (run cfg evs st).
Proof.
  revert st. induction evs as [|[[now rnd] ev] evs IH]; intros st Hadm Hn Hs; [done|].
  destruct Hadm as [Ha Hadm]. apply Forall_cons in Hn as [Hr Hn].
  change (run cfg ((now, rnd, ev) :: evs) st) with (run cfg evs (step cfg now rnd ev st)).
  apply IH; [done|done|]. by apply tracked_step.
Qed.

Lemma tracked_init : tracked (init cfg).
Proof. split; [|done]. intros room r j. cbn. by rewrite lookup_empty. Qed.
End MembershipFacts.



(** ** Sockets that are closed or backed up are not written to *)

Section BackpressureFacts.
Import Ws WsRel Backpressure.
Variable cfg : Config.
Variable j : string.
Variable s0 : list Frame.

Lemma silent_close code reason : silent (ws_close code reason).
Proof.
  intros s. unfold ws_close. destruct (readyState s =? OPEN); cbn; [|by auto].
  split; [done|]. split; [done|]. by right.
Qed.

Lemma silent_terminate : silent ws_terminate.
Proof.
  intros s. unfold ws_terminate. destruct (readyState s =? CLOSED); cbn; [by auto|].
  split; [done|]. split; [done|]. by right.
Qed.

Lemma silent_ping : silent ws_ping.
Proof. intros s. by auto. Qed.

Lemma silent_writable f c : silent f -> writable cfg c = false -> writable cfg (on_ws f c) = false.
Proof.
  intros Hf. destruct (Hf (ws c)) as (_ & Hb & Hr). unfold writable, slow. cbn. rewrite Hb.
  destruct Hr as [->|Hr]; [done|]. intros _.
  destruct (Z.eqb_spec (readyState (f (ws c))) OPEN); done.
Qed.

Lemma held_upd_ws st i f : silent f -> held cfg j s0 st -> held cfg j s0 (upd_ctx i (on_ws f) st).
Proof.
  intros Hf (c & Hc & Hs & Hw). unfold held. cbn. rewrite lookup_alter.
  case_decide; [subst|by eauto]. rewrite Hc. cbn. eexists. split; [done|].
  split; [|by apply silent_writable]. cbn. by rewrite (proj1 (Hf (ws c))).
Qed.

Lemma held_upd st i f :
  (forall c, ws (f c) = ws c) -> held cfg j s0 st -> held cfg j s0 (upd_ctx i f st).
Proof.
  intros Hf (c & Hc & Hs & Hw). unfold held. cbn. rewrite lookup_alter.
  case_decide; [subst|by eauto]. rewrite Hc. cbn. eexists. split; [done|].
  unfold writable. by rewrite Hf.
Qed.

Lemma held_store st d : held cfg j s0 st -> held cfg j s0 (set_store d st).
Proof. done. Qed.

Lemma held_rooms st m : held cfg j s0 st -> held cfg j s0 (set_localRooms m st).
Proof. done. Qed.

Lemma held_wsSend st i f : held cfg j s0 st -> held cfg j s0 (wsSend cfg i f st).
Proof.
  intros H. pose proof H as (c & Hc & Hs & Hw). unfold wsSend.
  destruct (ctxs st !! i) as [ctx|] eqn:Hi; [|done].
  destruct (readyState (ws ctx) =? OPEN) eqn:Ho; [|done]. cbn [negb].
  destruct (slow cfg (ws ctx)) eqn:Hsl; [done|].
  unfold held. cbn. rewrite lookup_alter. case_decide; [subst|by eauto].
  rewrite Hc in Hi. injection Hi as <-. unfold writable in Hw. by rewrite Ho, Hsl in Hw.
Qed.

Lemma held_deliver st i f : held cfg j s0 st -> held cfg j s0 (deliver cfg f st i).
Proof.
  intros H. pose proof H as (c & Hc & Hs & Hw). unfold deliver, connections_get.
  case_decide; [|done].
  destruct (ctxs st !! i) as [ctx|] eqn:Hi; [|done].
  destruct (readyState (ws ctx) =? OPEN) eqn:Ho; [|done]. cbn [negb].
  destruct (slow cfg (ws ctx)) eqn:Hsl; [by apply held_upd_ws; [apply silent_close|]|].
  unfold held. cbn. rewrite lookup_alter. case_decide; [subst|by eauto].
  rewrite Hc in Hi. injection Hi as <-. unfold writable in Hw. by rewrite Ho, Hsl in Hw.
Qed.

Lemma held_foldl st l f : held cfg j s0 st -> held cfg j s0 (foldl (deliver cfg f) st l).
Proof.
  revert st. induction l as [|i l IH]; intros st H; [done|].
  cbn. by apply IH, held_deliver.
Qed.

Lemma held_broadcast st room f : held cfg j s0 st -> held cfg j s0 (broadcast cfg room f st).
Proof.
  intros H. rewrite broadcast_foldl. destruct (localRooms st !! room); [|done].
  by apply held_foldl.
Qed.

Lemma held_ensure st now jt room :
  held cfg j s0 st -> held cfg j s0 (snd (ensureLocalRoom cfg now jt room st)).
Proof. unfold ensureLocalRoom. by destruct (localRooms st !! room). Qed.

Lemma held_cleanup st room : held cfg j s0 st -> held cfg j s0 (cleanupIfEmpty room st).
Proof.
  unfold cleanupIfEmpty. destruct (localRooms st !! room); [|done]. by case_decide.
Qed.

Lemma held_leaveRoom st now rnd i room :
  held cfg j s0 st -> held cfg j s0 (leaveRoom cfg now rnd i room st).
Proof.
  intros Hs. unfold leaveRoom.
  destruct (ctxs st !! i) as [ctx|]; [|done].
  destruct (negb (bool_decide (roomId ctx = Some room))); [done|].
  destruct (RoomStore.leave _ _ _ _ _) as [remaining d].
  assert (held cfg j s0
            (set_store d (set_localRooms
               (alter (delete_conn i) room (localRooms (upd_ctx i (set_roomId None) st)))
               (upd_ctx i (set_roomId None) st)))) as Hs3.
  { apply held_store, held_rooms, held_upd; done. }
  destruct (remaining <=? 0); [by apply held_cleanup|].
  apply held_broadcast.
  destruct (label ctx) as [l|]; [|done].
  destruct (JoinTokens.is_empty l); [done|]. by apply held_broadcast.
Qed.

Lemma held_handle st now rnd i ctx msg :
  held cfg j s0 st -> held cfg j s0 (handle cfg now rnd i ctx msg st).
Proof.
  intros Hs. destruct msg as [|room token qr lbl|room|room ct|room mime size chunkSize chunks|];
    cbn [handle].
  - destruct (WsTypes.truthy (roomId ctx)); [by apply held_wsSend|].
    open_ensure.
    apply held_broadcast, held_wsSend, held_upd; [done|].
    by apply held_rooms, held_ensure, held_store.
  - destruct (WsTypes.truthy (roomId ctx)); [by apply held_wsSend|].
    destruct (if WsTypes.truthy qr then qr else token) as [tk|]; [|done].
    destruct (JoinTokens.is_empty tk); [done|].
    destruct (JoinTokens.verifyJoinToken _ tk) as [payload|code];
      [|by apply held_wsSend].
    destruct (negb _); [by apply held_wsSend|].
    destruct (_ <? now); [by apply held_wsSend|].
    destruct (RoomStore.markTokenJtiUsed _ _ _ _ _ _) as [fresh d1].
    destruct (negb fresh); [by apply held_wsSend, held_store|].
    destruct (RoomStore.tryJoin _ _ _ _ _) as [[count jlabel|code] d2];
      [|by apply held_wsSend, held_store].
    open_ensure.
    apply held_broadcast, held_broadcast, held_wsSend, held_upd; [done|].
    by apply held_rooms, held_ensure, held_store, held_store.
  - by apply held_wsSend, held_leaveRoom.
  - destruct (negb _); [by apply held_wsSend|].
    destruct (_ <? _); [by apply held_wsSend|by apply held_broadcast].
  - destruct (negb _); [by apply held_wsSend|].
    destruct (_ <? _); [by apply held_wsSend|by apply held_broadcast].
  - by apply held_wsSend.
Qed.

Lemma held_onMessage st now rnd i raw :
  held cfg j s0 st -> held cfg j s0 (onMessage cfg now rnd i raw st).
Proof.
  intros Hs. unfold onMessage, close_ctx.
  destruct (ctxs st !! i) as [ctx|]; [|done].
  destruct (_ <? _); [by apply held_upd_ws; [apply silent_close|]|].
  destruct (TokenBucket.take now 1 _) as [ok1 mb].
  destruct (negb ok1).
  { apply held_upd_ws; [apply silent_close|]. by apply held_upd. }
  destruct (TokenBucket.take now _ _) as [ok2 bb].
  destruct (negb ok2).
  { apply held_upd_ws; [apply silent_close|]. by do 2 (apply held_upd; [done|]). }
  destruct (WsTypes.parseClientMsg raw) as [msg|].
  2:{ apply held_upd_ws; [apply silent_close|]. by do 2 (apply held_upd; [done|]). }
  apply held_handle.
  destruct (WsTypes.truthy (roomId ctx)); [apply held_store|];
    by do 2 (apply held_upd; [done|]).
Qed.

Lemma held_onDisconnect st now rnd i :
  held cfg j s0 st -> held cfg j s0 (onDisconnect cfg now rnd i st).
Proof.
  intros Hs. unfold onDisconnect. destruct (ctxs st !! i) as [ctx|]; [|done].
  assert (held cfg j s0
            match roomId ctx with
            | Some room => if JoinTokens.is_empty room then st
                           else leaveRoom cfg now rnd i room st
            | None => st
            end) as H1.
  { destruct (roomId ctx) as [room|]; [|done].
    destruct (JoinTokens.is_empty room); [done|]. by apply held_leaveRoom. }
  exact H1.
Qed.

Lemma held_pingSweep st now : held cfg j s0 st -> held cfg j s0 (pingSweep cfg now st).
Proof.
  intros (c & Hc & Hs & Hw). unfold held. cbn. rewrite map_lookup_imap, Hc. cbn.
  eexists. split; [done|]. case_decide; [|done]. unfold ping_one.
  destruct (negb _); [done|].
  destruct (_ && _).
  - split; [cbn; by rewrite (proj1 (silent_terminate (ws c)))|].
    by apply silent_writable; [apply silent_terminate|].
  - split; [done|].
    apply (silent_writable ws_ping (set_pong (lastPongMs c) true c)); [apply silent_ping|].
    exact Hw.
Qed.

Lemma held_step st now rnd ev :
  admissible ev st -> (forall rs b, ev <> EvNetwork j rs b) ->
  held cfg j s0 st -> held cfg j s0 (step cfg now rnd ev st).
Proof.
  intros Hadm Hnet Hs. destruct ev as [i ip0|i raw|i|i|i| |room|i rs buffered]; cbn [step].
  - unfold onConnection.
    destruct (GlobalConnectionLimiter.tryInc _) as [ok1 gl].
    destruct (negb ok1); [done|].
    destruct (IpConnectionLimiter.tryInc _ _) as [ok2 il].
    destruct (negb ok2); [done|]. cbn [fst].
    apply held_wsSend. destruct Hs as (c & Hc & Hs & Hw). cbn in Hadm.
    exists c. cbn. rewrite lookup_insert_ne; [done|]. intros ->. congruence.
  - by apply held_onMessage.
  - by apply held_upd.
  - unfold onCloseOrError. case_decide; [done|]. by apply held_onDisconnect.
  - unfold onCloseOrError. case_decide; [done|]. by apply held_onDisconnect.
  - by apply held_pingSweep.
  - unfold rotateQr. destruct (localRooms st !! room); [|done].
    by apply held_broadcast, held_rooms, held_store.
  - destruct Hs as (c & Hc & Hs & Hw). unfold held, onNetwork. cbn.
    rewrite lookup_alter_ne; [by eauto|]. intros ->. by apply (Hnet rs buffered).
Qed.
End BackpressureFacts.

(** X19.  The server never writes to a socket that is not open or whose
    send buffer holds more than four maximal frames: whatever event is
    handled next, the frames sent on such a socket stay as they are,
    and the socket stays unwritable until the transport itself reports
    a new state for it. *)
Theorem unwritable_socket_not_written (cfg : Ws.Config) (now : Z) (rnd : nat -> string)
    (ev : Ws.Event) (j : string) (c : Ws.ConnCtx) (st : Ws.State) :
  Ws.admissible ev st ->
  Ws.ctxs st !! j = Some c -> Backpressure.writable cfg c = false ->
  Ws.outbox j (Ws.step cfg now rnd ev st) = Ws.outbox j st /\
  ((forall rs b, ev <> Ws.EvNetwork j rs b) ->
   exists c', Ws.ctxs (Ws.step cfg now rnd ev st) !! j = Some c' /\
              Backpressure.writable cfg c' = false).
Proof.
  intros Hadm Hc Hw.
  assert (Backpressure.held cfg j (Ws.sent (Ws.ws c)) st) as Hheld by (by exists c).
  split.
  - assert ((exists rs b, ev = Ws.EvNetwork j rs b) \/ forall rs b, ev <> Ws.EvNetwork j rs b)
      as [(rs & b & ->)|Hnet].
    { destruct ev as [| | | | | | |i rs b]; try (right; intros ? ?; discriminate).
      destruct (decide (i = j)) as [->|Hne]; [left; by eauto|].
      right. intros ? ? [= ? _ _]. done. }
    + cbn. unfold Ws.outbox, Ws.onNetwork. cbn. rewrite lookup_alter_eq, Hc. done.
    + destruct (held_step cfg j _ st now rnd ev Hadm Hnet Hheld) as (c' & Hc' & Hs & _).
      unfold Ws.outbox. by rewrite Hc', Hc.
  - intros Hnet.
    destruct (held_step cfg j _ st now rnd ev Hadm Hnet Hheld) as (c' & Hc' & _ & Hw').
    by exists c'.
Qed.

(** A socket that the transport reported closed is sent no PONG. *)
Lemma unwritable_socket_not_written_witness :
  let st := Ws.run Scenario.cfg
              [(1000, Scenario.rnd "1", Ws.EvConnect "connA" "10.0.0.1");
               (1500, Scenario.rnd "2", Ws.EvNetwork "connA" Ws.CLOSED 0)]
              (Ws.init Scenario.cfg) in
  let ev := Ws.EvMessage "connA" (Scenario.frame "PING" (JSON.Obj [])) in
  Ws.outbox "connA" (Ws.step Scenario.cfg 2000 (Scenario.rnd "3") ev st) = Ws.outbox "connA" st.
Proof.
  intros st ev.
  assert (exists c, Ws.ctxs st !! "connA" = Some c /\
                    Backpressure.writable Scenario.cfg c = false) as (c & Hc & Hw).
  { eexists. split; [vm_compute; reflexivity|]. vm_compute. reflexivity. }
  exact (proj1 (unwritable_socket_not_written Scenario.cfg 2000 (Scenario.rnd "3") ev
                  "connA" c st I Hc Hw)).
Defined.

(** ** Slow consumers and answered pings *)

Section SlowConsumers.
Import Ws WsRel.
Variable cfg : Config.

Lemma deliver_keeps st i j f :
  i <> j ->
  ctxs (deliver cfg f st i) !! j = ctxs st !! j /\
  connections (deliver cfg f st i) = connections st.
Proof.
  intros Hne. unfold deliver. destruct (connections_get i st) as [ctx|]; [|done].
  destruct (negb _); [done|].
  destruct (slow cfg (ws ctx)); cbn; by rewrite lookup_alter_ne.
Qed.

Lemma foldl_deliver_keeps l st j f :
  j ∉ l ->
  ctxs (foldl (deliver cfg f) st l) !! j = ctxs st !! j /\
  connections (foldl (deliver cfg f) st l) = connections st.
Proof.
  revert st. induction l as [|i l IH]; intros st Hj; [done|].
  apply not_elem_of_cons in Hj as [Hne Hj]. cbn.
  destruct (IH (deliver cfg f st i) Hj) as [-> ->]. by apply deliver_keeps.
Qed.

Lemma broadcast_closes_slow st room r j c f :
  localRooms st !! room = Some r -> j ∈ conns r ->
  connections_get j st = Some c ->
  readyState (ws c) = OPEN -> slow cfg (ws c) = true ->
  ctxs (broadcast cfg room f st) !! j = Some (on_ws (ws_close 1008 "slow consumer") c).
Proof.
  intros Hr Hj Hc Ho Hs. rewrite broadcast_foldl, Hr.
  assert (j ∈ elements (conns r)) as Hin by by apply elem_of_elements.
  pose proof (NoDup_elements (conns r)) as Hnd.
  apply list_elem_of_split in Hin as (l1 & l2 & Hl). rewrite Hl in Hnd |- *.
  apply NoDup_app in Hnd as (_ & Hdis & Hnd2). apply NoDup_cons in Hnd2 as [Hj2 _].
  assert (j ∉ l1) as Hj1. { intros H. apply (Hdis j H). by left. }
  rewrite foldl_app. cbn [foldl].
  destruct (foldl_deliver_keeps l2 (deliver cfg f (foldl (deliver cfg f) st l1) j) j f Hj2)
    as [-> _].
  destruct (foldl_deliver_keeps l1 st j f Hj1) as [Hc1 Hn1].
  unfold connections_get in Hc. case_decide as Hconn; [|done].
  set (st1 := foldl (deliver cfg f) st l1) in *.
  unfold deliver, connections_get. rewrite Hn1, decide_True, Hc1, Hc by done.
  rewrite Ho, Hs. cbn. by rewrite lookup_alter_eq, Hc1, Hc.
Qed.
End SlowConsumers.

(** X20.  A member of a room whose socket is open but backed up by more
    than four maximal frames is dropped by the next broadcast to the
    room: the socket is closed with code 1008 and reason "slow consumer"
    and is not written to.  A direct reply to such a socket is dropped
    without closing it. *)
Theorem slow_consumer_closed (cfg : Ws.Config) (st : Ws.State) (room j : string)
    (r : Ws.LocalRoom) (c : Ws.ConnCtx) (f : Ws.Frame) :
  Ws.localRooms st !! room = Some r -> j ∈ Ws.conns r ->
  Ws.connections_get j st = Some c ->
  Ws.readyState (Ws.ws c) = Ws.OPEN -> Ws.slow cfg (Ws.ws c) = true ->
  (exists c', Ws.ctxs (Ws.broadcast cfg room f st) !! j = Some c' /\
     Ws.closed (Ws.ws c') = Some (1008, "slow consumer") /\
     Ws.readyState (Ws.ws c') = Ws.CLOSING /\ Ws.sent (Ws.ws c') = Ws.sent (Ws.ws c)) /\
  Ws.wsSend cfg j f st = st.
Proof.
  intros Hr Hj Hc Ho Hs. split.
  - rewrite (broadcast_closes_slow cfg st room r j c f Hr Hj Hc Ho Hs).
    eexists. split; [done|]. unfold Ws.ws_close. cbn. by rewrite Ho.
  - unfold Ws.connections_get in Hc. case_decide; [|done].
    unfold Ws.wsSend. by rewrite Hc, Ho, Hs.
Qed.

Lemma slow_consumer_closed_witness :
  let st := Ws.run Scenario.cfg
              (Scenario.created ++ [(3500, Scenario.rnd "4",
                                     Ws.EvNetwork "connA" Ws.OPEN 2000000)])
              (Ws.init Scenario.cfg) in
  let f := Ws.mkFrame "srv-0001" (Ws.APP_MSG Scenario.R "AAA") in
  exists c', Ws.ctxs (Ws.broadcast Scenario.cfg Scenario.R f st) !! "connA" = Some c' /\
    Ws.closed (Ws.ws c') = Some (1008, "slow consumer").
Proof.
  intros st f.
  assert (exists r c, Ws.localRooms st !! Scenario.R = Some r /\ "connA" ∈ Ws.conns r /\
            Ws.connections_get "connA" st = Some c /\
            Ws.readyState (Ws.ws c) = Ws.OPEN /\ Ws.slow Scenario.cfg (Ws.ws c) = true)
    as (r & c & Hr & Hj & Hc & Ho & Hs).
  { do 2 eexists. split; [vm_compute; reflexivity|].
    split; [apply (bool_decide_unpack _); vm_compute; exact I|].
    split; [vm_compute; reflexivity|]. split; vm_compute; reflexivity. }
  clearbody st.
  destruct (slow_consumer_closed Scenario.cfg st Scenario.R "connA" r c f Hr Hj Hc Ho Hs)
    as [(c' & H1 & H2 & _) _].
  exists c'. split; [exact H1|exact H2].
Defined.

Section HeartbeatFacts.
Import Ws KeepAlive Heartbeat.
Variable cfg : Config.

Lemma answered_alive i ticks st c :
  i ∈ connections st -> ctxs st !! i = Some c ->
  readyState (ws c) = OPEN -> awaitingPong c = false ->
  let st' := answered cfg i ticks st in
  exists c', ctxs st' !! i = Some c' /\ readyState (ws c') = OPEN /\
    awaitingPong c' = false /\ terminated (ws c') = terminated (ws c) /\
    pings (ws c') = pings (ws c) + Z.of_nat (length ticks).
Proof.
  revert st c. induction ticks as [|[t tp] r IH]; intros st c Hin Hc Ho Ha; cbv zeta.
  - exists c. cbn. repeat split; try done. lia.
  - cbn [answered].
    set (c1 := set_pong tp false (ping_one cfg t c)).
    assert (ctxs (onPong tp i (pingSweep cfg t st)) !! i = Some c1) as Hc1.
    { unfold onPong. cbn [ctxs upd_ctx]. rewrite lookup_alter_eq, pingSweep_lookup, Hc by done.
      done. }
    assert (ping_one cfg t c = on_ws ws_ping (set_pong (lastPongMs c) true c)) as Hp.
    { unfold ping_one. rewrite Ho, Ha. done. }
    destruct (IH (onPong tp i (pingSweep cfg t st)) c1)
      as (c' & Hc' & Ho' & Ha' & Ht' & Hp'); try done.
    { subst c1. rewrite Hp. done. }
    exists c'. split; [done|]. split; [done|]. split; [done|].
    subst c1. rewrite Hp in Ht', Hp'. cbn in Ht', Hp'. split; [done|].
    rewrite Hp'. cbn [length]. lia.
Qed.
End HeartbeatFacts.

(** X21.  A peer that answers every ping is never cut off: if each
    tick of the keep-alive timer is followed by a pong of the
    connection before the next tick, then, however late each pong is
    and however far apart the ticks are, the socket is pinged at every
    tick and is not terminated. *)
Theorem answered_pings_keep_alive (cfg : Ws.Config) (i : string) (ticks : list (Z * Z))
    (st : Ws.State) (c : Ws.ConnCtx) :
  i ∈ Ws.connections st -> Ws.ctxs st !! i = Some c ->
  Ws.readyState (Ws.ws c) = Ws.OPEN -> Ws.awaitingPong c = false ->
  Ws.terminated (Ws.ws c) = false ->
  let st' := Heartbeat.answered cfg i ticks st in
  ~ KeepAlive.is_terminated i st' /\
  Ws.pings <$> (Ws.ws <$> (Ws.ctxs st' !! i)) =
    Some (Ws.pings (Ws.ws c) + Z.of_nat (length ticks)).
Proof.
  intros Hin Hc Ho Ha Ht st'.
  destruct (answered_alive cfg i ticks st c Hin Hc Ho Ha) as (c' & Hc' & _ & _ & Ht' & Hp').
  fold st' in Hc'. split.
  - intros (c2 & Hc2 & Hterm). rewrite Hc' in Hc2. injection Hc2 as <-. congruence.
  - rewrite Hc'. cbn. by rewrite Hp'.
Qed.

(** Pongs that come 29 s after their pings, with a timeout of 5 s. *)
Lemma answered_pings_keep_alive_witness :
  let st := Ws.step Scenario.cfg 1000 (Scenario.rnd "1") (Ws.EvConnect "connA" "10.0.0.1")
              (Ws.init Scenario.cfg) in
  let st' := Heartbeat.answered Scenario.cfg "connA"
               [(30000, 59000); (60000, 89000); (90000, 119000)] st in
  ~ KeepAlive.is_terminated "connA" st' /\
  Ws.pings <$> (Ws.ws <$> (Ws.ctxs st' !! "connA")) = Some 3.
Proof.
  intros st st'.
  assert (exists c, "connA" ∈ Ws.connections st /\ Ws.ctxs st !! "connA" = Some c /\
            Ws.readyState (Ws.ws c) = Ws.OPEN /\ Ws.awaitingPong c = false /\
            Ws.terminated (Ws.ws c) = false /\ Ws.pings (Ws.ws c) = 0)
    as (c & Hin & Hc & Ho & Ha & Ht & Hp).
  { eexists. split; [apply (bool_decide_unpack _); vm_compute; exact I|].
    split; [vm_compute; reflexivity|]. repeat split; vm_compute; reflexivity. }
  destruct (answered_pings_keep_alive Scenario.cfg "connA"
              [(30000, 59000); (60000, 89000); (90000, 119000)] st c Hin Hc Ho Ha Ht)
    as [H1 H2].
  split; [exact H1|]. rewrite Hp in H2. exact H2.
Defined.

(** ** Creating a room *)

Section RoomCreation.
Import Ws WsRel Redis RoomStore.
Variable cfg : Config.
#[local] Set Warnings "-clear-no-such-hyp".

Lemma verify_minted secret rid0 jti0 exp0 :
  JoinTokens.verifyJoinToken secret (JoinTokens.mintJoinToken secret rid0 exp0 jti0) =
    JoinTokens.Ok (JoinTokens.mkPayload rid0 exp0 jti0).
Proof.
  unfold JoinTokens.mintJoinToken. cbv zeta.
  set (payload := JoinTokens.mkPayload rid0 exp0 jti0).
  set (payloadBytes := list_byte_of_string (JSON.stringify (JoinTokens.payload_value payload))).
  assert (payloadBytes <> []) as Hbytes.
  { apply list_byte_of_string_nonempty. unfold payload. by rewrite payload_text. }
  rewrite verify_halves.
  - rewrite b64urlDecode_encode. unfold Base64Url.hmacSha256B64Url.
    rewrite b64urlDecode_encode, bool_decide_eq_true_2 by done.
    unfold payloadBytes. rewrite string_of_list_byte_of_string, parse_payload.
    by rewrite check_payload_value.
  - apply b64urlEncode_no_dot.
  - apply b64urlEncode_no_dot.
  - by apply b64urlEncode_nonempty.
  - apply b64urlEncode_nonempty, hmac_nonempty.
Qed.

Lemma createRoom_observed rs now room i d :
  0 < ttlMs rs -> members (expire now d) !! room = None ->
  room_count now room (createRoom rs now room i d) = 1 /\
  room_members now room (createRoom rs now room i d) = {[i]}.
Proof.
  intros Httl Hfree. unfold room_count, room_members, createRoom. cbn [expire count members].
  assert ((ttlMs rs <=? 0) = false) as Hleb by by apply Z.leb_gt.
  assert ((now <? now + ttlMs rs) = true) as Hlive by (apply Z.ltb_lt; lia).
  split.
  - unfold get. rewrite lookup_purge, lookup_pexpire, decide_True, Hleb by done.
    rewrite lookup_set, decide_True by done. cbn. unfold live. cbn. by rewrite Hlive.
  - rewrite smembers_lookup, lookup_purge, lookup_pexpire, decide_True, Hleb by done.
    rewrite lookup_sadd, decide_True by done. cbn. unfold live. cbn. rewrite Hlive. cbn.
    rewrite smembers_lookup. cbn [expire members] in Hfree. rewrite Hfree. cbn. set_solver.
Qed.

Lemma broadcast_store st room f : store (broadcast cfg room f st) = store st.
Proof.
  by destruct (ws_only_broadcast cfg st st room f (ws_only_refl st)) as (_ & _ & _ & H & _).
Qed.

Lemma handle_create now rnd i ctx st :
  ctxs st !! i = Some ctx -> i ∈ connections st ->
  readyState (ws ctx) = OPEN -> slow cfg (ws ctx) = false ->
  WsTypes.truthy (roomId ctx) = false ->
  localRooms st !! rnd 3%nat = None ->
  let room := rnd 3%nat in
  let st' := handle cfg now rnd i ctx WsTypes.RoomCreate st in
  let exp := now + QR_ROTATION_MS cfg in
  let token := JoinTokens.mintJoinToken (JOIN_TOKEN_SECRET cfg) room exp (rnd 4%nat) in
  outbox i st' =
    outbox i st ++
    [mkFrame (rnd 0%nat) (ROOM_CREATED room token exp (ROOM_MAX_PARTICIPANTS cfg));
     mkFrame (rnd 1%nat) (ROOM_STATS room 1 (ROOM_MAX_PARTICIPANTS cfg))] /\
  (forall j, j <> i -> outbox j st' = outbox j st) /\
  (roomId <$> (ctxs st' !! i)) = Some (Some room) /\
  (conns <$> (localRooms st' !! room)) = Some {[i]} /\
  store st' = createRoom (roomStore cfg) now room i (store st).
Proof.
  intros Hctx Hconn Ho Hslow Htruthy Hfree. cbv zeta. cbn [handle]. rewrite Htruthy.
  unfold ensureLocalRoom. cbn [localRooms set_store]. rewrite Hfree.
  set (room := rnd 3%nat).
  set (exp := now + QR_ROTATION_MS cfg).
  set (token := JoinTokens.mintJoinToken (JOIN_TOKEN_SECRET cfg) room exp (rnd 4%nat)).
  set (local := mkLocalRoom room ∅ token exp).
  set (st1 := set_store (createRoom (roomStore cfg) now room i (store st)) st).
  set (st2 := set_localRooms (<[room := local]> (localRooms st)) st1).
  set (st4 := upd_ctx i (set_roomId (Some room))
                (set_localRooms (alter (add_conn i) room (localRooms st2)) st2)).
  cbn [qrToken qrExpUnixMs local].
  set (created := mkFrame (rnd 0%nat) (ROOM_CREATED room token exp (ROOM_MAX_PARTICIPANTS cfg))).
  set (stats := mkFrame (rnd 1%nat) (ROOM_STATS room 1 (ROOM_MAX_PARTICIPANTS cfg))).
  assert (ctxs st4 !! i = Some (set_roomId (Some room) ctx)) as Hc4.
  { unfold st4. cbn. by rewrite lookup_alter_eq, Hctx. }
  assert (forall j, j <> i -> outbox j st4 = outbox j st) as Hout4.
  { intros j Hj. unfold st4. by rewrite outbox_upd_ne. }
  assert (outbox i st4 = outbox i st) as Hout4i.
  { unfold outbox. by rewrite Hc4, Hctx. }
  assert (localRooms st4 !! room = Some (add_conn i local)) as Hl4.
  { unfold st4. cbn. by rewrite lookup_alter_eq, lookup_insert_eq. }
  set (st5 := wsSend cfg i created st4).
  assert (localRooms st5 !! room = Some (add_conn i local)) as Hl5.
  { unfold st5. by rewrite wsSend_localRooms. }
  assert (reached cfg st5 i = true) as Hreach.
  { unfold st5. rewrite reached_wsSend. unfold reached, connections_get.
    rewrite decide_True, Hc4 by done. cbn. by rewrite Ho, Hslow. }
  split; [|split; [|split; [|split]]].
  - rewrite (broadcast_to cfg st5 room _ stats i Hl5).
    rewrite bool_decide_eq_true_2 by (cbn; set_solver). rewrite Hreach. cbn [andb].
    unfold st5. rewrite (wsSend_outbox cfg st4 i created _ Hc4) by done.
    rewrite Hout4i. by rewrite <- app_assoc.
  - intros j Hj. rewrite (broadcast_to cfg st5 room _ stats j Hl5).
    rewrite bool_decide_eq_false_2 by (cbn; set_solver). cbn [andb]. rewrite app_nil_r.
    unfold st5. rewrite wsSend_outbox_ne by done. by apply Hout4.
  - pose proof (ws_only_roomId st5 (broadcast cfg room stats st5) i
                  (ws_only_broadcast cfg st5 st5 room stats (ws_only_refl st5))) as ->.
    unfold st5. rewrite wsSend_roomId, Hc4. done.
  - rewrite localRooms_broadcast, Hl5. cbn. f_equal. set_solver.
  - rewrite broadcast_store. unfold st5. by rewrite wsSend_store.
Qed.
End RoomCreation.



(** ** Rooms made over HTTP *)

Section HttpRoomFacts.
Import Ws Redis RoomStore HttpRooms.
Variable cfg : Config.

Lemma createRoomEmpty_join now now' room c d :
  0 < ROOM_KEY_TTL_MS cfg -> 1 <= ROOM_MAX_PARTICIPANTS cfg ->
  members (expire now d) !! room = None -> now' < now + ROOM_KEY_TTL_MS cfg ->
  fst (tryJoin (roomStore cfg) now' room c (createRoomEmpty (roomStore cfg) now room d)) =
    JoinOk 1 "P1".
Proof.
  intros Httl Hmax Hfree Hnow'.
  pose proof (createRoomEmpty_lifetime (roomStore cfg) Httl now now' room d) as Hex.
  apply Z.ltb_lt in Hnow'. cbn [roomStore ttlMs] in Hex. rewrite Hnow' in Hex.
  unfold tryJoin. cbv zeta. unfold roomExists in Hex. rewrite Hex. cbn [negb].
  assert (members (expire now' (createRoomEmpty (roomStore cfg) now room d)) !! room = None)
    as Hmem.
  { unfold createRoomEmpty. cbn [expire members] in *. rewrite lookup_purge.
    by rewrite Hfree. }
  assert (get room (count (expire now' (createRoomEmpty (roomStore cfg) now room d))) = Some 0)
    as Hcnt.
  { unfold createRoomEmpty. cbn [expire count roomStore ttlMs].
    rewrite (get_stamped (roomStore cfg) Httl). cbn [roomStore ttlMs]. rewrite Hnow'.
    unfold get. by rewrite lookup_set, decide_True. }
  unfold sismember. rewrite smembers_lookup, Hmem. cbn [fmap option_fmap option_map default].
  rewrite bool_decide_eq_false_2 by set_solver.
  rewrite Hcnt. change (default 0 (Some 0)) with 0. cbn [roomStore maxParticipants].
  destruct (Z.leb_spec (ROOM_MAX_PARTICIPANTS cfg) 0); [lia|]. cbn [fst]. reflexivity.
Qed.
End HttpRoomFacts.



(** ** Rotating the token of a room *)

Section Rotation.
Import Ws WsRel Redis RoomStore.
Variable cfg : Config.

Lemma rotateQr_effects now rnd room r st :
  localRooms st !! room = Some r ->
  let st' := rotateQr cfg now rnd room st in
  let exp := now + QR_ROTATION_MS cfg in
  let token := JoinTokens.mintJoinToken (JOIN_TOKEN_SECRET cfg) room exp (rnd 4%nat) in
  let f := mkFrame (rnd 1%nat) (QR_ROTATED room token exp) in
  localRooms st' !! room = Some (mkLocalRoom (lr_roomId r) (conns r) token exp) /\
  store st' = touch (roomStore cfg) now room (store st) /\
  (forall j, outbox j st' =
     outbox j st ++ (if bool_decide (j ∈ conns r) && reached cfg st j then [f] else [])).
Proof.
  intros Hr. cbv zeta. unfold rotateQr. rewrite Hr.
  set (exp := now + QR_ROTATION_MS cfg).
  set (token := JoinTokens.mintJoinToken (JOIN_TOKEN_SECRET cfg) room exp (rnd 4%nat)).
  set (r1 := mkLocalRoom (lr_roomId r) (conns r) token exp).
  set (st1 := set_store (touch (roomStore cfg) now room (store st)) st).
  set (st2 := set_localRooms (<[room := r1]> (localRooms st1)) st1).
  assert (localRooms st2 !! room = Some r1) as Hl2.
  { unfold st2. cbn. by rewrite lookup_insert_eq. }
  split; [|split].
  - by rewrite localRooms_broadcast.
  - by rewrite broadcast_store.
  - intros j. by rewrite (broadcast_to cfg st2 room r1 _ j Hl2).
Qed.
End Rotation.

(** X28.  A rotation tick for a room the router holds replaces the
    room's token by a new one, which verifies under the server's secret
    to the room and expires [QR_ROTATION_MS] later, keeps the room's
    connections, refreshes the room's keys in the store, and sends
    QR_ROTATED with the new token to every connection of the room that
    is registered, open and not backed up, and to nobody else.  A tick
    for a room the router does not hold does nothing. *)
Theorem qr_rotation_effects (cfg : Ws.Config) (now : Z) (rnd : nat -> string) (room : string)
    (st : Ws.State) :
  let st' := Ws.rotateQr cfg now rnd room st in
  let exp := now + Ws.QR_ROTATION_MS cfg in
  let token := JoinTokens.mintJoinToken (Ws.JOIN_TOKEN_SECRET cfg) room exp (rnd 4%nat) in
  let f := Ws.mkFrame (rnd 1%nat) (Ws.QR_ROTATED room token exp) in
  (Ws.localRooms st !! room = None -> st' = st) /\
  (forall r, Ws.localRooms st !! room = Some r ->
     Ws.localRooms st' !! room = Some (Ws.mkLocalRoom (Ws.lr_roomId r) (Ws.conns r) token exp) /\
     Ws.store st' = RoomStore.touch (Ws.roomStore cfg) now room (Ws.store st) /\
     (forall j, (Ws.receives cfg room j st -> Ws.outbox j st' = Ws.outbox j st ++ [f]) /\
                (~ Ws.receives cfg room j st -> Ws.outbox j st' = Ws.outbox j st))) /\
  JoinTokens.verifyJoinToken (Ws.JOIN_TOKEN_SECRET cfg) token =
    JoinTokens.Ok (JoinTokens.mkPayload room exp (rnd 4%nat)).
Proof.
  cbv zeta. split; [|split].
  - intros Hnone. unfold Ws.rotateQr. by rewrite Hnone.
  - intros r Hr. destruct (rotateQr_effects cfg now rnd room r st Hr) as (H1 & H2 & H3).
    split; [done|]. split; [done|]. intros j. rewrite H3.
    pose proof (reached_receives cfg st room j r Hr) as Hrec.
    rewrite <- (bool_decide_ext _ _ (elem_of_elements (Ws.conns r) j)).
    destruct (bool_decide (j ∈ elements (Ws.conns r)) && WsRel.reached cfg st j) eqn:B.
    + split; [done|]. intros Hn. exfalso. apply Hn. by apply Hrec.
    + split; [|by rewrite app_nil_r]. intros Hy. apply Hrec in Hy. congruence.
  - apply verify_minted.
Qed.

(** ** Leaving a room on request *)

Section LeaveRequests.
Import Ws WsRel.
Variable cfg : Config.
#[local] Set Warnings "-clear-no-such-hyp".

Lemma broadcast_skips st room f j :
  (forall r, localRooms st !! room = Some r -> j ∉ conns r) ->
  ctxs (broadcast cfg room f st) !! j = ctxs st !! j.
Proof.
  intros Hout. rewrite broadcast_foldl.
  destruct (localRooms st !! room) as [r|] eqn:Hr; [|done].
  apply foldl_deliver_keeps. rewrite elem_of_elements. by apply Hout.
Qed.

Lemma leaveRoom_self st now rnd i ctx room :
  ctxs st !! i = Some ctx -> roomId ctx = Some room ->
  ws <$> (ctxs (leaveRoom cfg now rnd i room st) !! i) = Some (ws ctx).
Proof.
  intros Hctx Hroom. unfold leaveRoom. rewrite Hctx, Hroom.
  rewrite bool_decide_eq_true_2 by done. cbn [negb].
  set (st1 := upd_ctx i (set_roomId None) st).
  set (st2 := set_localRooms _ st1).
  destruct (RoomStore.leave _ _ _ _ _) as [remaining d].
  set (st3 := set_store d st2).
  assert (ws <$> (ctxs st3 !! i) = Some (ws ctx)) as Hw3.
  { cbn. by rewrite lookup_alter_eq, Hctx. }
  assert (forall r, localRooms st3 !! room = Some r -> i ∉ conns r) as Hl3.
  { intros r. cbn. rewrite lookup_alter_eq.
    destruct (localRooms st !! room) as [r0|]; [|done]. cbn. intros [= <-]. cbn. set_solver. }
  destruct (remaining <=? 0).
  - unfold cleanupIfEmpty. destruct (localRooms st3 !! room) as [r0|]; [|done].
    by destruct (decide _).
  - set (st4 := match label ctx with Some _ => _ | None => _ end).
    assert (ctxs st4 !! i = ctxs st3 !! i /\ localRooms st4 = localRooms st3) as [Hc4 Hl4].
    { subst st4. destruct (label ctx) as [l|]; [|done].
      destruct (JoinTokens.is_empty l); [done|].
      split; [by apply broadcast_skips|apply localRooms_broadcast]. }
    rewrite broadcast_skips; [by rewrite Hc4|].
    intros r. rewrite Hl4. apply Hl3.
Qed.

Lemma leaveRoom_stranger st now rnd i ctx room :
  ctxs st !! i = Some ctx -> roomId ctx <> Some room ->
  leaveRoom cfg now rnd i room st = st.
Proof.
  intros Hctx Hroom. unfold leaveRoom. rewrite Hctx.
  by rewrite bool_decide_eq_false_2.
Qed.
End LeaveRequests.



(** ** The message bucket bounds what a connection gets handled *)

Section FloodFacts.
Import Ws WsRel Flood.
Variable cfg : Config.
Variable i : string.

Lemma bucket_upd st k f b :
  (forall c, msgBucket (f c) = msgBucket c) -> bucket_is i b st -> bucket_is i b (upd_ctx k f st).
Proof.
  intros Hf (c & Hc & Hb). unfold bucket_is. cbn. rewrite lookup_alter.
  case_decide; [subst|by eauto]. rewrite Hc. cbn. eexists. split; [done|]. by rewrite Hf.
Qed.

Lemma bucket_upd_ne st k f b : k <> i -> bucket_is i b st -> bucket_is i b (upd_ctx k f st).
Proof.
  intros Hne (c & Hc & Hb). unfold bucket_is. cbn. rewrite lookup_alter_ne by done. by eauto.
Qed.

Lemma bucket_store st d b : bucket_is i b st -> bucket_is i b (set_store d st).
Proof. done. Qed.

Lemma bucket_rooms st m b : bucket_is i b st -> bucket_is i b (set_localRooms m st).
Proof. done. Qed.

Lemma bucket_wsSend st k f b : bucket_is i b st -> bucket_is i b (wsSend cfg k f st).
Proof.
  intros H. unfold wsSend. destruct (ctxs st !! k) as [ctx|]; [|done].
  destruct (negb _); [done|]. destruct (slow cfg (ws ctx)); [done|]. by apply bucket_upd.
Qed.

Lemma bucket_deliver st k f b : bucket_is i b st -> bucket_is i b (deliver cfg f st k).
Proof.
  intros H. unfold deliver. destruct (connections_get k st) as [ctx|]; [|done].
  destruct (negb _); [done|]. destruct (slow cfg (ws ctx)); by apply bucket_upd.
Qed.

Lemma bucket_foldl st l f b : bucket_is i b st -> bucket_is i b (foldl (deliver cfg f) st l).
Proof.
  revert st. induction l as [|k l IH]; intros st H; [done|].
  cbn. by apply IH, bucket_deliver.
Qed.

Lemma bucket_broadcast st room f b :
  bucket_is i b st -> bucket_is i b (broadcast cfg room f st).
Proof.
  intros H. rewrite broadcast_foldl. destruct (localRooms st !! room); [|done].
  by apply bucket_foldl.
Qed.

Lemma bucket_ensure st now jt room b :
  bucket_is i b st -> bucket_is i b (snd (ensureLocalRoom cfg now jt room st)).
Proof. unfold ensureLocalRoom. by destruct (localRooms st !! room). Qed.

Lemma bucket_cleanup st room b : bucket_is i b st -> bucket_is i b (cleanupIfEmpty room st).
Proof.
  unfold cleanupIfEmpty. destruct (localRooms st !! room); [|done]. by case_decide.
Qed.

Lemma bucket_leaveRoom st now rnd k room b :
  bucket_is i b st -> bucket_is i b (leaveRoom cfg now rnd k room st).
Proof.
  intros Hs. unfold leaveRoom.
  destruct (ctxs st !! k) as [ctx|]; [|done].
  destruct (negb (bool_decide (roomId ctx = Some room))); [done|].
  destruct (RoomStore.leave _ _ _ _ _) as [remaining d].
  assert (bucket_is i b
            (set_store d (set_localRooms
               (alter (delete_conn k) room (localRooms (upd_ctx k (set_roomId None) st)))
               (upd_ctx k (set_roomId None) st)))) as Hs3.
  { apply bucket_store, bucket_rooms, bucket_upd; done. }
  destruct (remaining <=? 0); [by apply bucket_cleanup|].
  apply bucket_broadcast.
  destruct (label ctx) as [l|]; [|done].
  destruct (JoinTokens.is_empty l); [done|]. by apply bucket_broadcast.
Qed.

Lemma bucket_handle st now rnd k ctx msg b :
  bucket_is i b st -> bucket_is i b (handle cfg now rnd k ctx msg st).
Proof.
  intros Hs. destruct msg as [|room token qr lbl|room|room ct|room mime size chunkSize chunks|];
    cbn [handle].
  - destruct (WsTypes.truthy (roomId ctx)); [by apply bucket_wsSend|].
    open_ensure.
    apply bucket_broadcast, bucket_wsSend, bucket_upd; [done|].
    by apply bucket_rooms, bucket_ensure, bucket_store.
  - destruct (WsTypes.truthy (roomId ctx)); [by apply bucket_wsSend|].
    destruct (if WsTypes.truthy qr then qr else token) as [tk|]; [|done].
    destruct (JoinTokens.is_empty tk); [done|].
    destruct (JoinTokens.verifyJoinToken _ tk) as [payload|code];
      [|by apply bucket_wsSend].
    destruct (negb _); [by apply bucket_wsSend|].
    destruct (_ <? now); [by apply bucket_wsSend|].
    destruct (RoomStore.markTokenJtiUsed _ _ _ _ _ _) as [fresh d1].
    destruct (negb fresh); [by apply bucket_wsSend, bucket_store|].
    destruct (RoomStore.tryJoin _ _ _ _ _) as [[count jlabel|code] d2];
      [|by apply bucket_wsSend, bucket_store].
    open_ensure.
    apply bucket_broadcast, bucket_broadcast, bucket_wsSend, bucket_upd; [done|].
    by apply bucket_rooms, bucket_ensure, bucket_store, bucket_store.
  - by apply bucket_wsSend, bucket_leaveRoom.
  - destruct (negb _); [by apply bucket_wsSend|].
    destruct (_ <? _); [by apply bucket_wsSend|by apply bucket_broadcast].
  - destruct (negb _); [by apply bucket_wsSend|].
    destruct (_ <? _); [by apply bucket_wsSend|by apply bucket_broadcast].
  - by apply bucket_wsSend.
Qed.

Lemma bucket_onMessage_other st now rnd k raw b :
  k <> i -> bucket_is i b st -> bucket_is i b (onMessage cfg now rnd k raw st).
Proof.
  intros Hne Hs. unfold onMessage, close_ctx.
  destruct (ctxs st !! k) as [ctx|]; [|done].
  destruct (_ <? _); [by apply bucket_upd_ne|].
  destruct (TokenBucket.take now 1 _) as [ok1 mb].
  destruct (negb ok1); [by do 2 (apply bucket_upd_ne; [done|])|].
  destruct (TokenBucket.take now _ _) as [ok2 bb].
  destruct (negb ok2); [by do 3 (apply bucket_upd_ne; [done|])|].
  destruct (WsTypes.parseClientMsg raw) as [msg|];
    [|by do 3 (apply bucket_upd_ne; [done|])].
  apply bucket_handle.
  destruct (WsTypes.truthy (roomId ctx)); [apply bucket_store|];
    by do 2 (apply bucket_upd_ne; [done|]).
Qed.

(** The message bucket is charged once by every frame within the size
    limit, and by nothing else. *)
Lemma bucket_onMessage_self st now rnd raw c :
  ctxs st !! i = Some c ->
  bucket_is i
    (if MAX_WS_MSG_BYTES cfg <? Z.of_nat (String.length raw) then msgBucket c
     else snd (TokenBucket.take now 1 (msgBucket c)))
    (onMessage cfg now rnd i raw st).
Proof.
  intros Hc. unfold onMessage, close_ctx. rewrite Hc.
  destruct (_ <? _).
  { apply bucket_upd; [done|]. by exists c. }
  destruct (TokenBucket.take now 1 _) as [ok1 mb]. cbn [snd].
  assert (bucket_is i mb (upd_ctx i (set_msgBucket mb) st)) as H1.
  { unfold bucket_is. cbn. rewrite lookup_alter_eq, Hc. cbn. by eauto. }
  destruct (negb ok1); [by apply bucket_upd|].
  destruct (TokenBucket.take now _ _) as [ok2 bb].
  destruct (negb ok2); [by do 2 (apply bucket_upd; [done|])|].
  destruct (WsTypes.parseClientMsg raw) as [msg|];
    [|by do 2 (apply bucket_upd; [done|])].
  apply bucket_handle.
  destruct (WsTypes.truthy (roomId c)); [apply bucket_store|]; by apply bucket_upd.
Qed.

Lemma bucket_onDisconnect st now rnd k b :
  bucket_is i b st -> bucket_is i b (onDisconnect cfg now rnd k st).
Proof.
  intros Hs. unfold onDisconnect. destruct (ctxs st !! k) as [ctx|]; [|done].
  assert (bucket_is i b
            match roomId ctx with
            | Some room => if JoinTokens.is_empty room then st
                           else leaveRoom cfg now rnd k room st
            | None => st
            end) as H1.
  { destruct (roomId ctx) as [room|]; [|done].
    destruct (JoinTokens.is_empty room); [done|]. by apply bucket_leaveRoom. }
  exact H1.
Qed.

Lemma bucket_step st now rnd ev c :
  admissible ev st -> ctxs st !! i = Some c ->
  bucket_is i
    (match ev with
     | EvMessage k raw =>
         if String.eqb k i && negb (MAX_WS_MSG_BYTES cfg <? Z.of_nat (String.length raw))
         then snd (TokenBucket.take now 1 (msgBucket c)) else msgBucket c
     | _ => msgBucket c
     end)
    (step cfg now rnd ev st).
Proof.
  intros Hadm Hc. assert (bucket_is i (msgBucket c) st) as Hs by (by exists c).
  destruct ev as [k ip0|k raw|k|k|k| |room|k rs buffered]; cbn [step].
  - unfold onConnection.
    destruct (GlobalConnectionLimiter.tryInc _) as [ok1 gl].
    destruct (negb ok1); [done|].
    destruct (IpConnectionLimiter.tryInc _ _) as [ok2 il].
    destruct (negb ok2); [done|]. cbn [fst].
    apply bucket_wsSend. cbn in Hadm. exists c. cbn.
    rewrite lookup_insert_ne; [done|]. intros ->. congruence.
  - destruct (String.eqb_spec k i) as [->|Hne].
    + pose proof (bucket_onMessage_self st now rnd raw c Hc) as H.
      cbn [andb]. by destruct (_ <? _).
    + cbn [andb]. by apply bucket_onMessage_other.
  - by apply bucket_upd.
  - unfold onCloseOrError. case_decide; [done|]. by apply bucket_onDisconnect.
  - unfold onCloseOrError. case_decide; [done|]. by apply bucket_onDisconnect.
  - exists (if decide (i ∈ connections st) then ping_one cfg now c else c).
    cbn. rewrite map_lookup_imap, Hc. cbn. split; [done|].
    case_decide; [|done]. unfold ping_one. repeat case_match; done.
  - unfold rotateQr. destruct (localRooms st !! room); [|done].
    by apply bucket_broadcast, bucket_rooms, bucket_store.
  - by apply bucket_upd.
Qed.

Lemma admitted_potential evs st c T :
  ctxs st !! i = Some c -> BucketRun.sound (msgBucket c) ->
  Trace.admissible_run cfg evs st -> Forall (fun e => fst (fst e) <= T) evs ->
  admitted cfg i evs st <= BucketRun.potential T (msgBucket c).
Proof.
  revert st c. induction evs as [|[[now rnd] ev] evs IH]; intros st c Hc Hs Hadm Hall.
  - cbn. by apply potential_nonneg.
  - destruct Hadm as [Ha Hadm]. apply Forall_cons in Hall as [Hnow Hall]. cbn in Ha, Hnow.
    destruct (bucket_step st now rnd ev c Ha Hc) as (c' & Hc' & Hb').
    cbn [admitted fst snd]. rewrite Hc.
    pose proof (take_potential (msgBucket c) now 1 T Hs Hnow) as Htake.
    pose proof (take_sound (msgBucket c) now 1 Hs) as Hsound.
    assert (BucketRun.sound (msgBucket c')) as Hs'.
    { rewrite Hb'. destruct ev; try done. by destruct (_ && _). }
    specialize (IH _ c' Hc' Hs' Hadm Hall). rewrite Hb' in IH.
    destruct ev as [k ip0|k raw|k|k|k| |room|k rs buffered]; cbv iota beta; try lia.
    unfold passes. destruct (String.eqb k i); cbn [andb] in *; [|lia].
    destruct (negb _); cbn [andb] in *; [|lia].
    destruct (fst (TokenBucket.take now 1 (msgBucket c))) eqn:E; lia.
Qed.
End FloodFacts.

(** X25.  The message bucket bounds what a connection can get handled:
    among the frames a connection sends at times up to [T], the number
    that get past the size check and the message bucket is at most the
    tokens its bucket holds plus [refillTokens] for every whole interval
    between the bucket's refill marker and [T], whatever else happens on
    the server in between.  For a connection accepted at [t0] this is
    [MAX_MSGS_PER_10S * (1 + floor((T - t0) / 10000))]. *)
Theorem message_flood_bound (cfg : Ws.Config) (i : string) (c : Ws.ConnCtx) (st : Ws.State)
    (evs : list (Z * (nat -> string) * Ws.Event)) (T : Z) :
  Ws.ctxs st !! i = Some c ->
  0 < TokenBucket.refillEveryMs (Ws.msgBucket c) ->
  0 <= TokenBucket.refillTokens (Ws.msgBucket c) ->
  0 <= TokenBucket.tokens (TokenBucket.state (Ws.msgBucket c))
    <= TokenBucket.capacity (Ws.msgBucket c) ->
  Trace.admissible_run cfg evs st -> Forall (fun e => fst (fst e) <= T) evs ->
  Flood.admitted cfg i evs st <=
    TokenBucket.tokens (TokenBucket.state (Ws.msgBucket c)) +
    TokenBucket.refillTokens (Ws.msgBucket c) *
      Z.max 0 ((T - TokenBucket.lastRefillMs (TokenBucket.state (Ws.msgBucket c)))
               / TokenBucket.refillEveryMs (Ws.msgBucket c)).
Proof.
  intros Hc He Hr Ht Hadm Hall.
  by apply (admitted_potential cfg i evs st c T).
Qed.

Lemma message_flood_bound_witness :
  let st := Ws.step Scenario.cfg 1000 (Scenario.rnd "1") (Ws.EvConnect "connA" "10.0.0.1")
              (Ws.init Scenario.cfg) in
  let ping := Scenario.frame "PING" (JSON.Obj []) in
  let evs := [(2000, Scenario.rnd "2", Ws.EvMessage "connA" ping);
              (3000, Scenario.rnd "3", Ws.EvMessage "connA" ping)] in
  Flood.admitted Scenario.cfg "connA" evs st <= 200 + 200 * Z.max 0 ((3000 - 1000) / 10000).
Proof.
  intros st ping evs.
  assert (exists c, Ws.ctxs st !! "connA" = Some c /\
            Ws.msgBucket c = TokenBucket.new 200 200 10000 1000) as (c & Hc & Hb).
  { eexists. split; [vm_compute; reflexivity|]. vm_compute. reflexivity. }
  pose proof (message_flood_bound Scenario.cfg "connA" c st evs 3000 Hc) as H.
  rewrite Hb in H. apply H.
  - simpl. lia.
  - simpl. lia.
  - simpl. lia.
  - vm_compute. repeat split.
  - repeat (apply List.Forall_cons; [simpl; lia|]). apply List.Forall_nil.
Defined.

(** ** A parsed frame holds no more text than the frame *)

Section JsonSizeFacts.
Import JSON JsonSize.
Local Open Scope nat_scope.

Lemma length_append (a b : string) :
  String.length (a ++ b) = String.length a + String.length b.
Proof.
  induction a as [|c a IH]; [done|].
  change (String c a ++ b)%string with (String c (a ++ b)%string). cbn. by rewrite IH.
Qed.

Lemma substring_length_le n m s : String.length (substring n m s) <= m.
Proof.
  revert n m. induction s as [|c s IH]; intros [|n] [|m]; cbn; try lia.
  - specialize (IH 0 m). lia.
  - apply (IH n 0).
  - apply (IH n (S m)).
Qed.

Lemma skip_ws_length s : String.length (skip_ws s) <= String.length s.
Proof.
  induction s as [|c s IH]; [done|]. cbn. destruct (is_ws c); cbn; lia.
Qed.

Lemma utf8_length cp : String.length (utf8 cp) <= 3.
Proof. unfold utf8. repeat case_match; cbn; lia. Qed.

Lemma parse_chars_length_aux n s str rest :
  String.length s <= n -> parse_chars s = Some (str, rest) ->
  String.length str + String.length rest < String.length s.
Proof.
  revert s str rest. induction n as [|n IH]; intros s str rest Hn.
  { destruct s; [done|cbn in Hn; lia]. }
  destruct s as [|c r]; [done|]. cbn [parse_chars]. cbn in Hn.
  destruct (c =? dq)%char; [intros [= <- <-]; cbn; lia|].
  destruct (c =? bs)%char.
  - destruct r as [|e r1]; [done|]. cbn in Hn.
    destruct (e =? "u")%char.
    + destruct r1 as [|h1 [|h2 [|h3 [|h4 r2]]]]; try done. cbn in Hn.
      destruct (hexval h1) as [a|]; [|done]. destruct (hexval h2) as [b|]; [|done].
      destruct (hexval h3) as [c1|]; [|done]. destruct (hexval h4) as [d|]; [|done].
      destruct (parse_chars r2) as [[s' rest']|] eqn:E; [|done]. cbn [prepend].
      intros [= <- <-]. apply IH in E; [|lia].
      rewrite length_append. pose proof (utf8_length (((a * 16 + b) * 16 + c1) * 16 + d)%N).
      cbn [String.length]. lia.
    + destruct (unescape e) as [x|]; [|done].
      destruct (parse_chars r1) as [[s' rest']|] eqn:E; [|done]. cbn [prepend].
      intros [= <- <-]. apply IH in E; [|lia]. rewrite length_append. cbn [String.length]. lia.
  - destruct (N_of_ascii c <? 32)%N; [done|].
    destruct (parse_chars r) as [[s' rest']|] eqn:E; [|done]. cbn [prepend].
    intros [= <- <-]. apply IH in E; [|lia]. rewrite length_append. cbn [String.length]. lia.
Qed.

Lemma parse_chars_length s str rest :
  parse_chars s = Some (str, rest) ->
  String.length str + String.length rest < String.length s.
Proof. by apply (parse_chars_length_aux (String.length s)). Qed.

Lemma read_digits_length s : String.length (snd (read_digits s)) <= String.length s.
Proof.
  induction s as [|c s IH]; [done|]. cbn [read_digits].
  destruct (digit c) as [dg|]; [|done]. destruct (read_digits s) as [u0 rest0]. cbn in *. lia.
Qed.

Lemma read_fraction_length s f rest :
  read_fraction s = Some (f, rest) -> String.length rest <= String.length s.
Proof.
  unfold read_fraction. destruct s as [|c r]; [by intros [= _ <-]|].
  destruct (c =? ".")%char; [|by intros [= _ <-]].
  pose proof (read_digits_length r) as H. destruct (read_digits r) as [u rest'].
  destruct (is_nil u); [done|]. intros [= _ <-]. cbn in *. lia.
Qed.

Lemma read_exponent_length s e rest :
  read_exponent s = Some (e, rest) -> String.length rest <= String.length s.
Proof.
  unfold read_exponent. destruct s as [|c r]; [by intros [= _ <-]|].
  destruct (_ || _)%char; [|by intros [= _ <-]].
  assert (forall neg r1,
            String.length r1 <= String.length r ->
            (let '(e0, rest0) := read_digits r1 in
             if is_nil e0 then None
             else Some (Some (if neg : bool then (- Z.of_uint e0)%Z else Z.of_uint e0), rest0))
              = Some (e, rest) ->
            String.length rest <= String.length (String c r)) as Haux.
  { intros neg r1 Hr1. pose proof (read_digits_length r1) as H.
    destruct (read_digits r1) as [u rest']. destruct (is_nil u); [done|].
    intros [= _ <-]. cbn in *. lia. }
  destruct r as [|sg r']; [by apply (Haux false EmptyString)|].
  destruct (sg =? "-")%char; [apply (Haux true r'); cbn; lia|].
  destruct (sg =? "+")%char; [apply (Haux false r'); cbn; lia|].
  apply (Haux false (String sg r')); cbn; lia.
Qed.

Lemma parse_number_length s v rest :
  parse_number s = Some (v, rest) ->
  weight v = 0 /\ String.length rest <= String.length s.
Proof.
  unfold parse_number.
  assert (forall neg s1,
            String.length s1 <= String.length s ->
            (let '(u, s2) := read_digits s1 in
             if is_nil u || leading_zero u then None
             else match read_fraction s2 with
                  | None => None
                  | Some (f, s3) =>
                      match read_exponent s3 with
                      | None => None
                      | Some (ex, s4) =>
                          let sign := (if neg : bool then (-1) else 1)%Z in
                          let m := Z.of_uint (Decimal.app u f) in
                          let e10 := (default 0 ex - Z.of_nat (Decimal.nb_digits f))%Z in
                          let lit := substring 0 (String.length s - String.length s4) s in
                          if (0 <=? e10)%Z then Some (Num (sign * m * 10 ^ e10), s4)
                          else if (m mod 10 ^ (- e10) =? 0)%Z
                               then Some (Num (sign * (m / 10 ^ (- e10))), s4)
                               else Some (Frac lit, s4)
                      end
                  end) = Some (v, rest) ->
            weight v = 0 /\ String.length rest <= String.length s) as Haux.
  { intros neg s1 Hs1. pose proof (read_digits_length s1) as H1.
    destruct (read_digits s1) as [u s2]. cbn [snd] in H1.
    destruct (_ || _); [done|].
    destruct (read_fraction s2) as [[f s3]|] eqn:E2; [|done].
    apply read_fraction_length in E2.
    destruct (read_exponent s3) as [[ex s4]|] eqn:E3; [|done].
    apply read_exponent_length in E3. cbv zeta.
    repeat case_match; intros [= <- <-]; (split; [done|lia]). }
  destruct s as [|c r]; [by apply (Haux false EmptyString)|].
  destruct (c =? "-")%char; [apply (Haux true r); cbn; lia|].
  apply (Haux false (String c r)); cbn; lia.
Qed.

Lemma strip_prefix_length p s r :
  strip_prefix p s = Some r -> String.length r <= String.length s.
Proof.
  unfold strip_prefix. destruct (String.prefix p s); [|done]. intros [= <-].
  pose proof (substring_length_le (String.length p) (String.length s - String.length p) s).
  lia.
Qed.

Lemma parse_scalar_length s v rest :
  parse_scalar s = Some (v, rest) ->
  weight v = 0 /\ String.length rest <= String.length s.
Proof.
  unfold parse_scalar.
  destruct (strip_prefix "true" s) as [r|] eqn:E1.
  { intros [= <- <-]. split; [done|]. by apply (strip_prefix_length "true"). }
  destruct (strip_prefix "false" s) as [r|] eqn:E2.
  { intros [= <- <-]. split; [done|]. by apply (strip_prefix_length "false"). }
  destruct (strip_prefix "null" s) as [r|] eqn:E3.
  { intros [= <- <-]. split; [done|]. by apply (strip_prefix_length "null"). }
  apply parse_number_length.
Qed.

Lemma parser_length n :
  (forall s v rest, parse_value n s = Some (v, rest) ->
     weight v + String.length rest <= String.length s) /\
  (forall acc s v rest, parse_members n acc s = Some (v, rest) ->
     weight v + String.length rest <= members_weight acc + String.length s) /\
  (forall acc s v rest, parse_elements n acc s = Some (v, rest) ->
     weight v + String.length rest <= elements_weight acc + String.length s).
Proof.
  induction n as [|n (IHv & IHm & IHe)]; [done|].
  split; [|split].
  - intros s v rest. cbn [parse_value].
    pose proof (skip_ws_length s) as Hs.
    destruct (skip_ws s) as [|c r]; [done|]. cbn in Hs.
    destruct (c =? "{")%char.
    { pose proof (skip_ws_length r) as Hr.
      destruct (skip_ws r) as [|c1 r1]; [done|]. cbn in Hr.
      destruct (c1 =? "}")%char; [intros [= <- <-]; cbn; lia|].
      intros H. apply IHm in H. unfold members_weight in H. cbn in H. lia. }
    destruct (c =? "[")%char.
    { pose proof (skip_ws_length r) as Hr.
      destruct (skip_ws r) as [|c1 r1]; [done|]. cbn in Hr.
      destruct (c1 =? "]")%char; [intros [= <- <-]; cbn; lia|].
      intros H. apply IHe in H. unfold elements_weight in H. cbn in H. lia. }
    destruct (c =? dq)%char.
    { destruct (parse_chars r) as [[str rest']|] eqn:E; [|done].
      intros [= <- <-]. apply parse_chars_length in E. cbn. lia. }
    intros H. apply parse_scalar_length in H as [H1 H2]. cbn in H2. lia.
  - intros acc s v rest. cbn [parse_members].
    pose proof (skip_ws_length s) as Hs.
    destruct (skip_ws s) as [|c r]; [done|]. cbn in Hs.
    destruct (c =? dq)%char; [|done].
    destruct (parse_chars r) as [[k r1]|] eqn:E; [|done].
    apply parse_chars_length in E.
    pose proof (skip_ws_length r1) as Hr1.
    destruct (skip_ws r1) as [|c2 r2]; [done|]. cbn in Hr1.
    destruct (c2 =? ":")%char; [|done].
    destruct (parse_value n r2) as [[v0 r3]|] eqn:Ev; [|done].
    apply IHv in Ev.
    pose proof (skip_ws_length r3) as Hr3.
    destruct (skip_ws r3) as [|c4 r4]; [done|]. cbn in Hr3.
    assert (members_weight (acc ++ [(k, v0)]) = members_weight acc + weight v0) as Hw.
    { unfold members_weight. rewrite List.map_app, list_sum_app. cbn. lia. }
    destruct (c4 =? ",")%char.
    { intros H. apply IHm in H. rewrite Hw in H. lia. }
    destruct (c4 =? "}")%char; [|done].
    intros [= <- <-]. change (weight (Obj (acc ++ [(k, v0)])))
      with (members_weight (acc ++ [(k, v0)])). rewrite Hw. lia.
  - intros acc s v rest. cbn [parse_elements].
    destruct (parse_value n s) as [[v0 r3]|] eqn:Ev; [|done].
    apply IHv in Ev.
    pose proof (skip_ws_length r3) as Hr3.
    destruct (skip_ws r3) as [|c4 r4]; [done|]. cbn in Hr3.
    assert (elements_weight (acc ++ [v0]) = elements_weight acc + weight v0) as Hw.
    { unfold elements_weight. rewrite List.map_app, list_sum_app. cbn. lia. }
    destruct (c4 =? ",")%char.
    { intros H. apply IHe in H. rewrite Hw in H. lia. }
    destruct (c4 =? "]")%char; [|done].
    intros [= <- <-]. change (weight (Arr (acc ++ [v0])))
      with (elements_weight (acc ++ [v0])). rewrite Hw. lia.
Qed.

Lemma parse_weight raw v : parse raw = Some v -> weight v <= String.length raw.
Proof.
  unfold parse. destruct (parse_value _ raw) as [[v0 rest]|] eqn:E; [|done].
  apply (proj1 (parser_length _)) in E.
  destruct (skip_ws rest); [|done]. intros [= <-]. lia.
Qed.

Lemma list_sum_elem x l : In x l -> x <= list_sum l.
Proof.
  induction l as [|y l IH]; [done|]. change (list_sum (y :: l)) with (y + list_sum l).
  intros [->|H]; [lia|]. apply IH in H. lia.
Qed.

Lemma prop_weight k v w : prop k v = Some w -> weight w <= weight v.
Proof.
  destruct v as [| | | | |l|l]; try done. unfold prop.
  destruct (last _) as [[k0 w0]|] eqn:E; [|done]. cbn. intros [= <-].
  apply last_Some_elem_of, list_elem_of_filter in E as [_ Hin].
  apply list_elem_of_In in Hin.
  apply list_sum_elem. apply List.in_map_iff. by exists (k0, w0).
Qed.

Lemma chunk_strings_weight l ch :
  WsTypes.chunk_strings l = Some ch ->
  list_sum (List.map String.length ch) = weight (Arr l).
Proof.
  revert ch. induction l as [|x l IH]; intros ch; cbn [WsTypes.chunk_strings].
  - by intros [= <-].
  - destruct x as [| | | |s| |]; try done.
    destruct (JoinTokens.is_empty s); [done|].
    destruct (WsTypes.chunk_strings l) as [t|]; [|done]. intros [= <-].
    specialize (IH t eq_refl).
    change (list_sum (List.map String.length (s :: t)))
      with (String.length s + list_sum (List.map String.length t)).
    change (weight (Arr (Str s :: l))) with (String.length s + weight (Arr l)).
    by rewrite IH.
Qed.

Lemma totalChunkBytes_sum chunks :
  totalChunkBytes chunks = Z.of_nat (list_sum (List.map String.length chunks)).
Proof.
  unfold totalChunkBytes.
  assert (forall a, foldl (fun acc c => (acc + Z.of_nat (String.length c))%Z) a chunks =
                    (a + Z.of_nat (list_sum (List.map String.length chunks)))%Z) as H.
  { induction chunks as [|c r IH]; intros a; [cbn; lia|].
    change (list_sum (List.map String.length (c :: r)))
      with (String.length c + list_sum (List.map String.length r)).
    cbn [foldl]. rewrite IH. lia. }
  by rewrite H.
Qed.

Lemma parsed_media_size raw room mime size chunkSize chunks :
  WsTypes.parseClientMsg raw = Some (WsTypes.MediaMsg room mime size chunkSize chunks) ->
  (totalChunkBytes chunks <= Z.of_nat (String.length raw))%Z.
Proof.
  unfold WsTypes.parseClientMsg. destruct (parse raw) as [v|] eqn:Ep; [|done]. cbn.
  apply parse_weight in Ep. unfold WsTypes.parseClientValue, WsTypes.WsEnvelopeSchema.
  destruct v as [| | | | | |l]; try done.
  destruct (prop "v" (Obj l)) as [[| |[|[| |]|]| | | |]|]; try done.
  destruct (prop "t" (Obj l)) as [[| | | |t| |]|]; try done.
  destruct (WsTypes.str_field 8 256 "id" (Obj l)); [|done].
  destruct (prop "body" (Obj l)) as [body|] eqn:Eb; [|done].
  apply prop_weight in Eb.
  destruct (String.eqb t "ROOM_CREATE").
  { unfold WsTypes.EmptyBodySchema. by destruct (WsTypes.is_object body). }
  destruct (String.eqb t "JOIN_REQUEST").
  { unfold WsTypes.JoinRequestSchema. repeat (case_match; try done). }
  destruct (String.eqb t "LEAVE").
  { unfold WsTypes.LeaveSchema. repeat (case_match; try done). }
  destruct (String.eqb t "APP_MSG").
  { unfold WsTypes.AppMsgSchema. repeat (case_match; try done). }
  destruct (String.eqb t "MEDIA_MSG").
  2:{ destruct (String.eqb t "PING"); [|done].
      unfold WsTypes.EmptyBodySchema. by destruct (WsTypes.is_object body). }
  unfold WsTypes.MediaMsgSchema.
  destruct (negb _); [done|].
  destruct (WsTypes.str_field 8 128 "roomId" body); [|done].
  destruct (WsTypes.str_field 0 128 "mime" body); [|done].
  destruct (prop "size" body ≫= WsTypes.coerce_int); [|done].
  destruct (prop "chunkSize" body ≫= WsTypes.coerce_int); [|done].
  destruct (prop "chunks" body) as [[| | | | |cl|]|] eqn:Ec; try done.
  apply prop_weight in Ec.
  destruct (WsTypes.chunk_strings cl) as [ch|] eqn:Ech; [|done].
  apply chunk_strings_weight in Ech.
  destruct (_ && _); [|done]. intros [= _ _ _ _ <-].
  rewrite totalChunkBytes_sum. lia.
Qed.
End JsonSizeFacts.



(** ** Health checks *)

Section HealthFacts.
#[local] Set Warnings "-clear-no-such-hyp".

Lemma health_cases (startTime now : Z) (p : HealthChecker.Ping)
    (heapUsedMB heapTotalMB heapUsagePercent percent currentConnections : Z) :
  let r := HealthChecker.checkHealth startTime now p heapUsedMB heapTotalMB heapUsagePercent
             percent currentConnections in
  HealthChecker.status (HealthChecker.memory r) <> HealthChecker.fail /\
  (HealthChecker.healthStatusCode r = 503 <-> exists m, p = HealthChecker.Throws m) /\
  (HealthChecker.healthStatusCode r = 503 <-> HealthChecker.readyStatusCode p = 503) /\
  (HealthChecker.overall r = HealthChecker.healthy <->
   (exists latency, p = HealthChecker.Pong latency /\ latency <= 1000) /\
   heapUsagePercent <= 80 /\ percent <= 90).
Proof.
  cbv zeta. unfold HealthChecker.checkHealth. cbv zeta.
  set (rh := HealthChecker.checkRedis p).
  set (mh := HealthChecker.checkMemory heapUsedMB heapTotalMB heapUsagePercent).
  set (ch := HealthChecker.checkConnections percent currentConnections).
  assert (HealthChecker.status mh = HealthChecker.pass /\ heapUsagePercent <= 80 \/
          HealthChecker.status mh = HealthChecker.warn /\ 80 < heapUsagePercent) as Hm.
  { unfold mh, HealthChecker.checkMemory.
    destruct (Z.ltb_spec 80 heapUsagePercent); [by right|].
    destruct (Z.ltb_spec 95 heapUsagePercent); [lia|by left]. }
  assert (HealthChecker.status ch = HealthChecker.pass /\ percent <= 90 \/
          HealthChecker.status ch = HealthChecker.warn /\ 90 < percent) as Hc.
  { unfold ch, HealthChecker.checkConnections.
    destruct (Z.ltb_spec 90 percent); [by right|by left]. }
  assert ((exists l, p = HealthChecker.Pong l /\ l <= 1000 /\
                     HealthChecker.status rh = HealthChecker.pass) \/
          (exists l, p = HealthChecker.Pong l /\ 1000 < l /\
                     HealthChecker.status rh = HealthChecker.warn) \/
          (exists m, p = HealthChecker.Throws m /\
                     HealthChecker.status rh = HealthChecker.fail)) as Hr.
  { unfold rh. destruct p as [l|m]; cbn.
    - destruct (Z.ltb_spec 1000 l); [right; left|left]; by exists l.
    - right. right. by exists m. }
  unfold HealthChecker.healthStatusCode, HealthChecker.readyStatusCode.
  cbn [HealthChecker.overall HealthChecker.memory forallb existsb].
  unfold HealthChecker.is_pass, HealthChecker.is_fail.
  clearbody rh mh ch.
  split; [destruct Hm as [[-> _]|[-> _]]; done|].
  destruct Hr as [(l & -> & Hl & ->)|[(l & -> & Hl & ->)|(m & -> & ->)]];
    destruct Hm as [[-> Hm]|[-> Hm]]; destruct Hc as [[-> Hc]|[-> Hc]]; cbn;
    naive_solver lia.
Qed.
End HealthFacts.

(** X27.  Memory pressure never makes the service unhealthy: the test
    for more than 80 % comes before the test for more than 95 %, so
    [checkMemory] never reports [fail].  [GET /health] therefore answers
    503 exactly when the Redis ping throws, which is also exactly when
    [GET /ready] answers 503; the overall status is [healthy] exactly
    when the ping took at most a second, the heap is at most 80 % used
    and at most 90 % of the connection ceiling is in use. *)
Theorem health_unhealthy_iff_redis_down (startTime now : Z) (p : HealthChecker.Ping)
    (heapUsedMB heapTotalMB heapUsagePercent percent currentConnections : Z) :
  let r := HealthChecker.checkHealth startTime now p heapUsedMB heapTotalMB heapUsagePercent
             percent currentConnections in
  HealthChecker.status (HealthChecker.memory r) <> HealthChecker.fail /\
  (HealthChecker.healthStatusCode r = 503 <-> exists m, p = HealthChecker.Throws m) /\
  (HealthChecker.healthStatusCode r = 503 <-> HealthChecker.readyStatusCode p = 503) /\
  (HealthChecker.overall r = HealthChecker.healthy <->
   (exists latency, p = HealthChecker.Pong latency /\ latency <= 1000) /\
   heapUsagePercent <= 80 /\ percent <= 90).
Proof. apply health_cases. Qed.

(** ** Parsed messages are within the bounds of their schemas *)

Section BoundsFacts.
Import WsTypes Bounds.

Lemma str_field_bounds lo hi k o s :
  str_field lo hi k o = Some s -> lo <= len s <= hi.
Proof.
  unfold str_field, in_range, len. destruct (JSON.prop k o) as [[| | | |s0| |]|]; try done.
  destruct (Z.leb_spec lo (Z.of_nat (String.length s0))); [|done].
  destruct (Z.leb_spec (Z.of_nat (String.length s0)) hi); [|done].
  intros [= <-]. lia.
Qed.

Lemma opt_str_field_bounds lo hi k o r :
  opt_str_field lo hi k o = Some r -> within lo hi r.
Proof.
  unfold opt_str_field, in_range, within, len.
  destruct (JSON.prop k o) as [[| | | |s0| |]|]; try done.
  - destruct (Z.leb_spec lo (Z.of_nat (String.length s0))); [|done].
    destruct (Z.leb_spec (Z.of_nat (String.length s0)) hi); [|done].
    intros [= <-] s [= <-]. lia.
  - by intros [= <-] s.
Qed.

Lemma chunk_strings_bounds l ch :
  chunk_strings l = Some ch -> length ch = length l /\ Forall (fun c => 1 <= len c) ch.
Proof.
  revert ch. induction l as [|x l IH]; intros ch; cbn [chunk_strings].
  - intros [= <-]. by split.
  - destruct x as [| | | |s| |]; try done.
    destruct (JoinTokens.is_empty s) eqn:Es; [done|].
    destruct (chunk_strings l) as [t|]; [|done]. intros [= <-].
    destruct (IH t eq_refl) as [H1 H2]. split; [cbn; by rewrite H1|].
    constructor; [|done]. destruct s; [done|]. unfold len. cbn. lia.
Qed.

Lemma truthy_is_Some o : truthy o = true -> is_Some o.
Proof. destruct o; [by eexists|done]. Qed.

Lemma JoinRequestSchema_bounds body msg :
  JoinRequestSchema body = Some msg -> within_bounds msg.
Proof.
  unfold JoinRequestSchema. destruct (negb _); [done|].
  destruct (str_field 8 128 "roomId" body) as [r|] eqn:Er; [|done].
  destruct (opt_str_field 8 2048 "token" body) as [tk|] eqn:Et; [|done].
  destruct (opt_str_field 8 2048 "qrToken" body) as [qr|] eqn:Eq; [|done].
  destruct (opt_str_field 1 32 "label" body) as [lb|] eqn:El; [|done].
  destruct (truthy tk || truthy qr) eqn:Eor; [|done]. intros [= <-]. cbn.
  split; [by apply (str_field_bounds _ _ _ _ _ Er)|].
  split; [by apply (opt_str_field_bounds _ _ _ _ _ Et)|].
  split; [by apply (opt_str_field_bounds _ _ _ _ _ Eq)|].
  split; [by apply (opt_str_field_bounds _ _ _ _ _ El)|].
  apply orb_true_iff in Eor as [H|H]; [left|right]; by apply truthy_is_Some.
Qed.

Lemma MediaMsgSchema_bounds body msg :
  MediaMsgSchema body = Some msg -> within_bounds msg.
Proof.
  unfold MediaMsgSchema. destruct (negb _); [done|].
  destruct (str_field 8 128 "roomId" body) as [r|] eqn:Er; [|done].
  destruct (str_field 0 128 "mime" body) as [m|] eqn:Em; [|done].
  destruct (JSON.prop "size" body ≫= coerce_int) as [sz|]; [|done].
  destruct (JSON.prop "chunkSize" body ≫= coerce_int) as [cs|]; [|done].
  destruct (JSON.prop "chunks" body) as [[| | | | |cl|]|]; try done.
  destruct (chunk_strings cl) as [ch|] eqn:Ech; [|done].
  destruct (Z.leb_spec 1 sz); [|done]. destruct (Z.leb_spec sz 10485760); [|done].
  destruct (Z.leb_spec 1024 cs); [|done].
  destruct (Nat.leb_spec 1 (length cl)); [|done].
  destruct (Nat.leb_spec (length cl) 128); [|done].
  cbn [andb]. intros [= <-]. cbn.
  apply chunk_strings_bounds in Ech as [Hlen Hall].
  apply str_field_bounds in Er, Em. rewrite Hlen. repeat split; try done; lia.
Qed.

Lemma parseClientValue_bounds v msg : parseClientValue v = Some msg -> within_bounds msg.
Proof.
  unfold parseClientValue. destruct (WsEnvelopeSchema v) as [[t [body|]]|]; try done.
  destruct (String.eqb t "ROOM_CREATE").
  { unfold EmptyBodySchema. destruct (is_object body); [|done]. by intros [= <-]. }
  destruct (String.eqb t "JOIN_REQUEST"); [apply JoinRequestSchema_bounds|].
  destruct (String.eqb t "LEAVE").
  { unfold LeaveSchema. destruct (negb _); [done|].
    destruct (str_field 8 128 "roomId" body) as [r|] eqn:Er; [|done].
    intros [= <-]. by apply (str_field_bounds _ _ _ _ _ Er). }
  destruct (String.eqb t "APP_MSG").
  { unfold AppMsgSchema. destruct (negb _); [done|].
    destruct (str_field 8 128 "roomId" body) as [r|] eqn:Er; [|done].
    destruct (str_field 1 200000 "ciphertextB64" body) as [c|] eqn:Ec; [|done].
    intros [= <-]. split; [by apply (str_field_bounds _ _ _ _ _ Er)|].
    by apply (str_field_bounds _ _ _ _ _ Ec). }
  destruct (String.eqb t "MEDIA_MSG"); [apply MediaMsgSchema_bounds|].
  destruct (String.eqb t "PING"); [|done].
  unfold EmptyBodySchema. destruct (is_object body); [|done]. by intros [= <-].
Qed.
End BoundsFacts.



(** ** Frames that are turned away *)

Section Rejections.
Import Ws.
Variable cfg : Config.

(** The state after the socket of [i] was closed by the server, the
    buckets of [i] being [mb] and [bb]. *)
Lemma closed_state st i ctx code reason mb bb st1 :
  ctxs st !! i = Some ctx -> readyState (ws ctx) = OPEN ->
  ctxs st1 = <[i := set_bytesBucket bb (set_msgBucket mb ctx)]> (ctxs st) ->
  store st1 = store st -> localRooms st1 = localRooms st ->
  let st' := close_ctx i code reason st1 in
  (exists c', ctxs st' !! i = Some c' /\ closed (ws c') = Some (code, reason) /\
     readyState (ws c') = CLOSING /\ msgBucket c' = mb /\ bytesBucket c' = bb) /\
  store st' = store st /\ localRooms st' = localRooms st /\
  (forall j, outbox j st' = outbox j st).
Proof.
  intros Hc Ho H1 H2 H3. cbv zeta. unfold close_ctx. split; [|split; [done|split; [done|]]].
  - cbn. rewrite lookup_alter_eq, H1, lookup_insert_eq. cbn. eexists. split; [done|].
    unfold ws_close. cbn. rewrite Ho. done.
  - intros j. unfold outbox. cbn. rewrite lookup_alter, H1.
    destruct (decide (i = j)) as [<-|Hne].
    + rewrite lookup_insert_eq, Hc. cbn. unfold ws_close. cbn. by rewrite Ho.
    + by rewrite lookup_insert_ne.
Qed.

Lemma upd_twice st i ctx mb bb :
  ctxs st !! i = Some ctx ->
  ctxs (upd_ctx i (set_bytesBucket bb) (upd_ctx i (set_msgBucket mb) st)) =
    <[i := set_bytesBucket bb (set_msgBucket mb ctx)]> (ctxs st).
Proof.
  intros Hc. cbn. apply map_eq. intros j. rewrite !lookup_alter.
  destruct (decide (i = j)) as [<-|Hne].
  - rewrite lookup_insert_eq, Hc. rewrite ?decide_True by done. done.
  - rewrite lookup_insert_ne by done. rewrite ?decide_False by done. done.
Qed.

Lemma upd_once st i ctx mb :
  ctxs st !! i = Some ctx ->
  ctxs (upd_ctx i (set_msgBucket mb) st) =
    <[i := set_bytesBucket (bytesBucket ctx) (set_msgBucket mb ctx)]> (ctxs st).
Proof.
  intros Hc. cbn. apply map_eq. intros j. rewrite !lookup_alter.
  destruct (decide (i = j)) as [<-|Hne].
  - rewrite lookup_insert_eq, Hc. rewrite ?decide_True by done. by destruct ctx.
  - rewrite lookup_insert_ne by done. rewrite ?decide_False by done. done.
Qed.

Lemma upd_none st i ctx :
  ctxs st !! i = Some ctx ->
  ctxs st =
    <[i := set_bytesBucket (bytesBucket ctx) (set_msgBucket (msgBucket ctx) ctx)]> (ctxs st).
Proof. intros Hc. symmetry. apply insert_id. rewrite Hc. by destruct ctx. Qed.
End Rejections.


